(** * Lattice generation pipeline: a shallow embedding and its properties

    The engine of the repository (packages/engine/src: plugin.ts, context.ts,
    policy.ts, renderer.ts, config.ts) is a synchronous, in-memory
    computation.  This development embeds it in Gallina:

    - the JavaScript containers the code relies on ([Set], [Map], plain
      objects, [Array.prototype.sort], [Buffer] <-> string conversion,
      [JSON.stringify], SHA-256) are modelled in the first part;
    - the engine's own functions follow, one definition per source function
      and under the source's names;
    - the properties come last.

    Strings are Rocq [string]s: every character stands for one UTF-16 code
    unit below 256.  Byte buffers are lists of [Z]. *)

From Stdlib Require Import ZArith NArith String Ascii Bool Lia Permutation Sorted Uint63 List.
Import ListNotations.

Set Implicit Arguments.

(* ================================================================== *)
(** * Part I.  The JavaScript runtime, as far as the engine uses it   *)
(* ================================================================== *)

Definition Buffer : Type := list Z.

(** ** Exceptions

    Every failure of the engine is a thrown [Error]; the constructors keep
    the data the message is built from, [Exn_message] builds the text. *)

Inductive Exn : Type :=
| DuplicatePluginId (id : string)
| DependencyCycles (cycleErrors : list string)
| DependencyErrors (cycleErrors : list string)
| MissingDependencies (missingDeps : list string)
| PluginNotFound (pluginId : string)
| FileConflict (path : string) (writers : list string)
| PluginApplyFailure (message : string).

(** The outcome of a call: a value, a thrown exception, or the model's
    recursion budget exhausted (shown below never to happen). *)
Inductive Result (A : Type) : Type :=
| Ok (a : A)
| Throw (e : Exn)
| OutOfFuel.

Arguments Ok {A} a.
Arguments Throw {A} e.
Arguments OutOfFuel {A}.

Definition bind {A B : Type} (r : Result A) (k : A -> Result B) : Result B :=
  match r with
  | Ok a => k a
  | Throw e => Throw e
  | OutOfFuel => OutOfFuel
  end.

Notation "x <- r ;; k" := (bind r (fun x => k))
  (at level 61, r at next level, right associativity).

(** [for (const x of l) body(x)] over a threaded state. *)
Fixpoint for_each {St A : Type} (body : A -> St -> Result St) (l : list A) (st : St)
    : Result St :=
  match l with
  | [] => Ok st
  | x :: rest => st' <- body x st ;; for_each body rest st'
  end.

(** ** Strings *)

Definition code_unit (c : ascii) : Z := Z.of_N (N_of_ascii c).

Definition LF : string := String (ascii_of_nat 10) EmptyString.

Fixpoint join (sep : string) (l : list string) : string :=
  match l with
  | [] => EmptyString
  | [x] => x
  | x :: rest => (x ++ sep ++ join sep rest)%string
  end.

Definition Exn_message (e : Exn) : string :=
  match e with
  | DuplicatePluginId id => "Plugin " ++ id ++ " is already registered"
  | DependencyCycles cycleErrors => "Plugin dependency cycles:" ++ LF ++ join LF cycleErrors
  | DependencyErrors cycleErrors => "Plugin dependency errors:" ++ LF ++ join LF cycleErrors
  | MissingDependencies missingDeps =>
      "Missing plugin dependencies:" ++ LF ++ join LF missingDeps
  | PluginNotFound pluginId => "Plugin " ++ pluginId ++ " not found in registry"
  | FileConflict path writers =>
      "File conflict: " ++ path ++ " is written by multiple plugins: " ++ join ", " writers
  | PluginApplyFailure message => message
  end%string.

(** ** Array.prototype.indexOf and slice(start) *)

Fixpoint indexOf_from (l : list string) (x : string) (i : Z) : Z :=
  match l with
  | [] => (-1)%Z
  | y :: rest => if String.eqb y x then i else indexOf_from rest x (i + 1)%Z
  end.

Definition Array_indexOf (l : list string) (x : string) : Z := indexOf_from l x 0%Z.

Definition Array_slice {A : Type} (l : list A) (start : Z) : list A :=
  let len := Z.of_nat (List.length l) in
  let k := if (start <? 0)%Z then Z.max (len + start) 0 else Z.min start len in
  skipn (Z.to_nat k) l.

(** ** Array.prototype.sort

    The sort is stable, so for a comparator that is a total preorder the
    result is the one stable arrangement; insertion from the right computes
    it.  A comparator returns a negative number, zero or a positive number:
    a [comparison]. *)

Fixpoint sort_insert {A : Type} (cmp : A -> A -> comparison) (x : A) (l : list A) : list A :=
  match l with
  | [] => [x]
  | y :: rest =>
      match cmp x y with
      | Gt => y :: sort_insert cmp x rest
      | _ => x :: l
      end
  end.

Definition Array_sort {A : Type} (cmp : A -> A -> comparison) (l : list A) : list A :=
  fold_right (sort_insert cmp) [] l.

(** [sort()] without a comparator orders strings by code units. *)
Definition default_compare : string -> string -> comparison := String.compare.

(** ** Set: membership with insertion order *)

Definition Set_has (s : list string) (x : string) : bool :=
  existsb (String.eqb x) s.

Definition Set_add (s : list string) (x : string) : list string :=
  if Set_has s x then s else s ++ [x].

Definition Set_delete (s : list string) (x : string) : list string :=
  filter (fun y => negb (String.eqb x y)) s.

Definition Set_from (l : list string) : list string :=
  fold_left Set_add l [].

(** ** Map and plain objects: string-keyed tables in insertion order.
    Writing an existing key keeps its position. *)

Definition Dict (V : Type) : Type := list (string * V).

Fixpoint dict_get {V : Type} (d : Dict V) (k : string) : option V :=
  match d with
  | [] => None
  | (k', v) :: rest => if String.eqb k k' then Some v else dict_get rest k
  end.

Definition dict_has {V : Type} (d : Dict V) (k : string) : bool :=
  match dict_get d k with Some _ => true | None => false end.

Fixpoint dict_set {V : Type} (d : Dict V) (k : string) (v : V) : Dict V :=
  match d with
  | [] => [(k, v)]
  | (k', v') :: rest =>
      if String.eqb k k' then (k', v) :: rest else (k', v') :: dict_set rest k v
  end.

Definition dict_keys {V : Type} (d : Dict V) : list string := map fst d.

(** A plain object lists its array-index keys first, in ascending numeric
    order, then its other string keys in creation order. *)

Definition is_digit (c : ascii) : bool :=
  (48 <=? N_of_ascii c)%N && (N_of_ascii c <=? 57)%N.

Fixpoint digits_value (s : string) (acc : N) : option N :=
  match s with
  | EmptyString => Some acc
  | String c rest =>
      if is_digit c then digits_value rest (10 * acc + (N_of_ascii c - 48))%N
      else None
  end.

Definition array_index (s : string) : option N :=
  match s with
  | EmptyString => None
  | String c rest =>
      if (N_of_ascii c =? 48)%N then
        match rest with EmptyString => Some 0%N | _ => None end
      else
        match digits_value s 0%N with
        | Some n => if (n <? 4294967295)%N then Some n else None
        | None => None
        end
  end.

Definition index_keys (ks : list string) : list (N * string) :=
  flat_map (fun k => match array_index k with Some n => [(n, k)] | None => [] end) ks.

Definition is_index_key (k : string) : bool :=
  match array_index k with Some _ => true | None => false end.

Definition own_keys (ks : list string) : list string :=
  map snd (Array_sort (fun a b => N.compare (fst a) (fst b)) (index_keys ks))
  ++ filter (fun k => negb (is_index_key k)) ks.

Definition Object_keys {V : Type} (o : Dict V) : list string :=
  own_keys (dict_keys o).

Definition Object_entries {V : Type} (o : Dict V) : list (string * V) :=
  flat_map (fun k => match dict_get o k with Some v => [(k, v)] | None => [] end)
           (Object_keys o).

(** ** Plain objects and their prototype

    A plain object ([{}]) is the table of its own properties, and its
    prototype is [Object.prototype].  The names below are the properties of
    [Object.prototype] in a host that has not changed it: [k in o] and
    [o[k]] find them on every plain object.  All are writable data
    properties, so a write makes an own property of the same name; all but
    [__proto__].  That one is an accessor: on an object without an own
    property of that name, [o.__proto__ = v] calls its setter, which makes
    the object [v] the prototype of [o] and creates no property.  The table
    does not show a prototype that has been replaced. *)

Definition Object_prototype_names : list string :=
  [ "constructor"; "__defineGetter__"; "__defineSetter__"; "hasOwnProperty";
    "__lookupGetter__"; "__lookupSetter__"; "isPrototypeOf"; "propertyIsEnumerable";
    "toString"; "valueOf"; "__proto__"; "toLocaleString" ]%string.

(** What [o[k]] evaluates to: the value of an own property, the property of
    that name of [Object.prototype] (a function or an object, never one of
    the table's values), or [undefined]. *)
Inductive Lookup (V : Type) : Type :=
| Own (v : V)
| Inherited (name : string)
| Absent.

Arguments Own {V} v.
Arguments Inherited {V} name.
Arguments Absent {V}.

(** [k in o] *)
Definition Object_has {V : Type} (o : Dict V) (k : string) : bool :=
  dict_has o k || Set_has Object_prototype_names k.

(** [o[k]] *)
Definition Object_get {V : Type} (o : Dict V) (k : string) : Lookup V :=
  match dict_get o k with
  | Some v => Own v
  | None => if Set_has Object_prototype_names k then Inherited k else Absent
  end.

(** [o[k] = v], for a [v] that is an object *)
Definition Object_set {V : Type} (o : Dict V) (k : string) (v : V) : Dict V :=
  if String.eqb k "__proto__" && negb (dict_has o k) then o else dict_set o k v.

(** [delete o[k]] *)
Definition Object_delete {V : Type} (o : Dict V) (k : string) : Dict V :=
  filter (fun kv => negb (String.eqb k (fst kv))) o.

(** [Object.assign(target, source)]: the own properties of the source are
    written to the target one by one. *)
Definition Object_assign {V : Type} (target source : Dict V) : Dict V :=
  fold_left (fun o kv => Object_set o (fst kv) (snd kv)) (Object_entries source) target.

(** ** Buffer <-> string conversion

    [buf.toString('utf-8')] decodes with replacement: every maximal
    ill-formed subsequence becomes U+FFFD.  The decoded text is kept as a
    list of code points.  [Buffer.from(text, 'utf-8')] encodes it again; a
    lone surrogate is written as U+FFFD. *)

Definition Text : Type := list Z.

Record Utf8State : Type := {
  u_cp : Z;
  u_seen : Z;
  u_needed : Z;
  u_lower : Z;
  u_upper : Z
}.

Definition utf8_init : Utf8State :=
  {| u_cp := 0; u_seen := 0; u_needed := 0; u_lower := 0x80; u_upper := 0xBF |}.

Definition utf8_lead (b : Z) : Utf8State * Text :=
  if ((0 <=? b) && (b <=? 0x7F))%Z then (utf8_init, [b])
  else if ((0xC2 <=? b) && (b <=? 0xDF))%Z then
    ({| u_cp := Z.land b 0x1F; u_seen := 0; u_needed := 1;
        u_lower := 0x80; u_upper := 0xBF |}, [])
  else if ((0xE0 <=? b) && (b <=? 0xEF))%Z then
    ({| u_cp := Z.land b 0xF; u_seen := 0; u_needed := 2;
        u_lower := if (b =? 0xE0)%Z then 0xA0 else 0x80;
        u_upper := if (b =? 0xED)%Z then 0x9F else 0xBF |}, [])
  else if ((0xF0 <=? b) && (b <=? 0xF4))%Z then
    ({| u_cp := Z.land b 0x7; u_seen := 0; u_needed := 3;
        u_lower := if (b =? 0xF0)%Z then 0x90 else 0x80;
        u_upper := if (b =? 0xF4)%Z then 0x8F else 0xBF |}, [])
  else (utf8_init, [0xFFFD%Z]).

Fixpoint utf8_decode (st : Utf8State) (bs : Buffer) : Text :=
  match bs with
  | [] => if (u_needed st =? 0)%Z then [] else [0xFFFD%Z]
  | b :: rest =>
      if (u_needed st =? 0)%Z then
        let (st', out) := utf8_lead b in out ++ utf8_decode st' rest
      else if ((u_lower st <=? b) && (b <=? u_upper st))%Z then
        let cp := Z.lor (Z.shiftl (u_cp st) 6) (Z.land b 0x3F) in
        if (u_seen st + 1 =? u_needed st)%Z then cp :: utf8_decode utf8_init rest
        else utf8_decode {| u_cp := cp; u_seen := u_seen st + 1; u_needed := u_needed st;
                            u_lower := 0x80; u_upper := 0xBF |} rest
      else
        let (st', out) := utf8_lead b in 0xFFFD%Z :: out ++ utf8_decode st' rest
  end.

Definition Buffer_toString (content : Buffer) : Text := utf8_decode utf8_init content.

Definition utf8_encode_cp (cp : Z) : Buffer :=
  if (cp <? 0x80)%Z then [cp]
  else if (cp <? 0x800)%Z then
    [Z.lor 0xC0 (Z.shiftr cp 6); Z.lor 0x80 (Z.land cp 0x3F)]
  else if ((0xD800 <=? cp) && (cp <=? 0xDFFF))%Z then [0xEF; 0xBF; 0xBD]%Z
  else if (cp <? 0x10000)%Z then
    [Z.lor 0xE0 (Z.shiftr cp 12); Z.lor 0x80 (Z.land (Z.shiftr cp 6) 0x3F);
     Z.lor 0x80 (Z.land cp 0x3F)]
  else
    [Z.lor 0xF0 (Z.shiftr cp 18); Z.lor 0x80 (Z.land (Z.shiftr cp 12) 0x3F);
     Z.lor 0x80 (Z.land (Z.shiftr cp 6) 0x3F); Z.lor 0x80 (Z.land cp 0x3F)].

Definition Buffer_from (text : Text) : Buffer := flat_map utf8_encode_cp text.

Definition text_of_string (s : string) : Text :=
  map code_unit (list_ascii_of_string s).

(** ** String.prototype.replace with the two global patterns of the renderer *)

(** [text.replace(/\r\n/g, '\n')] *)
Fixpoint replace_crlf (text : Text) : Text :=
  match text with
  | [] => []
  | c :: rest =>
      match rest with
      | d :: rest' =>
          if ((c =? 13) && (d =? 10))%Z then 10%Z :: replace_crlf rest'
          else c :: replace_crlf rest
      | [] => [c]
      end
  end.

(** [text.replace(/\r/g, '\n')] *)
Definition replace_cr (text : Text) : Text :=
  map (fun c => if (c =? 13)%Z then 10%Z else c) text.

(** ** JSON.stringify of a flat object of strings, with an array replacer

    The replacer array is the property list: its names, without repeats and
    in its order, are the only properties written.  A property the object
    does not have is skipped. *)

Definition hex_digit (n : N) : ascii :=
  ascii_of_N (if (n <? 10)%N then 48 + n else 87 + n).

Definition dquote : string := String (ascii_of_nat 34) EmptyString.

Definition json_escape (c : ascii) : string :=
  let n := N_of_ascii c in
  if (n =? 8)%N then "\b"
  else if (n =? 9)%N then "\t"
  else if (n =? 10)%N then "\n"
  else if (n =? 12)%N then "\f"
  else if (n =? 13)%N then "\r"
  else if (n =? 34)%N then ("\" ++ dquote)%string
  else if (n =? 92)%N then "\\"
  else if (n <? 32)%N then
    ("\u00" ++ String (hex_digit (n / 16)) (String (hex_digit (n mod 16)) EmptyString))%string
  else String c EmptyString.

Fixpoint json_escape_all (s : string) : string :=
  match s with
  | EmptyString => EmptyString
  | String c rest => (json_escape c ++ json_escape_all rest)%string
  end.

Definition QuoteJSONString (s : string) : string :=
  (dquote ++ json_escape_all s ++ dquote)%string.

Definition JSON_stringify (value : Dict string) (replacer : list string) : string :=
  let members :=
    flat_map (fun p => match dict_get value p with
                       | Some v => [(QuoteJSONString p ++ ":" ++ QuoteJSONString v)%string]
                       | None => []
                       end)
             (Set_from replacer) in
  ("{" ++ join "," members ++ "}")%string.

(** ** SHA-256 (FIPS 180-4), [createHash('sha256').update(data).digest('hex')]

    Words are kept in the low 32 bits of the kernel's 63-bit integers. *)

Module Sha256.

Local Open Scope uint63_scope.

Definition mask32 : int := 0xFFFFFFFF.
Definition add32 (a b : int) : int := (a + b) land mask32.
Definition rotr (n x : int) : int := (x >> n) lor ((x << (32 - n)) land mask32).
Definition Ch (x y z : int) : int := (x land y) lxor ((x lxor mask32) land z).
Definition Maj (x y z : int) : int := ((x land y) lxor (x land z)) lxor (y land z).
Definition Sigma0 (x : int) : int := (rotr 2 x lxor rotr 13 x) lxor rotr 22 x.
Definition Sigma1 (x : int) : int := (rotr 6 x lxor rotr 11 x) lxor rotr 25 x.
Definition sigma0 (x : int) : int := (rotr 7 x lxor rotr 18 x) lxor (x >> 3).
Definition sigma1 (x : int) : int := (rotr 17 x lxor rotr 19 x) lxor (x >> 10).

(** The round constants are the first 32 bits of the fractional parts of
    the cube roots of the first 64 primes, the initial hash value those of
    the square roots of the first 8. *)
Definition is_prime (n : nat) : bool :=
  forallb (fun d => negb (Nat.eqb (Nat.modulo n d) 0)) (seq 2 (n - 2)).

Definition primes : list Z :=
  map Z.of_nat (filter is_prime (seq 2 310)).

(** The largest [r] below [2 ^ bits] with [r ^ 3 <= n], bit by bit. *)
Fixpoint cube_root (bits : nat) (n r : Z) : Z :=
  match bits with
  | O => r
  | S b =>
      let r' := (r + 2 ^ Z.of_nat b)%Z in
      cube_root b n (if (r' * r' * r' <=? n)%Z then r' else r)
  end.

Definition K256 : list int :=
  Eval vm_compute in
    map (fun p => of_Z (cube_root 36 (p * 2 ^ 96) 0 mod 2 ^ 32)%Z) primes.

Definition H0 : list int :=
  Eval vm_compute in
    map (fun p => of_Z (Z.sqrt (p * 2 ^ 64) mod 2 ^ 32)%Z) (firstn 8 primes).

Fixpoint words_of_bytes (bs : list int) : list int :=
  match bs with
  | a :: b :: c :: d :: rest =>
      ((a << 24) lor ((b << 16) lor ((c << 8) lor d))) :: words_of_bytes rest
  | _ => []
  end.

Definition length_bytes (bits : int) : list int :=
  map (fun i => (bits >> (8 * i)) land 0xFF) [7; 6; 5; 4; 3; 2; 1; 0].

(** The message, a one bit, zeros up to 56 modulo 64, and the bit length. *)
Definition pad (msg : list int) : list int :=
  let len := List.length msg in
  let zeros := Nat.modulo (55 + 64 * len - len) 64 in
  msg ++ [0x80] ++ repeat 0 zeros ++ length_bytes (8 * of_Z (Z.of_nat len)).

(** [win] holds the last sixteen schedule words, the most recent first. *)
Fixpoint extend (n : nat) (win acc : list int) : list int :=
  match n with
  | O => rev acc
  | S n' =>
      let w := add32 (add32 (sigma1 (nth 1 win 0)) (nth 6 win 0))
                     (add32 (sigma0 (nth 14 win 0)) (nth 15 win 0)) in
      extend n' (w :: firstn 15 win) (w :: acc)
  end.

Definition schedule (block : list int) : list int :=
  block ++ extend 48 (rev block) [].

Definition round (st : list int) (kw : int * int) : list int :=
  match st with
  | [a; b; c; d; e; f; g; h] =>
      let t1 := add32 (add32 (add32 h (Sigma1 e)) (add32 (Ch e f g) (fst kw))) (snd kw) in
      let t2 := add32 (Sigma0 a) (Maj a b c) in
      [add32 t1 t2; a; b; c; add32 d t1; e; f; g]
  | _ => st
  end.

Fixpoint add_words (xs ys : list int) : list int :=
  match xs, ys with
  | x :: xs', y :: ys' => add32 x y :: add_words xs' ys'
  | _, _ => []
  end.

Definition compress (h block : list int) : list int :=
  add_words h (fold_left round (combine K256 (schedule block)) h).

Fixpoint blocks (fuel : nat) (ws : list int) : list (list int) :=
  match fuel, ws with
  | S f, _ :: _ => firstn 16 ws :: blocks f (skipn 16 ws)
  | _, _ => []
  end.

Definition digest_words (msg : list int) : list int :=
  let ws := words_of_bytes (pad msg) in
  fold_left compress (blocks (List.length ws) ws) H0.

Definition hex_word (w : int) : string :=
  fold_right
    (fun i s => String (hex_digit (Z.to_N (to_Z ((w >> (4 * i)) land 0xF)))) s)
    EmptyString [7; 6; 5; 4; 3; 2; 1; 0].

Definition digest_hex (msg : Buffer) : string :=
  fold_right (fun w s => (hex_word w ++ s)%string) EmptyString
             (digest_words (map of_Z msg)).

End Sha256.

(** Property names that [Object.prototype] defines are not used as keys or
    paths: an object is its own properties. *)

(* ================================================================== *)
(** * Part II.  The engine                                            *)
(* ================================================================== *)

(** ** config.ts *)

Module Config.

(** [ProjectConfig] is the type inferred from [ProjectConfigSchema]: a flat
    object whose properties are strings. *)
Definition ProjectConfig : Type := Dict string.

Record Field : Type := {
  name : string;
  values : list string;
  optional : bool
}.

Definition ProjectConfigSchema : list Field :=
  [ {| name := "projectType"; values := ["expo-eas"; "nextjs"]; optional := false |};
    {| name := "backend"; values := ["supabase"]; optional := true |};
    {| name := "packageManager"; values := ["npm"]; optional := false |};
    {| name := "strictnessPreset"; values := ["startup"; "pro"; "enterprise"];
       optional := false |};
    {| name := "testingLevel"; values := ["none"; "unit"; "unit-e2e"]; optional := false |};
    {| name := "billingProvider"; values := ["none"; "revenuecat"; "stripe"];
       optional := false |};
    {| name := "analyticsProvider"; values := ["none"; "amplitude"; "mixpanel"; "posthog"];
       optional := false |};
    {| name := "observability"; values := ["none"; "sentry"]; optional := false |} ]%string.

Fixpoint distinct (l : list string) : bool :=
  match l with
  | [] => true
  | x :: rest => negb (Set_has rest x) && distinct rest
  end.

(** An object has type [ProjectConfig]: its keys are distinct, each is a
    field of the schema holding one of the field's values, and every field
    that is not optional is there. *)
Definition is_ProjectConfig (config : Dict string) : bool :=
  distinct (dict_keys config)
  && forallb (fun kv =>
                existsb (fun f => String.eqb (name f) (fst kv) && Set_has (values f) (snd kv))
                        ProjectConfigSchema) config
  && forallb (fun f => optional f || dict_has config (name f)) ProjectConfigSchema.

End Config.

(** ** types.ts *)

Module Types.

Definition FileMap : Type := Dict Buffer.

Record ManifestFile : Type := {
  path : string;
  sha256 : string
}.

Record Manifest : Type := {
  generatorVersion : string;
  policyVersion : string;
  configHash : string;
  files : list ManifestFile
}.

End Types.

(** ** policy.ts *)

Module Policy.

Inductive VersionPosture : Type :=
| latest_major
| pinned_minor
| pinned_exact.

Record RuntimeSafety : Type := {
  boundaryValidationRequired : bool
}.

Record Process : Type := {
  codeownersRequired : bool;
  auditTrailRequired : bool
}.

Record Policy : Type := {
  version : string;
  requiredChecks : list string;
  versionPosture : VersionPosture;
  runtimeSafety : RuntimeSafety;
  process : Process
}.

(** [Partial<Policy>], and the nested groups as the object spread reads
    them: any property may be absent. *)
Record PartialRuntimeSafety : Type := {
  boundaryValidationRequired' : option bool
}.

Record PartialProcess : Type := {
  codeownersRequired' : option bool;
  auditTrailRequired' : option bool
}.

Record PartialPolicy : Type := {
  version' : option string;
  requiredChecks' : option (list string);
  versionPosture' : option VersionPosture;
  runtimeSafety' : option PartialRuntimeSafety;
  process' : option PartialProcess
}.

Definition BASE_POLICY : Policy :=
  {| version := "1.0.0";
     requiredChecks := [];
     versionPosture := latest_major;
     runtimeSafety := {| boundaryValidationRequired := false |};
     process := {| codeownersRequired := false; auditTrailRequired := false |} |}.

Definition startup : PartialPolicy :=
  {| version' := None;
     requiredChecks' := Some ["lint"; "typecheck"]%string;
     versionPosture' := Some latest_major;
     runtimeSafety' := Some {| boundaryValidationRequired' := Some false |};
     process' := None |}.

Definition pro : PartialPolicy :=
  {| version' := None;
     requiredChecks' := Some ["lint"; "typecheck"; "test"; "build"]%string;
     versionPosture' := Some pinned_minor;
     runtimeSafety' := Some {| boundaryValidationRequired' := Some true |};
     process' := None |}.

Definition enterprise : PartialPolicy :=
  {| version' := None;
     requiredChecks' :=
       Some ["lint"; "typecheck"; "test"; "build"; "e2e"; "security"; "audit"]%string;
     versionPosture' := Some pinned_exact;
     runtimeSafety' := Some {| boundaryValidationRequired' := Some true |};
     process' := Some {| codeownersRequired' := Some true;
                         auditTrailRequired' := Some true |} |}.

Definition PRESET_POLICIES : Dict PartialPolicy :=
  [("startup", startup); ("pro", pro); ("enterprise", enterprise)]%string.

(** [{...base, ...over}]: a property of [over] that is present wins. *)
Definition spread {A : Type} (base : A) (over : option A) : A :=
  match over with Some a => a | None => base end.

(** The object literal that [resolvePolicy] returns, for any base and any
    preset (or none). *)
Definition overlay (base : Policy) (preset : option PartialPolicy) : Policy :=
  let top {A : Type} (get : PartialPolicy -> option A) : option A :=
    match preset with Some p => get p | None => None end in
  let rs := top runtimeSafety' in
  let pr := top process' in
  {| version := spread (version base) (top version');
     requiredChecks := spread (requiredChecks base) (top requiredChecks');
     versionPosture := spread (versionPosture base) (top versionPosture');
     runtimeSafety :=
       {| boundaryValidationRequired :=
            spread (boundaryValidationRequired (runtimeSafety base))
                   (match rs with Some g => boundaryValidationRequired' g | None => None end) |};
     process :=
       {| codeownersRequired :=
            spread (codeownersRequired (process base))
                   (match pr with Some g => codeownersRequired' g | None => None end);
          auditTrailRequired :=
            spread (auditTrailRequired (process base))
                   (match pr with Some g => auditTrailRequired' g | None => None end) |} |}.

Definition resolvePolicy (config : Config.ProjectConfig) : Policy :=
  let preset :=
    match dict_get config "strictnessPreset" with
    | Some key => dict_get PRESET_POLICIES key
    | None => None
    end in
  overlay BASE_POLICY preset.

End Policy.

(** ** context.ts *)

Module Context.

(** [files] is a plain object, handed to the plugins with the context: the
    record keeps its own properties.  A plugin can write [__proto__] (and a
    seed can hold it): that creates no file and replaces the prototype of
    [files] by the buffer.  From then on what [in] and a read find beyond
    the own properties, and whether a write lands, depend on the properties
    of the host's [Buffer] objects; the record does not show it, and the
    statements on what a context answers, on when [render] returns and on
    all that it can throw are made for seeds and plugins that leave that
    name alone. *)
Record InMemoryGeneratorContext : Type := {
  config : Config.ProjectConfig;
  policy : Policy.Policy;
  files : Types.FileMap
}.

(** [new InMemoryGeneratorContext(config, policy, existingFiles)] *)
Definition new (config : Config.ProjectConfig) (policy : Policy.Policy)
    (existingFiles : option Types.FileMap) : InMemoryGeneratorContext :=
  {| config := config;
     policy := policy;
     files := match existingFiles with
              | Some existing => Object_assign [] existing
              | None => []
              end |}.

(** [this.files[path] = content] *)
Definition addFile (ctx : InMemoryGeneratorContext) (path : string) (content : Buffer)
    : InMemoryGeneratorContext :=
  {| config := config ctx; policy := policy ctx;
     files := Object_set (files ctx) path content |}.

(** [path in this.files] *)
Definition hasFile (ctx : InMemoryGeneratorContext) (path : string) : bool :=
  Object_has (files ctx) path.

(** [this.files[path]] *)
Definition getFile (ctx : InMemoryGeneratorContext) (path : string) : Lookup Buffer :=
  Object_get (files ctx) path.

(** [delete ctx.files[path]], which a plugin can do on the [files] it is
    handed. *)
Definition deleteFile (ctx : InMemoryGeneratorContext) (path : string)
    : InMemoryGeneratorContext :=
  {| config := config ctx; policy := policy ctx;
     files := Object_delete (files ctx) path |}.

(** What a plugin's [apply] does with the context it is handed: a finite
    interaction, ended by a return or by a thrown error.  Its steps are the
    three methods of [GeneratorContext] and, on the public [files] object,
    the removal of an entry and the listing of the paths
    ([Object.keys(ctx.files)]); a write or a read through [ctx.files] is the
    step of the method that does the same.  The config and the policy are
    read only.  Other changes to the [files] object (its prototype, the
    attributes of its properties, freezing it) are not steps of an
    [Action]. *)
Inductive Action : Type :=
| Return
| Raise (message : string)
| AddFile (path : string) (content : Buffer) (next : Action)
| HasFile (path : string) (next : bool -> Action)
| GetFile (path : string) (next : Lookup Buffer -> Action)
| DeleteFile (path : string) (next : Action)
| ListFiles (next : list string -> Action).

Fixpoint run (a : Action) (ctx : InMemoryGeneratorContext) : Result InMemoryGeneratorContext :=
  match a with
  | Return => Ok ctx
  | Raise message => Throw (PluginApplyFailure message)
  | AddFile path content next => run next (addFile ctx path content)
  | HasFile path next => run (next (hasFile ctx path)) ctx
  | GetFile path next => run (next (getFile ctx path)) ctx
  | DeleteFile path next => run next (deleteFile ctx path)
  | ListFiles next => run (next (Object_keys (files ctx))) ctx
  end.

(** The paths of the [addFile] calls of a run, in call order. *)
Fixpoint addFile_calls (a : Action) (ctx : InMemoryGeneratorContext) : list string :=
  match a with
  | Return => []
  | Raise _ => []
  | AddFile path content next => path :: addFile_calls next (addFile ctx path content)
  | HasFile path next => addFile_calls (next (hasFile ctx path)) ctx
  | GetFile path next => addFile_calls (next (getFile ctx path)) ctx
  | DeleteFile path next => addFile_calls next (deleteFile ctx path)
  | ListFiles next => addFile_calls (next (Object_keys (files ctx))) ctx
  end.


End Context.

(** ** plugin.ts *)

Module Plugin.

Abbreviation PluginId := string.

Inductive PluginPhase : Type :=
| Pre
| Render
| Post
| Ci.

Definition phase_name (ph : PluginPhase) : string :=
  match ph with
  | Pre => "pre"
  | Render => "render"
  | Post => "post"
  | Ci => "ci"
  end.

Inductive ConflictPolicy : Type :=
| error
| last_wins.

(** The optional [validate] is never called by the pipeline and is left out. *)
Record Plugin : Type := {
  id : PluginId;
  version : string;
  dependencies : option (list PluginId);
  appliesTo : Config.ProjectConfig -> bool;
  phase : option PluginPhase;
  conflictPolicy : option ConflictPolicy;
  apply : Config.ProjectConfig -> Policy.Policy -> Context.Action
}.

(** *** InMemoryPluginRegistry *)

Record InMemoryPluginRegistry : Type := {
  plugins : Dict Plugin
}.

Definition empty : InMemoryPluginRegistry := {| plugins := [] |}.

Definition register (registry : InMemoryPluginRegistry) (plugin : Plugin)
    : Result InMemoryPluginRegistry :=
  if dict_has (plugins registry) (id plugin) then Throw (DuplicatePluginId (id plugin))
  else Ok {| plugins := dict_set (plugins registry) (id plugin) plugin |}.

Definition get (registry : InMemoryPluginRegistry) (pluginId : PluginId) : option Plugin :=
  dict_get (plugins registry) pluginId.

Definition getAll (registry : InMemoryPluginRegistry) : list Plugin :=
  map snd (plugins registry).

(** *** Dependency graph *)

Record DependencyGraph : Type := {
  nodes : list PluginId;
  edges : Dict (list PluginId)
}.

Definition buildDependencyGraph (plugins : list Plugin) : DependencyGraph :=
  fold_left
    (fun g plugin =>
       let nodes1 := Set_add (nodes g) (id plugin) in
       match dependencies plugin with
       | Some (d :: ds) =>
           {| nodes := fold_left Set_add (d :: ds) nodes1;
              edges := dict_set (edges g) (id plugin) (Set_from (d :: ds)) |}
       | _ => {| nodes := nodes1; edges := edges g |}
       end)
    plugins {| nodes := []; edges := [] |}.

Record CycleState : Type := {
  errors : list string;
  visited : list PluginId;
  recursionStack : list PluginId
}.

(** The inner [visit] of [detectCycles].  [fuel] bounds the depth of the
    recursion. *)
Fixpoint detectCycles_visit (fuel : nat) (graph : DependencyGraph) (node : PluginId)
    (path : list PluginId) (st : CycleState) : Result CycleState :=
  if Set_has (recursionStack st) node then
    let cycleStart := Array_indexOf path node in
    let cycle := join " -> " (Array_slice path cycleStart ++ [node]) in
    Ok {| errors := errors st ++ [("Dependency cycle detected: " ++ cycle)%string];
          visited := visited st;
          recursionStack := recursionStack st |}
  else if Set_has (visited st) node then Ok st
  else
    match fuel with
    | O => OutOfFuel
    | S fuel' =>
        let st1 := {| errors := errors st;
                      visited := Set_add (visited st) node;
                      recursionStack := Set_add (recursionStack st) node |} in
        st2 <- match dict_get (edges graph) node with
               | Some deps =>
                   for_each (fun dep => detectCycles_visit fuel' graph dep (path ++ [node]))
                            deps st1
               | None => Ok st1
               end ;;
        Ok {| errors := errors st2;
              visited := visited st2;
              recursionStack := Set_delete (recursionStack st2) node |}
    end.

Definition detectCycles_root (fuel : nat) (graph : DependencyGraph) (node : PluginId)
    (st : CycleState) : Result CycleState :=
  if negb (Set_has (visited st) node) then detectCycles_visit fuel graph node [] st
  else Ok st.

(** Every identifier the traversal can meet. *)
Definition graph_ids (graph : DependencyGraph) : list PluginId :=
  nodes graph ++ flat_map snd (edges graph).

Definition detectCycles (graph : DependencyGraph) : Result (list string) :=
  st <- for_each (detectCycles_root (S (List.length (graph_ids graph))) graph) (nodes graph)
          {| errors := []; visited := []; recursionStack := [] |} ;;
  Ok (errors st).

(** *** Plugin order *)

Record OrderState : Type := {
  sorted : list Plugin;
  done : list PluginId;
  visiting : list PluginId
}.

Section Collation.

(** [String.prototype.localeCompare], the host's collation. *)
Variable localeCompare : string -> string -> comparison.

(** The inner [visit] of [resolvePluginOrder]; [done] is its [visited] set. *)
Fixpoint resolve_visit (fuel : nat) (registry : InMemoryPluginRegistry) (pluginId : PluginId)
    (st : OrderState) : Result OrderState :=
  if Set_has (visiting st) pluginId then Ok st
  else if Set_has (done st) pluginId then Ok st
  else
    match fuel with
    | O => OutOfFuel
    | S fuel' =>
        let st1 := {| sorted := sorted st;
                      done := done st;
                      visiting := Set_add (visiting st) pluginId |} in
        match get registry pluginId with
        | None => Throw (PluginNotFound pluginId)
        | Some plugin =>
            st2 <- match dependencies plugin with
                   | Some deps =>
                       let sortedDeps := Array_sort default_compare deps in
                       for_each (resolve_visit fuel' registry) sortedDeps st1
                   | None => Ok st1
                   end ;;
            Ok {| sorted := if existsb (fun p => String.eqb (id p) pluginId) (sorted st2)
                            then sorted st2 else sorted st2 ++ [plugin];
                  done := Set_add (done st2) pluginId;
                  visiting := Set_delete (visiting st2) pluginId |}
        end
    end.

Definition missing_dependencies (registry : InMemoryPluginRegistry) (plugins : list Plugin)
    : list string :=
  flat_map
    (fun plugin =>
       match dependencies plugin with
       | Some deps =>
           flat_map
             (fun dep =>
                match get registry dep with
                | Some _ => []
                | None =>
                    [("Plugin " ++ id plugin ++ " depends on unknown plugin: " ++ dep)%string]
                end) deps
       | None => []
       end)
    plugins.

Definition resolvePluginOrder (plugins : list Plugin) (registry : InMemoryPluginRegistry)
    : Result (list Plugin) :=
  let applicablePlugins :=
    filter (fun p => match get registry (id p) with Some _ => true | None => false end)
           plugins in
  let graph := buildDependencyGraph applicablePlugins in
  cycleErrors <- detectCycles graph ;;
  match cycleErrors with
  | _ :: _ => Throw (DependencyErrors cycleErrors)
  | [] =>
      let missingDeps := missing_dependencies registry applicablePlugins in
      match missingDeps with
      | _ :: _ => Throw (MissingDependencies missingDeps)
      | [] =>
          let sortedPlugins :=
            Array_sort (fun a b => localeCompare (id a) (id b)) applicablePlugins in
          st <- for_each (fun plugin =>
                            resolve_visit (S (List.length (Plugin.plugins registry))) registry
                                          (id plugin))
                         sortedPlugins {| sorted := []; done := []; visiting := [] |} ;;
          Ok (sorted st)
      end
  end.

(** *** Phases *)

Definition phases : list PluginPhase := [Pre; Render; Post; Ci].

Definition groupPluginsByPhase (plugins : list Plugin) : Dict (list Plugin) :=
  let grouped0 := fold_left (fun g ph => dict_set g (phase_name ph) []) phases [] in
  let grouped1 :=
    fold_left
      (fun g plugin =>
         let ph := match phase plugin with Some ph => ph | None => Render end in
         match dict_get g (phase_name ph) with
         | Some group => dict_set g (phase_name ph) (group ++ [plugin])
         | None => g
         end)
      plugins grouped0 in
  fold_left
    (fun g ph =>
       match dict_get g (phase_name ph) with
       | Some group =>
           dict_set g (phase_name ph)
                    (Array_sort (fun a b => localeCompare (id a) (id b)) group)
       | None => g
       end)
    phases grouped1.

End Collation.

End Plugin.

(** ** renderer.ts *)

Module Renderer.

Definition GENERATOR_VERSION : string := "0.1.0".
Definition POLICY_VERSION : string := "1.0.0".

Definition normalizeLineEndings (content : Buffer) : Buffer :=
  let text := Buffer_toString content in
  let normalized := replace_cr (replace_crlf text) in
  Buffer_from normalized.

Definition computeSha256 (content : Buffer) : string :=
  Sha256.digest_hex content.

Definition computeConfigHash (config : Config.ProjectConfig) : string :=
  let sorted := JSON_stringify config (Array_sort default_compare (Object_keys config)) in
  Sha256.digest_hex (Buffer_from (text_of_string sorted)).

Record RenderResult : Type := {
  files : Dict Buffer;
  manifest : Types.Manifest
}.

(** The loop over [afterFiles] that records the plugin as a writer of every
    path that was not there before its [apply]. *)
Definition record_writers (pluginId : Plugin.PluginId) (beforeFiles afterFiles : list string)
    (fileWriters : Dict (list string)) : Dict (list string) :=
  fold_left
    (fun fw path =>
       if negb (Set_has beforeFiles path) then
         let writers := match dict_get fw path with Some ws => ws | None => [] end in
         dict_set fw path (writers ++ [pluginId])
       else fw)
    afterFiles fileWriters.

(** One turn of the inner loop of [render]: the plugin is applied between
    two snapshots of the context's paths. *)
Definition run_plugin (plugin : Plugin.Plugin)
    (st : Context.InMemoryGeneratorContext * Dict (list string))
    : Result (Context.InMemoryGeneratorContext * Dict (list string)) :=
  let context := fst st in
  let fileWriters := snd st in
  let beforeFiles := Set_from (Object_keys (Context.files context)) in
  context' <- Context.run
                (Plugin.apply plugin (Context.config context) (Context.policy context))
                context ;;
  let afterFiles := Set_from (Object_keys (Context.files context')) in
  Ok (context', record_writers (Plugin.id plugin) beforeFiles afterFiles fileWriters).

Definition run_phase (groupedPlugins : Dict (list Plugin.Plugin)) (phase : Plugin.PluginPhase)
    (st : Context.InMemoryGeneratorContext * Dict (list string))
    : Result (Context.InMemoryGeneratorContext * Dict (list string)) :=
  let plugins :=
    match dict_get groupedPlugins (Plugin.phase_name phase) with
    | Some group => group
    | None => []
    end in
  for_each run_plugin plugins st.

Definition writer_policy (registry : Plugin.InMemoryPluginRegistry) (id : Plugin.PluginId)
    : Plugin.ConflictPolicy :=
  match Plugin.get registry id with
  | Some plugin =>
      match Plugin.conflictPolicy plugin with
      | Some p => p
      | None => Plugin.error
      end
  | None => Plugin.error
  end.

Definition is_error (p : Plugin.ConflictPolicy) : bool :=
  match p with Plugin.error => true | Plugin.last_wins => false end.

Fixpoint check_conflicts (registry : Plugin.InMemoryPluginRegistry)
    (entries : list (string * list string)) : Result unit :=
  match entries with
  | [] => Ok tt
  | (path, writers) :: rest =>
      if (1 <? List.length writers)%nat then
        let policies := map (writer_policy registry) writers in
        if existsb is_error policies then Throw (FileConflict path writers)
        else check_conflicts registry rest
      else check_conflicts registry rest
  end.

(** [normalizedFiles], a plain object filled from the entries of the
    context's files. *)
Definition normalize_all (files : Types.FileMap) : Types.FileMap :=
  fold_left (fun o kv => Object_set o (fst kv) (normalizeLineEndings (snd kv)))
            (Object_entries files) [].

Definition emit (sortedFiles : list (string * Buffer))
    : Dict Buffer * list Types.ManifestFile :=
  fold_left
    (fun acc kv =>
       (dict_set (fst acc) (fst kv) (snd kv),
        snd acc ++ [ {| Types.path := fst kv; Types.sha256 := computeSha256 (snd kv) |} ]))
    sortedFiles ([], []).

Section Collation.

Variable localeCompare : string -> string -> comparison.

Definition sortFileMap (files : Types.FileMap) : list (string * Buffer) :=
  let entries := Object_entries files in
  Array_sort (fun a b => localeCompare (fst a) (fst b)) entries.

Definition render (registry : Plugin.InMemoryPluginRegistry) (config : Config.ProjectConfig)
    (policy : Policy.Policy) (existingFiles : option Types.FileMap) : Result RenderResult :=
  let allPlugins := Plugin.getAll registry in
  let applicablePlugins := filter (fun p => Plugin.appliesTo p config) allPlugins in
  let graph := Plugin.buildDependencyGraph applicablePlugins in
  cycleErrors <- Plugin.detectCycles graph ;;
  match cycleErrors with
  | _ :: _ => Throw (DependencyCycles cycleErrors)
  | [] =>
      orderedPlugins <- Plugin.resolvePluginOrder localeCompare applicablePlugins registry ;;
      let groupedPlugins := Plugin.groupPluginsByPhase localeCompare orderedPlugins in
      let context := Context.new config policy existingFiles in
      r <- for_each (run_phase groupedPlugins) Plugin.phases (context, []) ;;
      let context := fst r in
      let fileWriters := snd r in
      _ <- check_conflicts registry fileWriters ;;
      let normalizedFiles := normalize_all (Context.files context) in
      let sortedFiles := sortFileMap normalizedFiles in
      let out := emit sortedFiles in
      let manifest :=
        {| Types.generatorVersion := GENERATOR_VERSION;
           Types.policyVersion := POLICY_VERSION;
           Types.configHash := computeConfigHash config;
           Types.files := snd out |} in
      Ok {| files := fst out; manifest := manifest |}
  end.

End Collation.

End Renderer.

(** ** The host's collation on ASCII

    [localeCompare] with the default options compares by the root collation:
    first the characters with case ignored (white space, then punctuation,
    symbols, digits, letters), and among strings equal so far the lower-case
    letter first.  The C0 controls other than white space are ignored.  The
    table below covers ASCII; a character outside it is put after the
    letters by its code. *)

Module Collation.

Definition root_order : list nat :=
  [9; 10; 11; 12; 13; 32;
   95; 45; 44; 59; 58; 33; 63; 46; 39; 34; 40; 41; 91; 93; 123; 125; 64; 42; 47; 92;
   38; 35; 37; 96; 94; 43; 60; 61; 62; 124; 126; 36;
   48; 49; 50; 51; 52; 53; 54; 55; 56; 57].

Fixpoint position (n : nat) (l : list nat) (i : nat) : option nat :=
  match l with
  | [] => None
  | m :: rest => if Nat.eqb n m then Some i else position n rest (S i)
  end.

Definition is_upper (n : nat) : bool := Nat.leb 65 n && Nat.leb n 90.
Definition is_lower (n : nat) : bool := Nat.leb 97 n && Nat.leb n 122.

(** The primary weight of a character, or [None] when it is ignored. *)
Definition primary (c : ascii) : option nat :=
  let n := nat_of_ascii c in
  if is_upper n then Some (100 + (n - 65))
  else if is_lower n then Some (100 + (n - 97))
  else if Nat.leb 128 n then Some (200 + n)
  else position n root_order 0.

Definition tertiary (c : ascii) : nat :=
  if is_upper (nat_of_ascii c) then 1 else 0.

Fixpoint keys (s : string) : list (nat * nat) :=
  match s with
  | EmptyString => []
  | String c rest =>
      match primary c with
      | Some w => (w, tertiary c) :: keys rest
      | None => keys rest
      end
  end.

Fixpoint compare_weights (a b : list nat) : comparison :=
  match a, b with
  | [], [] => Eq
  | [], _ :: _ => Lt
  | _ :: _, [] => Gt
  | x :: a', y :: b' =>
      match Nat.compare x y with
      | Eq => compare_weights a' b'
      | c => c
      end
  end.

Definition localeCompare (a b : string) : comparison :=
  match compare_weights (map fst (keys a)) (map fst (keys b)) with
  | Eq => compare_weights (map snd (keys a)) (map snd (keys b))
  | c => c
  end.

End Collation.

(* ================================================================== *)
(** * Part III.  Vocabulary of the properties                         *)
(* ================================================================== *)

(** A call that returns: its value satisfies [P]. *)
Definition returns {A : Type} (P : A -> Prop) (r : Result A) : Prop :=
  match r with
  | Ok a => P a
  | _ => False
  end.

(** A call that ends, by a value that satisfies [P] or by an exception. *)
Definition ends {A : Type} (P : A -> Prop) (r : Result A) : Prop :=
  match r with
  | Ok a => P a
  | Throw _ => True
  | OutOfFuel => False
  end.

(** A call that does not throw: if it returns, its value satisfies [P]. *)
Definition sound {A : Type} (P : A -> Prop) (r : Result A) : Prop :=
  match r with
  | Ok a => P a
  | Throw _ => False
  | OutOfFuel => True
  end.

(** The declared dependencies of a plugin, none when the field is absent. *)
Definition deps (p : Plugin.Plugin) : list Plugin.PluginId :=
  match Plugin.dependencies p with
  | Some ds => ds
  | None => []
  end.

(** A caller that registers the plugins of a list in turn and carries on
    after a failed registration. *)
Definition register_each (ps : list Plugin.Plugin) (registry : Plugin.InMemoryPluginRegistry)
    : Plugin.InMemoryPluginRegistry :=
  fold_left (fun r p => match Plugin.register r p with Ok r' => r' | _ => r end) ps registry.

(** The identifiers that the order resolution can reach: the candidates'
    ids and, from a reachable id that is registered, its plugin's
    dependencies. *)
Inductive Reachable (registry : Plugin.InMemoryPluginRegistry) (plugins : list Plugin.Plugin)
    : Plugin.PluginId -> Prop :=
| reach_candidate (p : Plugin.Plugin) :
    In p plugins -> Reachable registry plugins (Plugin.id p)
| reach_dependency (i : Plugin.PluginId) (p : Plugin.Plugin) (d : Plugin.PluginId) :
    Reachable registry plugins i -> Plugin.get registry i = Some p -> In d (deps p) ->
    Reachable registry plugins d.


(** A list of plugins in which the dependencies of each plugin stand before
    it. *)
Inductive Topological : list Plugin.Plugin -> Prop :=
| topological_nil : Topological []
| topological_snoc (l : list Plugin.Plugin) (p : Plugin.Plugin) :
    Topological l -> (forall d, In d (deps p) -> In d (map Plugin.id l)) ->
    Topological (l ++ [p]).

(** What holds of the state of the order resolution between two visits: the
    plugins pushed so far are those of the done set, in the same order and
    once each; each is registered under its id and reachable; and their list
    is topological. *)
Definition order_inv (registry : Plugin.InMemoryPluginRegistry) (plugins : list Plugin.Plugin)
    (st : Plugin.OrderState) : Prop :=
  map Plugin.id (Plugin.sorted st) = Plugin.done st
  /\ NoDup (Plugin.done st)
  /\ (forall p, In p (Plugin.sorted st) ->
                Plugin.get registry (Plugin.id p) = Some p
                /\ Reachable registry plugins (Plugin.id p))
  /\ Topological (Plugin.sorted st).

(** The number of identifiers of [universe] that are not in [seen]. *)
Definition unseen (universe seen : list string) : nat :=
  List.length (filter (fun u => negb (Set_has seen u)) universe).

(** A registry holds every plugin under its own id, and no id twice. *)
Definition registry_ok (registry : Plugin.InMemoryPluginRegistry) : Prop :=
  NoDup (dict_keys (Plugin.plugins registry))
  /\ Forall (fun kp => fst kp = Plugin.id (snd kp)) (Plugin.plugins registry).

Definition strict_subset (a b : list string) : Prop :=
  incl a b /\ ~ incl b a.

(** The text with every CR LF pair and every other CR replaced by one LF,
    read off in a single pass. *)
Fixpoint lf_only (text : Text) : Text :=
  match text with
  | [] => []
  | c :: rest =>
      if (c =? 13)%Z then
        10%Z :: match rest with
                | d :: rest' => if (d =? 10)%Z then lf_only rest' else lf_only rest
                | [] => []
                end
      else c :: lf_only rest
  end.

Definition is_ascii_byte (b : Z) : Prop := (0 <= b <= 127)%Z.

(** The calls of a render, as pairs of the calling plugin's id and the path,
    in call order: the loops of [render], keeping the paths that [calls]
    reads off each plugin's run instead of the writers. *)
Definition log_plugin
    (calls : Context.Action -> Context.InMemoryGeneratorContext -> list string)
    (plugin : Plugin.Plugin)
    (st : Context.InMemoryGeneratorContext * list (string * string))
    : Result (Context.InMemoryGeneratorContext * list (string * string)) :=
  let context := fst st in
  let action := Plugin.apply plugin (Context.config context) (Context.policy context) in
  context' <- Context.run action context ;;
  Ok (context',
      snd st ++ map (fun path => (Plugin.id plugin, path)) (calls action context)).

Definition log_phase
    (calls : Context.Action -> Context.InMemoryGeneratorContext -> list string)
    (groupedPlugins : Dict (list Plugin.Plugin)) (phase : Plugin.PluginPhase)
    (st : Context.InMemoryGeneratorContext * list (string * string))
    : Result (Context.InMemoryGeneratorContext * list (string * string)) :=
  let plugins :=
    match dict_get groupedPlugins (Plugin.phase_name phase) with
    | Some group => group
    | None => []
    end in
  for_each (log_plugin calls) plugins st.

Definition call_log
    (calls : Context.Action -> Context.InMemoryGeneratorContext -> list string)
    (localeCompare : string -> string -> comparison)
    (registry : Plugin.InMemoryPluginRegistry) (config : Config.ProjectConfig)
    (policy : Policy.Policy) (existingFiles : option Types.FileMap)
    : Result (list (string * string)) :=
  let applicablePlugins :=
    filter (fun p => Plugin.appliesTo p config) (Plugin.getAll registry) in
  orderedPlugins <- Plugin.resolvePluginOrder localeCompare applicablePlugins registry ;;
  let groupedPlugins := Plugin.groupPluginsByPhase localeCompare orderedPlugins in
  r <- for_each (log_phase calls groupedPlugins) Plugin.phases
         (Context.new config policy existingFiles, []) ;;
  Ok (snd r).

(** The [addFile] calls of a render. *)
Definition addFile_log : (string -> string -> comparison) -> Plugin.InMemoryPluginRegistry ->
    Config.ProjectConfig -> Policy.Policy -> option Types.FileMap ->
    Result (list (string * string)) :=
  call_log Context.addFile_calls.


(** The context when the plugins have run: [render] up to the end of its
    loop over the phases. *)
Definition final_context (localeCompare : string -> string -> comparison)
    (registry : Plugin.InMemoryPluginRegistry) (config : Config.ProjectConfig)
    (policy : Policy.Policy) (existingFiles : option Types.FileMap)
    : Result Context.InMemoryGeneratorContext :=
  let applicablePlugins :=
    filter (fun p => Plugin.appliesTo p config) (Plugin.getAll registry) in
  orderedPlugins <- Plugin.resolvePluginOrder localeCompare applicablePlugins registry ;;
  let groupedPlugins := Plugin.groupPluginsByPhase localeCompare orderedPlugins in
  r <- for_each (Renderer.run_phase groupedPlugins) Plugin.phases
         (Context.new config policy existingFiles, []) ;;
  Ok (fst r).

(** The manifest entry of an output file. *)
Definition manifest_entry (kv : string * Buffer) : Types.ManifestFile :=
  {| Types.path := fst kv; Types.sha256 := Renderer.computeSha256 (snd kv) |}.

(** An entry of the context's files, normalized. *)
Definition normalized_entry (kv : string * Buffer) : string * Buffer :=
  (fst kv, Renderer.normalizeLineEndings (snd kv)).

(** The own properties of a context's files: no name twice, and none is
    [__proto__]. *)
Definition files_ok (files : Types.FileMap) : Prop :=
  NoDup (dict_keys files) /\ ~ In "__proto__"%string (dict_keys files).

(** Every path that has writers has exactly one, and is a path of the
    context. *)
Definition single_writers (st : Context.InMemoryGeneratorContext * Dict (list string)) : Prop :=
  files_ok (Context.files (fst st))
  /\ forall path ws, In (path, ws) (snd st) ->
                     List.length ws = 1 /\ In path (dict_keys (Context.files (fst st))).

(** ** Inputs of the examples

    [TestPlugin] is the class of plugin.test.ts: it applies to every config
    and its [apply] does nothing.  [WritingPlugin] calls [addFile] for each
    entry of a list, in order. *)

Definition TestPlugin (id : string) (dependencies : option (list string))
    (phase : option Plugin.PluginPhase) : Plugin.Plugin :=
  {| Plugin.id := id;
     Plugin.version := "0.1.0";
     Plugin.dependencies := dependencies;
     Plugin.appliesTo := fun _ => true;
     Plugin.phase := phase;
     Plugin.conflictPolicy := None;
     Plugin.apply := fun _ _ => Context.Return |}.

Definition WritingPlugin (id : string) (conflictPolicy : option Plugin.ConflictPolicy)
    (writes : list (string * Buffer)) : Plugin.Plugin :=
  {| Plugin.id := id;
     Plugin.version := "0.1.0";
     Plugin.dependencies := None;
     Plugin.appliesTo := fun _ => true;
     Plugin.phase := None;
     Plugin.conflictPolicy := conflictPolicy;
     Plugin.apply := fun _ _ =>
       fold_right (fun w next => Context.AddFile (fst w) (snd w) next) Context.Return writes |}.

(** [validateProjectConfig({ projectType: 'nextjs', strictnessPreset: 'startup' })] *)
Definition nextjs_startup : Config.ProjectConfig :=
  [("projectType", "nextjs"); ("packageManager", "npm"); ("strictnessPreset", "startup");
   ("testingLevel", "none"); ("billingProvider", "none"); ("analyticsProvider", "none");
   ("observability", "none")]%string.

(** Two plugins, both with the default conflict policy, write the path P. *)
Definition two_writers : Plugin.InMemoryPluginRegistry :=
  register_each [WritingPlugin "a" None [("P"%string, [49%Z])];
                 WritingPlugin "b" None [("P"%string, [50%Z])]] Plugin.empty.

(** One plugin writes README.md and app.json, the first with CR LF. *)
Definition readme_writer : Plugin.InMemoryPluginRegistry :=
  register_each [WritingPlugin "docs" None [("README.md"%string, [35; 13; 10]%Z);
                                            ("app.json"%string, [123; 125; 13]%Z)]]
                Plugin.empty.

(** The simple cycle of plugin.test.ts: a depends on b, b depends on a. *)
Definition cycle_a : Plugin.Plugin := TestPlugin "a" (Some ["b"%string]) None.
Definition cycle_b : Plugin.Plugin := TestPlugin "b" (Some ["a"%string]) None.

(** A seed with one file, beside a plugin that writes another. *)
Definition seed : Types.FileMap := [("LICENSE"%string, [77; 73; 84; 13; 10]%Z)].


(** The plugins of the ordering test of plugin.test.ts: b depends on a. *)
Definition plain_a : Plugin.Plugin := TestPlugin "a" None None.
Definition needs_a : Plugin.Plugin := TestPlugin "b" (Some ["a"%string]) None.

(** A candidate that no registry holds. *)
Definition stranger : Plugin.Plugin := TestPlugin "x" None None.

(** ** Every value of type [ProjectConfig]

    [enumerate] lists, for a list of fields, the objects that hold each
    field with one of its values, or without it when the field is optional,
    the fields in schema order.  [canonical] rebuilds an object in that
    order from its lookups. *)

Definition choices (f : Config.Field) : list (Dict string) :=
  (if Config.optional f then [[]] else [])
  ++ map (fun v => [(Config.name f, v)]) (Config.values f).

Fixpoint enumerate (fields : list Config.Field) : list (Dict string) :=
  match fields with
  | [] => [[]]
  | f :: rest => flat_map (fun choice => map (fun t => choice ++ t) (enumerate rest)) (choices f)
  end.

Definition all_configs : list Config.ProjectConfig := enumerate Config.ProjectConfigSchema.

Definition canonical (fields : list Config.Field) (config : Dict string) : Dict string :=
  flat_map (fun f => match dict_get config (Config.name f) with
                     | Some v => [(Config.name f, v)]
                     | None => []
                     end) fields.

(** [validateProjectConfig({ projectType: 'nextjs', strictnessPreset: 'pro' })] *)
Definition nextjs_pro : Config.ProjectConfig :=
  [("projectType", "nextjs"); ("packageManager", "npm"); ("strictnessPreset", "pro");
   ("testingLevel", "none"); ("billingProvider", "none"); ("analyticsProvider", "none");
   ("observability", "none")]%string.

(** The startup config again, its keys inserted in another order. *)
Definition nextjs_startup_reordered : Config.ProjectConfig :=
  [("observability", "none"); ("strictnessPreset", "startup"); ("projectType", "nextjs");
   ("analyticsProvider", "none"); ("packageManager", "npm"); ("billingProvider", "none");
   ("testingLevel", "none")]%string.

(** A call whose exceptions, if it throws, are among [Q]. *)
Definition throws_only {A : Type} (Q : Exn -> Prop) (r : Result A) : Prop :=
  match r with
  | Throw e => Q e
  | _ => True
  end.

Definition is_conflict (e : Exn) : bool :=
  match e with
  | FileConflict _ _ => true
  | _ => false
  end.

(** An edge of the graph: [v] is in the set that [edges] holds for [u]. *)
Definition Edge (graph : Plugin.DependencyGraph) (u v : string) : Prop :=
  exists ds, dict_get (Plugin.edges graph) u = Some ds /\ In v ds.

(** Each element of the list has an edge to the next. *)
Fixpoint Chain (graph : Plugin.DependencyGraph) (l : list string) : Prop :=
  match l with
  | [] => True
  | u :: rest =>
      match rest with
      | [] => True
      | v :: _ => Edge graph u v
      end /\ Chain graph rest
  end.

(** A cycle as [detectCycles] writes it: a walk along one edge or more that
    ends on the node it starts from. *)
Definition Cycle (graph : Plugin.DependencyGraph) (l : list string) : Prop :=
  exists u mid, l = u :: mid ++ [u] /\ Chain graph l.

Definition cycle_message (cycle : list string) : string :=
  ("Dependency cycle detected: " ++ join " -> " cycle)%string.

(** Nodes in the order in which their visits ended: the edges of each lead
    to nodes that ended before it. *)
Inductive Closed (graph : Plugin.DependencyGraph) : list string -> Prop :=
| closed_nil : Closed graph []
| closed_snoc (l : list string) (u : string) :
    Closed graph l -> (forall v, Edge graph u v -> In v l) -> Closed graph (l ++ [u]).

(** The index of the first occurrence, the length when there is none. *)
Fixpoint first_index (l : list string) (x : string) : nat :=
  match l with
  | [] => 0
  | y :: rest => if String.eqb y x then 0 else S (first_index rest x)
  end.

(** Between two visits of the cycle search: the nodes whose visit has ended
    are the visited ones that are off the recursion stack. *)
Definition ended_visits (graph : Plugin.DependencyGraph) (st : Plugin.CycleState)
    (fin : list string) : Prop :=
  (forall u, In u fin <-> In u (Plugin.visited st) /\ ~ In u (Plugin.recursionStack st))
  /\ Closed graph fin.

(** The phase in which a plugin runs: [plugin.phase || 'render']. *)
Definition phase_of (p : Plugin.Plugin) : Plugin.PluginPhase :=
  match Plugin.phase p with
  | Some ph => ph
  | None => Plugin.Render
  end.

Definition in_phase (ph : Plugin.PluginPhase) (p : Plugin.Plugin) : bool :=
  String.eqb (Plugin.phase_name (phase_of p)) (Plugin.phase_name ph).

(** The group that a grouping holds for a phase, as [render] reads it:
    [groupedPlugins.get(phase) || []]. *)
Definition group_of (grouped : Dict (list Plugin.Plugin)) (ph : Plugin.PluginPhase)
    : list Plugin.Plugin :=
  match dict_get grouped (Plugin.phase_name ph) with
  | Some group => group
  | None => []
  end.

(** The plugins of [two_writers], registered in the other order. *)
Definition two_writers_reversed : Plugin.InMemoryPluginRegistry :=
  register_each [WritingPlugin "b" None [("P"%string, [50%Z])];
                 WritingPlugin "a" None [("P"%string, [49%Z])]] Plugin.empty.

(** An [apply] that returns whatever the context answers. *)
Inductive never_raises : Context.Action -> Prop :=
| never_raises_return : never_raises Context.Return
| never_raises_addFile (path : string) (content : Buffer) (next : Context.Action) :
    never_raises next -> never_raises (Context.AddFile path content next)
| never_raises_hasFile (path : string) (next : bool -> Context.Action) :
    (forall b, never_raises (next b)) -> never_raises (Context.HasFile path next)
| never_raises_getFile (path : string) (next : Lookup Buffer -> Context.Action) :
    (forall o, never_raises (next o)) -> never_raises (Context.GetFile path next)
| never_raises_deleteFile (path : string) (next : Context.Action) :
    never_raises next -> never_raises (Context.DeleteFile path next)
| never_raises_listFiles (next : list string -> Context.Action) :
    (forall paths, never_raises (next paths)) -> never_raises (Context.ListFiles next).

(** An [apply] that removes nothing from the files, whatever the context
    answers: it uses the methods of the context and reads [ctx.files]. *)
Inductive never_deletes : Context.Action -> Prop :=
| never_deletes_return : never_deletes Context.Return
| never_deletes_raise (message : string) : never_deletes (Context.Raise message)
| never_deletes_addFile (path : string) (content : Buffer) (next : Context.Action) :
    never_deletes next -> never_deletes (Context.AddFile path content next)
| never_deletes_hasFile (path : string) (next : bool -> Context.Action) :
    (forall b, never_deletes (next b)) -> never_deletes (Context.HasFile path next)
| never_deletes_getFile (path : string) (next : Lookup Buffer -> Context.Action) :
    (forall o, never_deletes (next o)) -> never_deletes (Context.GetFile path next)
| never_deletes_listFiles (next : list string -> Context.Action) :
    (forall paths, never_deletes (next paths)) -> never_deletes (Context.ListFiles next).

(** An [apply] that never writes [__proto__], whatever the context answers:
    it leaves the prototype of the files alone.  After such a write the
    prototype is a buffer, and a later write of a name that the buffer
    inherits with a getter alone ([length], say) throws a [TypeError] where
    the tables here record a file. *)
Inductive spares_prototype : Context.Action -> Prop :=
| spares_prototype_return : spares_prototype Context.Return
| spares_prototype_raise (message : string) : spares_prototype (Context.Raise message)
| spares_prototype_addFile (path : string) (content : Buffer) (next : Context.Action) :
    path <> "__proto__"%string -> spares_prototype next ->
    spares_prototype (Context.AddFile path content next)
| spares_prototype_hasFile (path : string) (next : bool -> Context.Action) :
    (forall b, spares_prototype (next b)) -> spares_prototype (Context.HasFile path next)
| spares_prototype_getFile (path : string) (next : Lookup Buffer -> Context.Action) :
    (forall o, spares_prototype (next o)) -> spares_prototype (Context.GetFile path next)
| spares_prototype_deleteFile (path : string) (next : Context.Action) :
    spares_prototype next -> spares_prototype (Context.DeleteFile path next)
| spares_prototype_listFiles (next : list string -> Context.Action) :
    (forall paths, spares_prototype (next paths)) ->
    spares_prototype (Context.ListFiles next).

(** A seed without an own [__proto__] property.  With such a seed and with
    plugins that spare the prototype, the files of the context keep the
    prototype of a plain object for the whole run: every write lands, and
    [in] and the reads answer as [Object_has] and [Object_get] say.  The
    statements on when [render] returns, and on all that it can throw, are
    made under these two conditions. *)
Definition plain_seed (existingFiles : option Types.FileMap) : Prop :=
  match existingFiles with
  | Some seed => dict_has seed "__proto__" = false
  | None => True
  end.

(** A plugin that removes every path of a list from [ctx.files]. *)
Definition DeletingPlugin (id : string) (paths : list string) : Plugin.Plugin :=
  {| Plugin.id := id;
     Plugin.version := "0.1.0";
     Plugin.dependencies := None;
     Plugin.appliesTo := fun _ => true;
     Plugin.phase := None;
     Plugin.conflictPolicy := None;
     Plugin.apply := fun _ _ =>
       fold_right (fun path next => Context.DeleteFile path next) Context.Return paths |}.

(** Plugin a writes P, plugin m removes it from [ctx.files], plugin z writes
    it again. *)
Definition rewrite_after_delete : Plugin.InMemoryPluginRegistry :=
  register_each [WritingPlugin "a" None [("P"%string, [49%Z])];
                 DeletingPlugin "m" ["P"%string];
                 WritingPlugin "z" None [("P"%string, [50%Z])]] Plugin.empty.


(** A seed whose only own property is [__proto__]. *)
Definition proto_seed : Types.FileMap := [("__proto__"%string, [35; 10]%Z)].

(** A registry with a dependency cycle: the plugins of plugin.test.ts. *)
Definition cyclic_registry : Plugin.InMemoryPluginRegistry :=
  register_each [cycle_a; cycle_b] Plugin.empty.

(** One of the characters 0-9 and a-f. *)
Definition is_hex_lower (c : ascii) : bool :=
  let n := N_of_ascii c in
  ((48 <=? n)%N && (n <=? 57)%N) || ((97 <=? n)%N && (n <=? 102)%N).

Fixpoint string_forallb (f : ascii -> bool) (s : string) : bool :=
  match s with
  | EmptyString => true
  | String c rest => f c && string_forallb f rest
  end.

(** The form of a SHA-256 digest in hexadecimal: 64 digits, letters in lower
    case. *)
Definition is_sha256_hex (s : string) : Prop :=
  String.length s = 64 /\ string_forallb is_hex_lower s = true.

(** ** config.ts: [validateProjectConfig]

    The callers hand [validateProjectConfig] the result of [JSON.parse] or
    an object literal of strings: a JSON value.  A number is kept as its
    literal; no function looks into it. *)

#[warnings="-register-all"]
Inductive Json : Type :=
| JNull
| JBool (b : bool)
| JNumber (literal : string)
| JString (s : string)
| JArray (items : list Json)
| JObject (members : Dict Json).

Module Zod.

(** The schema types that [ProjectConfigSchema] is built from. *)
Inductive ZodType : Type :=
| enum (values : list string)
| optional (inner : ZodType)
| default (inner : ZodType) (value : string).

(** The outcome of parsing one property: a value, [undefined], or an
    issue. *)
Inductive Parsed : Type :=
| Value (s : string)
| Undefined
| Issue.

(** [input] is the property read from the object, [None] when the read
    gives [undefined]. *)
Fixpoint parse (t : ZodType) (input : option Json) : Parsed :=
  match t with
  | enum values =>
      match input with
      | Some (JString s) => if Set_has values s then Value s else Issue
      | _ => Issue
      end
  | optional inner =>
      match input with
      | None => Undefined
      | Some _ => parse inner input
      end
  | default inner value =>
      match input with
      | None => parse inner (Some (JString value))
      | Some _ => parse inner input
      end
  end.

(** The outcome of [schema.parse(input)]: the parsed object, or a
    [ZodError] with the paths of its issues. *)
Inductive Outcome : Type :=
| Parsed_ok (config : Dict string)
| ZodError (issues : list (list string)).

(** [z.object(shape).parse(input)] for a shape of the types above: every
    property of the shape is parsed, in shape order; unknown properties are
    stripped; the issues of all properties are collected. *)
Definition object (shape : list (string * ZodType)) (input : Json) : Outcome :=
  match input with
  | JObject members =>
      let pairs := map (fun kt => (fst kt, parse (snd kt) (dict_get members (fst kt)))) shape in
      let issues := flat_map (fun kr => match snd kr with
                                        | Issue => [[fst kr]]
                                        | _ => []
                                        end) pairs in
      match issues with
      | [] => Parsed_ok (flat_map (fun kr => match snd kr with
                                             | Value v => [(fst kr, v)]
                                             | _ => []
                                             end) pairs)
      | _ :: _ => ZodError issues
      end
  | _ => ZodError [[]]
  end.

End Zod.

Module ConfigSchema.

Definition shape : list (string * Zod.ZodType) :=
  [ ("projectType", Zod.enum ["expo-eas"; "nextjs"]);
    ("backend", Zod.optional (Zod.enum ["supabase"]));
    ("packageManager", Zod.default (Zod.enum ["npm"]) "npm");
    ("strictnessPreset", Zod.default (Zod.enum ["startup"; "pro"; "enterprise"]) "startup");
    ("testingLevel", Zod.default (Zod.enum ["none"; "unit"; "unit-e2e"]) "none");
    ("billingProvider", Zod.default (Zod.enum ["none"; "revenuecat"; "stripe"]) "none");
    ("analyticsProvider",
     Zod.default (Zod.enum ["none"; "amplitude"; "mixpanel"; "posthog"]) "none");
    ("observability", Zod.default (Zod.enum ["none"; "sentry"]) "none") ]%string.

Definition validateProjectConfig (input : Json) : Zod.Outcome :=
  Zod.object shape input.

End ConfigSchema.

(** A config as the JSON value that [JSON.parse(JSON.stringify(config))]
    gives back. *)
Definition config_json (config : Config.ProjectConfig) : Json :=
  JObject (map (fun kv => (fst kv, JString (snd kv))) config).

(** The value a field takes when the input does not give it. *)
Definition field_default (name : string) : option string :=
  if String.eqb name "projectType" then None
  else if String.eqb name "backend" then None
  else if String.eqb name "packageManager" then Some "npm"%string
  else if String.eqb name "strictnessPreset" then Some "startup"%string
  else Some "none"%string.

(** What the schema accepts for a field: nothing, where the field is
    optional or has a default, or one of the field's strings. *)
Definition field_accepts (members : Dict Json) (f : Config.Field) : Prop :=
  match dict_get members (Config.name f) with
  | None => Config.name f <> "projectType"%string
  | Some (JString v) => In v (Config.values f)
  | Some _ => False
  end.

(** The outcomes that parsing a property of the given type can have. *)
Fixpoint outcomes (t : Zod.ZodType) : list Zod.Parsed :=
  match t with
  | Zod.enum values => Zod.Issue :: map Zod.Value values
  | Zod.optional inner => Zod.Undefined :: outcomes inner
  | Zod.default inner _ => outcomes inner
  end.

(** Every way of choosing one element from each list. *)
Fixpoint product {A : Type} (ls : list (list A)) : list (list A) :=
  match ls with
  | [] => [[]]
  | l :: rest => flat_map (fun x => map (cons x) (product rest)) l
  end.

Fixpoint config_eqb (a b : Dict string) : bool :=
  match a, b with
  | [], [] => true
  | (k, v) :: a', (k', v') :: b' => String.eqb k k' && String.eqb v v' && config_eqb a' b'
  | _, _ => false
  end.

(** The object that the parsed properties make. *)
Definition assemble (names : list string) (rs : list Zod.Parsed) : Zod.Outcome :=
  let pairs := combine names rs in
  match flat_map (fun kr => match snd kr with
                            | Zod.Issue => [[fst kr]]
                            | _ => []
                            end) pairs with
  | [] => Zod.Parsed_ok (flat_map (fun kr => match snd kr with
                                             | Zod.Value v => [(fst kr, v)]
                                             | _ => []
                                             end) pairs)
  | issues => Zod.ZodError issues
  end.

(** ** cli/src/index.ts: [init], up to the validated config

    [init] checks its arguments, builds the config object, validates it with
    the engine's schema and writes the validated config to
    .lattice/config.json.  The function below is [init] up to the value it
    writes; an argument is a string or [undefined]. *)

Module Cli.

Inductive InitOutcome : Type :=
| InitError (message : string)
| InitZodError (issues : list (list string))
| InitConfig (validatedConfig : Config.ProjectConfig).

(** A string argument is truthy when it is given and not empty. *)
Definition truthy (arg : option string) : bool :=
  match arg with
  | Some (String _ _) => true
  | _ => false
  end.

(** The argument in a template literal. *)
Definition text (arg : option string) : string :=
  match arg with
  | Some s => s
  | None => "undefined"
  end.

Definition quoted (s : string) : string := (dquote ++ s ++ dquote)%string.

Definition differs (arg : option string) (s : string) : bool :=
  negb (String.eqb (text arg) s).

Definition init_validatedConfig
    (projectType preset billing analytics observability testing : option string)
    : InitOutcome :=
  if negb (truthy projectType) then
    InitError ("--projectType is required. Must be " ++ quoted "nextjs" ++ " or "
               ++ quoted "expo-eas")
  else if negb (truthy preset) then
    InitError ("--preset is required. Must be " ++ quoted "startup" ++ ", " ++ quoted "pro"
               ++ ", or " ++ quoted "enterprise")
  else if differs projectType "nextjs" && differs projectType "expo-eas" then
    InitError ("Invalid --projectType: " ++ text projectType ++ ". Must be "
               ++ quoted "nextjs" ++ " or " ++ quoted "expo-eas")
  else if differs preset "startup" && differs preset "pro" && differs preset "enterprise" then
    InitError ("Invalid --preset: " ++ text preset ++ ". Must be " ++ quoted "startup"
               ++ ", " ++ quoted "pro" ++ ", or " ++ quoted "enterprise")
  else if truthy billing && differs billing "none" && differs billing "stripe"
          && differs billing "revenuecat" then
    InitError ("Invalid --billing: " ++ text billing ++ ". Must be " ++ quoted "none" ++ ", "
               ++ quoted "stripe" ++ ", or " ++ quoted "revenuecat")
  else if truthy analytics && differs analytics "none" && differs analytics "amplitude"
          && differs analytics "mixpanel" && differs analytics "posthog" then
    InitError ("Invalid --analytics: " ++ text analytics ++ ". Must be " ++ quoted "none"
               ++ ", " ++ quoted "amplitude" ++ ", " ++ quoted "mixpanel" ++ ", or "
               ++ quoted "posthog")
  else if truthy observability && differs observability "none"
          && differs observability "sentry" then
    InitError ("Invalid --observability: " ++ text observability ++ ". Must be "
               ++ quoted "none" ++ " or " ++ quoted "sentry")
  else if truthy testing && differs testing "none" && differs testing "unit"
          && differs testing "unit-e2e" then
    InitError ("Invalid --testing: " ++ text testing ++ ". Must be " ++ quoted "none" ++ ", "
               ++ quoted "unit" ++ ", or " ++ quoted "unit-e2e")
  else
    let config : Dict Json :=
      [("projectType", JString (text projectType));
       ("strictnessPreset", JString (text preset))]%string in
    let config := if truthy billing
                  then dict_set config "billingProvider" (JString (text billing))
                  else config in
    let config := if truthy analytics
                  then dict_set config "analyticsProvider" (JString (text analytics))
                  else config in
    let config := if truthy observability
                  then dict_set config "observability" (JString (text observability))
                  else config in
    let config := if truthy testing
                  then dict_set config "testingLevel" (JString (text testing))
                  else config in
    match ConfigSchema.validateProjectConfig (JObject config) with
    | Zod.Parsed_ok validatedConfig => InitConfig validatedConfig
    | Zod.ZodError issues => InitZodError issues
    end.

End Cli.

(** The value of a flag is one of the field's strings; a flag that may be
    left out is also fine when it is not given or empty. *)
Definition flag_ok (required : bool) (values : list string) (arg : option string) : Prop :=
  match arg with
  | Some (String c s) => In (String c s) values
  | _ => required = false
  end.

(** The value that the config takes for a flag. *)
Definition flag_value (arg : option string) (otherwise : string) : string :=
  match arg with
  | Some (String c s) => String c s
  | _ => otherwise
  end.

(** ** JSON.stringify(value, null, 2)

    Every level is indented by two more spaces; the properties of an object
    are written in its own key order; an empty object or array is written
    without a line break.  A number is written by its literal. *)

Definition gap : string := "  ".

Fixpoint JSON_stringify_indented (indent : string) (value : Json) : string :=
  match value with
  | JNull => "null"
  | JBool b => if b then "true" else "false"
  | JNumber literal => literal
  | JString s => QuoteJSONString s
  | JArray items =>
      let inner := (indent ++ gap)%string in
      let partial :=
        (fix each (l : list Json) : list string :=
           match l with
           | [] => []
           | x :: rest => JSON_stringify_indented inner x :: each rest
           end) items in
      match partial with
      | [] => "[]"
      | _ :: _ =>
          ("[" ++ LF ++ inner ++ join ("," ++ LF ++ inner) partial ++ LF ++ indent ++ "]")%string
      end
  | JObject members =>
      let inner := (indent ++ gap)%string in
      let rendered :=
        (fix each (l : Dict Json) : Dict string :=
           match l with
           | [] => []
           | (k, x) :: rest => (k, JSON_stringify_indented inner x) :: each rest
           end) members in
      let partial :=
        map (fun kv => (QuoteJSONString (fst kv) ++ ": " ++ snd kv)%string)
            (Object_entries rendered) in
      match partial with
      | [] => "{}"
      | _ :: _ =>
          ("{" ++ LF ++ inner ++ join ("," ++ LF ++ inner) partial ++ LF ++ indent ++ "}")%string
      end
  end.

(** [Buffer.from(text, 'utf-8')] of a string of the source. *)
Definition Buffer_of (s : string) : Buffer := Buffer_from (text_of_string s).

(** ** plugins/stack/nextjs.ts *)

Module NextJs.

Local Open Scope string_scope.

Definition packageJson : Json :=
  JObject [
    ("name", JString "my-app");
    ("version", JString "0.1.0");
    ("private", JBool true);
    ("scripts", JObject [
      ("dev", JString "next dev");
      ("build", JString "next build");
      ("start", JString "next start");
      ("lint", JString "eslint .");
      ("typecheck", JString "tsc --noEmit");
      ("test", JString "jest") ]);
    ("dependencies", JObject [
      ("react", JString "^19.2.1");
      ("react-dom", JString "^19.2.1");
      ("next", JString "^16.1.0") ]);
    ("devDependencies", JObject [
      ("typescript", JString "^5.9.0");
      ("@types/node", JString "^20.11.0");
      ("@types/react", JString "^19.0.0");
      ("@types/react-dom", JString "^19.0.0");
      ("eslint", JString "^9.0.0");
      ("@typescript-eslint/parser", JString "^8.0.0");
      ("@typescript-eslint/eslint-plugin", JString "^8.0.0");
      ("jest", JString "^29.7.0");
      ("@types/jest", JString "^29.5.11");
      ("ts-jest", JString "^29.1.1");
      ("@testing-library/react", JString "^16.0.0");
      ("@testing-library/jest-dom", JString "^6.1.5");
      ("jest-environment-jsdom", JString "^29.7.0") ]) ].

Definition packageJsonContent : string :=
  (JSON_stringify_indented EmptyString packageJson ++ LF)%string.

Definition tsconfigJson : Json :=
  JObject [
    ("compilerOptions", JObject [
      ("target", JString "ES2022");
      ("lib", JArray [JString "dom"; JString "dom.iterable"; JString "esnext"]);
      ("allowJs", JBool true);
      ("skipLibCheck", JBool true);
      ("strict", JBool true);
      ("noEmit", JBool true);
      ("esModuleInterop", JBool true);
      ("module", JString "esnext");
      ("moduleResolution", JString "bundler");
      ("resolveJsonModule", JBool true);
      ("isolatedModules", JBool true);
      ("jsx", JString "preserve");
      ("incremental", JBool true);
      ("plugins", JArray [
        JObject [
          ("name", JString "next") ] ]);
      ("paths", JObject [
        ("@/*", JArray [JString "./*"]) ]) ]);
    ("include", JArray [JString "next-env.d.ts"; JString "**/*.ts"; JString "**/*.tsx";
        JString ".next/types/**/*.ts"]);
    ("exclude", JArray [JString "node_modules"]) ].

Definition tsconfigContent : string :=
  (JSON_stringify_indented EmptyString tsconfigJson ++ LF)%string.

Definition nextConfigJs : string :=
  "/** @type {import('next').NextConfig} */
const nextConfig = {
  reactStrictMode: true,
};

module.exports = nextConfig;
"%string.

Definition eslintConfigJs : string :=
  "import tseslint from '@typescript-eslint/eslint-plugin';
import tsparser from '@typescript-eslint/parser';

export default [
  {
    ignores: ['.next/**', 'node_modules/**', 'out/**', 'dist/**'],
  },
  {
    files: ['**/*.{js,jsx,ts,tsx}'],
    languageOptions: {
      parser: tsparser,
      parserOptions: {
        ecmaVersion: 'latest',
        sourceType: 'module',
        ecmaFeatures: {
          jsx: true,
        },
      },
    },
    plugins: {
      '@typescript-eslint': tseslint,
    },
    rules: {
      '@typescript-eslint/no-unused-vars': 'warn',
    },
  },
];
"%string.

Definition appLayout : string :=
  ("export default function RootLayout({
  children,
}: {
  children: React.ReactNode;
}) {
  return (
    <html lang=" ++ dquote ++ "en" ++ dquote ++ ">
      <body>{children}</body>
    </html>
  );
}
")%string.

Definition appPage : string :=
  "export default function Home() {
  return (
    <main>
      <h1>Welcome to Next.js</h1>
    </main>
  );
}
"%string.

Definition jestConfig : string :=
  ("const nextJest = require('next/jest');

const createJestConfig = nextJest({
  dir: './',
});

const customJestConfig = {
  setupFilesAfterEnv: ['<rootDir>/jest.setup.js'],
  testEnvironment: 'jest-environment-jsdom',
  moduleNameMapper: {
    '^@/(.*" ++ ")$': '<rootDir>/$1',
  },
};

module.exports = createJestConfig(customJestConfig);
")%string.

Definition jestSetup : string :=
  "import '@testing-library/jest-dom';
"%string.

Definition appPageTest : string :=
  "import { render, screen } from '@testing-library/react';
import '@testing-library/jest-dom';
import Home from './page';

describe('Home', () => {
  it('renders welcome message', () => {
    render(<Home />);
    expect(screen.getByText('Welcome to Next.js')).toBeInTheDocument();
  });
});
"%string.

Definition cursorRules : string :=
  ("# Lattice Bootstrap Cursor Rules - Next.js

You are a senior full-stack engineer responsible for production-quality Next.js applications.

## Core Operating Rules

- Stay strictly within the scope explicitly defined in the current task.
- Do not invent features, abstractions, or future functionality.
- Do not use placeholders, TODOs, stubs, or mock implementations.
- All code must compile, typecheck, and pass tests.
- Determinism is mandatory: no timestamps, UUIDs, randomness, or network calls.
- Prefer simple, explicit implementations over clever ones.
- Keep changes minimal and localized.

## Next.js-Specific Guidelines

### File Structure
- Use App Router conventions: `app/` directory for routes, layouts, and pages.
- Place components in `app/` or a `components/` directory at the root.
- Use `layout.tsx` for shared layouts, `page.tsx` for route pages.
- Follow Next.js file conventions: `loading.tsx`, `error.tsx`, `not-found.tsx`.

### Verification Commands
- `npm run lint`: Run ESLint to check code quality.
- `npm run typecheck`: Run TypeScript compiler in check mode.
- `npm test`: Run Jest tests with React Testing Library.
- `npm run build`: Build the Next.js application for production.

### Next.js Best Practices
- Use Server Components by default; add `" ++ dquote ++ "use client" ++ dquote ++ "` only when needed.
- Prefer async Server Components for data fetching.
- Use Next.js built-in routing; avoid custom routing solutions.
- Leverage Next.js Image component for optimized images.
- Use TypeScript strict mode and Next.js TypeScript configuration.

## Execution Discipline

Before writing code:
- Restate the scope in one paragraph.
- Identify the exact files to be created or modified.

While writing code:
- Follow TypeScript strict mode.
- Use Next.js App Router conventions.
- Do not touch the filesystem or network unless explicitly instructed.
- Do not add dependencies unless explicitly required.

After writing code:
- Run `npm run lint`, `npm run typecheck`, `npm test`, and `npm run build`.
- If any command fails, stop and fix before proceeding.
- Report verification results.

## Hard Stop Conditions

- If requirements conflict, stop and ask.
- If verification fails, stop and fix.
- If scope is unclear, stop and clarify.

## Non-Goals

- No web UI (unless explicitly requested).
- No GitHub integration.
- No patcher or apply logic unless explicitly requested.
- No SaaS or authentication code.

## Priority Order

1. Correctness
2. Determinism
3. Clarity
4. Maintainability
5. Completeness

Violation of these rules is a failure.
")%string.

(** The [addFile] calls of [apply], in order. *)
Definition writes : list (string * Buffer) :=
  [ ("package.json", Buffer_of packageJsonContent);
    ("tsconfig.json", Buffer_of tsconfigContent);
    ("next.config.js", Buffer_of nextConfigJs);
    ("eslint.config.mjs", Buffer_of eslintConfigJs);
    ("app/layout.tsx", Buffer_of appLayout);
    ("app/page.tsx", Buffer_of appPage);
    ("jest.config.js", Buffer_of jestConfig);
    ("jest.setup.js", Buffer_of jestSetup);
    ("app/page.test.tsx", Buffer_of appPageTest);
    (".cursor/rules.md", Buffer_of cursorRules) ].

Definition NextJsPlugin : Plugin.Plugin :=
  {| Plugin.id := "stack/nextjs";
     Plugin.version := "0.1.0";
     Plugin.dependencies := None;
     Plugin.appliesTo := fun config =>
       match dict_get config "projectType" with
       | Some projectType => String.eqb projectType "nextjs"
       | None => false
       end;
     Plugin.phase := Some Plugin.Render;
     Plugin.conflictPolicy := Some Plugin.error;
     Plugin.apply := fun _ _ =>
       Context.HasFile "package.json" (fun present =>
         if present then Context.Raise "package.json already exists"
         else fold_right (fun w next => Context.AddFile (fst w) (snd w) next) Context.Return
                         writes) |}.

End NextJs.

(** ** plugins/stack/expo-eas.ts *)

Module ExpoEas.

Local Open Scope string_scope.

Definition packageJson : Json :=
  JObject [
    ("name", JString "my-app");
    ("version", JString "0.1.0");
    ("private", JBool true);
    ("main", JString "expo-router/entry");
    ("scripts", JObject [
      ("start", JString "expo start");
      ("android", JString "expo start --android");
      ("ios", JString "expo start --ios");
      ("web", JString "expo start --web");
      ("lint", JString "eslint .");
      ("typecheck", JString "tsc --noEmit");
      ("test", JString "jest") ]);
    ("dependencies", JObject [
      ("expo", JString "~52.0.0");
      ("expo-router", JString "~4.0.0");
      ("expo-status-bar", JString "~2.0.0");
      ("react", JString "18.3.1");
      ("react-native", JString "0.76.5") ]);
    ("devDependencies", JObject [
      ("@babel/core", JString "^7.25.0");
      ("@types/react", JString "~18.3.12");
      ("typescript", JString "^5.3.3");
      ("eslint", JString "^9.0.0");
      ("@typescript-eslint/parser", JString "^8.0.0");
      ("@typescript-eslint/eslint-plugin", JString "^8.0.0");
      ("jest", JString "^29.7.0");
      ("@types/jest", JString "^29.5.11");
      ("ts-jest", JString "^29.1.1");
      ("@testing-library/react-native", JString "^12.8.0");
      ("react-test-renderer", JString "18.3.1");
      ("jest-expo", JString "~52.0.0");
      ("@testing-library/jest-native", JString "^5.4.3") ]) ].

Definition packageJsonContent : string :=
  (JSON_stringify_indented EmptyString packageJson ++ LF)%string.

Definition tsconfigJson : Json :=
  JObject [
    ("extends", JString "expo/tsconfig.base");
    ("compilerOptions", JObject [
      ("strict", JBool true);
      ("paths", JObject [
        ("@/*", JArray [JString "./*"]) ]) ]);
    ("include", JArray [JString "**/*.ts"; JString "**/*.tsx"; JString ".expo/types/**/*.ts"]);
    ("exclude", JArray [JString "node_modules"]) ].

Definition tsconfigContent : string :=
  (JSON_stringify_indented EmptyString tsconfigJson ++ LF)%string.

Definition appJson : Json :=
  JObject [
    ("expo", JObject [
      ("name", JString "my-app");
      ("slug", JString "my-app");
      ("version", JString "0.1.0");
      ("orientation", JString "portrait");
      ("icon", JString "./assets/icon.png");
      ("userInterfaceStyle", JString "light");
      ("splash", JObject [
        ("image", JString "./assets/splash.png");
        ("resizeMode", JString "contain");
        ("backgroundColor", JString "#ffffff") ]);
      ("assetBundlePatterns", JArray [JString "**/*"]);
      ("ios", JObject [
        ("supportsTablet", JBool true) ]);
      ("android", JObject [
        ("adaptiveIcon", JObject [
          ("foregroundImage", JString "./assets/adaptive-icon.png");
          ("backgroundColor", JString "#ffffff") ]) ]);
      ("web", JObject [
        ("favicon", JString "./assets/favicon.png") ]);
      ("plugins", JArray [JString "expo-router"]);
      ("scheme", JString "my-app") ]) ].

Definition appJsonContent : string :=
  (JSON_stringify_indented EmptyString appJson ++ LF)%string.

Definition eslintConfigJs : string :=
  "import tseslint from '@typescript-eslint/eslint-plugin';
import tsparser from '@typescript-eslint/parser';

export default [
  {
    ignores: ['.expo/**', 'node_modules/**', 'dist/**'],
  },
  {
    files: ['**/*.{js,jsx,ts,tsx}'],
    languageOptions: {
      parser: tsparser,
      parserOptions: {
        ecmaVersion: 'latest',
        sourceType: 'module',
        ecmaFeatures: {
          jsx: true,
        },
      },
    },
    plugins: {
      '@typescript-eslint': tseslint,
    },
    rules: {
      '@typescript-eslint/no-unused-vars': 'warn',
    },
  },
];
"%string.

Definition appLayout : string :=
  ("import { Stack } from 'expo-router';

export default function RootLayout() {
  return (
    <Stack>
      <Stack.Screen name=" ++ dquote ++ "index" ++ dquote ++ " options={{ title: 'Home' }} />
    </Stack>
  );
}
")%string.

Definition appIndex : string :=
  ("import { Text, View, StyleSheet } from 'react-native';
import { StatusBar } from 'expo-status-bar';

export default function Index() {
  return (
    <View style={styles.container}>
      <Text style={styles.title}>Welcome to Expo</Text>
      <StatusBar style=" ++ dquote ++ "auto" ++ dquote ++ " />
    </View>
  );
}

const styles = StyleSheet.create({
  container: {
    flex: 1,
    backgroundColor: '#fff',
    alignItems: 'center',
    justifyContent: 'center',
  },
  title: {
    fontSize: 20,
    fontWeight: 'bold',
  },
});
")%string.

Definition jestConfig : string :=
  ("module.exports = {
  preset: 'jest-expo',
  setupFilesAfterEnv: ['<rootDir>/jest.setup.js'],
  transformIgnorePatterns: [
    'node_modules/(?!((jest-)?react-native|@react-native(-community)?)|expo(nent)?|@expo(nent)?/.*|@expo-google-fonts/.*|react-navigation|@react-navigation/.*|@unimodules/.*|unimodules|sentry-expo|native-base|react-native-svg)',
  ],
  moduleNameMapper: {
    '^@/(.*" ++ ")$': '<rootDir>/$1',
  },
};
")%string.

Definition jestSetup : string :=
  "import '@testing-library/jest-native/extend-expect';
"%string.

Definition appIndexTest : string :=
  "import { render, screen } from '@testing-library/react-native';
import Index from './index';

describe('Index', () => {
  it('renders welcome message', () => {
    render(<Index />);
    expect(screen.getByText('Welcome to Expo')).toBeTruthy();
  });
});
"%string.

Definition cursorRules (latticeVersion policyVersion configHash : string) : string :=
  ("<!--
latticeVersion: "
   ++ latticeVersion
   ++ "
stack: expo-eas
policyVersion: "
   ++ policyVersion
   ++ "
configHash: "
   ++ configHash
   ++ "
-->

# Lattice Bootstrap Cursor Rules - Expo EAS

You are a senior full-stack engineer responsible for production-quality Expo applications.

## Core Operating Rules

- Stay strictly within the scope explicitly defined in the current task.
- Do not invent features, abstractions, or future functionality.
- Do not use placeholders, TODOs, stubs, or mock implementations.
- All code must compile, typecheck, and pass tests.
- Determinism is mandatory: no timestamps, UUIDs, randomness, or network calls.
- Prefer simple, explicit implementations over clever ones.
- Keep changes minimal and localized.

## Expo EAS-Specific Guidelines

### File Structure
- Use Expo Router conventions: `app/` directory for routes and screens.
- Place components in `app/` or a `components/` directory at the root.
- Use `_layout.tsx` for navigation layouts, `index.tsx` for route screens.
- Follow Expo Router file conventions for nested routing.

### Verification Commands
- `npm run lint`: Run ESLint to check code quality.
- `npm run typecheck`: Run TypeScript compiler in check mode.
- `npm test`: Run Jest tests with React Native Testing Library.
- `npm run build`: Not applicable for Expo; use `eas build` for production builds.

### Expo EAS Best Practices
- Use React Native components and APIs; avoid web-only APIs.
- Use Expo Router for navigation; leverage file-based routing.
- Use StyleSheet API for styling; prefer StyleSheet.create().
- Leverage Expo SDK modules; avoid native modules unless necessary.
- Use TypeScript strict mode and Expo TypeScript configuration.
- For production builds, use EAS Build: `eas build --platform ios/android`.

## Execution Discipline

Before writing code:
- Restate the scope in one paragraph.
- Identify the exact files to be created or modified.

While writing code:
- Follow TypeScript strict mode.
- Use Expo Router and React Native conventions.
- Do not touch the filesystem or network unless explicitly instructed.
- Do not add dependencies unless explicitly required.

After writing code:
- Run `npm run lint`, `npm run typecheck`, and `npm test`.
- If any command fails, stop and fix before proceeding.
- Report verification results.

## Hard Stop Conditions

- If requirements conflict, stop and ask.
- If verification fails, stop and fix.
- If scope is unclear, stop and clarify.

## Non-Goals

- No web UI (unless explicitly requested).
- No GitHub integration.
- No patcher or apply logic unless explicitly requested.
- No SaaS or authentication code.

## Priority Order

1. Correctness
2. Determinism
3. Clarity
4. Maintainability
5. Completeness

Violation of these rules is a failure.
")%string.

(** The [addFile] calls of [apply], in order: those of the fixed files, then
    the one of the rules. *)
Definition static_writes : list (string * Buffer) :=
  [ ("package.json", Buffer_of packageJsonContent);
    ("tsconfig.json", Buffer_of tsconfigContent);
    ("app.json", Buffer_of appJsonContent);
    ("eslint.config.mjs", Buffer_of eslintConfigJs);
    ("app/_layout.tsx", Buffer_of appLayout);
    ("app/index.tsx", Buffer_of appIndex);
    ("jest.config.js", Buffer_of jestConfig);
    ("jest.setup.js", Buffer_of jestSetup);
    ("app/index.test.tsx", Buffer_of appIndexTest) ].

Definition writes (latticeVersion policyVersion configHash : string) : list (string * Buffer) :=
  static_writes ++ [ (".cursor/rules.md", Buffer_of (cursorRules latticeVersion policyVersion configHash)) ].

(** [getLatticeVersion()] reads the version of the root package.json of the
    installation; the plugin is given what it returns.  The file's own
    [computeConfigHash] has the body of the renderer's. *)
Definition ExpoEasPlugin (latticeVersion : string) : Plugin.Plugin :=
  {| Plugin.id := "stack/expo-eas";
     Plugin.version := "0.1.0";
     Plugin.dependencies := None;
     Plugin.appliesTo := fun config =>
       match dict_get config "projectType" with
       | Some projectType => String.eqb projectType "expo-eas"
       | None => false
       end;
     Plugin.phase := Some Plugin.Render;
     Plugin.conflictPolicy := Some Plugin.error;
     Plugin.apply := fun config policy =>
       Context.HasFile "package.json" (fun present =>
         if present then Context.Raise "package.json already exists"
         else
           let policyVersion := Policy.version policy in
           let configHash := Renderer.computeConfigHash config in
           fold_right (fun w next => Context.AddFile (fst w) (snd w) next) Context.Return
                      (writes latticeVersion policyVersion configHash)) |}.

End ExpoEas.

(** The bytes of two buffers are the same. *)
Fixpoint Buffer_eqb (a b : Buffer) : bool :=
  match a, b with
  | [], [] => true
  | x :: a', y :: b' => (x =? y)%Z && Buffer_eqb a' b'
  | _, _ => false
  end.

(** The registry of [generate] and of the Next.js fixture of the harness:
    the Next.js plugin alone. *)
Definition nextjs_registry : Plugin.InMemoryPluginRegistry :=
  register_each [NextJs.NextJsPlugin] Plugin.empty.

(** The registry of the Expo fixture of the harness. *)
Definition expo_registry (latticeVersion : string) : Plugin.InMemoryPluginRegistry :=
  register_each [ExpoEas.ExpoEasPlugin latticeVersion] Plugin.empty.

(** ** The regular expressions of the CLI

    Each regular expression of [verifyRules] is a sequence of literal
    characters and of greedy repetitions of one character class, some of
    them captured, with or without the anchors.  On this fragment the
    backtracking matcher of the language is the one below: a repetition
    first takes the longest run of its class and gives characters back one
    at a time while the rest of the pattern fails; without the start anchor
    the match is tried at every position, from the left.  A text is read
    as code points: no class used here tells a pair of surrogates from the
    code point it encodes. *)

Module RegExp.

Inductive Atom : Type :=
| Chars (literal : Text)
| Repeat (class : Z -> bool) (min : nat) (max : option nat) (captured : bool).

Record RegExp : Type := {
  anchored_start : bool;
  body : list Atom;
  anchored_end : bool
}.

(** [.] without the s flag: any character but a line terminator. *)
Definition dot (c : Z) : bool :=
  negb ((c =? 10) || (c =? 13) || (c =? 0x2028) || (c =? 0x2029))%Z.

(** [\d] *)
Definition digit (c : Z) : bool := ((48 <=? c) && (c <=? 57))%Z.

(** [[a-f0-9]] with the i flag *)
Definition hex_ignore_case (c : Z) : bool :=
  (((97 <=? c) && (c <=? 102)) || ((65 <=? c) && (c <=? 70)) || ((48 <=? c) && (c <=? 57)))%Z.

Fixpoint strip_prefix (literal s : Text) : option Text :=
  match literal, s with
  | [], _ => Some s
  | c :: literal', d :: s' => if (c =? d)%Z then strip_prefix literal' s' else None
  | _ :: _, [] => None
  end.

(** The longest run of the class at the start of [s], up to [max]. *)
Fixpoint run_length (class : Z -> bool) (max : option nat) (s : Text) : nat :=
  match s with
  | [] => 0
  | c :: rest =>
      match max with
      | Some 0 => 0
      | _ => if class c then S (run_length class (option_map Nat.pred max) rest) else 0
      end
  end.

(** The rest of the pattern after [k] repetitions, then after [k - 1], down
    to [min]. *)
Fixpoint backtrack {A : Type} (min k : nat) (rest : nat -> option A) : option A :=
  if (k <? min)%nat then None
  else match rest k with
       | Some r => Some r
       | None => match k with
                 | 0 => None
                 | S k' => backtrack min k' rest
                 end
       end.

Fixpoint match_here (atoms : list Atom) (at_end : bool) (s : Text) : option (list Text) :=
  match atoms with
  | [] => if at_end then match s with
                         | [] => Some []
                         | _ :: _ => None
                         end
          else Some []
  | Chars literal :: atoms' =>
      match strip_prefix literal s with
      | Some rest => match_here atoms' at_end rest
      | None => None
      end
  | Repeat class min max captured :: atoms' =>
      backtrack min (run_length class max s)
                (fun k => match match_here atoms' at_end (skipn k s) with
                          | Some captures =>
                              Some (if captured then firstn k s :: captures else captures)
                          | None => None
                          end)
  end.

Fixpoint search (atoms : list Atom) (at_end : bool) (s : Text) : option (list Text) :=
  match match_here atoms at_end s with
  | Some captures => Some captures
  | None => match s with
            | [] => None
            | _ :: rest => search atoms at_end rest
            end
  end.

(** The captures of the first match, if there is one. *)
Definition exec (r : RegExp) (s : Text) : option (list Text) :=
  if anchored_start r then match_here (body r) (anchored_end r) s
  else search (body r) (anchored_end r) s.

Definition test (r : RegExp) (s : Text) : bool :=
  match exec r s with
  | Some _ => true
  | None => false
  end.

End RegExp.

(** [s.includes(needle)] *)
Fixpoint includes (s needle : Text) : bool :=
  match RegExp.strip_prefix needle s with
  | Some _ => true
  | None => match s with
            | [] => false
            | _ :: rest => includes rest needle
            end
  end.

Fixpoint text_eqb (a b : Text) : bool :=
  match a, b with
  | [], [] => true
  | x :: a', y :: b' => (x =? y)%Z && text_eqb a' b'
  | _, _ => false
  end.

(** ** cli/src/index.ts: [verifyRules]

    [verifyRules] from the content of the rules file on: [rulesContent] is
    what [readFile] has decoded, [currentVersion] what [getLatticeVersion]
    returns, [expectedStack] the value of the --stack flag.  It returns
    with the four values of the header, which it logs, or throws an error
    with a message. *)

Module CliRules.

Local Open Scope string_scope.

Inductive Verified : Type :=
| Verified_ok (latticeVersion stack policyVersion configHash : Text)
| Verified_error (message : Text).

Definition text (s : string) : Text := text_of_string s.

(** The pattern of the versioning header: the comment opener, then the
    four lines [latticeVersion: ], [stack: ], [policyVersion: ] and
    [configHash: ], each followed by a captured greedy run of [.], then the
    comment closer on a line of its own. *)
Definition header : RegExp.RegExp :=
  {| RegExp.anchored_start := false;
     RegExp.body :=
       [ RegExp.Chars (text ("<!--" ++ LF ++ "latticeVersion: "));
         RegExp.Repeat RegExp.dot 0 None true;
         RegExp.Chars (text (LF ++ "stack: "));
         RegExp.Repeat RegExp.dot 0 None true;
         RegExp.Chars (text (LF ++ "policyVersion: "));
         RegExp.Repeat RegExp.dot 0 None true;
         RegExp.Chars (text (LF ++ "configHash: "));
         RegExp.Repeat RegExp.dot 0 None true;
         RegExp.Chars (text (LF ++ "-->")) ];
     RegExp.anchored_end := false |}.

(** [/^\d+\.\d+\.\d+$/] *)
Definition semver : RegExp.RegExp :=
  {| RegExp.anchored_start := true;
     RegExp.body :=
       [ RegExp.Repeat RegExp.digit 1 None false;
         RegExp.Chars (text ".");
         RegExp.Repeat RegExp.digit 1 None false;
         RegExp.Chars (text ".");
         RegExp.Repeat RegExp.digit 1 None false ];
     RegExp.anchored_end := true |}.

(** [/^[a-f0-9]{64}$/i] *)
Definition sha256_hex : RegExp.RegExp :=
  {| RegExp.anchored_start := true;
     RegExp.body := [ RegExp.Repeat RegExp.hex_ignore_case 64 (Some 64) false ];
     RegExp.anchored_end := true |}.

Definition requiredSections : list string :=
  [ "Core Operating Rules";
    "Execution Discipline";
    "Hard Stop Conditions";
    "Non-Goals";
    "Priority Order" ].

Definition truthy (arg : option Text) : bool :=
  match arg with
  | Some (_ :: _) => true
  | _ => false
  end.

Definition shown (arg : option Text) : Text :=
  match arg with
  | Some t => t
  | None => text "undefined"
  end.

(** The message of the error for a rules file without a header. *)
Definition missing_header : Text :=
  text ("Rules file missing versioning header. Expected format:" ++ LF
        ++ "<!--" ++ LF ++ "latticeVersion: <version>" ++ LF ++ "stack: <stack>" ++ LF
        ++ "policyVersion: <version>" ++ LF ++ "configHash: <hash>" ++ LF ++ "-->").

Definition verifyRules (rulesContent currentVersion : Text) (expectedStack : option Text)
    : Verified :=
  match RegExp.exec header rulesContent with
  | Some [latticeVersion; stack; policyVersion; configHash] =>
      if negb (text_eqb latticeVersion currentVersion) then
        Verified_error (text "Rules file has outdated latticeVersion. Expected: "
                        ++ currentVersion ++ text ", Got: " ++ latticeVersion)%list
      else if truthy expectedStack && negb (text_eqb stack (shown expectedStack)) then
        Verified_error (text "Rules file has incorrect stack. Expected: "
                        ++ shown expectedStack ++ text ", Got: " ++ stack)%list
      else if negb (text_eqb stack (text "nextjs"))
              && negb (text_eqb stack (text "expo-eas")) then
        Verified_error (text "Rules file has invalid stack value: " ++ stack
                        ++ text ". Must be 'nextjs' or 'expo-eas'")%list
      else if negb (RegExp.test semver policyVersion) then
        Verified_error (text "Rules file has invalid policyVersion format: " ++ policyVersion
                        ++ text ". Expected semantic version (e.g., 1.0.0)")%list
      else if negb (RegExp.test sha256_hex configHash) then
        Verified_error (text "Rules file has invalid configHash format: " ++ configHash
                        ++ text ". Expected SHA-256 hash (64 hex characters)")%list
      else
        let missingSections :=
          filter (fun section => negb (includes rulesContent (text ("## " ++ section))))
                 requiredSections in
        match missingSections with
        | _ :: _ =>
            Verified_error (text ("Rules file missing required sections: "
                                  ++ join ", " missingSections))
        | [] =>
            if text_eqb stack (text "nextjs") then
              if negb (includes rulesContent (text "## Next.js-Specific Guidelines")) then
                Verified_error
                  (text "Rules file missing required section: Next.js-Specific Guidelines")
              else if negb (includes rulesContent (text "Next.js"))
                      || negb (includes rulesContent (text "App Router")) then
                Verified_error (text "Rules file missing Next.js-specific content")
              else Verified_ok latticeVersion stack policyVersion configHash
            else if text_eqb stack (text "expo-eas") then
              if negb (includes rulesContent (text "## Expo EAS-Specific Guidelines")) then
                Verified_error
                  (text "Rules file missing required section: Expo EAS-Specific Guidelines")
              else if negb (includes rulesContent (text "Expo"))
                      || negb (includes rulesContent (text "EAS")) then
                Verified_error (text "Rules file missing Expo EAS-specific content")
              else Verified_ok latticeVersion stack policyVersion configHash
            else Verified_ok latticeVersion stack policyVersion configHash
        end
  | _ => Verified_error missing_header
  end.

End CliRules.

(** The versioning header, as the Expo plugin writes it and as the pattern
    of [verifyRules] reads it. *)
Definition versioning_header (latticeVersion stack policyVersion configHash : Text) : Text :=
  CliRules.text ("<!--" ++ LF ++ "latticeVersion: ") ++ latticeVersion
  ++ CliRules.text (LF ++ "stack: ") ++ stack
  ++ CliRules.text (LF ++ "policyVersion: ") ++ policyVersion
  ++ CliRules.text (LF ++ "configHash: ") ++ configHash
  ++ CliRules.text (LF ++ "-->").

(** What a pack for the stack must have for [verifyRules] to accept it,
    besides a header it can read. *)
Definition expo_sections : list string :=
  map (fun section => ("## " ++ section)%string) CliRules.requiredSections
  ++ ["## Expo EAS-Specific Guidelines"; "Expo"; "EAS"]%string.

(** A string of ASCII characters without a line break, as a version is. *)
Definition one_line (s : string) : bool :=
  string_forallb (fun c => let n := N_of_ascii c in
                           (n <? 128)%N && negb (n =? 10)%N && negb (n =? 13)%N) s.

(** ASCII without a carriage return. *)
Definition ascii_no_CR (s : string) : bool :=
  string_forallb (fun c => let n := N_of_ascii c in (n <? 128)%N && negb (n =? 13)%N) s.

(** The config that the harness validates for its Expo fixture. *)
Definition expo_startup : Config.ProjectConfig :=
  [("projectType", "expo-eas"); ("packageManager", "npm"); ("strictnessPreset", "startup");
   ("testingLevel", "none"); ("billingProvider", "none"); ("analyticsProvider", "none");
   ("observability", "none")]%string.

(** ** cli/src/index.ts: [generate]

    [generate] up to the pack that it hands to [writeFiles]: the choice of
    the config, the registry, the policy and the render.  [configFile] is
    the JSON parsed from the file of the --config flag, [None] without the
    flag; [defaultConfigFile] is the JSON parsed from .lattice/config.json,
    [None] when reading or parsing that file throws.  Whatever is thrown
    while the default file is read, parsed and validated is caught, and the
    fallback literal is validated instead. *)

Module CliGenerate.

Local Open Scope string_scope.

Inductive Outcome : Type :=
| Invalid (issues : list (list string))
| Rendered (config : Config.ProjectConfig) (pack : Result Renderer.RenderResult).

Definition fallback : Json :=
  JObject [("projectType", JString "nextjs"); ("strictnessPreset", JString "startup")].

Definition config (configFile defaultConfigFile : option Json) : Zod.Outcome :=
  match configFile with
  | Some input => ConfigSchema.validateProjectConfig input
  | None =>
      match defaultConfigFile with
      | Some input =>
          match ConfigSchema.validateProjectConfig input with
          | Zod.Parsed_ok config => Zod.Parsed_ok config
          | Zod.ZodError _ => ConfigSchema.validateProjectConfig fallback
          end
      | None => ConfigSchema.validateProjectConfig fallback
      end
  end.

Definition generate (localeCompare : string -> string -> comparison)
    (configFile defaultConfigFile : option Json) : Outcome :=
  match config configFile defaultConfigFile with
  | Zod.ZodError issues => Invalid issues
  | Zod.Parsed_ok config =>
      Rendered config
        (registry <- Plugin.register Plugin.empty NextJs.NextJsPlugin ;;
         let policy := Policy.resolvePolicy config in
         Renderer.render localeCompare registry config policy None)
  end.

End CliGenerate.

(** ** Unicode scalar values and the states of the UTF-8 decoder *)

(** A code point that is not a surrogate. *)
Definition is_scalar (c : Z) : Prop :=
  (0 <= c <= 0x10FFFF)%Z /\ ~ (0xD800 <= c <= 0xDFFF)%Z.

(** The states that the decoder reaches from its initial state: between two
    characters, or inside a sequence of two, three or four bytes, with the
    bits read so far. *)
Definition utf8_state_ok (st : Utf8State) : Prop :=
  let cp := u_cp st in
  let plain := u_lower st = 0x80%Z /\ u_upper st = 0xBF%Z in
  (u_needed st = 0%Z
   \/ (u_needed st = 1 /\ u_seen st = 0 /\ 2 <= cp < 32 /\ plain)
   \/ (u_needed st = 2 /\ u_seen st = 0 /\ 0 <= cp < 16
       /\ u_lower st = (if cp =? 0 then 0xA0 else 0x80)
       /\ u_upper st = (if cp =? 13 then 0x9F else 0xBF))
   \/ (u_needed st = 2 /\ u_seen st = 1 /\ 0x20 <= cp < 0x400
       /\ ~ (0x360 <= cp <= 0x37F) /\ plain)
   \/ (u_needed st = 3 /\ u_seen st = 0 /\ 0 <= cp <= 4
       /\ u_lower st = (if cp =? 0 then 0x90 else 0x80)
       /\ u_upper st = (if cp =? 4 then 0x8F else 0xBF))
   \/ (u_needed st = 3 /\ u_seen st = 1 /\ 0x10 <= cp <= 0x10F /\ plain)
   \/ (u_needed st = 3 /\ u_seen st = 2 /\ 0x400 <= cp <= 0x43FF /\ plain))%Z.


(* ================================================================== *)
(** * Part IV.  Properties                                            *)
(* ================================================================== *)

(** ** Sets *)

Lemma Set_has_In (s : list string) (x : string) : Set_has s x = true <-> In x s.
Proof.
  unfold Set_has. rewrite existsb_exists. split.
  - intros [y [Hy Hxy]]. apply String.eqb_eq in Hxy. now subst.
  - intros H. exists x. split; [assumption | apply String.eqb_refl].
Qed.

Lemma Set_has_false (s : list string) (x : string) : Set_has s x = false <-> ~ In x s.
Proof.
  rewrite <- Set_has_In. destruct (Set_has s x); split; congruence.
Qed.

Lemma Set_add_In (s : list string) (x y : string) : In y (Set_add s x) <-> In y s \/ y = x.
Proof.
  unfold Set_add. destruct (Set_has s x) eqn:E.
  - apply Set_has_In in E. split; [tauto | intros [H | ->]; assumption].
  - rewrite in_app_iff. simpl. intuition congruence.
Qed.

Lemma Set_add_NoDup (s : list string) (x : string) : NoDup s -> NoDup (Set_add s x).
Proof.
  intros H. unfold Set_add. destruct (Set_has s x) eqn:E; [assumption |].
  apply Set_has_false in E.
  apply NoDup_app; [assumption | constructor; [intros [] | constructor] |].
  intros a Ha [<- | []]. contradiction.
Qed.

Lemma Set_delete_In (s : list string) (x y : string) :
  In y (Set_delete s x) <-> In y s /\ y <> x.
Proof.
  unfold Set_delete. rewrite filter_In, negb_true_iff, String.eqb_neq. intuition congruence.
Qed.

Lemma Set_delete_absent (s : list string) (x : string) : ~ In x s -> Set_delete s x = s.
Proof.
  unfold Set_delete. induction s as [| y s IH]; simpl; intros H; [reflexivity |].
  destruct (String.eqb_spec x y) as [-> | Hne]; simpl.
  - exfalso. apply H. now left.
  - f_equal. apply IH. intros Hin. apply H. now right.
Qed.

Lemma Set_delete_add (s : list string) (x : string) :
  ~ In x s -> Set_delete (Set_add s x) x = s.
Proof.
  intros H. unfold Set_add. rewrite (proj2 (Set_has_false s x) H).
  unfold Set_delete. rewrite filter_app. simpl. rewrite String.eqb_refl. simpl.
  rewrite app_nil_r. now apply Set_delete_absent.
Qed.

Lemma fold_Set_add_In (l s : list string) (x : string) :
  In x (fold_left Set_add l s) <-> In x s \/ In x l.
Proof.
  revert s. induction l as [| y l IH]; simpl; intros s; [tauto |].
  rewrite IH, Set_add_In. intuition congruence.
Qed.

Lemma fold_Set_add_NoDup (l s : list string) : NoDup s -> NoDup (fold_left Set_add l s).
Proof.
  revert s. induction l as [| y l IH]; simpl; intros s H; [assumption |].
  apply IH. now apply Set_add_NoDup.
Qed.

Lemma Set_from_In (l : list string) (x : string) : In x (Set_from l) <-> In x l.
Proof. unfold Set_from. rewrite fold_Set_add_In. simpl. tauto. Qed.

Lemma Set_from_NoDup (l : list string) : NoDup (Set_from l).
Proof. apply fold_Set_add_NoDup. constructor. Qed.

Lemma fold_Set_add_fresh (l s : list string) :
  NoDup (s ++ l) -> fold_left Set_add l s = s ++ l.
Proof.
  revert s. induction l as [| y l IH]; simpl; intros s H.
  - now rewrite app_nil_r.
  - assert (Hy : ~ In y s).
    { intros Hin. apply NoDup_remove_2 in H. apply H. apply in_or_app. now left. }
    unfold Set_add at 2. rewrite (proj2 (Set_has_false s y) Hy).
    rewrite IH; rewrite <- app_assoc; simpl; [reflexivity | assumption].
Qed.

Lemma Set_from_NoDup_id (l : list string) : NoDup l -> Set_from l = l.
Proof. intros H. unfold Set_from. now rewrite fold_Set_add_fresh. Qed.

(** ** Tables *)

Section DictFacts.

Variable V : Type.
Implicit Types (d : Dict V) (k : string) (v : V).

Lemma dict_get_In d k v : dict_get d k = Some v -> In (k, v) d.
Proof.
  induction d as [| [k' v'] d IH]; simpl; [discriminate |].
  destruct (String.eqb_spec k k') as [-> | Hne]; intros H.
  - injection H as ->. now left.
  - right. now apply IH.
Qed.

Lemma dict_get_None d k : dict_get d k = None <-> ~ In k (dict_keys d).
Proof.
  induction d as [| [k' v'] d IH]; simpl; [tauto |].
  destruct (String.eqb_spec k k') as [-> | Hne].
  - split; [discriminate | intros H; exfalso; apply H; now left].
  - rewrite IH. intuition congruence.
Qed.

Lemma dict_get_Some_key d k v : dict_get d k = Some v -> In k (dict_keys d).
Proof.
  intros H. apply dict_get_In in H. unfold dict_keys.
  change k with (fst (k, v)). now apply in_map.
Qed.

Lemma dict_has_In d k : dict_has d k = true <-> In k (dict_keys d).
Proof.
  unfold dict_has. destruct (dict_get d k) eqn:E.
  - split; [intros _; eapply dict_get_Some_key; eassumption | reflexivity].
  - apply dict_get_None in E. split; [discriminate | contradiction].
Qed.

Lemma dict_In_get d k v : NoDup (dict_keys d) -> In (k, v) d -> dict_get d k = Some v.
Proof.
  induction d as [| [k' v'] d IH]; simpl; intros Hnd Hin; [contradiction |].
  inversion Hnd as [| ? ? Hk' Hnd']; subst.
  destruct Hin as [Heq | Hin].
  - injection Heq as -> ->. now rewrite String.eqb_refl.
  - destruct (String.eqb_spec k k') as [-> | Hne].
    + exfalso. apply Hk'. change k' with (fst (k', v)). now apply in_map.
    + now apply IH.
Qed.

Lemma dict_get_set d k v k' :
  dict_get (dict_set d k v) k' = if String.eqb k' k then Some v else dict_get d k'.
Proof.
  induction d as [| [k0 v0] d IH]; simpl.
  - reflexivity.
  - destruct (String.eqb_spec k k0) as [-> | Hne]; simpl.
    + destruct (String.eqb_spec k' k0); reflexivity.
    + rewrite IH. destruct (String.eqb_spec k' k0) as [-> | Hne'].
      * destruct (String.eqb_spec k0 k); [congruence | reflexivity].
      * reflexivity.
Qed.

Lemma dict_set_fresh d k v : ~ In k (dict_keys d) -> dict_set d k v = d ++ [(k, v)].
Proof.
  induction d as [| [k0 v0] d IH]; simpl; intros H; [reflexivity |].
  destruct (String.eqb_spec k k0) as [-> | Hne].
  - exfalso. apply H. now left.
  - f_equal. apply IH. intros Hin. apply H. now right.
Qed.

Lemma dict_set_keys_present d k v : In k (dict_keys d) -> dict_keys (dict_set d k v) = dict_keys d.
Proof.
  induction d as [| [k0 v0] d IH]; simpl; intros H; [contradiction |].
  destruct (String.eqb_spec k k0) as [-> | Hne]; simpl; [reflexivity |].
  f_equal. apply IH. destruct H as [H | H]; [congruence | assumption].
Qed.

Lemma dict_set_keys_In d k v k' :
  In k' (dict_keys (dict_set d k v)) <-> In k' (dict_keys d) \/ k' = k.
Proof.
  rewrite <- !dict_has_In. unfold dict_has. rewrite dict_get_set.
  destruct (String.eqb_spec k' k) as [-> | Hne].
  - intuition.
  - destruct (dict_get d k'); intuition congruence.
Qed.

Lemma dict_set_NoDup d k v : NoDup (dict_keys d) -> NoDup (dict_keys (dict_set d k v)).
Proof.
  intros H. destruct (in_dec string_dec k (dict_keys d)) as [Hin | Hout].
  - now rewrite dict_set_keys_present.
  - rewrite dict_set_fresh by assumption. unfold dict_keys. rewrite map_app. simpl.
    apply NoDup_app; [assumption | constructor; [intros [] | constructor] |].
    intros a Ha [<- | []]. contradiction.
Qed.

End DictFacts.

(** ** The registry *)

Lemma registry_ok_ids (registry : Plugin.InMemoryPluginRegistry) :
  registry_ok registry ->
  map Plugin.id (Plugin.getAll registry) = dict_keys (Plugin.plugins registry).
Proof.
  destruct registry as [l]. intros [_ Hid]. unfold Plugin.getAll, dict_keys. simpl in *.
  rewrite map_map.
  induction Hid as [| kp l Hkp _ IH]; simpl; [reflexivity |].
  rewrite IH. f_equal. symmetry. exact Hkp.
Qed.

Lemma registry_ok_get (registry : Plugin.InMemoryPluginRegistry) (i : string)
    (p : Plugin.Plugin) :
  registry_ok registry -> Plugin.get registry i = Some p -> Plugin.id p = i.
Proof.
  intros [_ Hid] H. apply dict_get_In in H.
  rewrite Forall_forall in Hid. symmetry. exact (Hid _ H).
Qed.

Lemma register_registry_ok (registry registry' : Plugin.InMemoryPluginRegistry)
    (plugin : Plugin.Plugin) :
  registry_ok registry -> Plugin.register registry plugin = Ok registry' ->
  registry_ok registry'.
Proof.
  intros [Hnd Hid]. unfold Plugin.register.
  destruct (dict_has (Plugin.plugins registry) (Plugin.id plugin)) eqn:E; [discriminate |].
  intros H. injection H as <-. simpl.
  assert (Hout : ~ In (Plugin.id plugin) (dict_keys (Plugin.plugins registry))).
  { rewrite <- dict_has_In. congruence. }
  split.
  - now apply dict_set_NoDup.
  - rewrite dict_set_fresh by assumption. apply Forall_app. split; [assumption |].
    constructor; [reflexivity | constructor].
Qed.

Lemma register_each_registry_ok (ps : list Plugin.Plugin) :
  forall registry, registry_ok registry -> registry_ok (register_each ps registry).
Proof.
  induction ps as [| p ps IH]; simpl; intros registry H; [assumption |].
  apply IH. destruct (Plugin.register registry p) eqn:E; try assumption.
  eapply register_registry_ok; eassumption.
Qed.

Lemma empty_registry_ok : registry_ok Plugin.empty.
Proof. split; simpl; constructor. Qed.

(** C9.  [register] fails exactly when the id is already registered, and then
    with the duplicate-id error; a failed call leaves the registry as it was
    for the calls that follow; a successful call makes [get] return the
    plugin, keeps the other ids and appends to [getAll]; whatever the
    sequence of registrations, the registered ids are distinct. *)
Theorem register_keeps_ids_unique (registry : Plugin.InMemoryPluginRegistry)
    (plugin : Plugin.Plugin) :
  ((exists e, Plugin.register registry plugin = Throw e)
   <-> Plugin.get registry (Plugin.id plugin) <> None)
  /\ (Plugin.get registry (Plugin.id plugin) <> None ->
      Plugin.register registry plugin = Throw (DuplicatePluginId (Plugin.id plugin))
      /\ forall ps, register_each (plugin :: ps) registry = register_each ps registry)
  /\ (Plugin.get registry (Plugin.id plugin) = None ->
      exists registry',
        Plugin.register registry plugin = Ok registry'
        /\ Plugin.get registry' (Plugin.id plugin) = Some plugin
        /\ (forall other, other <> Plugin.id plugin ->
                          Plugin.get registry' other = Plugin.get registry other)
        /\ Plugin.getAll registry' = Plugin.getAll registry ++ [plugin])
  /\ (forall ps, registry_ok registry ->
                 NoDup (map Plugin.id (Plugin.getAll (register_each ps registry))))
  /\ (forall ps, NoDup (map Plugin.id (Plugin.getAll (register_each ps Plugin.empty)))).
Proof.
  assert (Hreg : forall ps r, registry_ok r ->
                              NoDup (map Plugin.id (Plugin.getAll (register_each ps r)))).
  { intros ps r Hr. pose proof (register_each_registry_ok ps Hr) as Hok.
    rewrite (registry_ok_ids Hok). exact (proj1 Hok). }
  split; [| split; [| split; [| split]]].
  - unfold Plugin.register, Plugin.get, dict_has.
    destruct (dict_get (Plugin.plugins registry) (Plugin.id plugin)); split.
    + discriminate.
    + intros _. eexists. reflexivity.
    + intros [e He]. discriminate.
    + intros H. now contradiction H.
  - unfold Plugin.get. intros H. split.
    + unfold Plugin.register, dict_has.
      destruct (dict_get (Plugin.plugins registry) (Plugin.id plugin));
        [reflexivity | now contradiction H].
    + intros ps. simpl. unfold Plugin.register, dict_has.
      destruct (dict_get (Plugin.plugins registry) (Plugin.id plugin));
        [reflexivity | now contradiction H].
  - unfold Plugin.get, Plugin.register, dict_has. intros E. rewrite E.
    eexists. split; [reflexivity |]. simpl. split; [| split].
    + rewrite dict_get_set. now rewrite String.eqb_refl.
    + intros other Hne. rewrite dict_get_set.
      destruct (String.eqb_spec other (Plugin.id plugin)); [contradiction | reflexivity].
    + unfold Plugin.getAll. simpl. rewrite dict_set_fresh.
      * now rewrite map_app.
      * now apply dict_get_None.
  - intros ps. apply Hreg.
  - intros ps. apply Hreg, empty_registry_ok.
Qed.

(** ** The policy *)

Lemma overlay_nested (base : Policy.Policy) (preset : Policy.PartialPolicy) :
  Policy.boundaryValidationRequired (Policy.runtimeSafety (Policy.overlay base (Some preset)))
  = Policy.spread (Policy.boundaryValidationRequired (Policy.runtimeSafety base))
      (match Policy.runtimeSafety' preset with
       | Some g => Policy.boundaryValidationRequired' g
       | None => None
       end)
  /\ Policy.codeownersRequired (Policy.process (Policy.overlay base (Some preset)))
     = Policy.spread (Policy.codeownersRequired (Policy.process base))
         (match Policy.process' preset with
          | Some g => Policy.codeownersRequired' g
          | None => None
          end)
  /\ Policy.auditTrailRequired (Policy.process (Policy.overlay base (Some preset)))
     = Policy.spread (Policy.auditTrailRequired (Policy.process base))
         (match Policy.process' preset with
          | Some g => Policy.auditTrailRequired' g
          | None => None
          end).
Proof. repeat split. Qed.

(** C8.  [resolvePolicy] starts from the base policy and lays the preset
    that [strictnessPreset] selects over it.  In the overlay of any base and
    any preset, a top-level property comes from the preset when the preset
    has it and from the base otherwise, and the two nested groups are merged
    flag by flag: the boundary-validation flag of the runtime safety, and
    the code-owners and audit-trail flags of the process, each come from the
    preset's group when the preset has the group and the group has the flag,
    and from the base otherwise, so a preset that sets one flag of a group
    keeps the base's other flags.  The resolved policies are, in full:
    startup, pro and enterprise with required checks that grow strictly,
    the version posture latest-major, pinned-minor, pinned-exact, boundary
    validation required for pro and enterprise, code owners and audit trail
    required for enterprise only, and the base's version; and the base
    policy itself when the config selects no preset. *)
Theorem resolvePolicy_presets (config : Config.ProjectConfig) :
  let resolved := Policy.resolvePolicy config in
  let checks key := Policy.requiredChecks (Policy.resolvePolicy [("strictnessPreset"%string, key)]) in
  (forall base preset,
     Policy.version (Policy.overlay base (Some preset))
     = match Policy.version' preset with Some v => v | None => Policy.version base end
     /\ Policy.requiredChecks (Policy.overlay base (Some preset))
        = match Policy.requiredChecks' preset with
          | Some c => c
          | None => Policy.requiredChecks base
          end
     /\ Policy.versionPosture (Policy.overlay base (Some preset))
        = match Policy.versionPosture' preset with
          | Some v => v
          | None => Policy.versionPosture base
          end)
  /\ (forall base, Policy.overlay base None = base)
  /\ (forall base preset flag,
        Policy.runtimeSafety' preset
        = Some {| Policy.boundaryValidationRequired' := Some flag |} ->
        Policy.boundaryValidationRequired
          (Policy.runtimeSafety (Policy.overlay base (Some preset))) = flag)
  /\ (forall base preset,
        Policy.runtimeSafety' preset = None
        \/ Policy.runtimeSafety' preset
           = Some {| Policy.boundaryValidationRequired' := None |} ->
        Policy.runtimeSafety (Policy.overlay base (Some preset)) = Policy.runtimeSafety base)
  /\ (forall base preset flag,
        Policy.process' preset
        = Some {| Policy.codeownersRequired' := Some flag; Policy.auditTrailRequired' := None |} ->
        Policy.codeownersRequired (Policy.process (Policy.overlay base (Some preset))) = flag
        /\ Policy.auditTrailRequired (Policy.process (Policy.overlay base (Some preset)))
           = Policy.auditTrailRequired (Policy.process base))
  /\ (forall base preset flag,
        Policy.process' preset
        = Some {| Policy.codeownersRequired' := None; Policy.auditTrailRequired' := Some flag |} ->
        Policy.auditTrailRequired (Policy.process (Policy.overlay base (Some preset))) = flag
        /\ Policy.codeownersRequired (Policy.process (Policy.overlay base (Some preset)))
           = Policy.codeownersRequired (Policy.process base))
  /\ (forall base preset,
        Policy.process' preset = None ->
        Policy.process (Policy.overlay base (Some preset)) = Policy.process base)
  /\ (dict_get config "strictnessPreset"%string = Some "startup"%string ->
      resolved
      = {| Policy.version := "1.0.0";
           Policy.requiredChecks := ["lint"; "typecheck"]%string;
           Policy.versionPosture := Policy.latest_major;
           Policy.runtimeSafety := {| Policy.boundaryValidationRequired := false |};
           Policy.process := {| Policy.codeownersRequired := false;
                                Policy.auditTrailRequired := false |} |})
  /\ (dict_get config "strictnessPreset"%string = Some "pro"%string ->
      resolved
      = {| Policy.version := "1.0.0";
           Policy.requiredChecks := ["lint"; "typecheck"; "test"; "build"]%string;
           Policy.versionPosture := Policy.pinned_minor;
           Policy.runtimeSafety := {| Policy.boundaryValidationRequired := true |};
           Policy.process := {| Policy.codeownersRequired := false;
                                Policy.auditTrailRequired := false |} |})
  /\ (dict_get config "strictnessPreset"%string = Some "enterprise"%string ->
      resolved
      = {| Policy.version := "1.0.0";
           Policy.requiredChecks :=
             ["lint"; "typecheck"; "test"; "build"; "e2e"; "security"; "audit"]%string;
           Policy.versionPosture := Policy.pinned_exact;
           Policy.runtimeSafety := {| Policy.boundaryValidationRequired := true |};
           Policy.process := {| Policy.codeownersRequired := true;
                                Policy.auditTrailRequired := true |} |})
  /\ (match dict_get config "strictnessPreset"%string with
      | Some key => key <> "startup"%string /\ key <> "pro"%string
                    /\ key <> "enterprise"%string
      | None => True
      end ->
      resolved
      = {| Policy.version := "1.0.0";
           Policy.requiredChecks := [];
           Policy.versionPosture := Policy.latest_major;
           Policy.runtimeSafety := {| Policy.boundaryValidationRequired := false |};
           Policy.process := {| Policy.codeownersRequired := false;
                                Policy.auditTrailRequired := false |} |})
  /\ strict_subset (checks "startup"%string) (checks "pro"%string)
  /\ strict_subset (checks "pro"%string) (checks "enterprise"%string).
Proof.
  intros resolved checks. subst resolved checks.
  split.
  { intros base preset. repeat split. }
  split.
  { intros base. unfold Policy.overlay, Policy.spread.
    destruct base as [v c p [b] [co au]]. reflexivity. }
  split.
  { intros base preset flag H. pose proof (overlay_nested base preset) as [Hb _].
    rewrite Hb, H. reflexivity. }
  split.
  { intros base preset H. pose proof (overlay_nested base preset) as [Hb _].
    destruct (Policy.runtimeSafety (Policy.overlay base (Some preset))) as [b] eqn:Eo.
    destruct (Policy.runtimeSafety base) as [b0] eqn:Eb.
    cbn [Policy.boundaryValidationRequired] in Hb. rewrite Hb.
    destruct H as [H | H]; rewrite H; reflexivity. }
  split.
  { intros base preset flag H. pose proof (overlay_nested base preset) as [_ [Hc Ha]].
    rewrite Hc, Ha, H. split; reflexivity. }
  split.
  { intros base preset flag H. pose proof (overlay_nested base preset) as [_ [Hc Ha]].
    rewrite Hc, Ha, H. split; reflexivity. }
  split.
  { intros base preset H. unfold Policy.overlay. rewrite H. now destruct (Policy.process base). }
  split; [| split; [| split; [| split]]].
  1-3: intros H; unfold Policy.resolvePolicy; rewrite H; reflexivity.
  { unfold Policy.resolvePolicy.
    destruct (dict_get config "strictnessPreset") as [key |]; [| reflexivity].
    intros [H1 [H2 H3]]. unfold Policy.PRESET_POLICIES. cbn [dict_get].
    destruct (String.eqb_spec key "startup"); [contradiction |].
    destruct (String.eqb_spec key "pro"); [contradiction |].
    destruct (String.eqb_spec key "enterprise"); [contradiction | reflexivity]. }
  split; split.
  - intros x Hx. simpl in *. tauto.
  - intros H. specialize (H "test"%string). simpl in H.
    assert (Hin : "test"%string = "test"%string \/ False) by now left.
    destruct H as [H | [H | []]]; [tauto | discriminate H | discriminate H].
  - intros x Hx. simpl in *. tauto.
  - intros H. specialize (H "e2e"%string). simpl in H.
    destruct H as [H | [H | [H | [H | []]]]]; [tauto | discriminate H ..].
Qed.

(** ** Line endings *)

Lemma replace_cr_cons (c : Z) (text : Text) :
  replace_cr (c :: text) = (if (c =? 13)%Z then 10%Z else c) :: replace_cr text.
Proof. reflexivity. Qed.

Lemma replace_crlf_cons2 (c d : Z) (rest : Text) :
  replace_crlf (c :: d :: rest)
  = if ((c =? 13) && (d =? 10))%Z then 10%Z :: replace_crlf rest
    else c :: replace_crlf (d :: rest).
Proof. reflexivity. Qed.

Lemma lf_only_cons2 (c d : Z) (rest : Text) :
  lf_only (c :: d :: rest)
  = if (c =? 13)%Z
    then 10%Z :: (if (d =? 10)%Z then lf_only rest else lf_only (d :: rest))
    else c :: lf_only (d :: rest).
Proof. reflexivity. Qed.

Lemma replace_cr_crlf_length (n : nat) :
  forall text, List.length text <= n -> replace_cr (replace_crlf text) = lf_only text.
Proof.
  induction n as [| n IH]; intros text Hlen.
  - destruct text; [reflexivity | simpl in Hlen; lia].
  - destruct text as [| c [| d rest]]; [reflexivity | |].
    + simpl. destruct (c =? 13)%Z; reflexivity.
    + assert (H1 : replace_cr (replace_crlf (d :: rest)) = lf_only (d :: rest)).
      { apply IH. simpl in *. lia. }
      assert (H2 : replace_cr (replace_crlf rest) = lf_only rest).
      { apply IH. simpl in *. lia. }
      rewrite replace_crlf_cons2, lf_only_cons2.
      destruct (c =? 13)%Z eqn:Ec, (d =? 10)%Z eqn:Ed; simpl andb; cbv iota;
        rewrite replace_cr_cons; rewrite ?Ec, ?H1, ?H2; reflexivity.
Qed.

Lemma replace_cr_crlf (text : Text) : replace_cr (replace_crlf text) = lf_only text.
Proof. apply (replace_cr_crlf_length (n := List.length text)). lia. Qed.

Lemma replace_cr_no_CR (text : Text) : ~ In 13%Z (replace_cr text).
Proof.
  unfold replace_cr. rewrite in_map_iff. intros [c [Hc _]].
  destruct (c =? 13)%Z eqn:E; [discriminate |].
  apply Z.eqb_neq in E. congruence.
Qed.

Lemma lor_high_bit_not_CR (hi x : Z) : Z.testbit hi 7 = true -> Z.lor hi x <> 13%Z.
Proof.
  intros Hbit Heq.
  assert (H : Z.testbit (Z.lor hi x) 7 = Z.testbit 13 7) by now rewrite Heq.
  rewrite Z.lor_spec, Hbit in H. discriminate H.
Qed.

Lemma utf8_encode_cp_no_CR (cp : Z) : cp <> 13%Z -> ~ In 13%Z (utf8_encode_cp cp).
Proof.
  intros Hcp. unfold utf8_encode_cp.
  repeat match goal with
         | |- context [if ?b then _ else _] => destruct b
         end;
    cbn [In]; intros H;
    repeat match goal with
           | H : _ \/ _ |- _ => destruct H as [H | H]
           | H : False |- _ => contradiction
           | H : Z.lor _ _ = 13%Z |- _ => now apply lor_high_bit_not_CR in H
           | H : ?a = 13%Z |- _ => first [discriminate H | congruence]
           end.
Qed.

Lemma Buffer_from_no_CR (text : Text) : ~ In 13%Z text -> ~ In 13%Z (Buffer_from text).
Proof.
  unfold Buffer_from. rewrite in_flat_map. intros Hno [cp [Hcp Hin]].
  apply (@utf8_encode_cp_no_CR cp); [| assumption]. intros ->. contradiction.
Qed.

Lemma normalizeLineEndings_no_CR (content : Buffer) :
  ~ In 13%Z (Renderer.normalizeLineEndings content).
Proof. unfold Renderer.normalizeLineEndings. apply Buffer_from_no_CR, replace_cr_no_CR. Qed.

Lemma utf8_decode_ascii (content : Buffer) :
  Forall is_ascii_byte content -> utf8_decode utf8_init content = content.
Proof.
  induction 1 as [| b rest [Hlo Hhi] _ IH]; [reflexivity |].
  simpl. unfold utf8_lead.
  destruct (Z.leb_spec 0 b); [| lia]. destruct (Z.leb_spec b 127); [| lia].
  simpl. now rewrite IH.
Qed.

Lemma Buffer_from_ascii (text : Text) :
  Forall is_ascii_byte text -> Buffer_from text = text.
Proof.
  induction 1 as [| b rest [Hlo Hhi] _ IH]; [reflexivity |].
  unfold Buffer_from in *. simpl. rewrite IH. unfold utf8_encode_cp.
  destruct (Z.ltb_spec b 128); [reflexivity | lia].
Qed.

Lemma lf_only_ascii_length (n : nat) :
  forall text, List.length text <= n -> Forall is_ascii_byte text ->
               Forall is_ascii_byte (lf_only text).
Proof.
  assert (Hlf : is_ascii_byte 10) by (unfold is_ascii_byte; lia).
  induction n as [| n IH]; intros text Hlen Hall.
  - destruct text; [constructor | simpl in Hlen; lia].
  - destruct text as [| c rest]; [constructor |].
    inversion Hall as [| ? ? Hc Hrest]; subst. simpl in Hlen.
    simpl. destruct (c =? 13)%Z.
    + constructor; [assumption |].
      destruct rest as [| d rest']; [constructor |].
      inversion Hrest; subst. simpl in Hlen.
      destruct (d =? 10)%Z; apply IH; simpl; try lia; assumption.
    + constructor; [assumption |]. apply IH; [lia | assumption].
Qed.

Lemma normalizeLineEndings_ascii (content : Buffer) :
  Forall is_ascii_byte content -> Renderer.normalizeLineEndings content = lf_only content.
Proof.
  intros H. unfold Renderer.normalizeLineEndings, Buffer_toString.
  rewrite utf8_decode_ascii by assumption. rewrite replace_cr_crlf.
  apply Buffer_from_ascii. now apply (lf_only_ascii_length (n := List.length content)).
Qed.

(** ** Sorting *)

Section SortFacts.

Variable A : Type.
Variable cmp : A -> A -> comparison.

Lemma sort_insert_perm (x : A) (l : list A) : Permutation (sort_insert cmp x l) (x :: l).
Proof.
  induction l as [| y l IH]; simpl; [reflexivity |].
  destruct (cmp x y); try reflexivity.
  rewrite IH. apply perm_swap.
Qed.

Lemma Array_sort_perm (l : list A) : Permutation (Array_sort cmp l) l.
Proof.
  induction l as [| x l IH]; simpl; [reflexivity |].
  rewrite sort_insert_perm. now constructor.
Qed.

Lemma Array_sort_In (l : list A) (x : A) : In x (Array_sort cmp l) <-> In x l.
Proof.
  split; apply Permutation_in; [apply Array_sort_perm | symmetry; apply Array_sort_perm].
Qed.

Lemma Array_sort_length (l : list A) : List.length (Array_sort cmp l) = List.length l.
Proof. apply Permutation_length, Array_sort_perm. Qed.

End SortFacts.

Lemma filter_partition_perm (A : Type) (f : A -> bool) (l : list A) :
  Permutation (filter f l ++ filter (fun x => negb (f x)) l) l.
Proof.
  induction l as [| x l IH]; simpl; [reflexivity |].
  destruct (f x); simpl.
  - now constructor.
  - rewrite <- Permutation_middle. now constructor.
Qed.

(** ** Enumeration of an object's keys *)

Lemma index_keys_snd (ks : list string) : map snd (index_keys ks) = filter is_index_key ks.
Proof.
  unfold index_keys, is_index_key. induction ks as [| k ks IH]; simpl; [reflexivity |].
  destruct (array_index k); simpl; now rewrite IH.
Qed.

Lemma own_keys_perm (ks : list string) : Permutation (own_keys ks) ks.
Proof.
  unfold own_keys.
  rewrite (Permutation_map snd (Array_sort_perm _ (index_keys ks))).
  rewrite index_keys_snd. apply filter_partition_perm.
Qed.

Lemma Object_keys_In (V : Type) (o : Dict V) (k : string) :
  In k (Object_keys o) <-> In k (dict_keys o).
Proof.
  unfold Object_keys.
  split; apply Permutation_in; [apply own_keys_perm | symmetry; apply own_keys_perm].
Qed.

Lemma Object_keys_NoDup (V : Type) (o : Dict V) :
  NoDup (dict_keys o) -> NoDup (Object_keys o).
Proof.
  intros H. unfold Object_keys.
  eapply Permutation_NoDup; [symmetry; apply own_keys_perm | assumption].
Qed.

Lemma Object_entries_In (V : Type) (o : Dict V) (k : string) (v : V) :
  In (k, v) (Object_entries o) <-> dict_get o k = Some v.
Proof.
  unfold Object_entries. rewrite in_flat_map. split.
  - intros [k0 [_ Hin]]. destruct (dict_get o k0) eqn:E; simpl in Hin; [| contradiction].
    destruct Hin as [Heq | []]. injection Heq as -> ->. assumption.
  - intros H. exists k. split.
    + apply Object_keys_In. eapply dict_get_Some_key; eassumption.
    + rewrite H. now left.
Qed.

Lemma entries_of_keys_fst (V : Type) (o : Dict V) (ks : list string) :
  (forall k, In k ks -> In k (dict_keys o)) ->
  map fst (flat_map (fun k => match dict_get o k with
                              | Some v => [(k, v)]
                              | None => []
                              end) ks) = ks.
Proof.
  induction ks as [| k ks IH]; simpl; intros H; [reflexivity |].
  rewrite map_app, IH by (intros; apply H; now right).
  destruct (dict_get o k) eqn:E; [reflexivity |].
  apply dict_get_None in E. exfalso. apply E, H. now left.
Qed.

Lemma Object_entries_keys (V : Type) (o : Dict V) :
  map fst (Object_entries o) = Object_keys o.
Proof.
  unfold Object_entries. apply entries_of_keys_fst. intros k. apply Object_keys_In.
Qed.

(** The lookup of a table is fixed by its bindings. *)
Lemma dict_get_same_bindings (V : Type) (l d : Dict V) :
  (forall k v, In (k, v) l -> dict_get d k = Some v) ->
  (forall k, In k (dict_keys d) -> In k (dict_keys l)) ->
  forall k, dict_get l k = dict_get d k.
Proof.
  intros Hl Hd k. destruct (dict_get l k) as [v |] eqn:E.
  - symmetry. apply Hl. now apply dict_get_In.
  - destruct (dict_get d k) as [v |] eqn:E'; [| reflexivity].
    apply dict_get_None in E. exfalso. apply E, Hd. eapply dict_get_Some_key; eassumption.
Qed.

(** ** Writing a list of entries into a table *)

Section FoldSet.

Variables (V W : Type) (g : V -> W).

Local Abbreviation step := (fun (o : Dict W) (kv : string * V) => dict_set o (fst kv) (g (snd kv))).

Lemma fold_set_NoDup (l : Dict V) (acc : Dict W) :
  NoDup (dict_keys acc) -> NoDup (dict_keys (fold_left step l acc)).
Proof.
  revert acc. induction l as [| kv l IH]; simpl; intros acc H; [assumption |].
  apply IH. now apply dict_set_NoDup.
Qed.

Lemma fold_set_get (l : Dict V) (acc : Dict W) (k : string) :
  dict_get (fold_left step l acc) k
  = match dict_get (rev l) k with
    | Some v => Some (g v)
    | None => dict_get acc k
    end.
Proof.
  revert acc. induction l as [| [k0 v0] l IH]; simpl; intros acc; [reflexivity |].
  rewrite IH. rewrite dict_get_set.
  assert (Happ : forall (a b : Dict V),
             dict_get (a ++ b) k
             = match dict_get a k with Some v => Some v | None => dict_get b k end).
  { intros a b. induction a as [| [k1 v1] a IHa]; simpl; [reflexivity |].
    destruct (String.eqb k k1); [reflexivity | apply IHa]. }
  rewrite Happ. destruct (dict_get (rev l) k); [reflexivity |].
  simpl. destruct (String.eqb k k0); reflexivity.
Qed.

Lemma fold_set_fresh (l : Dict V) (acc : Dict W) :
  NoDup (dict_keys acc ++ dict_keys l) ->
  fold_left step l acc = acc ++ map (fun kv => (fst kv, g (snd kv))) l.
Proof.
  revert acc. induction l as [| [k0 v0] l IH]; simpl; intros acc H.
  - now rewrite app_nil_r.
  - assert (Hk : ~ In k0 (dict_keys acc)).
    { intros Hin. apply NoDup_remove_2 in H. apply H. apply in_or_app. now left. }
    rewrite dict_set_fresh by assumption.
    rewrite IH.
    + now rewrite <- app_assoc.
    + unfold dict_keys in *. rewrite map_app. simpl. rewrite <- app_assoc. exact H.
Qed.

End FoldSet.

(** ** Loops *)

Section ForEach.

Variables (St A : Type) (body : A -> St -> Result St).

Lemma for_each_Ok_inv (P : St -> Prop) (l : list A) :
  (forall x st st', In x l -> P st -> body x st = Ok st' -> P st') ->
  forall st st', P st -> for_each body l st = Ok st' -> P st'.
Proof.
  induction l as [| x l IH]; simpl; intros Hstep st st' HP H.
  - injection H as <-. assumption.
  - destruct (body x st) as [st1 | e |] eqn:E; simpl in H; try discriminate.
    apply (IH (fun y s s' Hy => Hstep y s s' (or_intror Hy)) st1 st'); [| assumption].
    eapply Hstep; [now left | eassumption | eassumption].
Qed.

Lemma for_each_ends (P : St -> Prop) (l : list A) :
  (forall x st, In x l -> P st -> ends P (body x st)) ->
  forall st, P st -> ends P (for_each body l st).
Proof.
  induction l as [| x l IH]; simpl; intros Hstep st HP; [assumption |].
  pose proof (Hstep x st (or_introl eq_refl) HP) as Hx.
  destruct (body x st) as [st1 | e |]; simpl in *; [| exact I | contradiction].
  apply IH; [| assumption]. intros y s Hy. apply Hstep. now right.
Qed.

Lemma for_each_returns (P : St -> Prop) (l : list A) :
  (forall x st, In x l -> P st -> returns P (body x st)) ->
  forall st, P st -> returns P (for_each body l st).
Proof.
  induction l as [| x l IH]; simpl; intros Hstep st HP; [assumption |].
  pose proof (Hstep x st (or_introl eq_refl) HP) as Hx.
  destruct (body x st) as [st1 | e |]; simpl in *; try contradiction.
  apply IH; [| assumption]. intros y s Hy. apply Hstep. now right.
Qed.


End ForEach.

Lemma for_each_ext (St A : Type) (f g : A -> St -> Result St) (l : list A) (st : St) :
  (forall x s, In x l -> f x s = g x s) -> for_each f l st = for_each g l st.
Proof.
  revert st. induction l as [| x l IH]; simpl; intros st H; [reflexivity |].
  rewrite H by now left. destruct (g x st); simpl; try reflexivity.
  apply IH. intros y s Hy. apply H. now right.
Qed.

Lemma returns_ends (A : Type) (P : A -> Prop) (r : Result A) : returns P r -> ends P r.
Proof. destruct r; simpl; tauto. Qed.

Lemma returns_Ok (A : Type) (P : A -> Prop) (r : Result A) :
  returns P r <-> exists a, r = Ok a /\ P a.
Proof.
  destruct r; simpl; split; try contradiction.
  - intros H. eauto.
  - intros [b [Hb HP]]. now injection Hb as ->.
  - intros [b [Hb _]]. discriminate.
  - intros [b [Hb _]]. discriminate.
Qed.

Lemma returns_impl (A : Type) (P Q : A -> Prop) (r : Result A) :
  (forall a, P a -> Q a) -> returns P r -> returns Q r.
Proof. destruct r; simpl; auto. Qed.

Lemma ends_impl (A : Type) (P Q : A -> Prop) (r : Result A) :
  (forall a, P a -> Q a) -> ends P r -> ends Q r.
Proof. destruct r; simpl; auto. Qed.

(** ** Plain objects *)

Lemma filter_all (A : Type) (f : A -> bool) (l : list A) :
  (forall x, In x l -> f x = true) -> filter f l = l.
Proof.
  induction l as [| x l IH]; simpl; intros H; [reflexivity |].
  rewrite (H x (or_introl eq_refl)). f_equal. apply IH. intros y Hy. apply H. now right.
Qed.

Lemma Object_set_plain (V : Type) (o : Dict V) (k : string) (v : V) :
  k <> "__proto__"%string -> Object_set o k v = dict_set o k v.
Proof.
  intros H. unfold Object_set.
  destruct (String.eqb_spec k "__proto__"); [contradiction | reflexivity].
Qed.

Lemma Object_set_proto (V : Type) (o : Dict V) (v : V) :
  ~ In "__proto__"%string (dict_keys o) -> Object_set o "__proto__" v = o.
Proof.
  intros H. unfold Object_set. apply dict_get_None in H. unfold dict_has. now rewrite H.
Qed.

Lemma Object_set_get_other (V : Type) (o : Dict V) (k k' : string) (v : V) :
  k' <> k -> dict_get (Object_set o k v) k' = dict_get o k'.
Proof.
  intros H. unfold Object_set.
  destruct (String.eqb k "__proto__" && negb (dict_has o k)); [reflexivity |].
  rewrite dict_get_set. destruct (String.eqb_spec k' k); [contradiction | reflexivity].
Qed.

Lemma Object_set_get (V : Type) (o : Dict V) (k : string) (v : V) :
  k <> "__proto__"%string -> dict_get (Object_set o k v) k = Some v.
Proof.
  intros H. rewrite Object_set_plain by assumption.
  now rewrite dict_get_set, String.eqb_refl.
Qed.

Lemma Object_set_keys (V : Type) (o : Dict V) (k k' : string) (v : V) :
  In k' (dict_keys (Object_set o k v)) -> In k' (dict_keys o) \/ k' = k.
Proof.
  unfold Object_set.
  destruct (String.eqb k "__proto__" && negb (dict_has o k)); [tauto |].
  apply dict_set_keys_In.
Qed.

Lemma Object_set_keeps (V : Type) (o : Dict V) (k k' : string) (v : V) :
  In k' (dict_keys o) -> In k' (dict_keys (Object_set o k v)).
Proof.
  unfold Object_set.
  destruct (String.eqb k "__proto__" && negb (dict_has o k)); [tauto |].
  intros H. apply dict_set_keys_In. now left.
Qed.

Lemma Object_set_files_ok (o : Types.FileMap) (k : string) (v : Buffer) :
  files_ok o -> files_ok (Object_set o k v).
Proof.
  intros [Hnd Hproto].
  destruct (String.eqb_spec k "__proto__") as [-> | Hne].
  - rewrite Object_set_proto by assumption. now split.
  - rewrite Object_set_plain by assumption. split; [now apply dict_set_NoDup |].
    intros H. apply dict_set_keys_In in H. destruct H as [H | H]; [contradiction | congruence].
Qed.

Lemma Object_delete_keys (V : Type) (o : Dict V) (k k' : string) :
  In k' (dict_keys (Object_delete o k)) <-> In k' (dict_keys o) /\ k' <> k.
Proof.
  unfold Object_delete, dict_keys. rewrite !in_map_iff. split.
  - intros [[k0 v0] [Hk Hin]]. simpl in Hk. subst k0. apply filter_In in Hin.
    destruct Hin as [Hin Hf]. simpl in Hf. split.
    + now exists (k', v0).
    + intros ->. now rewrite String.eqb_refl in Hf.
  - intros [[[k0 v0] [Hk Hin]] Hne]. simpl in Hk. subst k0. exists (k', v0).
    split; [reflexivity |]. apply filter_In. split; [assumption |]. simpl.
    destruct (String.eqb_spec k k'); [congruence | reflexivity].
Qed.

Lemma Object_delete_get (V : Type) (o : Dict V) (k k' : string) :
  dict_get (Object_delete o k) k' = if String.eqb k' k then None else dict_get o k'.
Proof.
  destruct (String.eqb_spec k' k) as [-> | Hne].
  - apply dict_get_None. rewrite Object_delete_keys. tauto.
  - unfold Object_delete. induction o as [| [k0 v0] o IH]; simpl; [reflexivity |].
    destruct (String.eqb_spec k k0) as [<- | Hk]; simpl.
    + destruct (String.eqb_spec k' k); [contradiction | apply IH].
    + destruct (String.eqb k' k0); [reflexivity | apply IH].
Qed.

Lemma Object_delete_files_ok (o : Types.FileMap) (k : string) :
  files_ok o -> files_ok (Object_delete o k).
Proof.
  intros [Hnd Hproto]. split.
  - unfold Object_delete, dict_keys in *. clear Hproto.
    induction o as [| [k0 v0] o IH]; simpl; [constructor |].
    inversion Hnd as [| ? ? Hk0 Hrest]; subst.
    destruct (negb (String.eqb k k0)); simpl; [| now apply IH].
    constructor; [| now apply IH].
    intros Hin. apply Hk0. apply in_map_iff in Hin. destruct Hin as [kv [Hk Hin]].
    apply filter_In in Hin. apply in_map_iff. exists kv. tauto.
  - rewrite Object_delete_keys. tauto.
Qed.

(** Filling a table that has no own [__proto__] by assignments: the
    assignments to that name leave no trace. *)
Lemma fold_Object_set (V W : Type) (g : V -> W) (l : Dict V) :
  forall acc : Dict W,
    ~ In "__proto__"%string (dict_keys acc) ->
    fold_left (fun o kv => Object_set o (fst kv) (g (snd kv))) l acc
    = fold_left (fun o kv => dict_set o (fst kv) (g (snd kv)))
                (filter (fun kv => negb (String.eqb (fst kv) "__proto__")) l) acc.
Proof.
  induction l as [| [k v] l IH]; simpl; intros acc Hacc; [reflexivity |].
  destruct (String.eqb_spec k "__proto__") as [-> | Hne]; simpl.
  - rewrite Object_set_proto by assumption. now apply IH.
  - rewrite Object_set_plain by assumption. apply IH.
    intros H. apply dict_set_keys_In in H. destruct H as [H | H]; [contradiction | congruence].
Qed.

Lemma Object_has_own (V : Type) (o : Dict V) (k : string) :
  dict_has o k = true -> Object_has o k = true.
Proof. intros H. unfold Object_has. now rewrite H. Qed.

Lemma Object_has_plain (V : Type) (o : Dict V) (k : string) :
  Set_has Object_prototype_names k = false -> Object_has o k = dict_has o k.
Proof. intros H. unfold Object_has. rewrite H. apply orb_false_r. Qed.

(** ** A plugin's run on the context *)

Lemma run_config_policy (a : Context.Action) :
  forall ctx ctx', Context.run a ctx = Ok ctx' ->
                   Context.config ctx' = Context.config ctx
                   /\ Context.policy ctx' = Context.policy ctx.
Proof.
  induction a as [| m | path content next IH | path next IH | path next IH
                  | path next IH | next IH];
    simpl; intros ctx ctx' H.
  - injection H as <-. now split.
  - discriminate.
  - apply IH in H. exact H.
  - eapply IH; eassumption.
  - eapply IH; eassumption.
  - apply IH in H. exact H.
  - eapply IH; eassumption.
Qed.

Lemma run_files_ok (a : Context.Action) :
  forall ctx ctx', Context.run a ctx = Ok ctx' ->
                   files_ok (Context.files ctx) -> files_ok (Context.files ctx').
Proof.
  induction a as [| m | path content next IH | path next IH | path next IH
                  | path next IH | next IH];
    simpl; intros ctx ctx' H Hok.
  - injection H as <-. assumption.
  - discriminate.
  - apply IH in H; [assumption |]. simpl. now apply Object_set_files_ok.
  - eapply IH; eassumption.
  - eapply IH; eassumption.
  - apply IH in H; [assumption |]. simpl. now apply Object_delete_files_ok.
  - eapply IH; eassumption.
Qed.

Lemma run_paths_kept (a : Context.Action) :
  never_deletes a ->
  forall ctx ctx' p, Context.run a ctx = Ok ctx' ->
                     In p (dict_keys (Context.files ctx)) ->
                     In p (dict_keys (Context.files ctx')).
Proof.
  induction 1 as [| m | path content next _ IH | path next _ IH | path next _ IH
                  | next _ IH];
    simpl; intros ctx ctx' p H Hin.
  - injection H as <-. assumption.
  - discriminate.
  - eapply IH; [eassumption |]. simpl. now apply Object_set_keeps.
  - eapply IH; eassumption.
  - eapply IH; eassumption.
  - eapply IH; eassumption.
Qed.


(** ** The renderer's tables *)

Lemma Object_assign_get (V : Type) (source : Dict V) (k : string) :
  dict_get (Object_assign [] source) k
  = if String.eqb k "__proto__" then None else dict_get source k.
Proof.
  unfold Object_assign. rewrite (@fold_Object_set V V (fun v : V => v)) by (intros []).
  rewrite (@fold_set_get V V (fun v : V => v) _ [] k). simpl.
  rewrite <- (Object_delete_get source "__proto__" k).
  rewrite (@dict_get_same_bindings V
             (rev (filter (fun kv => negb (String.eqb (fst kv) "__proto__"))
                          (Object_entries source)))
             (Object_delete source "__proto__")).
  - now destruct (dict_get (Object_delete source "__proto__") k).
  - intros k0 v0 H. apply in_rev in H. apply filter_In in H. destruct H as [Hin Hf].
    simpl in Hf. rewrite Object_delete_get.
    destruct (String.eqb k0 "__proto__"); [discriminate |]. now apply Object_entries_In.
  - intros k0 H. apply Object_delete_keys in H. destruct H as [Hin Hne].
    apply dict_has_In in Hin. unfold dict_has in Hin.
    destruct (dict_get source k0) as [v0 |] eqn:E; [| discriminate].
    unfold dict_keys. apply in_map_iff. exists (k0, v0). split; [reflexivity |].
    apply in_rev. rewrite rev_involutive. apply filter_In. split.
    + now apply Object_entries_In.
    + simpl. destruct (String.eqb_spec k0 "__proto__"); [contradiction | reflexivity].
Qed.

Lemma Object_assign_files_ok (source : Types.FileMap) : files_ok (Object_assign [] source).
Proof.
  split.
  - unfold Object_assign.
    rewrite (@fold_Object_set _ _ (fun v : Buffer => v)) by (intros []).
    apply (@fold_set_NoDup _ _ (fun v : Buffer => v)). constructor.
  - apply dict_get_None. rewrite Object_assign_get. reflexivity.
Qed.

Lemma new_context_files_ok (config : Config.ProjectConfig) (policy : Policy.Policy)
    (existingFiles : option Types.FileMap) :
  files_ok (Context.files (Context.new config policy existingFiles)).
Proof.
  destruct existingFiles; simpl; [apply Object_assign_files_ok |].
  split; [constructor | intros []].
Qed.

Lemma normalize_all_entries (files : Types.FileMap) :
  files_ok files ->
  Renderer.normalize_all files = map normalized_entry (Object_entries files).
Proof.
  intros [Hnd Hproto]. unfold Renderer.normalize_all.
  rewrite fold_Object_set by (intros []).
  rewrite filter_all.
  - rewrite (@fold_set_fresh _ _ Renderer.normalizeLineEndings (Object_entries files) []).
    + reflexivity.
    + simpl. unfold dict_keys. rewrite Object_entries_keys. now apply Object_keys_NoDup.
  - intros [k v] Hin. simpl. destruct (String.eqb_spec k "__proto__") as [-> | Hne];
      [| reflexivity].
    exfalso. apply Hproto. apply Object_entries_In in Hin.
    eapply dict_get_Some_key; eassumption.
Qed.

Lemma normalize_all_keys (files : Types.FileMap) :
  files_ok files -> dict_keys (Renderer.normalize_all files) = Object_keys files.
Proof.
  intros H. rewrite normalize_all_entries by assumption.
  unfold dict_keys. rewrite map_map. simpl. apply Object_entries_keys.
Qed.

Lemma normalize_all_get (files : Types.FileMap) (k : string) :
  files_ok files ->
  dict_get (Renderer.normalize_all files) k
  = option_map Renderer.normalizeLineEndings (dict_get files k).
Proof.
  intros Hok. pose proof Hok as [Hnd _].
  assert (HndN : NoDup (dict_keys (Renderer.normalize_all files))).
  { rewrite normalize_all_keys by assumption. now apply Object_keys_NoDup. }
  destruct (dict_get files k) as [raw |] eqn:E; simpl.
  - apply dict_In_get; [assumption |]. rewrite normalize_all_entries by assumption.
    apply in_map_iff. exists (k, raw). split; [reflexivity |]. now apply Object_entries_In.
  - apply dict_get_None. rewrite normalize_all_keys by assumption.
    rewrite Object_keys_In. now apply dict_get_None.
Qed.

Lemma emit_from (l : list (string * Buffer)) :
  forall (acc : Dict Buffer) (entries : list Types.ManifestFile),
    NoDup (dict_keys acc ++ dict_keys l) ->
    fold_left
      (fun acc kv =>
         (dict_set (fst acc) (fst kv) (snd kv),
          snd acc ++ [ {| Types.path := fst kv;
                          Types.sha256 := Renderer.computeSha256 (snd kv) |} ]))
      l (acc, entries)
    = (acc ++ l, entries ++ map manifest_entry l).
Proof.
  induction l as [| [k v] l IH]; simpl; intros acc entries H.
  - now rewrite !app_nil_r.
  - assert (Hk : ~ In k (dict_keys acc)).
    { intros Hin. apply NoDup_remove_2 in H. apply H. apply in_or_app. now left. }
    rewrite dict_set_fresh by assumption. rewrite IH.
    + now rewrite <- !app_assoc.
    + unfold dict_keys in *. rewrite map_app. simpl. rewrite <- app_assoc. exact H.
Qed.

Lemma emit_NoDup (l : list (string * Buffer)) :
  NoDup (dict_keys l) -> Renderer.emit l = (l, map manifest_entry l).
Proof. intros H. unfold Renderer.emit. now rewrite emit_from. Qed.

Section RenderFacts.

Variable localeCompare : string -> string -> comparison.

Lemma sortFileMap_perm (files : Types.FileMap) :
  Permutation (Renderer.sortFileMap localeCompare files) (Object_entries files).
Proof. unfold Renderer.sortFileMap. apply Array_sort_perm. Qed.

Lemma sortFileMap_NoDup (files : Types.FileMap) :
  NoDup (dict_keys files) -> NoDup (dict_keys (Renderer.sortFileMap localeCompare files)).
Proof.
  intros H. unfold dict_keys.
  eapply Permutation_NoDup.
  - symmetry. apply Permutation_map, sortFileMap_perm.
  - rewrite Object_entries_keys. now apply Object_keys_NoDup.
Qed.

Lemma sortFileMap_get (files : Types.FileMap) (k : string) :
  NoDup (dict_keys files) ->
  dict_get (Renderer.sortFileMap localeCompare files) k = dict_get files k.
Proof.
  intros H. apply dict_get_same_bindings.
  - intros k0 v0 Hin. apply Object_entries_In.
    eapply Permutation_in; [apply sortFileMap_perm | assumption].
  - intros k0 Hin. unfold dict_keys.
    eapply Permutation_in; [symmetry; apply Permutation_map, sortFileMap_perm |].
    rewrite Object_entries_keys. now apply Object_keys_In.
Qed.

(** What a successful [render] returned, read back from its steps. *)
Lemma render_Ok_inv (registry : Plugin.InMemoryPluginRegistry)
    (config : Config.ProjectConfig) (policy : Policy.Policy)
    (existingFiles : option Types.FileMap) (result : Renderer.RenderResult) :
  Renderer.render localeCompare registry config policy existingFiles = Ok result ->
  exists orderedPlugins context fileWriters,
    Plugin.resolvePluginOrder localeCompare
      (filter (fun p => Plugin.appliesTo p config) (Plugin.getAll registry)) registry
    = Ok orderedPlugins
    /\ for_each (Renderer.run_phase (Plugin.groupPluginsByPhase localeCompare orderedPlugins))
                Plugin.phases (Context.new config policy existingFiles, [])
       = Ok (context, fileWriters)
    /\ Renderer.check_conflicts registry fileWriters = Ok tt
    /\ Renderer.files result
       = fst (Renderer.emit (Renderer.sortFileMap localeCompare
                               (Renderer.normalize_all (Context.files context))))
    /\ Types.files (Renderer.manifest result)
       = snd (Renderer.emit (Renderer.sortFileMap localeCompare
                               (Renderer.normalize_all (Context.files context))))
    /\ Types.configHash (Renderer.manifest result) = Renderer.computeConfigHash config
    /\ Types.generatorVersion (Renderer.manifest result) = Renderer.GENERATOR_VERSION
    /\ Types.policyVersion (Renderer.manifest result) = Renderer.POLICY_VERSION.
Proof.
  unfold Renderer.render.
  destruct (Plugin.detectCycles _) as [cycleErrors | e |]; cbn [bind]; try discriminate.
  destruct cycleErrors; [| discriminate].
  destruct (Plugin.resolvePluginOrder _ _ _) as [ordered | e |]; cbn [bind]; try discriminate.
  match goal with
  | |- context [for_each ?f ?l ?s] =>
      destruct (for_each f l s) as [[context fileWriters] | e |] eqn:Hrun;
      cbn [bind fst snd]; try discriminate
  end.
  destruct (Renderer.check_conflicts registry fileWriters) as [[] | e |] eqn:Hc;
    cbn [bind]; try discriminate.
  intros H. injection H as <-. exists ordered, context, fileWriters.
  cbn [Renderer.files Renderer.manifest Types.files Types.configHash
       Types.generatorVersion Types.policyVersion].
  repeat split; try reflexivity; assumption.
Qed.

End RenderFacts.

(** ** The phases loop *)

Lemma dict_set_In (V : Type) (d : Dict V) (k k' : string) (v v' : V) :
  In (k', v') (dict_set d k v) -> In (k', v') d \/ (k' = k /\ v' = v).
Proof.
  induction d as [| [k0 v0] d IH]; simpl.
  - intros [H | []]. injection H as <- <-. now right.
  - destruct (String.eqb_spec k k0) as [-> | Hne]; simpl.
    + intros [H | H]; [injection H as <- <-; now right | left; now right].
    + intros [H | H]; [left; now left |]. apply IH in H. tauto.
Qed.

Lemma run_phases_inv (P : Context.InMemoryGeneratorContext * Dict (list string) -> Prop) :
  (forall plugin st st', P st -> Renderer.run_plugin plugin st = Ok st' -> P st') ->
  forall groupedPlugins phases st st',
    P st -> for_each (Renderer.run_phase groupedPlugins) phases st = Ok st' -> P st'.
Proof.
  intros Hstep groupedPlugins phases.
  apply for_each_Ok_inv. intros phase st st' _ HP. unfold Renderer.run_phase.
  apply for_each_Ok_inv; [| assumption]. intros plugin s s' _. apply Hstep.
Qed.

Lemma run_plugin_Ok_inv (plugin : Plugin.Plugin)
    (st st' : Context.InMemoryGeneratorContext * Dict (list string)) :
  Renderer.run_plugin plugin st = Ok st' ->
  Context.run (Plugin.apply plugin (Context.config (fst st)) (Context.policy (fst st))) (fst st)
  = Ok (fst st')
  /\ snd st' = Renderer.record_writers (Plugin.id plugin)
                 (Set_from (Object_keys (Context.files (fst st))))
                 (Set_from (Object_keys (Context.files (fst st')))) (snd st).
Proof.
  unfold Renderer.run_plugin.
  destruct (Context.run _ (fst st)) as [ctx' | e |]; cbn [bind]; try discriminate.
  intros H. injection H as <-. now split.
Qed.

Lemma record_writers_single (pluginId : string) (beforeFiles : list string) :
  forall afterFiles fileWriters,
    NoDup afterFiles ->
    (forall path ws, In (path, ws) fileWriters ->
                     List.length ws = 1 /\ (In path beforeFiles \/ ~ In path afterFiles)) ->
    forall path ws,
      In (path, ws) (Renderer.record_writers pluginId beforeFiles afterFiles fileWriters) ->
      List.length ws = 1.
Proof.
  unfold Renderer.record_writers.
  induction afterFiles as [| p rest IH]; simpl; intros fw Hnd Hfw path ws Hin.
  - exact (proj1 (Hfw _ _ Hin)).
  - inversion Hnd as [| ? ? Hp Hrest]; subst.
    revert Hin. apply IH; [assumption |].
    destruct (Set_has beforeFiles p) eqn:Eb; simpl.
    + intros path' ws' Hin'. destruct (Hfw _ _ Hin') as [Hlen Hwhere].
      split; [assumption |]. tauto.
    + apply Set_has_false in Eb.
      assert (Hnone : dict_get fw p = None).
      { destruct (dict_get fw p) as [ws0 |] eqn:E; [| reflexivity].
        apply dict_get_In in E. destruct (Hfw _ _ E) as [_ [H | H]]; [contradiction |].
        exfalso. apply H. now left. }
      rewrite Hnone. intros path' ws' Hin'.
      apply dict_set_In in Hin'.
      destruct Hin' as [Hin' | [-> ->]].
      * destruct (Hfw _ _ Hin') as [Hlen Hwhere]. split; [assumption |]. tauto.
      * split; [reflexivity |]. now right.
Qed.

Lemma record_writers_paths (pluginId : string) (beforeFiles : list string) :
  forall afterFiles fileWriters path ws,
    In (path, ws) (Renderer.record_writers pluginId beforeFiles afterFiles fileWriters) ->
    In path (dict_keys fileWriters) \/ In path afterFiles.
Proof.
  unfold Renderer.record_writers.
  induction afterFiles as [| p rest IH]; simpl; intros fw path ws Hin.
  - left. unfold dict_keys. change path with (fst (path, ws)). now apply in_map.
  - apply IH in Hin. destruct Hin as [Hin | Hin]; [| tauto].
    destruct (negb (Set_has beforeFiles p)); [| tauto].
    apply dict_set_keys_In in Hin. destruct Hin as [Hin | ->]; tauto.
Qed.

Lemma run_plugin_files_ok (plugin : Plugin.Plugin)
    (st st' : Context.InMemoryGeneratorContext * Dict (list string)) :
  files_ok (Context.files (fst st)) -> Renderer.run_plugin plugin st = Ok st' ->
  files_ok (Context.files (fst st')).
Proof.
  intros Hok H. apply run_plugin_Ok_inv in H. destruct H as [Hrun _].
  eapply run_files_ok; eassumption.
Qed.

Lemma run_plugin_single_writers (plugin : Plugin.Plugin)
    (st st' : Context.InMemoryGeneratorContext * Dict (list string)) :
  never_deletes (Plugin.apply plugin (Context.config (fst st)) (Context.policy (fst st))) ->
  single_writers st -> Renderer.run_plugin plugin st = Ok st' -> single_writers st'.
Proof.
  intros Hkeep [Hok Hfw] H. apply run_plugin_Ok_inv in H. destruct H as [Hrun Hsnd].
  split; [eapply run_files_ok; eassumption |].
  rewrite Hsnd. intros path ws Hin. split.
  - revert Hin. apply record_writers_single; [apply Set_from_NoDup |].
    intros path' ws' Hin'. destruct (Hfw _ _ Hin') as [Hlen Hkey]. split; [assumption |].
    left. apply Set_from_In, Object_keys_In. assumption.
  - apply record_writers_paths in Hin. destruct Hin as [Hin | Hin].
    + eapply run_paths_kept; [eassumption | eassumption |].
      unfold dict_keys in Hin. apply in_map_iff in Hin. destruct Hin as [[k0 ws0] [Hk Hin]].
      simpl in Hk. subst k0. exact (proj2 (Hfw _ _ Hin)).
    + now apply Set_from_In, Object_keys_In in Hin.
Qed.

Lemma check_conflicts_single (registry : Plugin.InMemoryPluginRegistry)
    (fileWriters : Dict (list string)) :
  (forall path ws, In (path, ws) fileWriters -> List.length ws = 1) ->
  Renderer.check_conflicts registry fileWriters = Ok tt.
Proof.
  induction fileWriters as [| [path ws] rest IH]; simpl; intros H; [reflexivity |].
  rewrite (H path ws (or_introl eq_refl)). simpl.
  apply IH. intros p w Hin. apply (H p w). now right.
Qed.

(** The conflict check returns or throws the file-conflict error, and then
    for an entry of the table with two writers or more, one of them with
    the policy error. *)
Lemma check_conflicts_outcome (registry : Plugin.InMemoryPluginRegistry)
    (fileWriters : Dict (list string)) :
  match Renderer.check_conflicts registry fileWriters with
  | Ok _ => True
  | Throw (FileConflict path writers) =>
      In (path, writers) fileWriters
      /\ 1 < List.length writers
      /\ exists id, In id writers /\ Renderer.writer_policy registry id = Plugin.error
  | Throw _ => False
  | OutOfFuel => False
  end.
Proof.
  induction fileWriters as [| [path ws] rest IH]; simpl; [exact I |].
  assert (Hrest : match Renderer.check_conflicts registry rest with
                  | Ok _ => True
                  | Throw (FileConflict path0 writers) =>
                      In (path0, writers) ((path, ws) :: rest)
                      /\ 1 < List.length writers
                      /\ exists id, In id writers
                                    /\ Renderer.writer_policy registry id = Plugin.error
                  | Throw _ => False
                  | OutOfFuel => False
                  end).
  { destruct (Renderer.check_conflicts registry rest) as [u | e |]; try exact IH.
    destruct e; try exact IH. destruct IH as [Hin Hrest]. split; [now right | exact Hrest]. }
  destruct (Nat.ltb_spec 1 (List.length ws)) as [Hlen | Hlen]; [| exact Hrest].
  destruct (existsb Renderer.is_error (map (Renderer.writer_policy registry) ws)) eqn:Ee;
    [| exact Hrest].
  split; [now left |]. split; [assumption |].
  apply existsb_exists in Ee. destruct Ee as [pol [Hin Herr]].
  apply in_map_iff in Hin. destruct Hin as [id [Hid Hin]]. exists id. split; [assumption |].
  rewrite Hid. now destruct pol.
Qed.

Lemma run_phases_inv_in (P : Context.InMemoryGeneratorContext * Dict (list string) -> Prop)
    (groupedPlugins : Dict (list Plugin.Plugin)) :
  (forall phase plugin st st',
      In plugin (group_of groupedPlugins phase) -> P st ->
      Renderer.run_plugin plugin st = Ok st' -> P st') ->
  forall phases st st',
    P st -> for_each (Renderer.run_phase groupedPlugins) phases st = Ok st' -> P st'.
Proof.
  intros Hstep phases.
  apply for_each_Ok_inv. intros phase st st' _ HP. unfold Renderer.run_phase.
  apply for_each_Ok_inv; [| assumption]. intros plugin s s' Hin. now apply (Hstep phase).
Qed.

(** The conflict check of [render] does not fire when no plugin removes a
    path: the writers table that reaches it names one writer per path. *)
Lemma conflict_check_passes (registry : Plugin.InMemoryPluginRegistry)
    (groupedPlugins : Dict (list Plugin.Plugin)) (config : Config.ProjectConfig)
    (policy : Policy.Policy) (existingFiles : option Types.FileMap)
    (context : Context.InMemoryGeneratorContext) (fileWriters : Dict (list string)) :
  (forall phase plugin, In plugin (group_of groupedPlugins phase) ->
                        never_deletes (Plugin.apply plugin config policy)) ->
  for_each (Renderer.run_phase groupedPlugins) Plugin.phases
           (Context.new config policy existingFiles, []) = Ok (context, fileWriters) ->
  Renderer.check_conflicts registry fileWriters = Ok tt.
Proof.
  intros Hkeep H. apply check_conflicts_single.
  assert (Hs : (Context.config (fst (context, fileWriters)) = config
                /\ Context.policy (fst (context, fileWriters)) = policy)
               /\ single_writers (context, fileWriters)).
  { revert H.
    apply (@run_phases_inv_in
             (fun st => (Context.config (fst st) = config
                         /\ Context.policy (fst st) = policy)
                        /\ single_writers st) groupedPlugins).
    - intros phase plugin st st' Hin [[Hc Hp] Hs] Hrun. split.
      + apply run_plugin_Ok_inv in Hrun. destruct Hrun as [Hrun _].
        apply run_config_policy in Hrun. destruct Hrun as [Hc' Hp']. split; congruence.
      + revert Hs Hrun. apply run_plugin_single_writers. rewrite Hc, Hp.
        now apply (Hkeep phase).
    - split; [now split |]. split; [apply new_context_files_ok | intros path ws []]. }
  intros path ws Hin. exact (proj1 (proj2 (proj2 Hs) _ _ Hin)).
Qed.



(** ** What [render] returns *)

Section RenderOutput.

Variable localeCompare : string -> string -> comparison.

Lemma render_output (registry : Plugin.InMemoryPluginRegistry)
    (config : Config.ProjectConfig) (policy : Policy.Policy)
    (existingFiles : option Types.FileMap) (result : Renderer.RenderResult) :
  Renderer.render localeCompare registry config policy existingFiles = Ok result ->
  exists orderedPlugins context fileWriters,
    for_each (Renderer.run_phase (Plugin.groupPluginsByPhase localeCompare orderedPlugins))
             Plugin.phases (Context.new config policy existingFiles, [])
    = Ok (context, fileWriters)
    /\ Plugin.resolvePluginOrder localeCompare
         (filter (fun p => Plugin.appliesTo p config) (Plugin.getAll registry)) registry
       = Ok orderedPlugins
    /\ NoDup (dict_keys (Context.files context))
    /\ Renderer.files result
       = Renderer.sortFileMap localeCompare (Renderer.normalize_all (Context.files context))
    /\ Types.files (Renderer.manifest result) = map manifest_entry (Renderer.files result)
    /\ NoDup (dict_keys (Renderer.files result))
    /\ forall path,
         dict_get (Renderer.files result) path
         = option_map Renderer.normalizeLineEndings (dict_get (Context.files context) path).
Proof.
  intros H. apply render_Ok_inv in H.
  destruct H as [ordered [context [fw [Hord [Hrun [_ [Hfiles [Hman _]]]]]]]].
  exists ordered, context, fw.
  assert (Hok : files_ok (Context.files context)).
  { change context with (fst (context, fw)). revert Hrun.
    apply (run_phases_inv (fun st => files_ok (Context.files (fst st)))).
    - intros plugin st st'. apply run_plugin_files_ok.
    - apply new_context_files_ok. }
  pose proof Hok as [Hnd _].
  assert (HndN : NoDup (dict_keys (Renderer.normalize_all (Context.files context)))).
  { rewrite normalize_all_keys by assumption. now apply Object_keys_NoDup. }
  pose proof (@sortFileMap_NoDup localeCompare _ HndN) as HndS.
  rewrite (@emit_NoDup _ HndS) in Hfiles, Hman. cbn [fst snd] in Hfiles, Hman.
  repeat split; try assumption.
  - now rewrite Hman, Hfiles.
  - now rewrite Hfiles.
  - intros path. rewrite Hfiles, sortFileMap_get by assumption.
    now apply normalize_all_get.
Qed.

(** The files that the context holds when the plugins have run, for a
    render that gets that far: the files that [render] normalizes, sorts
    and returns. *)
Lemma render_final_context (registry : Plugin.InMemoryPluginRegistry)
    (config : Config.ProjectConfig) (policy : Policy.Policy)
    (existingFiles : option Types.FileMap) (result : Renderer.RenderResult) :
  Renderer.render localeCompare registry config policy existingFiles = Ok result ->
  exists context,
    final_context localeCompare registry config policy existingFiles = Ok context
    /\ files_ok (Context.files context)
    /\ Types.files (Renderer.manifest result) = map manifest_entry (Renderer.files result)
    /\ forall path,
         dict_get (Renderer.files result) path
         = option_map Renderer.normalizeLineEndings (dict_get (Context.files context) path).
Proof.
  intros H. pose proof H as H'. apply render_output in H'.
  destruct H' as [ordered [context [fw [Hrun [Hord [_ [_ [Hman [_ Hget]]]]]]]]].
  exists context. unfold final_context. rewrite Hord. cbn [bind]. rewrite Hrun.
  cbn [bind fst]. split; [reflexivity |]. split; [| now split].
  change context with (fst (context, fw)). revert Hrun.
  apply (run_phases_inv (fun st => files_ok (Context.files (fst st)))).
  - intros plugin st st'. apply run_plugin_files_ok.
  - apply new_context_files_ok.
Qed.

End RenderOutput.

(** C6.  Whatever [render] returns, the returned file map has exactly the
    paths that the context holds when the plugins have run, and under each
    path the buffer that the context holds there, normalized: decoded, every
    CR LF and every other CR replaced by one LF, and encoded again (for
    ASCII content the replacement is done on the bytes themselves).  The
    manifest lists the same paths, each with the hash of the returned,
    normalized bytes; and no returned buffer contains a carriage-return
    byte. *)
Theorem render_normalizes_line_endings (localeCompare : string -> string -> comparison)
    (registry : Plugin.InMemoryPluginRegistry) (config : Config.ProjectConfig)
    (policy : Policy.Policy) (existingFiles : option Types.FileMap)
    (result : Renderer.RenderResult) :
  Renderer.render localeCompare registry config policy existingFiles = Ok result ->
  exists context,
    final_context localeCompare registry config policy existingFiles = Ok context
    /\ (forall path raw,
          dict_get (Context.files context) path = Some raw ->
          dict_get (Renderer.files result) path
          = Some (Buffer_from (lf_only (Buffer_toString raw)))
          /\ (Forall is_ascii_byte raw ->
              dict_get (Renderer.files result) path = Some (lf_only raw)))
    /\ (forall path content,
          dict_get (Renderer.files result) path = Some content ->
          ~ In 13%Z content
          /\ In (manifest_entry (path, content)) (Types.files (Renderer.manifest result))
          /\ exists raw,
               dict_get (Context.files context) path = Some raw
               /\ content = Renderer.normalizeLineEndings raw
               /\ content = Buffer_from (lf_only (Buffer_toString raw)))
    /\ (forall entry,
          In entry (Types.files (Renderer.manifest result)) ->
          exists content,
            dict_get (Renderer.files result) (Types.path entry) = Some content
            /\ ~ In 13%Z content
            /\ Types.sha256 entry = Renderer.computeSha256 content)
    /\ (forall content, ~ In 13%Z (Renderer.normalizeLineEndings content))
    /\ (forall content,
          Renderer.normalizeLineEndings content
          = Buffer_from (lf_only (Buffer_toString content))).
Proof.
  intros H. pose proof (render_output _ _ _ _ _ H) as Hout.
  destruct Hout as [_ [_ [_ [_ [_ [_ [_ [_ [HndR _]]]]]]]]].
  destruct (render_final_context _ _ _ _ _ H) as [context [Hctx [Hok [Hman Hget]]]].
  exists context. split; [assumption |].
  assert (Hnorm : forall content,
             Renderer.normalizeLineEndings content
             = Buffer_from (lf_only (Buffer_toString content))).
  { intros content. unfold Renderer.normalizeLineEndings. now rewrite replace_cr_crlf. }
  split; [| split; [| split; [| split]]].
  - intros path raw Hraw. rewrite Hget, Hraw. simpl. split; [now rewrite Hnorm |].
    intros Hascii. now rewrite normalizeLineEndings_ascii.
  - intros path content Hc. pose proof Hc as Hc'. rewrite Hget in Hc'.
    destruct (dict_get (Context.files context) path) as [raw |]; [| discriminate].
    simpl in Hc'. injection Hc' as <-. split; [apply normalizeLineEndings_no_CR |]. split.
    + rewrite Hman. apply in_map. now apply dict_get_In.
    + exists raw. split; [reflexivity |]. split; [reflexivity | apply Hnorm].
  - intros entry Hin. rewrite Hman in Hin. apply in_map_iff in Hin.
    destruct Hin as [[path content] [<- Hin]]. exists content. simpl.
    assert (Hc : dict_get (Renderer.files result) path = Some content)
      by now apply dict_In_get.
    split; [assumption |]. split; [| reflexivity].
    rewrite Hget in Hc. destruct (dict_get (Context.files context) path); [| discriminate].
    simpl in Hc. injection Hc as <-. apply normalizeLineEndings_no_CR.
  - apply normalizeLineEndings_no_CR.
  - exact Hnorm.
Qed.

Lemma render_normalizes_line_endings_witness :
  exists result,
    Renderer.render Collation.localeCompare readme_writer nextjs_startup
                    (Policy.resolvePolicy nextjs_startup) None = Ok result
    /\ dict_get (Renderer.files result) "README.md" = Some [35; 10]%Z
    /\ forall path content,
         dict_get (Renderer.files result) path = Some content -> ~ In 13%Z content.
Proof.
  eexists. split; [vm_compute; reflexivity |]. split; [reflexivity |].
  intros path content H.
  destruct (@render_normalizes_line_endings Collation.localeCompare readme_writer
              nextjs_startup (Policy.resolvePolicy nextjs_startup) None _
              ltac:(vm_compute; reflexivity))
    as [context [_ [_ [Hfiles _]]]].
  exact (proj1 (Hfiles path content H)).
Defined.




(** C1 (the code departs from the claim).  Plugins a and b both call
    [addFile] on the path P and both have the default policy, error; the
    render returns a file map in which P holds what b wrote, and raises no
    conflict. *)
Theorem same_path_conflict_not_raised :
  addFile_log Collation.localeCompare two_writers nextjs_startup
              (Policy.resolvePolicy nextjs_startup) None
  = Ok [("a", "P"); ("b", "P")]%string
  /\ Renderer.writer_policy two_writers "a"%string = Plugin.error
  /\ Renderer.writer_policy two_writers "b"%string = Plugin.error
  /\ exists result,
       Renderer.render Collation.localeCompare two_writers nextjs_startup
                       (Policy.resolvePolicy nextjs_startup) None = Ok result
       /\ Renderer.files result = [("P"%string, [50%Z])].
Proof.
  split; [vm_compute; reflexivity |]. split; [reflexivity |]. split; [reflexivity |].
  eexists. split; [vm_compute; reflexivity | reflexivity].
Qed.

(** C3 (the code departs from the claim).  A plugin writes README.md and
    app.json; the file map and the manifest list app.json first, the order
    of [localeCompare], while the order by character codes puts README.md
    first. *)
Theorem output_order_is_not_code_unit_order :
  exists result,
    Renderer.render Collation.localeCompare readme_writer nextjs_startup
                    (Policy.resolvePolicy nextjs_startup) None = Ok result
    /\ dict_keys (Renderer.files result) = ["app.json"; "README.md"]%string
    /\ map Types.path (Types.files (Renderer.manifest result))
       = ["app.json"; "README.md"]%string
    /\ Array_sort default_compare (dict_keys (Renderer.files result))
       = ["README.md"; "app.json"]%string.
Proof.
  eexists. split; [vm_compute; reflexivity |]. repeat split.
Qed.

(** C2 (the code departs from the claim).  The plugin lists [a; b] and
    [b; a] build graphs with the same nodes and the same edges, and
    [detectCycles] describes the cycle differently for the two. *)
Theorem detectCycles_depends_on_insertion_order :
  let g1 := Plugin.buildDependencyGraph [cycle_a; cycle_b] in
  let g2 := Plugin.buildDependencyGraph [cycle_b; cycle_a] in
  Permutation (Plugin.nodes g1) (Plugin.nodes g2)
  /\ (forall node, dict_get (Plugin.edges g1) node = dict_get (Plugin.edges g2) node)
  /\ Plugin.detectCycles g1 = Ok ["Dependency cycle detected: a -> b -> a"%string]
  /\ Plugin.detectCycles g2 = Ok ["Dependency cycle detected: b -> a -> b"%string].
Proof.
  split; [apply perm_swap |]. split; [| split; reflexivity].
  intros node. simpl.
  destruct (String.eqb_spec node "a") as [-> | Ha]; [reflexivity |].
  destruct (String.eqb_spec node "b"); reflexivity.
Qed.

(** ** SHA-256 on known inputs *)

Example sha256_abc :
  Sha256.digest_hex (text_of_string "abc")
  = "ba7816bf8f01cfea414140de5dae2223b00361a396177a9cb410ff61f20015ad"%string.
Proof. vm_compute. reflexivity. Qed.

Example sha256_two_blocks :
  Sha256.digest_hex
    (text_of_string "abcdbcdecdefdefgefghfghighijhijkijkljklmklmnlmnomnopnopq")
  = "248d6a61d20638b8e5c026930c3e6039a33ce45964ff2167f6ecedd419db06c1"%string.
Proof. vm_compute. reflexivity. Qed.

(** ** Counting and folding *)

Lemma filter_length_le (A : Type) (f g : A -> bool) (l : list A) :
  (forall x, In x l -> f x = true -> g x = true) ->
  List.length (filter f l) <= List.length (filter g l).
Proof.
  induction l as [| x l IH]; simpl; intros H; [lia |].
  assert (IH' := IH (fun y Hy => H y (or_intror Hy))).
  pose proof (H x (or_introl eq_refl)) as Hx.
  destruct (f x), (g x); simpl; try lia; discriminate (Hx eq_refl).
Qed.

Lemma filter_length_lt (A : Type) (f g : A -> bool) (l : list A) (a : A) :
  (forall x, In x l -> f x = true -> g x = true) ->
  In a l -> f a = false -> g a = true ->
  List.length (filter f l) < List.length (filter g l).
Proof.
  induction l as [| x l IH]; simpl; intros H Ha Hfa Hga; [contradiction |].
  pose proof (@filter_length_le A f g l (fun y Hy => H y (or_intror Hy))) as Hle.
  pose proof (H x (or_introl eq_refl)) as Hx.
  destruct Ha as [-> | Ha].
  - rewrite Hfa, Hga. simpl. lia.
  - specialize (IH (fun y Hy => H y (or_intror Hy)) Ha Hfa Hga).
    destruct (f x), (g x); simpl; try lia; discriminate (Hx eq_refl).
Qed.

Lemma unseen_le (universe seen seen' : list string) :
  incl seen seen' -> unseen universe seen' <= unseen universe seen.
Proof.
  intros H. unfold unseen. apply filter_length_le. intros x _.
  rewrite !negb_true_iff, !Set_has_false. intros Hx Hin. apply Hx, H, Hin.
Qed.

Lemma unseen_lt (universe seen seen' : list string) (x : string) :
  incl seen seen' -> In x universe -> ~ In x seen -> In x seen' ->
  unseen universe seen' < unseen universe seen.
Proof.
  intros H Hu Hout Hin. unfold unseen. apply filter_length_lt with (a := x).
  - intros y _. rewrite !negb_true_iff, !Set_has_false. intros Hy Hy'. apply Hy, H, Hy'.
  - assumption.
  - rewrite negb_false_iff. now apply Set_has_In.
  - rewrite negb_true_iff. now apply Set_has_false.
Qed.

Lemma unseen_bound (universe seen : list string) :
  unseen universe seen <= List.length universe.
Proof.
  unfold unseen. induction universe as [| u l IH]; simpl; [lia |].
  destruct (negb (Set_has seen u)); simpl; lia.
Qed.

Lemma fold_left_inv (A B : Type) (f : A -> B -> A) (P : A -> Prop) (l : list B) :
  (forall acc x, In x l -> P acc -> P (f acc x)) ->
  forall init, P init -> P (fold_left f l init).
Proof.
  induction l as [| x l IH]; simpl; intros H init Hinit; [assumption |].
  apply IH.
  - intros acc y Hy. apply H. now right.
  - apply H; [now left | assumption].
Qed.

Section ForEachSound.

Variables (St A : Type) (body : A -> St -> Result St).

(** A loop whose turns do not throw: an invariant [P] holds at the end, and
    so does what each turn established, when later turns keep it. *)
Lemma for_each_sound (P : St -> Prop) (R : A -> St -> Prop) (l : list A) :
  (forall x st, In x l -> P st ->
                sound (fun st' => P st' /\ R x st' /\ forall y, R y st -> R y st')
                      (body x st)) ->
  forall st, P st ->
             sound (fun st' => P st' /\ (forall x, In x l -> R x st')
                               /\ forall y, R y st -> R y st')
                   (for_each body l st).
Proof.
  induction l as [| x l IH]; simpl; intros Hstep st HP.
  - split; [assumption |]. split; [intros x [] | auto].
  - pose proof (Hstep x st (or_introl eq_refl) HP) as Hx.
    destruct (body x st) as [st1 | e |]; simpl in *; [| contradiction | exact I].
    destruct Hx as [HP1 [HR1 Hkeep1]].
    specialize (IH (fun y s Hy => Hstep y s (or_intror Hy)) st1 HP1).
    destruct (for_each body l st1) as [st2 | e |]; simpl in *; [| contradiction | exact I].
    destruct IH as [HP2 [HR2 Hkeep2]].
    split; [assumption |]. split.
    + intros y [<- | Hy]; [now apply Hkeep2 | now apply HR2].
    + intros y Hy. now apply Hkeep2, Hkeep1.
Qed.

End ForEachSound.

Lemma sound_ends_returns (A : Type) (P Q : A -> Prop) (r : Result A) :
  sound P r -> ends Q r -> returns (fun a => P a /\ Q a) r.
Proof. destruct r; simpl; tauto. Qed.

Lemma sound_impl (A : Type) (P Q : A -> Prop) (r : Result A) :
  (forall a, P a -> Q a) -> sound P r -> sound Q r.
Proof. destruct r; simpl; auto. Qed.

(** ** Cycle detection *)

Lemma detectCycles_visit_eq (fuel : nat) (graph : Plugin.DependencyGraph)
    (node : Plugin.PluginId) (path : list Plugin.PluginId) (st : Plugin.CycleState) :
  Plugin.detectCycles_visit fuel graph node path st
  = if Set_has (Plugin.recursionStack st) node then
      Ok {| Plugin.errors :=
              Plugin.errors st
              ++ [("Dependency cycle detected: "
                   ++ join " -> " (Array_slice path (Array_indexOf path node) ++ [node]))%string];
            Plugin.visited := Plugin.visited st;
            Plugin.recursionStack := Plugin.recursionStack st |}
    else if Set_has (Plugin.visited st) node then Ok st
    else
      match fuel with
      | O => OutOfFuel
      | S fuel' =>
          st2 <- match dict_get (Plugin.edges graph) node with
                 | Some deps =>
                     for_each (fun dep => Plugin.detectCycles_visit fuel' graph dep
                                                                    (path ++ [node]))
                              deps
                              {| Plugin.errors := Plugin.errors st;
                                 Plugin.visited := Set_add (Plugin.visited st) node;
                                 Plugin.recursionStack :=
                                   Set_add (Plugin.recursionStack st) node |}
                 | None =>
                     Ok {| Plugin.errors := Plugin.errors st;
                           Plugin.visited := Set_add (Plugin.visited st) node;
                           Plugin.recursionStack :=
                             Set_add (Plugin.recursionStack st) node |}
                 end ;;
          Ok {| Plugin.errors := Plugin.errors st2;
                Plugin.visited := Plugin.visited st2;
                Plugin.recursionStack := Set_delete (Plugin.recursionStack st2) node |}
      end.
Proof. destruct fuel; reflexivity. Qed.

Lemma edges_in_graph_ids (graph : Plugin.DependencyGraph) (node d : string)
    (ds : list string) :
  dict_get (Plugin.edges graph) node = Some ds -> In d ds -> In d (Plugin.graph_ids graph).
Proof.
  intros H Hd. unfold Plugin.graph_ids. apply in_or_app. right.
  apply in_flat_map. exists (node, ds). split; [now apply dict_get_In | assumption].
Qed.

(** The traversal never exhausts a budget that exceeds the number of
    identifiers it has not visited yet. *)
Lemma detectCycles_visit_returns (graph : Plugin.DependencyGraph) :
  forall fuel node path st,
    In node (Plugin.graph_ids graph) ->
    unseen (Plugin.graph_ids graph) (Plugin.visited st) < fuel ->
    returns (fun st' => incl (Plugin.visited st) (Plugin.visited st'))
            (Plugin.detectCycles_visit fuel graph node path st).
Proof.
  induction fuel as [| fuel IH]; intros node path st Hnode Hfuel; [lia |].
  rewrite detectCycles_visit_eq.
  destruct (Set_has (Plugin.recursionStack st) node); [simpl; apply incl_refl |].
  destruct (Set_has (Plugin.visited st) node) eqn:Ev; [simpl; apply incl_refl |].
  apply Set_has_false in Ev.
  set (st1 := {| Plugin.errors := Plugin.errors st;
                 Plugin.visited := Set_add (Plugin.visited st) node;
                 Plugin.recursionStack := Set_add (Plugin.recursionStack st) node |}).
  assert (Hgrow : incl (Plugin.visited st) (Plugin.visited st1)).
  { intros x Hx. simpl. apply Set_add_In. now left. }
  assert (Hless : unseen (Plugin.graph_ids graph) (Plugin.visited st1) < fuel).
  { assert (unseen (Plugin.graph_ids graph) (Plugin.visited st1)
            < unseen (Plugin.graph_ids graph) (Plugin.visited st)).
    { apply unseen_lt with (x := node); try assumption. simpl. apply Set_add_In. now right. }
    lia. }
  assert (Hloop : returns (fun st' => incl (Plugin.visited st1) (Plugin.visited st'))
                    (match dict_get (Plugin.edges graph) node with
                     | Some deps =>
                         for_each (fun dep => Plugin.detectCycles_visit fuel graph dep
                                                                        (path ++ [node]))
                                  deps st1
                     | None => Ok st1
                     end)).
  { destruct (dict_get (Plugin.edges graph) node) as [ds |] eqn:Ed; [| simpl; apply incl_refl].
    apply for_each_returns; [| apply incl_refl].
    intros dep s Hdep Hs.
    eapply returns_impl; [| apply IH].
    - intros s' Hs'. eapply incl_tran; eassumption.
    - eapply edges_in_graph_ids; eassumption.
    - eapply Nat.le_lt_trans; [apply (unseen_le (Plugin.graph_ids graph) Hs) | exact Hless]. }
  destruct (match dict_get (Plugin.edges graph) node with
            | Some deps => _
            | None => _
            end) as [st2 | e |]; simpl in *; try contradiction.
  eapply incl_tran; eassumption.
Qed.

Lemma detectCycles_returns (graph : Plugin.DependencyGraph) :
  exists cycleErrors, Plugin.detectCycles graph = Ok cycleErrors.
Proof.
  unfold Plugin.detectCycles.
  assert (H : returns (fun _ => True)
                (for_each (Plugin.detectCycles_root (S (List.length (Plugin.graph_ids graph)))
                                                    graph)
                          (Plugin.nodes graph)
                          {| Plugin.errors := []; Plugin.visited := [];
                             Plugin.recursionStack := [] |})).
  { apply for_each_returns; [| exact I].
    intros node st Hnode _. unfold Plugin.detectCycles_root.
    destruct (negb (Set_has (Plugin.visited st) node)); [| exact I].
    eapply returns_impl; [| apply detectCycles_visit_returns].
    - trivial.
    - unfold Plugin.graph_ids. apply in_or_app. now left.
    - pose proof (unseen_bound (Plugin.graph_ids graph) (Plugin.visited st)). lia. }
  destruct (for_each _ _ _) as [st | e |]; simpl in *; try contradiction.
  eexists. reflexivity.
Qed.

Section Acyclic.

Variable graph : Plugin.DependencyGraph.
Variable rank : string -> nat.
Hypothesis rank_edges :
  forall node ds d, dict_get (Plugin.edges graph) node = Some ds -> In d ds ->
                    rank d < rank node.

Lemma detectCycles_visit_acyclic :
  forall fuel node path st st',
    (forall v, In v (Plugin.recursionStack st) -> rank node < rank v) ->
    Plugin.detectCycles_visit fuel graph node path st = Ok st' ->
    Plugin.errors st' = Plugin.errors st
    /\ Plugin.recursionStack st' = Plugin.recursionStack st.
Proof.
  induction fuel as [| fuel IH]; intros node path st st' Hstack;
    rewrite detectCycles_visit_eq;
    (destruct (Set_has (Plugin.recursionStack st) node) eqn:Es;
     [apply Set_has_In in Es; apply Hstack in Es; lia |]);
    (destruct (Set_has (Plugin.visited st) node);
     [intros H; injection H as <-; now split |]); [discriminate |].
  apply Set_has_false in Es.
  set (st1 := {| Plugin.errors := Plugin.errors st;
                 Plugin.visited := Set_add (Plugin.visited st) node;
                 Plugin.recursionStack := Set_add (Plugin.recursionStack st) node |}).
  intros H.
  destruct (match dict_get (Plugin.edges graph) node with
            | Some deps => _
            | None => _
            end) as [st2 | e |] eqn:E; cbn [bind] in H; try discriminate.
  injection H as <-. simpl.
  assert (H2 : Plugin.errors st2 = Plugin.errors st
               /\ Plugin.recursionStack st2 = Set_add (Plugin.recursionStack st) node).
  { destruct (dict_get (Plugin.edges graph) node) as [ds |] eqn:Ed.
    - revert E.
      apply (@for_each_Ok_inv _ _ _
               (fun s => Plugin.errors s = Plugin.errors st
                         /\ Plugin.recursionStack s
                            = Set_add (Plugin.recursionStack st) node));
        [| now split].
      intros dep s s' Hdep [He Hr] Hvisit.
      apply IH in Hvisit.
      + destruct Hvisit as [He' Hr']. split; congruence.
      + intros v Hv. rewrite Hr in Hv. apply Set_add_In in Hv.
        pose proof (rank_edges _ _ Ed Hdep). destruct Hv as [Hv | ->]; [| assumption].
        apply Hstack in Hv. lia.
    - injection E as <-. now split. }
  destruct H2 as [He Hr]. split; [assumption |].
  rewrite Hr. now apply Set_delete_add.
Qed.

(** On a graph whose edges descend along a rank, no cycle is reported. *)
Lemma detectCycles_acyclic : Plugin.detectCycles graph = Ok [].
Proof.
  destruct (detectCycles_returns graph) as [cycleErrors H]. rewrite H. f_equal.
  unfold Plugin.detectCycles in H.
  destruct (for_each _ _ _) as [st | e |] eqn:E; cbn [bind] in H; try discriminate.
  injection H as <-.
  assert (Hst : Plugin.errors st = [] /\ Plugin.recursionStack st = []).
  { revert E.
    apply (@for_each_Ok_inv _ _ _
             (fun s => Plugin.errors s = [] /\ Plugin.recursionStack s = []));
      [| now split].
    intros node s s' _ [He Hr]. unfold Plugin.detectCycles_root.
    destruct (negb (Set_has (Plugin.visited s) node)).
    - intros Hv. apply detectCycles_visit_acyclic in Hv.
      + destruct Hv as [He' Hr']. split; congruence.
      + rewrite Hr. intros v [].
    - intros Hv. injection Hv as <-. now split. }
  exact (proj1 Hst).
Qed.

End Acyclic.

(** ** The dependency graph of a plugin list *)

Lemma buildDependencyGraph_edges (plugins : list Plugin.Plugin) (node : string)
    (ds : list string) :
  dict_get (Plugin.edges (Plugin.buildDependencyGraph plugins)) node = Some ds ->
  exists p, In p plugins /\ Plugin.id p = node /\ forall d, In d ds -> In d (deps p).
Proof.
  unfold Plugin.buildDependencyGraph. revert node ds.
  apply (@fold_left_inv _ _ _
           (fun g => forall node ds,
                dict_get (Plugin.edges g) node = Some ds ->
                exists p, In p plugins /\ Plugin.id p = node
                          /\ forall d, In d ds -> In d (deps p))).
  - intros g plugin Hin IH node ds.
    destruct (Plugin.dependencies plugin) as [[| d0 ds0] |] eqn:Ed; simpl; try apply IH.
    rewrite dict_get_set. destruct (String.eqb_spec node (Plugin.id plugin)) as [-> | Hne].
    + intros H. injection H as <-. exists plugin. split; [assumption |].
      split; [reflexivity |]. intros d Hd. apply (proj1 (Set_from_In _ _)) in Hd.
      unfold deps. rewrite Ed. exact Hd.
    + apply IH.
  - intros node ds H. discriminate H.
Qed.

(** ** Order resolution *)

Section Resolve.

Variable registry : Plugin.InMemoryPluginRegistry.

Lemma resolve_visit_eq (fuel : nat) (pluginId : string) (st : Plugin.OrderState) :
  Plugin.resolve_visit fuel registry pluginId st
  = if Set_has (Plugin.visiting st) pluginId then Ok st
    else if Set_has (Plugin.done st) pluginId then Ok st
    else
      match fuel with
      | O => OutOfFuel
      | S fuel' =>
          match Plugin.get registry pluginId with
          | None => Throw (PluginNotFound pluginId)
          | Some plugin =>
              st2 <- for_each (Plugin.resolve_visit fuel' registry)
                              (Array_sort default_compare (deps plugin))
                              {| Plugin.sorted := Plugin.sorted st;
                                 Plugin.done := Plugin.done st;
                                 Plugin.visiting := Set_add (Plugin.visiting st) pluginId |} ;;
              Ok {| Plugin.sorted :=
                      if existsb (fun p => String.eqb (Plugin.id p) pluginId)
                                 (Plugin.sorted st2)
                      then Plugin.sorted st2 else Plugin.sorted st2 ++ [plugin];
                    Plugin.done := Set_add (Plugin.done st2) pluginId;
                    Plugin.visiting := Set_delete (Plugin.visiting st2) pluginId |}
          end
      end.
Proof.
  destruct fuel; [reflexivity |]. simpl.
  destruct (Set_has (Plugin.visiting st) pluginId); [reflexivity |].
  destruct (Set_has (Plugin.done st) pluginId); [reflexivity |].
  destruct (Plugin.get registry pluginId) as [plugin |]; [| reflexivity].
  unfold deps. destruct (Plugin.dependencies plugin); reflexivity.
Qed.

Local Abbreviation universe := (dict_keys (Plugin.plugins registry)).

(** A visit ends, by a value or by an exception, on a budget above the
    number of registered identifiers that are neither done nor being
    visited. *)
Lemma resolve_visit_ends :
  forall fuel pluginId st,
    unseen universe (Plugin.visiting st ++ Plugin.done st) < fuel ->
    ends (fun st' => Plugin.visiting st' = Plugin.visiting st
                     /\ incl (Plugin.done st) (Plugin.done st'))
         (Plugin.resolve_visit fuel registry pluginId st).
Proof.
  induction fuel as [| fuel IH]; intros i st Hfuel; [lia |].
  rewrite resolve_visit_eq.
  destruct (Set_has (Plugin.visiting st) i) eqn:Ev;
    [simpl; split; [reflexivity | apply incl_refl] |].
  destruct (Set_has (Plugin.done st) i) eqn:Ed;
    [simpl; split; [reflexivity | apply incl_refl] |].
  apply Set_has_false in Ev. apply Set_has_false in Ed.
  destruct (Plugin.get registry i) as [plugin |] eqn:Eg; [| exact I].
  assert (Hless : forall s,
             Plugin.visiting s = Set_add (Plugin.visiting st) i ->
             incl (Plugin.done st) (Plugin.done s) ->
             unseen universe (Plugin.visiting s ++ Plugin.done s) < fuel).
  { intros s Hv Hd.
    assert (unseen universe (Plugin.visiting s ++ Plugin.done s)
            < unseen universe (Plugin.visiting st ++ Plugin.done st)); [| lia].
    apply unseen_lt with (x := i).
    - intros x Hx. apply in_app_iff in Hx. apply in_app_iff. rewrite Hv, Set_add_In.
      destruct Hx as [Hx | Hx]; [tauto | right; now apply Hd].
    - eapply dict_get_Some_key. exact Eg.
    - rewrite in_app_iff. tauto.
    - apply in_app_iff. left. rewrite Hv. apply Set_add_In. now right. }
  match goal with
  | |- ends _ (bind (for_each ?f ?l ?s1) _) =>
      assert (Hloop : ends (fun s => Plugin.visiting s = Set_add (Plugin.visiting st) i
                                     /\ incl (Plugin.done st) (Plugin.done s))
                           (for_each f l s1))
  end.
  { apply for_each_ends; [| simpl; split; [reflexivity | apply incl_refl]].
    intros dep s _ [Hv Hd].
    eapply ends_impl; [| apply IH; now apply Hless].
    intros s' [Hv' Hd']. split; [congruence | eapply incl_tran; eassumption]. }
  destruct (for_each _ _ _) as [st2 | e |]; simpl in *; [| exact I | contradiction].
  destruct Hloop as [Hv Hd]. split.
  - rewrite Hv. now apply Set_delete_add.
  - intros x Hx. apply Set_add_In. left. now apply Hd.
Qed.

End Resolve.

Section ResolveSound.

Variable registry : Plugin.InMemoryPluginRegistry.
Variable plugins : list Plugin.Plugin.
Variable rank : string -> nat.

Hypothesis registry_wf : registry_ok registry.
Hypothesis closed :
  forall i, Reachable registry plugins i -> Plugin.get registry i <> None.
Hypothesis descending :
  forall i p d, Reachable registry plugins i -> Plugin.get registry i = Some p ->
                In d (deps p) -> rank d < rank i.

Lemma order_inv_done_grows (s s' : Plugin.OrderState) (l : list Plugin.Plugin) :
  order_inv registry plugins s -> order_inv registry plugins s' ->
  Plugin.sorted s' = Plugin.sorted s ++ l ->
  forall y, In y (Plugin.done s) -> In y (Plugin.done s').
Proof.
  intros [H1 _] [H1' _] Hext y Hy. rewrite <- H1', Hext, map_app, H1.
  apply in_or_app. now left.
Qed.

(** A visit of a reachable identifier below every identifier being visited
    does not throw; it keeps the invariant and the visiting set, completes
    the identifier, appends to the order, and completes nothing of higher
    rank. *)
Lemma resolve_visit_sound :
  forall fuel i st,
    Reachable registry plugins i ->
    order_inv registry plugins st ->
    (forall v, In v (Plugin.visiting st) -> rank i < rank v) ->
    sound (fun st' => order_inv registry plugins st'
                      /\ Plugin.visiting st' = Plugin.visiting st
                      /\ In i (Plugin.done st')
                      /\ (exists l, Plugin.sorted st' = Plugin.sorted st ++ l)
                      /\ forall x, In x (Plugin.done st') ->
                                   In x (Plugin.done st) \/ rank x <= rank i)
          (Plugin.resolve_visit fuel registry i st).
Proof.
  induction fuel as [| fuel IH]; intros i st Hreach Hinv Hrank;
    rewrite resolve_visit_eq;
    (destruct (Set_has (Plugin.visiting st) i) eqn:Ev;
     [apply Set_has_In in Ev; apply Hrank in Ev; lia |]);
    (destruct (Set_has (Plugin.done st) i) eqn:Ed;
     [apply Set_has_In in Ed; simpl; repeat split; try apply Hinv; try assumption;
      [exists []; now rewrite app_nil_r | intros x Hx; now left] |]);
    [exact I |].
  apply Set_has_false in Ev. apply Set_has_false in Ed.
  destruct (Plugin.get registry i) as [plugin |] eqn:Eg;
    [| exact (@closed i Hreach Eg)].
  set (st1 := {| Plugin.sorted := Plugin.sorted st;
                 Plugin.done := Plugin.done st;
                 Plugin.visiting := Set_add (Plugin.visiting st) i |}).
  pose (P := fun s : Plugin.OrderState =>
               order_inv registry plugins s
               /\ Plugin.visiting s = Set_add (Plugin.visiting st) i
               /\ (exists l, Plugin.sorted s = Plugin.sorted st ++ l)
               /\ forall x, In x (Plugin.done s) -> In x (Plugin.done st) \/ rank x < rank i).
  assert (Hloop :
            sound (fun s => P s
                            /\ (forall d, In d (Array_sort default_compare (deps plugin)) ->
                                          In d (Plugin.done s))
                            /\ forall y, In y (Plugin.done st1) -> In y (Plugin.done s))
                  (for_each (Plugin.resolve_visit fuel registry)
                            (Array_sort default_compare (deps plugin)) st1)).
  { apply (@for_each_sound _ _ (Plugin.resolve_visit fuel registry) P
             (fun d s => In d (Plugin.done s))).
    - intros dep s Hdep [Hs [Hv [[l Hl] Hnew]]].
      assert (Hlt : rank dep < rank i).
      { apply (@descending i plugin dep Hreach Eg). now apply Array_sort_In in Hdep. }
      eapply sound_impl; [| apply IH].
      + intros s' [Hs' [Hv' [Hdone [[l' Hl'] Hnew']]]].
        split; [| split].
        * split; [assumption |]. split; [congruence |]. split.
          -- exists (l ++ l'). rewrite Hl', Hl. now rewrite app_assoc.
          -- intros x Hx. apply Hnew' in Hx. destruct Hx as [Hx | Hx]; [now apply Hnew | lia].
        * assumption.
        * apply (@order_inv_done_grows s s' l' Hs Hs' Hl').
      + eapply reach_dependency; [exact Hreach | exact Eg |]. now apply Array_sort_In in Hdep.
      + assumption.
      + intros v Hv'. rewrite Hv in Hv'. apply Set_add_In in Hv'.
        destruct Hv' as [Hv' | ->]; [apply Hrank in Hv'; lia | assumption].
    - unfold P. simpl. split; [exact Hinv |]. split; [reflexivity |]. split.
      + exists []. now rewrite app_nil_r.
      + intros x Hx. now left. }
  destruct (for_each _ _ st1) as [st2 | e |]; simpl in Hloop |- *; [| assumption | exact I].
  destruct Hloop as [[Hs2 [Hv2 [[l2 Hl2] Hnew2]]] [Hdeps _]].
  destruct Hs2 as [H1 [H2 [H3 H4]]].
  assert (Hi : ~ In i (Plugin.done st2)).
  { intros Hin. apply Hnew2 in Hin. destruct Hin as [Hin | Hin]; [contradiction | lia]. }
  assert (Hex : existsb (fun p => String.eqb (Plugin.id p) i) (Plugin.sorted st2) = false).
  { apply not_true_is_false. intros Hex. apply existsb_exists in Hex.
    destruct Hex as [p [Hp Hpi]]. apply String.eqb_eq in Hpi. apply Hi.
    rewrite <- H1, <- Hpi. now apply in_map. }
  assert (Hid : Plugin.id plugin = i) by (eapply registry_ok_get; eassumption).
  assert (Hadd : Set_add (Plugin.done st2) i = Plugin.done st2 ++ [i]).
  { unfold Set_add. now rewrite (proj2 (Set_has_false _ _) Hi). }
  rewrite Hex, Hadd. split; [| split; [| split; [| split]]].
  - split; [| split; [| split]]; simpl.
    + rewrite map_app, H1. simpl. now rewrite Hid.
    + rewrite <- Hadd. now apply Set_add_NoDup.
    + intros p Hp. apply in_app_iff in Hp.
      destruct Hp as [Hp | [Heq | []]]; [now apply H3 |].
      rewrite <- Heq, Hid. now split.
    + apply topological_snoc; [assumption |]. intros d Hd. rewrite H1.
      apply Hdeps. now apply Array_sort_In.
  - simpl. rewrite Hv2. now apply Set_delete_add.
  - simpl. apply in_or_app. right. now left.
  - simpl. exists (l2 ++ [plugin]). rewrite Hl2. now rewrite app_assoc.
  - simpl. intros x Hx. apply in_app_iff in Hx. destruct Hx as [Hx | [Heq | []]].
    + apply Hnew2 in Hx. destruct Hx as [Hx | Hx]; [now left | right; lia].
    + right. rewrite <- Heq. lia.
Qed.

End ResolveSound.

(** ** Sorting with a comparator that is a total preorder *)

Section SortOrder.

Variable A : Type.
Variable cmp : A -> A -> comparison.

Hypothesis cmp_opp : forall x y, cmp y x = CompOpp (cmp x y).
Hypothesis cmp_trans : forall x y z, cmp x y <> Gt -> cmp y z <> Gt -> cmp x z <> Gt.

Local Abbreviation le := (fun x y : A => cmp x y <> Gt).

Lemma sort_insert_sorted (x : A) (l : list A) :
  StronglySorted le l -> StronglySorted le (sort_insert cmp x l).
Proof.
  induction 1 as [| y l Hl IH Hy]; simpl.
  - constructor; constructor.
  - destruct (cmp x y) eqn:E.
    + constructor; [now constructor |]. constructor; [cbv beta; congruence |].
      eapply Forall_impl; [| exact Hy]. intros z Hz. apply cmp_trans with y; [| exact Hz].
      congruence.
    + constructor; [now constructor |]. constructor; [cbv beta; congruence |].
      eapply Forall_impl; [| exact Hy]. intros z Hz. apply cmp_trans with y; [| exact Hz].
      congruence.
    + constructor; [assumption |].
      apply Forall_forall. intros z Hz.
      apply (Permutation_in _ (sort_insert_perm cmp x l)) in Hz.
      destruct Hz as [<- | Hz].
      * cbv beta. rewrite cmp_opp, E. discriminate.
      * rewrite Forall_forall in Hy. now apply Hy.
Qed.

Lemma Array_sort_sorted (l : list A) : StronglySorted le (Array_sort cmp l).
Proof.
  induction l as [| x l IH]; simpl; [constructor | now apply sort_insert_sorted].
Qed.

Lemma sorted_perm_unique (l1 : list A) :
  forall l2,
    StronglySorted le l1 -> StronglySorted le l2 -> Permutation l1 l2 ->
    (forall x y, In x l1 -> In y l1 -> cmp x y = Eq -> x = y) ->
    l1 = l2.
Proof.
  induction l1 as [| x l1 IH]; intros l2 H1 H2 Hperm Htie.
  - apply Permutation_nil in Hperm. now subst.
  - destruct l2 as [| y l2];
      [apply Permutation_sym, Permutation_nil in Hperm; discriminate |].
    inversion H1 as [| ? ? H1' Hx]; subst. inversion H2 as [| ? ? H2' Hy]; subst.
    rewrite Forall_forall in Hx, Hy.
    assert (Hxy : x = y).
    { assert (Hyin : In y (x :: l1))
        by (apply (Permutation_in _ (Permutation_sym Hperm)); now left).
      assert (Hxin : In x (y :: l2)) by (apply (Permutation_in _ Hperm); now left).
      destruct Hyin as [Heq | Hyin]; [assumption |].
      destruct Hxin as [Heq | Hxin]; [now symmetry |].
      apply Htie; [now left | now right |].
      pose proof (Hx y Hyin) as Hle1. pose proof (Hy x Hxin) as Hle2.
      cbv beta in Hle1, Hle2. rewrite cmp_opp in Hle2.
      destruct (cmp x y); simpl in Hle2; congruence. }
    subst y. f_equal. apply IH; try assumption.
    + eapply Permutation_cons_inv; eassumption.
    + intros a b Ha Hb. apply Htie; now right.
Qed.

Lemma Array_sort_perm_eq (l l' : list A) :
  Permutation l l' ->
  (forall x y, In x l -> In y l -> cmp x y = Eq -> x = y) ->
  Array_sort cmp l = Array_sort cmp l'.
Proof.
  intros Hperm Htie. apply sorted_perm_unique.
  - apply Array_sort_sorted.
  - apply Array_sort_sorted.
  - rewrite !Array_sort_perm. assumption.
  - intros x y Hx Hy. apply Htie; now apply Array_sort_In in Hx, Hy.
Qed.

End SortOrder.

(** ** Small list facts *)

Lemma flat_map_nil (A B : Type) (f : A -> list B) (l : list A) :
  (forall x, In x l -> f x = []) -> flat_map f l = [].
Proof.
  induction l as [| x l IH]; simpl; intros H; [reflexivity |].
  rewrite (H x (or_introl eq_refl)). apply IH. intros y Hy. apply H. now right.
Qed.

Lemma Reachable_incl (registry : Plugin.InMemoryPluginRegistry)
    (plugins plugins' : list Plugin.Plugin) (i : string) :
  incl plugins plugins' -> Reachable registry plugins i -> Reachable registry plugins' i.
Proof.
  intros Hincl. induction 1 as [p Hp | i p d _ IH Hg Hd].
  - apply reach_candidate. now apply Hincl.
  - eapply reach_dependency; eassumption.
Qed.


(** ** The order of an acyclic, closed candidate set *)

Section ResolveOrder.

Variable localeCompare : string -> string -> comparison.
Variable registry : Plugin.InMemoryPluginRegistry.
Variable plugins : list Plugin.Plugin.
Variable rank : string -> nat.

Hypothesis registry_wf : registry_ok registry.
Hypothesis candidates_registered :
  forall p, In p plugins -> Plugin.get registry (Plugin.id p) = Some p.
Hypothesis closed :
  forall i, Reachable registry plugins i -> Plugin.get registry i <> None.
Hypothesis descending :
  forall i p d, Reachable registry plugins i -> Plugin.get registry i = Some p ->
                In d (deps p) -> rank d < rank i.

Local Abbreviation fuel := (S (List.length (Plugin.plugins registry))).
Local Abbreviation start :=
  {| Plugin.sorted := []; Plugin.done := []; Plugin.visiting := [] |}.
Local Abbreviation visit_root :=
  (fun plugin : Plugin.Plugin => Plugin.resolve_visit fuel registry (Plugin.id plugin)).

Lemma resolvePluginOrder_roots :
  Plugin.resolvePluginOrder localeCompare plugins registry
  = (st <- for_each visit_root
             (Array_sort (fun a b => localeCompare (Plugin.id a) (Plugin.id b)) plugins)
             start ;;
     Ok (Plugin.sorted st)).
Proof.
  unfold Plugin.resolvePluginOrder. cbv zeta.
  rewrite filter_all.
  2:{ intros p Hp. now rewrite (candidates_registered p Hp). }
  rewrite (@detectCycles_acyclic (Plugin.buildDependencyGraph plugins) rank).
  2:{ intros node ds d Hedge Hd. apply buildDependencyGraph_edges in Hedge.
      destruct Hedge as [p [Hp [<- Hsub]]].
      eapply descending; [now apply reach_candidate | now apply candidates_registered |].
      now apply Hsub. }
  cbn [bind].
  replace (Plugin.missing_dependencies registry plugins) with (@nil string); [reflexivity |].
  symmetry. unfold Plugin.missing_dependencies. apply flat_map_nil. intros p Hp.
  assert (Hdeps : forall d, In d (deps p) -> Plugin.get registry d <> None).
  { intros d Hd. apply closed.
    eapply reach_dependency;
      [apply reach_candidate; exact Hp | now apply candidates_registered | exact Hd]. }
  unfold deps in Hdeps. destruct (Plugin.dependencies p) as [ds |]; [| reflexivity].
  apply flat_map_nil. intros d Hd. specialize (Hdeps d Hd).
  destruct (Plugin.get registry d); [reflexivity | congruence].
Qed.

Lemma resolve_roots_returns (roots : list Plugin.Plugin) :
  incl roots plugins ->
  returns (fun st => order_inv registry plugins st
                     /\ forall p, In p roots -> In (Plugin.id p) (Plugin.done st))
          (for_each visit_root roots start).
Proof.
  intros Hroots.
  assert (Hsound :
            sound (fun st => (order_inv registry plugins st /\ Plugin.visiting st = [])
                             /\ (forall p, In p roots -> In (Plugin.id p) (Plugin.done st))
                             /\ forall p, In (Plugin.id p) (Plugin.done start) ->
                                          In (Plugin.id p) (Plugin.done st))
                  (for_each visit_root roots start)).
  { apply (@for_each_sound _ _ visit_root
             (fun st => order_inv registry plugins st /\ Plugin.visiting st = [])
             (fun p st => In (Plugin.id p) (Plugin.done st))).
    - intros p st Hp [Hinv Hv].
      eapply sound_impl;
        [| apply (@resolve_visit_sound registry plugins rank registry_wf closed descending)].
      + intros st' [Hinv' [Hv' [Hdone [[l Hl] _]]]].
        split; [split; [assumption | congruence] |]. split; [assumption |].
        intros q. apply (@order_inv_done_grows registry plugins st st' l Hinv Hinv' Hl).
      + apply reach_candidate. now apply Hroots.
      + assumption.
      + rewrite Hv. intros v [].
    - split; [| reflexivity]. unfold order_inv. simpl.
      split; [reflexivity | split; [constructor | split; [intros ? [] | constructor]]]. }
  assert (Hends : ends (fun st => Plugin.visiting st = []) (for_each visit_root roots start)).
  { apply for_each_ends; [| reflexivity].
    intros p st _ Hv.
    eapply ends_impl; [| apply resolve_visit_ends].
    - intros st' [Hv' _]. congruence.
    - pose proof (unseen_bound (dict_keys (Plugin.plugins registry))
                               (Plugin.visiting st ++ Plugin.done st)) as Hb.
      unfold dict_keys in Hb. rewrite length_map in Hb. unfold dict_keys. lia. }
  pose proof (sound_ends_returns _ _ _ Hsound Hends) as H.
  eapply returns_impl; [| exact H]. intros st [[[Hinv _] [Hroot _]] _]. now split.
Qed.

(** The result for an acyclic candidate set whose dependencies are all
    registered. *)
Lemma resolvePluginOrder_acyclic :
  exists order,
    Plugin.resolvePluginOrder localeCompare plugins registry = Ok order
    /\ NoDup (map Plugin.id order)
    /\ (forall p, In p plugins -> In p order)
    /\ (forall p, In p order ->
                  Plugin.get registry (Plugin.id p) = Some p
                  /\ Reachable registry plugins (Plugin.id p))
    /\ Topological order.
Proof.
  rewrite resolvePluginOrder_roots.
  pose proof (@resolve_roots_returns
                (Array_sort (fun a b => localeCompare (Plugin.id a) (Plugin.id b)) plugins))
    as H.
  destruct (for_each _ _ _) as [st | e |]; simpl in H |- *;
    try (exfalso; apply H; intros p Hp; now apply Array_sort_In in Hp).
  destruct H as [[H1 [H2 [H3 H4]]] Hroots].
  { intros p Hp. now apply Array_sort_In in Hp. }
  exists (Plugin.sorted st). split; [reflexivity |]. split; [now rewrite H1 |].
  split; [| split; assumption].
  intros p Hp.
  assert (Hin : In (Plugin.id p) (map Plugin.id (Plugin.sorted st))).
  { rewrite H1. apply Hroots. now apply Array_sort_In. }
  apply in_map_iff in Hin. destruct Hin as [q [Hq Hin]].
  pose proof (proj1 (H3 q Hin)) as Hgq. rewrite Hq, (candidates_registered p Hp) in Hgq.
  injection Hgq as ->. assumption.
Qed.




End ResolveOrder.

Section ResolveOrderMore.

Variable localeCompare : string -> string -> comparison.
Variable registry : Plugin.InMemoryPluginRegistry.
Variable plugins : list Plugin.Plugin.
Variable rank : string -> nat.

Hypothesis registry_wf : registry_ok registry.
Hypothesis candidates_registered :
  forall p, In p plugins -> Plugin.get registry (Plugin.id p) = Some p.
Hypothesis closed :
  forall i, Reachable registry plugins i -> Plugin.get registry i <> None.
Hypothesis descending :
  forall i p d, Reachable registry plugins i -> Plugin.get registry i = Some p ->
                In d (deps p) -> rank d < rank i.

(** The order does not depend on the order of the candidate list, when the
    collation is a total preorder that tells the candidates' ids apart. *)
Lemma resolvePluginOrder_permutation (plugins' : list Plugin.Plugin) :
  (forall a b, localeCompare b a = CompOpp (localeCompare a b)) ->
  (forall a b c, localeCompare a b <> Gt -> localeCompare b c <> Gt ->
                 localeCompare a c <> Gt) ->
  (forall p q, In p plugins -> In q plugins ->
               localeCompare (Plugin.id p) (Plugin.id q) = Eq -> Plugin.id p = Plugin.id q) ->
  Permutation plugins plugins' ->
  Plugin.resolvePluginOrder localeCompare plugins' registry
  = Plugin.resolvePluginOrder localeCompare plugins registry.
Proof.
  intros Hopp Htrans Htie Hperm.
  assert (Hincl : incl plugins' plugins).
  { intros p Hp. eapply Permutation_in; [symmetry; exact Hperm | exact Hp]. }
  rewrite (@resolvePluginOrder_roots localeCompare registry plugins rank);
    try assumption.
  rewrite (@resolvePluginOrder_roots localeCompare registry plugins' rank).
  - f_equal. f_equal. symmetry. apply Array_sort_perm_eq; try assumption.
    + intros x y. apply Hopp.
    + intros x y z. apply Htrans.
    + intros x y Hx Hy Heq. apply Htie in Heq; try assumption.
      pose proof (candidates_registered x Hx) as Hgx.
      pose proof (candidates_registered y Hy) as Hgy.
      rewrite Heq, Hgy in Hgx. now injection Hgx.
  - intros p Hp. apply candidates_registered. now apply Hincl.
  - intros i Hi. apply closed. eapply Reachable_incl; eassumption.
  - intros i p d Hi. apply descending. eapply Reachable_incl; eassumption.
Qed.

End ResolveOrderMore.



(** ** Candidates that are not registered *)

Lemma resolve_visit_registered (registry : Plugin.InMemoryPluginRegistry) :
  forall fuel i st st',
    Forall (fun p => exists j, Plugin.get registry j = Some p) (Plugin.sorted st) ->
    Plugin.resolve_visit fuel registry i st = Ok st' ->
    Forall (fun p => exists j, Plugin.get registry j = Some p) (Plugin.sorted st').
Proof.
  induction fuel as [| fuel IH]; intros i st st' Hst; rewrite resolve_visit_eq;
    (destruct (Set_has (Plugin.visiting st) i); [intros H; now injection H as <- |]);
    (destruct (Set_has (Plugin.done st) i); [intros H; now injection H as <- |]);
    [discriminate |].
  destruct (Plugin.get registry i) as [plugin |] eqn:Eg; [| discriminate].
  destruct (for_each _ _ _) as [st2 | e |] eqn:E; cbn [bind]; try discriminate.
  intros H. injection H as <-. cbn [Plugin.sorted].
  assert (H2 : Forall (fun p => exists j, Plugin.get registry j = Some p) (Plugin.sorted st2)).
  { revert E.
    apply (@for_each_Ok_inv _ _ _
             (fun s => Forall (fun p => exists j, Plugin.get registry j = Some p)
                              (Plugin.sorted s))); [| exact Hst].
    intros dep s s' _. apply IH. }
  destruct (existsb _ (Plugin.sorted st2)); [assumption |].
  apply Forall_app. split; [assumption |]. constructor; [| constructor]. now exists i.
Qed.

Lemma resolvePluginOrder_registered (localeCompare : string -> string -> comparison)
    (plugins : list Plugin.Plugin) (registry : Plugin.InMemoryPluginRegistry)
    (order : list Plugin.Plugin) :
  Plugin.resolvePluginOrder localeCompare plugins registry = Ok order ->
  forall p, In p order -> exists i, Plugin.get registry i = Some p.
Proof.
  unfold Plugin.resolvePluginOrder. cbv zeta.
  destruct (Plugin.detectCycles _) as [cycleErrors | e |]; cbn [bind]; try discriminate.
  destruct cycleErrors; [| discriminate].
  destruct (Plugin.missing_dependencies registry _); [| discriminate].
  destruct (for_each _ _ _) as [st | e |] eqn:E; cbn [bind]; try discriminate.
  intros H. injection H as <-. apply Forall_forall. revert E.
  apply (@for_each_Ok_inv _ _ _
           (fun s => Forall (fun p => exists j, Plugin.get registry j = Some p)
                            (Plugin.sorted s))); [| constructor].
  intros plugin s s' _. apply resolve_visit_registered.
Qed.

Lemma filter_idempotent (A : Type) (f : A -> bool) (l : list A) :
  filter f (filter f l) = filter f l.
Proof. apply filter_all. intros x Hx. apply filter_In in Hx. tauto. Qed.

Lemma filter_none (A : Type) (f : A -> bool) (l : list A) :
  (forall x, In x l -> f x = false) -> filter f l = [].
Proof.
  induction l as [| x l IH]; simpl; intros H; [reflexivity |].
  rewrite (H x (or_introl eq_refl)). apply IH. intros y Hy. apply H. now right.
Qed.

Lemma resolvePluginOrder_claim_fails_on_stranger :
  Plugin.get Plugin.empty (Plugin.id stranger) = None
  /\ Plugin.resolvePluginOrder Collation.localeCompare [stranger] Plugin.empty = Ok [].
Proof. split; reflexivity. Qed.

(** C4, as the code has it.  A candidate whose id is not registered does not
    make [resolvePluginOrder] fail: the candidates are first filtered down
    to the registered ones, so the call is the call on those alone; every
    plugin of a returned order is held by the registry; and a list of
    unregistered candidates yields the empty order. *)
Theorem unregistered_candidates_are_dropped
    (localeCompare : string -> string -> comparison) (plugins : list Plugin.Plugin)
    (registry : Plugin.InMemoryPluginRegistry) :
  let registered p :=
    match Plugin.get registry (Plugin.id p) with Some _ => true | None => false end in
  Plugin.resolvePluginOrder localeCompare plugins registry
  = Plugin.resolvePluginOrder localeCompare (filter registered plugins) registry
  /\ (forall order,
        Plugin.resolvePluginOrder localeCompare plugins registry = Ok order ->
        forall p, In p order -> exists i, Plugin.get registry i = Some p)
  /\ ((forall p, In p plugins -> Plugin.get registry (Plugin.id p) = None) ->
      Plugin.resolvePluginOrder localeCompare plugins registry = Ok []).
Proof.
  intros registered. split; [| split].
  - unfold Plugin.resolvePluginOrder. cbv zeta. fold registered.
    now rewrite filter_idempotent.
  - unfold Plugin.resolvePluginOrder. cbv zeta. intros order.
    destruct (Plugin.detectCycles _) as [cycleErrors | e |]; cbn [bind]; try discriminate.
    destruct cycleErrors; [| discriminate].
    destruct (Plugin.missing_dependencies registry _); [| discriminate].
    destruct (for_each _ _ _) as [st | e |] eqn:E; cbn [bind]; try discriminate.
    intros H. injection H as <-.
    assert (Hall : Forall (fun p => exists j, Plugin.get registry j = Some p)
                          (Plugin.sorted st)).
    { revert E.
      apply (@for_each_Ok_inv _ _ _
               (fun s => Forall (fun p => exists j, Plugin.get registry j = Some p)
                                (Plugin.sorted s))); [| constructor].
      intros plugin s s' _. apply resolve_visit_registered. }
    rewrite Forall_forall in Hall. exact Hall.
  - intros Hnone. unfold Plugin.resolvePluginOrder. cbv zeta.
    rewrite filter_none; [reflexivity |].
    intros p Hp. now rewrite (Hnone p Hp).
Qed.

(** ** The claims on the plugin order *)




(** ** The config hash *)

Lemma string_compare_trans (x : string) :
  forall y z, String.compare x y <> Gt -> String.compare y z <> Gt ->
              String.compare x z <> Gt.
Proof.
  induction x as [| a x IH]; intros [| b y] [| c z]; simpl; try congruence.
  unfold Ascii.compare.
  destruct (N.compare_spec (N_of_ascii a) (N_of_ascii b)) as [Hab | Hab | Hab];
    destruct (N.compare_spec (N_of_ascii b) (N_of_ascii c)) as [Hbc | Hbc | Hbc];
    destruct (N.compare_spec (N_of_ascii a) (N_of_ascii c)) as [Hac | Hac | Hac];
    try congruence; try lia.
  apply IH.
Qed.

Lemma sorted_keys_perm (l l' : list string) :
  Permutation l l' -> Array_sort default_compare l = Array_sort default_compare l'.
Proof.
  intros H. unfold default_compare. apply Array_sort_perm_eq.
  - intros x y. apply String.compare_antisym.
  - intros x y z. apply string_compare_trans.
  - assumption.
  - intros x y _ _. apply String.compare_eq_iff.
Qed.

Lemma same_lookups_same_keys (V : Type) (c1 c2 : Dict V) :
  NoDup (dict_keys c1) -> NoDup (dict_keys c2) ->
  (forall k, dict_get c1 k = dict_get c2 k) ->
  Permutation (Object_keys c1) (Object_keys c2).
Proof.
  intros H1 H2 Hsame. unfold Object_keys. rewrite !own_keys_perm.
  apply NoDup_Permutation; try assumption.
  intros k. rewrite <- !dict_has_In. unfold dict_has. now rewrite Hsame.
Qed.

Lemma JSON_stringify_lookups (c1 c2 : Dict string) (replacer : list string) :
  (forall k, dict_get c1 k = dict_get c2 k) ->
  JSON_stringify c1 replacer = JSON_stringify c2 replacer.
Proof.
  intros Hsame. unfold JSON_stringify. do 3 f_equal.
  apply flat_map_ext. intros p. now rewrite Hsame.
Qed.

(** Two objects with the same properties hash alike, whatever the order in
    which their keys were inserted. *)
Lemma computeConfigHash_insertion_order (c1 c2 : Config.ProjectConfig) :
  NoDup (dict_keys c1) -> NoDup (dict_keys c2) ->
  (forall k, dict_get c1 k = dict_get c2 k) ->
  Renderer.computeConfigHash c1 = Renderer.computeConfigHash c2.
Proof.
  intros H1 H2 Hsame. unfold Renderer.computeConfigHash.
  rewrite (@sorted_keys_perm _ _ (@same_lookups_same_keys _ c1 c2 H1 H2 Hsame)).
  now rewrite (@JSON_stringify_lookups c1 c2 _ Hsame).
Qed.

Lemma distinct_NoDup (l : list string) : Config.distinct l = true -> NoDup l.
Proof.
  induction l as [| x l IH]; simpl; intros H; [constructor |].
  apply andb_true_iff in H. destruct H as [Hx Hl].
  constructor; [| now apply IH].
  apply negb_true_iff in Hx. now apply Set_has_false.
Qed.

Lemma NoDup_map_injective (A B : Type) (f : A -> B) (l : list A) :
  NoDup (map f l) -> forall x y, In x l -> In y l -> f x = f y -> x = y.
Proof.
  induction l as [| a l IH]; simpl; intros Hnd x y Hx Hy Hf; [contradiction |].
  inversion Hnd as [| ? ? Ha Hl]; subst.
  destruct Hx as [<- | Hx], Hy as [<- | Hy].
  - reflexivity.
  - exfalso. apply Ha. rewrite Hf. now apply in_map.
  - exfalso. apply Ha. rewrite <- Hf. now apply in_map.
  - now apply IH.
Qed.

(** The 864 values of type [ProjectConfig] have 864 different hashes. *)
Lemma all_configs_hash_apart :
  Config.distinct (map Renderer.computeConfigHash all_configs) = true.
Proof. vm_compute. reflexivity. Qed.

Lemma schema_names_unique (f f' : Config.Field) :
  In f Config.ProjectConfigSchema -> In f' Config.ProjectConfigSchema ->
  Config.name f = Config.name f' -> f = f'.
Proof.
  intros Hf Hf' Hn. simpl in Hf, Hf'.
  repeat (destruct Hf as [<- | Hf]; [| try contradiction]);
    repeat (destruct Hf' as [<- | Hf']; [| try contradiction]);
    try reflexivity; discriminate Hn.
Qed.

Section Canonical.

Variable config : Dict string.

Lemma canonical_in_enumerate (fields : list Config.Field) :
  (forall f, In f fields ->
             match dict_get config (Config.name f) with
             | Some v => In v (Config.values f)
             | None => Config.optional f = true
             end) ->
  In (canonical fields config) (enumerate fields).
Proof.
  induction fields as [| f rest IH]; simpl; intros H; [now left |].
  apply in_flat_map.
  exists (match dict_get config (Config.name f) with
          | Some v => [(Config.name f, v)]
          | None => []
          end).
  split.
  - pose proof (H f (or_introl eq_refl)) as Hf. unfold choices.
    destruct (dict_get config (Config.name f)) as [v |].
    + apply in_or_app. right. apply in_map_iff. now exists v.
    + rewrite Hf. now left.
  - apply in_map. apply IH. intros g Hg. apply H. now right.
Qed.

Lemma canonical_In (fields : list Config.Field) (k v : string) :
  In (k, v) (canonical fields config)
  <-> exists f, In f fields /\ Config.name f = k /\ dict_get config k = Some v.
Proof.
  unfold canonical. rewrite in_flat_map. split.
  - intros [f [Hf Hin]]. exists f. split; [assumption |].
    destruct (dict_get config (Config.name f)) as [v0 |] eqn:E; [| contradiction].
    destruct Hin as [Heq | []]. injection Heq as <- <-. now split.
  - intros [f [Hf [<- Hg]]]. exists f. split; [assumption |]. rewrite Hg. now left.
Qed.

Lemma canonical_keys (fields : list Config.Field) :
  dict_keys (canonical fields config)
  = filter (dict_has config) (map Config.name fields).
Proof.
  unfold canonical, dict_keys, dict_has.
  induction fields as [| f rest IH]; simpl; [reflexivity |].
  rewrite map_app, IH. now destruct (dict_get config (Config.name f)).
Qed.

Hypothesis typed : Config.is_ProjectConfig config = true.

Lemma typed_NoDup : NoDup (dict_keys config).
Proof.
  unfold Config.is_ProjectConfig in typed. rewrite !andb_true_iff in typed.
  now apply distinct_NoDup.
Qed.

Lemma typed_entry (k v : string) :
  dict_get config k = Some v ->
  exists f, In f Config.ProjectConfigSchema /\ Config.name f = k /\ In v (Config.values f).
Proof.
  intros H. apply dict_get_In in H.
  unfold Config.is_ProjectConfig in typed. rewrite !andb_true_iff in typed.
  destruct typed as [[_ Hentries] _]. rewrite forallb_forall in Hentries.
  specialize (Hentries _ H). apply existsb_exists in Hentries.
  destruct Hentries as [f [Hf Hcheck]]. simpl in Hcheck.
  apply andb_true_iff in Hcheck. destruct Hcheck as [Hname Hvalue].
  exists f. split; [assumption |]. split; [now apply String.eqb_eq |].
  now apply Set_has_In.
Qed.

Lemma typed_canonical_in_all : In (canonical Config.ProjectConfigSchema config) all_configs.
Proof.
  apply canonical_in_enumerate. intros f Hf.
  destruct (dict_get config (Config.name f)) as [v |] eqn:E.
  - destruct (@typed_entry _ _ E) as [f' [Hf' [Hname Hvalue]]].
    now rewrite (@schema_names_unique _ _ Hf Hf' (eq_sym Hname)).
  - unfold Config.is_ProjectConfig in typed. rewrite !andb_true_iff in typed.
    destruct typed as [_ Hrequired]. rewrite forallb_forall in Hrequired.
    specialize (Hrequired f Hf). unfold dict_has in Hrequired. rewrite E in Hrequired.
    now rewrite orb_false_r in Hrequired.
Qed.

Lemma typed_canonical_get (k : string) :
  dict_get (canonical Config.ProjectConfigSchema config) k = dict_get config k.
Proof.
  apply dict_get_same_bindings.
  - intros k0 v0 H. apply canonical_In in H. now destruct H as [f [_ [_ H]]].
  - intros k0 H. apply dict_has_In in H. unfold dict_has in H.
    destruct (dict_get config k0) as [v |] eqn:E; [| discriminate].
    destruct (@typed_entry _ _ E) as [f [Hf [Hname _]]].
    unfold dict_keys. change k0 with (fst (k0, v)). apply in_map.
    apply canonical_In. now exists f.
Qed.

Lemma typed_canonical_NoDup : NoDup (dict_keys (canonical Config.ProjectConfigSchema config)).
Proof.
  rewrite canonical_keys. apply NoDup_filter. apply distinct_NoDup. reflexivity.
Qed.

Lemma typed_hash_canonical :
  Renderer.computeConfigHash config
  = Renderer.computeConfigHash (canonical Config.ProjectConfigSchema config).
Proof.
  apply computeConfigHash_insertion_order.
  - apply typed_NoDup.
  - apply typed_canonical_NoDup.
  - intros k. symmetry. apply typed_canonical_get.
Qed.

End Canonical.

(** C7.  The manifest's config hash is [computeConfigHash] of the config,
    the SHA-256 of its JSON text with the keys sorted; two objects with the
    same properties have the same hash whatever the insertion order of
    their keys; and two values of type [ProjectConfig] that differ in a
    field have different hashes. *)
Theorem configHash_canonical_and_sensitive :
  (forall localeCompare registry config policy existingFiles result,
      Renderer.render localeCompare registry config policy existingFiles = Ok result ->
      Types.configHash (Renderer.manifest result)
      = Sha256.digest_hex
          (Buffer_from (text_of_string
             (JSON_stringify config (Array_sort default_compare (Object_keys config))))))
  /\ (forall c1 c2 : Config.ProjectConfig,
         NoDup (dict_keys c1) -> NoDup (dict_keys c2) ->
         (forall k, dict_get c1 k = dict_get c2 k) ->
         Renderer.computeConfigHash c1 = Renderer.computeConfigHash c2)
  /\ (forall c1 c2 : Config.ProjectConfig,
         Config.is_ProjectConfig c1 = true -> Config.is_ProjectConfig c2 = true ->
         (exists k, dict_get c1 k <> dict_get c2 k) ->
         Renderer.computeConfigHash c1 <> Renderer.computeConfigHash c2).
Proof.
  split; [| split].
  - intros localeCompare registry config policy existingFiles result H.
    apply render_Ok_inv in H.
    destruct H as [ordered [context [fw [_ [_ [_ [_ [_ [Hhash _]]]]]]]]]. exact Hhash.
  - exact computeConfigHash_insertion_order.
  - intros c1 c2 H1 H2 [k Hk] Hhash. apply Hk.
    rewrite (@typed_hash_canonical _ H1), (@typed_hash_canonical _ H2) in Hhash.
    pose proof (@NoDup_map_injective _ _ _ _ (@distinct_NoDup _ all_configs_hash_apart)
                  _ _ (@typed_canonical_in_all _ H1) (@typed_canonical_in_all _ H2) Hhash)
      as Hsame.
    rewrite <- (@typed_canonical_get _ H1 k), <- (@typed_canonical_get _ H2 k).
    now rewrite Hsame.
Qed.

Lemma configHash_canonical_and_sensitive_witness :
  Config.is_ProjectConfig nextjs_startup = true
  /\ Config.is_ProjectConfig nextjs_pro = true
  /\ Renderer.computeConfigHash nextjs_startup <> Renderer.computeConfigHash nextjs_pro
  /\ Renderer.computeConfigHash nextjs_startup
     = Renderer.computeConfigHash nextjs_startup_reordered.
Proof.
  split; [reflexivity |]. split; [reflexivity |]. split.
  - apply (proj2 (proj2 configHash_canonical_and_sensitive)); try reflexivity.
    exists "strictnessPreset"%string. discriminate.
  - apply (proj1 (proj2 configHash_canonical_and_sensitive)).
    + apply distinct_NoDup. reflexivity.
    + apply distinct_NoDup. reflexivity.
    + intros k. simpl.
      repeat match goal with
             | |- context [String.eqb k ?s] => destruct (String.eqb_spec k s); try congruence
             end.
Defined.

(** ** The ASCII collation is a total preorder *)

Lemma compare_weights_opp (a : list nat) :
  forall b, Collation.compare_weights b a = CompOpp (Collation.compare_weights a b).
Proof.
  induction a as [| x a IH]; intros [| y b]; simpl; try reflexivity.
  rewrite (Nat.compare_antisym x y). destruct (Nat.compare x y); simpl; auto.
Qed.

Lemma compare_weights_eq (a : list nat) :
  forall b, Collation.compare_weights a b = Eq -> a = b.
Proof.
  induction a as [| x a IH]; intros [| y b]; simpl; try discriminate; [reflexivity |].
  destruct (Nat.compare x y) eqn:E; try discriminate.
  apply Nat.compare_eq in E. intros H. f_equal; [assumption | now apply IH].
Qed.

Lemma compare_weights_refl (a : list nat) : Collation.compare_weights a a = Eq.
Proof. induction a as [| x a IH]; simpl; [reflexivity |]. now rewrite Nat.compare_refl. Qed.

Lemma compare_weights_trans (a : list nat) :
  forall b c, Collation.compare_weights a b <> Gt -> Collation.compare_weights b c <> Gt ->
              Collation.compare_weights a c <> Gt.
Proof.
  induction a as [| x a IH]; intros [| y b] [| z c]; simpl; try congruence.
  destruct (Nat.compare_spec x y), (Nat.compare_spec y z), (Nat.compare_spec x z);
    try congruence; try lia.
  apply IH.
Qed.

Lemma compare_weights_lt_trans (a b c : list nat) :
  Collation.compare_weights a b = Lt -> Collation.compare_weights b c = Lt ->
  Collation.compare_weights a c = Lt.
Proof.
  intros Hab Hbc.
  destruct (Collation.compare_weights a c) eqn:E; [| reflexivity |].
  - apply compare_weights_eq in E. subst c.
    rewrite compare_weights_opp, Hab in Hbc. discriminate.
  - exfalso. apply (@compare_weights_trans a b c); congruence.
Qed.

Lemma localeCompare_opp (a b : string) :
  Collation.localeCompare b a = CompOpp (Collation.localeCompare a b).
Proof.
  unfold Collation.localeCompare.
  rewrite (compare_weights_opp (map fst (Collation.keys a))).
  rewrite (compare_weights_opp (map snd (Collation.keys a))).
  now destruct (Collation.compare_weights (map fst (Collation.keys a)) _).
Qed.

Lemma localeCompare_trans (a b c : string) :
  Collation.localeCompare a b <> Gt -> Collation.localeCompare b c <> Gt ->
  Collation.localeCompare a c <> Gt.
Proof.
  unfold Collation.localeCompare.
  destruct (Collation.compare_weights (map fst (Collation.keys a))
                                      (map fst (Collation.keys b))) eqn:P1;
    [| | congruence];
    (destruct (Collation.compare_weights (map fst (Collation.keys b))
                                         (map fst (Collation.keys c))) eqn:P2;
     [| | congruence]).
  - apply compare_weights_eq in P1. rewrite P1, P2. apply compare_weights_trans.
  - apply compare_weights_eq in P1. rewrite P1, P2. congruence.
  - apply compare_weights_eq in P2. rewrite <- P2, P1. congruence.
  - rewrite (compare_weights_lt_trans _ _ _ P1 P2). congruence.
Qed.

(** ** The model's budgets are never exhausted *)

Lemma resolvePluginOrder_ends (localeCompare : string -> string -> comparison)
    (plugins : list Plugin.Plugin) (registry : Plugin.InMemoryPluginRegistry) :
  ends (fun _ => True) (Plugin.resolvePluginOrder localeCompare plugins registry).
Proof.
  unfold Plugin.resolvePluginOrder. cbv zeta.
  destruct (detectCycles_returns (Plugin.buildDependencyGraph
              (filter (fun p => match Plugin.get registry (Plugin.id p) with
                                | Some _ => true
                                | None => false
                                end) plugins))) as [cycleErrors ->].
  cbn [bind]. destruct cycleErrors; [| exact I].
  destruct (Plugin.missing_dependencies registry _); [| exact I].
  match goal with
  | |- ends _ (bind (for_each ?f ?l ?s) _) =>
      assert (H : ends (fun st => Plugin.visiting st = []) (for_each f l s))
  end.
  { apply for_each_ends; [| reflexivity].
    intros p st _ Hv.
    eapply ends_impl; [| apply resolve_visit_ends].
    - intros st' [Hv' _]. congruence.
    - pose proof (unseen_bound (dict_keys (Plugin.plugins registry))
                               (Plugin.visiting st ++ Plugin.done st)) as Hb.
      unfold dict_keys in Hb. rewrite length_map in Hb. unfold dict_keys. lia. }
  destruct (for_each _ _ _); simpl in *; auto.
Qed.

Lemma run_ends (a : Context.Action) :
  forall ctx, ends (fun _ => True) (Context.run a ctx).
Proof.
  induction a as [| m | path content next IH | path next IH | path next IH
                  | path next IH | next IH];
    simpl; intros ctx; auto.
Qed.

(** X1.  [render] ends on every input, by a result or by an exception: the
    searches over the dependency graph and the plugins' runs all finish. *)
Theorem render_returns_or_throws (localeCompare : string -> string -> comparison)
    (registry : Plugin.InMemoryPluginRegistry) (config : Config.ProjectConfig)
    (policy : Policy.Policy) (existingFiles : option Types.FileMap) :
  ends (fun _ => True) (Renderer.render localeCompare registry config policy existingFiles).
Proof.
  unfold Renderer.render.
  destruct (detectCycles_returns (Plugin.buildDependencyGraph
              (filter (fun p => Plugin.appliesTo p config) (Plugin.getAll registry))))
    as [cycleErrors ->].
  cbn [bind]. destruct cycleErrors; [| exact I].
  pose proof (resolvePluginOrder_ends localeCompare
                (filter (fun p => Plugin.appliesTo p config) (Plugin.getAll registry))
                registry) as Hres.
  destruct (Plugin.resolvePluginOrder _ _ _) as [ordered | e |]; cbn [bind];
    [| exact I | contradiction].
  match goal with
  | |- ends _ (bind (for_each ?f ?l ?s) _) =>
      assert (H : ends (fun _ => True) (for_each f l s))
  end.
  { apply for_each_ends; [| exact I]. intros phase st _ _. unfold Renderer.run_phase.
    apply for_each_ends; [| exact I]. intros plugin s _ _. unfold Renderer.run_plugin.
    pose proof (run_ends (Plugin.apply plugin (Context.config (fst s))
                                       (Context.policy (fst s))) (fst s)) as Hrun.
    destruct (Context.run _ (fst s)); simpl in *; auto. }
  destruct (for_each _ _ _) as [[context fileWriters] | e |] eqn:E; cbn [bind fst snd];
    [| exact I | contradiction].
  pose proof (check_conflicts_outcome registry fileWriters) as Hc.
  destruct (Renderer.check_conflicts registry fileWriters) as [[] | e |]; cbn [bind];
    [exact I | exact I | exact Hc].
Qed.

(** ** The order of the output, whatever the collation *)

Lemma StronglySorted_map (A B : Type) (f : A -> B) (R : B -> B -> Prop) (l : list A) :
  StronglySorted (fun x y => R (f x) (f y)) l -> StronglySorted R (map f l).
Proof.
  induction 1 as [| x l Hl IH Hx]; simpl; constructor; [assumption |].
  apply Forall_map. exact Hx.
Qed.

(** X2.  The file map and the manifest of a render list the same paths in
    the same order, no path twice, and that order ascends for
    [localeCompare] when it is a total preorder. *)
Theorem render_paths_in_collation_order (localeCompare : string -> string -> comparison)
    (registry : Plugin.InMemoryPluginRegistry) (config : Config.ProjectConfig)
    (policy : Policy.Policy) (existingFiles : option Types.FileMap)
    (result : Renderer.RenderResult) :
  (forall a b, localeCompare b a = CompOpp (localeCompare a b)) ->
  (forall a b c, localeCompare a b <> Gt -> localeCompare b c <> Gt ->
                 localeCompare a c <> Gt) ->
  Renderer.render localeCompare registry config policy existingFiles = Ok result ->
  map Types.path (Types.files (Renderer.manifest result)) = dict_keys (Renderer.files result)
  /\ NoDup (dict_keys (Renderer.files result))
  /\ StronglySorted (fun a b => localeCompare a b <> Gt) (dict_keys (Renderer.files result)).
Proof.
  intros Hopp Htrans H. apply render_output in H.
  destruct H as [ordered [context [fw [_ [_ [_ [Hfiles [Hman [Hnd _]]]]]]]]].
  split; [| split; [assumption |]].
  - rewrite Hman, map_map. reflexivity.
  - rewrite Hfiles. unfold Renderer.sortFileMap, dict_keys.
    apply StronglySorted_map.
    apply (@Array_sort_sorted _ (fun a b : string * Buffer => localeCompare (fst a) (fst b))).
    + intros x y. apply Hopp.
    + intros x y z. apply Htrans.
Qed.

Lemma render_paths_in_collation_order_witness :
  exists result,
    Renderer.render Collation.localeCompare readme_writer nextjs_startup
                    (Policy.resolvePolicy nextjs_startup) None = Ok result
    /\ dict_keys (Renderer.files result) = ["app.json"; "README.md"]%string
    /\ StronglySorted (fun a b => Collation.localeCompare a b <> Gt)
                      (dict_keys (Renderer.files result)).
Proof.
  eexists. split; [vm_compute; reflexivity |]. split; [reflexivity |].
  refine (proj2 (proj2 (@render_paths_in_collation_order Collation.localeCompare readme_writer
                          nextjs_startup (Policy.resolvePolicy nextjs_startup) None _
                          localeCompare_opp localeCompare_trans _))).
  vm_compute. reflexivity.
Defined.

(** ** The exceptions of a render *)

Lemma bind_throws_only (A B : Type) (Q : Exn -> Prop) (r : Result A) (k : A -> Result B) :
  throws_only Q r -> (forall a, throws_only Q (k a)) -> throws_only Q (bind r k).
Proof. destruct r; simpl; auto. Qed.

Lemma for_each_throws_only (St A : Type) (Q : Exn -> Prop) (body : A -> St -> Result St) :
  (forall x st, throws_only Q (body x st)) ->
  forall l st, throws_only Q (for_each body l st).
Proof.
  intros Hbody. induction l as [| x l IH]; intros st; simpl; [exact I |].
  apply bind_throws_only; [apply Hbody | apply IH].
Qed.

Lemma resolve_visit_throws (registry : Plugin.InMemoryPluginRegistry) :
  forall fuel pluginId st,
    throws_only (fun e => is_conflict e = false)
                (Plugin.resolve_visit fuel registry pluginId st).
Proof.
  induction fuel as [| fuel IH]; intros pluginId st; simpl;
    destruct (Set_has (Plugin.visiting st) pluginId); try exact I;
    destruct (Set_has (Plugin.done st) pluginId); try exact I.
  destruct (Plugin.get registry pluginId) as [plugin |]; [| reflexivity].
  apply bind_throws_only; [| intros st2; exact I].
  destruct (Plugin.dependencies plugin); [| exact I].
  apply for_each_throws_only. exact IH.
Qed.

Lemma resolvePluginOrder_throws (localeCompare : string -> string -> comparison)
    (plugins : list Plugin.Plugin) (registry : Plugin.InMemoryPluginRegistry) :
  throws_only (fun e => is_conflict e = false)
              (Plugin.resolvePluginOrder localeCompare plugins registry).
Proof.
  unfold Plugin.resolvePluginOrder. cbv zeta.
  destruct (detectCycles_returns (Plugin.buildDependencyGraph
              (filter (fun p => match Plugin.get registry (Plugin.id p) with
                                | Some _ => true
                                | None => false
                                end) plugins))) as [cycleErrors ->].
  cbn [bind]. destruct cycleErrors; [| reflexivity].
  destruct (Plugin.missing_dependencies registry _); [| reflexivity].
  apply bind_throws_only; [| intros st; exact I].
  apply for_each_throws_only. intros p st. apply resolve_visit_throws.
Qed.

Lemma run_throws (a : Context.Action) :
  forall ctx, throws_only (fun e => is_conflict e = false) (Context.run a ctx).
Proof.
  induction a as [| m | path content next IH | path next IH | path next IH
                  | path next IH | next IH];
    simpl; intros ctx; auto.
Qed.

(** X4.  On a dependency graph whose edges descend along a rank, that is an
    acyclic one, [detectCycles] returns no error. *)
Theorem detectCycles_silent_on_acyclic_graph (graph : Plugin.DependencyGraph)
    (rank : string -> nat) :
  (forall node ds d, dict_get (Plugin.edges graph) node = Some ds -> In d ds ->
                     rank d < rank node) ->
  Plugin.detectCycles graph = Ok [].
Proof. intros H. exact (@detectCycles_acyclic graph rank H). Qed.

Lemma detectCycles_silent_on_acyclic_graph_witness :
  Plugin.edges (Plugin.buildDependencyGraph [plain_a; needs_a]) = [("b", ["a"])]%string
  /\ Plugin.detectCycles (Plugin.buildDependencyGraph [plain_a; needs_a]) = Ok [].
Proof.
  split; [reflexivity |].
  apply (@detectCycles_silent_on_acyclic_graph _ (fun i => if String.eqb i "b" then 1 else 0)).
  intros node ds d Hg Hd. cbn in Hg.
  destruct (String.eqb_spec node "b") as [-> | Hn].
  - injection Hg as <-. destruct Hd as [<- | []]. simpl. lia.
  - revert Hg. clear -Hn. intros Hg. exfalso.
    destruct (String.eqb node "b") eqn:E; [apply String.eqb_eq in E; contradiction |].
    cbn in Hg. rewrite ?E in Hg. discriminate.
Defined.

Lemma Chain_suffix (graph : Plugin.DependencyGraph) (l1 l2 : list string) :
  Chain graph (l1 ++ l2) -> Chain graph l2.
Proof.
  induction l1 as [| x l1 IH]; simpl; [auto |]. intros [_ H]. auto.
Qed.

Lemma Chain_snoc (graph : Plugin.DependencyGraph) (l : list string) (u v : string) :
  Chain graph (l ++ [u]) -> Edge graph u v -> Chain graph ((l ++ [u]) ++ [v]).
Proof.
  intros H He. induction l as [| x l IH]; simpl in *.
  - repeat split; assumption.
  - destruct H as [Hx Hl]. split; [| auto].
    destruct l; simpl in *; assumption.
Qed.

Lemma indexOf_from_split (l : list string) (x : string) :
  In x l ->
  forall i, exists pre post,
    l = pre ++ x :: post /\ indexOf_from l x i = (i + Z.of_nat (List.length pre))%Z.
Proof.
  induction l as [| y l IH]; intros Hin i; [destruct Hin |].
  simpl. destruct (String.eqb_spec y x) as [-> | Hne].
  - exists [], l. split; [reflexivity | simpl; lia].
  - destruct Hin as [Hy | Hin]; [contradiction |].
    destruct (IH Hin (i + 1)%Z) as [pre [post [-> Hidx]]].
    exists (y :: pre), post. split; [reflexivity |]. rewrite Hidx. simpl List.length. lia.
Qed.

Lemma slice_from_indexOf (path : list string) (node : string) :
  In node path ->
  exists pre post, path = pre ++ node :: post
                   /\ Array_slice path (Array_indexOf path node) = node :: post.
Proof.
  intros Hin. destruct (indexOf_from_split path node Hin 0) as [pre [post [Hp Hidx]]].
  exists pre, post. split; [assumption |].
  unfold Array_slice, Array_indexOf. rewrite Hidx. simpl Z.add.
  assert (Hlen : (Z.of_nat (List.length pre) <= Z.of_nat (List.length path))%Z).
  { rewrite Hp, length_app. lia. }
  destruct (Z.ltb_spec (Z.of_nat (List.length pre)) 0) as [Hneg | _]; [lia |].
  rewrite Z.min_l by assumption. rewrite Nat2Z.id, Hp.
  rewrite skipn_app, Nat.sub_diag, skipn_all. reflexivity.
Qed.

Section CycleSearch.

Variable graph : Plugin.DependencyGraph.

(** What every visit does, reported cycle or not. *)
Lemma detectCycles_visit_frame :
  forall fuel node path st st',
    Plugin.detectCycles_visit fuel graph node path st = Ok st' ->
    Plugin.recursionStack st' = Plugin.recursionStack st
    /\ incl (Plugin.visited st) (Plugin.visited st')
    /\ exists extra, Plugin.errors st' = Plugin.errors st ++ extra.
Proof.
  induction fuel as [| fuel IH]; intros node path st st'; rewrite detectCycles_visit_eq;
    (destruct (Set_has (Plugin.recursionStack st) node) eqn:Es;
     [intros H; injection H as <-; simpl; split; [reflexivity |];
      split; [apply incl_refl | eexists; reflexivity] |]);
    (destruct (Set_has (Plugin.visited st) node);
     [intros H; injection H as <-; split; [reflexivity |];
      split; [apply incl_refl | exists []; now rewrite app_nil_r] |]); [discriminate |].
  apply Set_has_false in Es.
  set (st1 := {| Plugin.errors := Plugin.errors st;
                 Plugin.visited := Set_add (Plugin.visited st) node;
                 Plugin.recursionStack := Set_add (Plugin.recursionStack st) node |}).
  intros H.
  destruct (match dict_get (Plugin.edges graph) node with
            | Some deps => _
            | None => _
            end) as [st2 | e |] eqn:E; cbn [bind] in H; try discriminate.
  injection H as <-. simpl.
  assert (H2 : Plugin.recursionStack st2 = Plugin.recursionStack st1
               /\ incl (Plugin.visited st1) (Plugin.visited st2)
               /\ exists extra, Plugin.errors st2 = Plugin.errors st1 ++ extra).
  { destruct (dict_get (Plugin.edges graph) node) as [ds |].
    - revert E.
      apply (@for_each_Ok_inv _ _ _
               (fun s => Plugin.recursionStack s = Plugin.recursionStack st1
                         /\ incl (Plugin.visited st1) (Plugin.visited s)
                         /\ exists extra, Plugin.errors s = Plugin.errors st1 ++ extra)).
      + intros d s s' _ [Hr [Hv [ex He]]] Hd. apply IH in Hd.
        destruct Hd as [Hr' [Hv' [ex' He']]].
        split; [congruence |]. split; [eapply incl_tran; eassumption |].
        exists (ex ++ ex'). rewrite He', He. now rewrite app_assoc.
      + split; [reflexivity |]. split; [apply incl_refl |]. exists []. now rewrite app_nil_r.
    - injection E as <-. split; [reflexivity |]. split; [apply incl_refl |].
      exists []. now rewrite app_nil_r. }
  destruct H2 as [Hr [Hv He]]. split; [| split].
  - rewrite Hr. simpl. now apply Set_delete_add.
  - intros u Hu. apply Hv. simpl. apply Set_add_In. now left.
  - exact He.
Qed.

Lemma for_each_visit_frame (fuel : nat) (path : list string) (ds : list string) :
  forall st st',
    for_each (fun dep => Plugin.detectCycles_visit fuel graph dep path) ds st = Ok st' ->
    Plugin.recursionStack st' = Plugin.recursionStack st
    /\ incl (Plugin.visited st) (Plugin.visited st')
    /\ exists extra, Plugin.errors st' = Plugin.errors st ++ extra.
Proof.
  intros st st'.
  apply (@for_each_Ok_inv _ _ _
           (fun s => Plugin.recursionStack s = Plugin.recursionStack st
                     /\ incl (Plugin.visited st) (Plugin.visited s)
                     /\ exists extra, Plugin.errors s = Plugin.errors st ++ extra)).
  - intros d s s' _ [Hr [Hv [ex He]]] Hd. apply detectCycles_visit_frame in Hd.
    destruct Hd as [Hr' [Hv' [ex' He']]].
    split; [congruence |]. split; [eapply incl_tran; eassumption |].
    exists (ex ++ ex'). rewrite He', He. now rewrite app_assoc.
  - split; [reflexivity |]. split; [apply incl_refl |]. exists []. now rewrite app_nil_r.
Qed.

(** Every message that a visit adds describes a cycle of the graph. *)
Lemma detectCycles_visit_cycles :
  forall fuel node path st st',
    (forall u, In u (Plugin.recursionStack st) -> In u path) ->
    Chain graph (path ++ [node]) ->
    Plugin.detectCycles_visit fuel graph node path st = Ok st' ->
    exists cycles,
      Plugin.errors st' = Plugin.errors st ++ map cycle_message cycles
      /\ Forall (Cycle graph) cycles.
Proof.
  induction fuel as [| fuel IH]; intros node path st st' Hstack Hchain;
    rewrite detectCycles_visit_eq;
    (destruct (Set_has (Plugin.recursionStack st) node) eqn:Es;
     [intros H; injection H as <-; simpl;
      apply Set_has_In in Es; apply Hstack in Es;
      destruct (slice_from_indexOf path node Es) as [pre [post [Hp Hs]]];
      exists [Array_slice path (Array_indexOf path node) ++ [node]];
      split; [reflexivity |]; constructor; [| constructor];
      rewrite Hs; exists node, post; split; [reflexivity |];
      rewrite Hp, <- app_assoc in Hchain; exact (Chain_suffix _ _ _ Hchain) |]);
    (destruct (Set_has (Plugin.visited st) node);
     [intros H; injection H as <-; exists []; split; [now rewrite app_nil_r | constructor] |]);
    [discriminate |].
  apply Set_has_false in Es.
  set (st1 := {| Plugin.errors := Plugin.errors st;
                 Plugin.visited := Set_add (Plugin.visited st) node;
                 Plugin.recursionStack := Set_add (Plugin.recursionStack st) node |}).
  intros H.
  destruct (match dict_get (Plugin.edges graph) node with
            | Some deps => _
            | None => _
            end) as [st2 | e |] eqn:E; cbn [bind] in H; try discriminate.
  injection H as <-. simpl.
  destruct (dict_get (Plugin.edges graph) node) as [ds |] eqn:Eg.
  - assert (HP : Plugin.recursionStack st2 = Plugin.recursionStack st1
                 /\ exists cycles,
                      Plugin.errors st2 = Plugin.errors st ++ map cycle_message cycles
                      /\ Forall (Cycle graph) cycles).
    { revert E.
      apply (@for_each_Ok_inv _ _ _
               (fun s => Plugin.recursionStack s = Plugin.recursionStack st1
                         /\ exists cycles,
                              Plugin.errors s = Plugin.errors st ++ map cycle_message cycles
                              /\ Forall (Cycle graph) cycles)).
      - intros d s s' Hd [Hr [cs [He Hcs]]] Hv.
        split; [rewrite <- Hr; exact (proj1 (detectCycles_visit_frame _ _ _ _ Hv)) |].
        apply IH in Hv.
        + destruct Hv as [cs' [He' Hcs']]. exists (cs ++ cs').
          split; [| now apply Forall_app].
          rewrite He', He, map_app. now rewrite app_assoc.
        + intros u Hu. rewrite Hr in Hu. simpl in Hu. apply Set_add_In in Hu.
          apply in_or_app. destruct Hu as [Hu | ->]; [left; auto | right; now left].
        + apply Chain_snoc; [assumption |]. exists ds. now split.
      - split; [reflexivity |]. exists []. split; [now rewrite app_nil_r | constructor]. }
    exact (proj2 HP).
  - injection E as <-. exists []. split; [now rewrite app_nil_r | constructor].
Qed.

Lemma first_index_app_in (l l' : list string) (x : string) :
  In x l -> first_index (l ++ l') x = first_index l x /\ first_index l x < List.length l.
Proof.
  induction l as [| y l IH]; intros Hin; [destruct Hin |].
  simpl. destruct (String.eqb_spec y x) as [-> | Hne]; [split; [reflexivity | lia] |].
  destruct Hin as [Hy | Hin]; [contradiction |].
  destruct (IH Hin) as [H1 H2]. split; [now rewrite H1 | lia].
Qed.

Lemma first_index_app_out (l : list string) (x : string) :
  ~ In x l -> first_index (l ++ [x]) x = List.length l.
Proof.
  induction l as [| y l IH]; intros Hout; simpl.
  - now rewrite String.eqb_refl.
  - destruct (String.eqb_spec y x) as [-> | Hne]; [exfalso; apply Hout; now left |].
    rewrite IH; [reflexivity |]. intros H. apply Hout. now right.
Qed.

Lemma Closed_descends (fin : list string) :
  Closed graph fin ->
  forall u v, In u fin -> Edge graph u v ->
              In v fin /\ first_index fin v < first_index fin u.
Proof.
  induction 1 as [| l u0 Hl IH Hu0]; intros u v Hin He; [destruct Hin |].
  destruct (in_dec string_dec u l) as [Hul | Hul].
  - destruct (IH u v Hul He) as [Hv Hlt]. split; [apply in_or_app; now left |].
    rewrite (proj1 (first_index_app_in l [u0] v Hv)).
    now rewrite (proj1 (first_index_app_in l [u0] u Hul)).
  - apply in_app_or in Hin. destruct Hin as [Hin | [<- | []]]; [contradiction |].
    pose proof (Hu0 v He) as Hv. split; [apply in_or_app; now left |].
    destruct (first_index_app_in l [u0] v Hv) as [-> Hlt].
    now rewrite first_index_app_out.
Qed.

Lemma app_unchanged (A : Type) (l e1 e2 : list A) :
  l ++ e1 ++ e2 = l -> e1 = [] /\ e2 = [].
Proof.
  intros H. rewrite <- (app_nil_r l) in H at 2. apply app_inv_head in H.
  now apply app_eq_nil in H.
Qed.

(** A visit that adds no message ends the visits of the node and of what
    it reaches. *)
Lemma detectCycles_visit_quiet :
  forall fuel node path st st' fin,
    Plugin.detectCycles_visit fuel graph node path st = Ok st' ->
    Plugin.errors st' = Plugin.errors st ->
    ended_visits graph st fin ->
    exists fin', ended_visits graph st' (fin ++ fin') /\ In node (fin ++ fin').
Proof.
  induction fuel as [| fuel IH]; intros node path st st' fin;
    rewrite detectCycles_visit_eq;
    (destruct (Set_has (Plugin.recursionStack st) node) eqn:Es;
     [intros H; injection H as <-; simpl; intros He;
      rewrite <- (app_nil_r (Plugin.errors st)) in He at 2;
      apply app_inv_head in He; discriminate |]);
    (destruct (Set_has (Plugin.visited st) node) eqn:Ev;
     [intros H; injection H as <-; intros _ Hinv; exists []; rewrite app_nil_r;
      split; [assumption |]; apply (proj1 Hinv); split;
      [now apply Set_has_In | now apply Set_has_false] |]); [discriminate |].
  apply Set_has_false in Es. apply Set_has_false in Ev.
  set (st1 := {| Plugin.errors := Plugin.errors st;
                 Plugin.visited := Set_add (Plugin.visited st) node;
                 Plugin.recursionStack := Set_add (Plugin.recursionStack st) node |}).
  intros H.
  destruct (match dict_get (Plugin.edges graph) node with
            | Some deps => _
            | None => _
            end) as [st2 | e |] eqn:E; cbn [bind] in H; try discriminate.
  injection H as <-. simpl. intros Herr [Hfin Hclosed].
  assert (Hinv1 : ended_visits graph st1 fin).
  { split; [| assumption]. intros u. rewrite Hfin. simpl. rewrite !Set_add_In.
    split.
    - intros [Hv Hs]. split; [now left |]. intros [Hs' | ->]; contradiction.
    - intros [[Hv | ->] Hs]; [split; [assumption |]; intros Hs'; apply Hs; now left |].
      exfalso. apply Hs. now right. }
  assert (H2 : exists fin1,
             ended_visits graph st2 (fin ++ fin1)
             /\ (forall v, Edge graph node v -> In v (fin ++ fin1))
             /\ Plugin.recursionStack st2 = Plugin.recursionStack st1
             /\ incl (Plugin.visited st1) (Plugin.visited st2)).
  { destruct (dict_get (Plugin.edges graph) node) as [ds |] eqn:Eg.
    - assert (Hloop : forall l s fin0,
                 for_each (fun dep => Plugin.detectCycles_visit fuel graph dep (path ++ [node]))
                          l s = Ok st2 ->
                 Plugin.errors st2 = Plugin.errors s ->
                 ended_visits graph s fin0 ->
                 exists fin1, ended_visits graph st2 (fin0 ++ fin1)
                              /\ forall v, In v l -> In v (fin0 ++ fin1)).
      { induction l as [| d l IHl]; intros s fin0 Hl He Hs.
        - injection Hl as <-. exists []. rewrite app_nil_r. split; [assumption |].
          intros v [].
        - simpl in Hl.
          destruct (Plugin.detectCycles_visit fuel graph d (path ++ [node]) s)
            as [s1 | e |] eqn:Ed; cbn [bind] in Hl; try discriminate.
          destruct (detectCycles_visit_frame _ _ _ _ Ed) as [_ [_ [e1 He1]]].
          destruct (for_each_visit_frame _ _ _ _ Hl) as [_ [_ [e2 He2]]].
          rewrite He2, He1, <- app_assoc in He.
          destruct (@app_unchanged _ _ _ _ He) as [-> ->].
          rewrite app_nil_r in He1, He2.
          destruct (IH _ _ _ _ fin0 Ed He1 Hs) as [fa [Hsa Hda]].
          destruct (IHl _ _ Hl He2 Hsa) as [fb [Hsb Hdb]].
          exists (fa ++ fb). rewrite app_assoc. split; [assumption |].
          intros v [<- | Hv]; [apply in_or_app; now left | now apply Hdb]. }
      destruct (for_each_visit_frame _ _ _ _ E) as [Hr [Hv _]].
      destruct (Hloop ds st1 fin E Herr Hinv1) as [fin1 [Hs1 Hd1]].
      exists fin1. split; [assumption |]. split; [| now split].
      intros v [ds' [Hg Hin]]. rewrite Eg in Hg. injection Hg as <-. now apply Hd1.
    - injection E as <-. exists []. rewrite app_nil_r. split; [assumption |].
      split; [| split; [reflexivity | apply incl_refl]].
      intros v [ds' [Hg _]]. rewrite Hg in Eg. discriminate. }
  destruct H2 as [fin1 [[Hfin2 Hclosed2] [Hedges [Hr Hv]]]].
  exists (fin1 ++ [node]). rewrite app_assoc. split; [split |].
  - intros u. simpl. rewrite Hr. simpl. rewrite (@Set_delete_add _ _ Es).
    rewrite in_app_iff, Hfin2, Hr. simpl. rewrite Set_add_In. split.
    + intros [[Hu Hs] | [<- | []]].
      * split; [assumption |]. intros Hs'. apply Hs. now left.
      * split; [| assumption]. apply Hv. simpl. apply Set_add_In. now right.
    + intros [Hu Hs]. destruct (string_dec u node) as [-> | Hne].
      * right. now left.
      * left. split; [assumption |]. intros [Hs' | ->]; contradiction.
  - now constructor.
  - apply in_or_app. right. now left.
Qed.

End CycleSearch.

Lemma detectCycles_root_frame (graph : Plugin.DependencyGraph) (fuel : nat) (l : list string) :
  forall st st',
    for_each (Plugin.detectCycles_root fuel graph) l st = Ok st' ->
    Plugin.recursionStack st' = Plugin.recursionStack st
    /\ exists extra, Plugin.errors st' = Plugin.errors st ++ extra.
Proof.
  intros st st'.
  apply (@for_each_Ok_inv _ _ _
           (fun s => Plugin.recursionStack s = Plugin.recursionStack st
                     /\ exists extra, Plugin.errors s = Plugin.errors st ++ extra)).
  - intros n s s' _ [Hr [ex He]]. unfold Plugin.detectCycles_root.
    destruct (negb (Set_has (Plugin.visited s) n)).
    + intros Hv. apply detectCycles_visit_frame in Hv. destruct Hv as [Hr' [_ [ex' He']]].
      split; [congruence |]. exists (ex ++ ex'). rewrite He', He. now rewrite app_assoc.
    + intros H. injection H as <-. split; [assumption |]. now exists ex.
  - split; [reflexivity |]. exists []. now rewrite app_nil_r.
Qed.

(** The messages of the search describe cycles of the graph. *)
Lemma detectCycles_roots_cycles (graph : Plugin.DependencyGraph) (fuel : nat)
    (l : list string) (st : Plugin.CycleState) :
  for_each (Plugin.detectCycles_root fuel graph) l
           {| Plugin.errors := []; Plugin.visited := []; Plugin.recursionStack := [] |}
  = Ok st ->
  exists cycles, Plugin.errors st = map cycle_message cycles /\ Forall (Cycle graph) cycles.
Proof.
  intros H.
  assert (HP : Plugin.recursionStack st = []
               /\ exists cycles, Plugin.errors st = map cycle_message cycles
                                 /\ Forall (Cycle graph) cycles).
  { revert H.
    apply (@for_each_Ok_inv _ _ _
             (fun s => Plugin.recursionStack s = []
                       /\ exists cycles, Plugin.errors s = map cycle_message cycles
                                         /\ Forall (Cycle graph) cycles)).
    - intros n s s' _ [Hr [cs [He Hcs]]]. unfold Plugin.detectCycles_root.
      destruct (negb (Set_has (Plugin.visited s) n)).
      + intros Hv. split; [rewrite <- Hr; exact (proj1 (detectCycles_visit_frame _ _ _ _ _ Hv)) |].
        apply detectCycles_visit_cycles in Hv.
        * destruct Hv as [cs' [He' Hcs']]. exists (cs ++ cs').
          split; [| now apply Forall_app]. rewrite He', He. now rewrite map_app.
        * rewrite Hr. intros u [].
        * simpl. now split.
      + intros H. injection H as <-. split; [assumption |]. now exists cs.
    - split; [reflexivity |]. exists []. split; [reflexivity | constructor]. }
  exact (proj2 HP).
Qed.

(** A search that ends without a message has ended the visit of every node,
    in an order in which every edge leads backwards. *)
Lemma detectCycles_roots_quiet (graph : Plugin.DependencyGraph) (fuel : nat) :
  forall l s st fin,
    for_each (Plugin.detectCycles_root fuel graph) l s = Ok st ->
    Plugin.errors st = Plugin.errors s ->
    Plugin.recursionStack s = [] ->
    ended_visits graph s fin ->
    exists fin', ended_visits graph st (fin ++ fin')
                 /\ forall n, In n l -> In n (fin ++ fin').
Proof.
  induction l as [| n l IH]; intros s st fin H He Hr Hs.
  - injection H as <-. exists []. rewrite app_nil_r. split; [assumption |]. intros n [].
  - simpl in H.
    destruct (Plugin.detectCycles_root fuel graph n s) as [s1 | e |] eqn:En;
      cbn [bind] in H; try discriminate.
    destruct (detectCycles_root_frame _ _ _ _ H) as [Hr2 [e2 He2]].
    unfold Plugin.detectCycles_root in En.
    destruct (Set_has (Plugin.visited s) n) eqn:Ev; simpl in En.
    + injection En as <-.
      destruct (IH s st fin H He Hr Hs) as [fin' [Hs' Hl]].
      exists fin'. split; [assumption |].
      intros m [<- | Hm]; [| now apply Hl].
      apply in_or_app. left. apply (proj1 Hs). split; [now apply Set_has_In |].
      rewrite Hr. intros [].
    + destruct (detectCycles_visit_frame _ _ _ _ _ En) as [Hr1 [_ [e1 He1]]].
      rewrite He2, He1, <- app_assoc in He.
      destruct (@app_unchanged _ _ _ _ He) as [-> ->]. rewrite app_nil_r in He1, He2.
      destruct (@detectCycles_visit_quiet graph fuel n [] s s1 fin En He1 Hs) as [fa [Hsa Hna]].
      destruct (IH s1 st (fin ++ fa) H He2 (eq_trans Hr1 Hr) Hsa) as [fb [Hsb Hlb]].
      exists (fa ++ fb). rewrite app_assoc. split; [assumption |].
      intros m [<- | Hm]; [apply in_or_app; now left | now apply Hlb].
Qed.

Lemma Chain_descends (graph : Plugin.DependencyGraph) (fin : list string) :
  Closed graph fin ->
  forall mid x y, In x fin -> Chain graph (x :: mid ++ [y]) ->
                  first_index fin y < first_index fin x.
Proof.
  intros Hc. induction mid as [| z mid IH]; intros x y Hx [He Hrest].
  - now apply (@Closed_descends graph fin Hc x y).
  - destruct (@Closed_descends graph fin Hc x z Hx He) as [Hz Hlt].
    specialize (IH z y Hz Hrest). lia.
Qed.

(** No message, no cycle through a node of the graph. *)
Lemma detectCycles_quiet_no_cycle (graph : Plugin.DependencyGraph) :
  Plugin.detectCycles graph = Ok [] ->
  forall u mid, In u (Plugin.nodes graph) -> ~ Chain graph (u :: mid ++ [u]).
Proof.
  unfold Plugin.detectCycles. intros H u mid Hu Hchain.
  destruct (for_each _ _ _) as [st | e |] eqn:E; cbn [bind] in H; try discriminate.
  injection H as He.
  destruct (@detectCycles_roots_quiet graph _ _ _ st [] E) as [fin [[_ Hc] Hn]].
  - now rewrite He.
  - reflexivity.
  - split; [| constructor]. simpl. intros v. split; [intros [] | intros [[] _]].
  - simpl in Hc, Hn. pose proof (@Chain_descends graph fin Hc mid u u (Hn u Hu) Hchain). lia.
Qed.

(** ** The graph that [buildDependencyGraph] builds *)

Lemma buildDependencyGraph_snoc (plugins : list Plugin.Plugin) (p : Plugin.Plugin) :
  Plugin.buildDependencyGraph (plugins ++ [p])
  = let g := Plugin.buildDependencyGraph plugins in
    {| Plugin.nodes := fold_left Set_add (deps p) (Set_add (Plugin.nodes g) (Plugin.id p));
       Plugin.edges := match deps p with
                       | [] => Plugin.edges g
                       | _ :: _ => dict_set (Plugin.edges g) (Plugin.id p) (Set_from (deps p))
                       end |}.
Proof.
  unfold Plugin.buildDependencyGraph at 1. rewrite fold_left_app. simpl. unfold deps.
  destruct (Plugin.dependencies p) as [[| d ds] |]; reflexivity.
Qed.

Lemma buildDependencyGraph_nodes (plugins : list Plugin.Plugin) :
  NoDup (Plugin.nodes (Plugin.buildDependencyGraph plugins))
  /\ forall u, In u (Plugin.nodes (Plugin.buildDependencyGraph plugins))
               <-> exists p, In p plugins /\ (u = Plugin.id p \/ In u (deps p)).
Proof.
  induction plugins as [| p plugins [IHn IHi]] using rev_ind.
  - split; [constructor |]. intros u. split; [intros [] | intros [p [[] _]]].
  - rewrite buildDependencyGraph_snoc. cbv zeta. cbn [Plugin.nodes]. split.
    + apply fold_Set_add_NoDup. now apply Set_add_NoDup.
    + intros u. rewrite fold_Set_add_In, Set_add_In, IHi. split.
      * intros [[[q [Hq Hu]] | ->] | Hu].
        -- exists q. split; [apply in_or_app; now left | assumption].
        -- exists p. split; [apply in_or_app; right; now left | now left].
        -- exists p. split; [apply in_or_app; right; now left | now right].
      * intros [q [Hq Hu]]. apply in_app_or in Hq. destruct Hq as [Hq | [<- | []]].
        -- left. left. now exists q.
        -- destruct Hu as [-> | Hu]; [left; now right | now right].
Qed.

Lemma buildDependencyGraph_edge_source (plugins : list Plugin.Plugin) (u : string)
    (ds : list string) :
  dict_get (Plugin.edges (Plugin.buildDependencyGraph plugins)) u = Some ds ->
  exists p, In p plugins /\ Plugin.id p = u /\ deps p <> [] /\ ds = Set_from (deps p).
Proof.
  induction plugins as [| p plugins IH] using rev_ind; [discriminate |].
  rewrite buildDependencyGraph_snoc. cbv zeta. cbn [Plugin.edges]. intros H.
  assert (Hold : dict_get (Plugin.edges (Plugin.buildDependencyGraph plugins)) u = Some ds ->
                 exists q, In q (plugins ++ [p]) /\ Plugin.id q = u /\ deps q <> []
                           /\ ds = Set_from (deps q)).
  { intros Hg. destruct (IH Hg) as [q [Hq Hrest]]. exists q.
    split; [apply in_or_app; now left | assumption]. }
  destruct (deps p) as [| d rest] eqn:Ed; [now apply Hold |].
  rewrite dict_get_set in H. destruct (String.eqb_spec u (Plugin.id p)) as [-> | Hne].
  - injection H as <-. exists p. split; [apply in_or_app; right; now left |].
    split; [reflexivity |]. rewrite Ed. split; [discriminate | reflexivity].
  - now apply Hold.
Qed.

Lemma buildDependencyGraph_edge_of (plugins : list Plugin.Plugin) :
  NoDup (map Plugin.id plugins) ->
  forall p, In p plugins ->
    dict_get (Plugin.edges (Plugin.buildDependencyGraph plugins)) (Plugin.id p)
    = match deps p with
      | [] => None
      | _ :: _ => Some (Set_from (deps p))
      end.
Proof.
  induction plugins as [| p0 plugins IH] using rev_ind; intros Hnd p Hp; [destruct Hp |].
  rewrite map_app in Hnd. simpl in Hnd.
  assert (Hnd' : NoDup (map Plugin.id plugins)) by (eapply NoDup_app_remove_r; eassumption).
  assert (Hfresh : ~ In (Plugin.id p0) (map Plugin.id plugins)).
  { intros Hin. apply NoDup_remove_2 in Hnd. apply Hnd. rewrite app_nil_r. assumption. }
  rewrite buildDependencyGraph_snoc. cbv zeta. cbn [Plugin.edges].
  apply in_app_or in Hp. destruct Hp as [Hp | [<- | []]].
  - assert (Hne : Plugin.id p <> Plugin.id p0).
    { intros Heq. apply Hfresh. rewrite <- Heq. now apply in_map. }
    destruct (deps p0) as [| d rest]; [now apply IH |].
    rewrite dict_get_set. destruct (String.eqb_spec (Plugin.id p) (Plugin.id p0));
      [contradiction | now apply IH].
  - destruct (deps p0) as [| d rest] eqn:Ed.
    + destruct (dict_get (Plugin.edges (Plugin.buildDependencyGraph plugins)) (Plugin.id p0))
        as [ds |] eqn:Eg; [| reflexivity].
      destruct (buildDependencyGraph_edge_source _ _ Eg) as [q [Hq [Hid _]]].
      exfalso. apply Hfresh. rewrite <- Hid. now apply in_map.
    + rewrite dict_get_set, String.eqb_refl. reflexivity.
Qed.

(** X5.  The graph of a plugin list: its nodes are the ids of the plugins
    and of their declared dependencies, each once; an entry of [edges] is
    never empty, belongs to a plugin of the list, holds that plugin's
    dependencies once each, and joins nodes of the graph; and when the ids
    are distinct, a plugin has an entry exactly when it declares a
    dependency. *)
Theorem buildDependencyGraph_shape (plugins : list Plugin.Plugin) :
  let graph := Plugin.buildDependencyGraph plugins in
  NoDup (Plugin.nodes graph)
  /\ (forall u, In u (Plugin.nodes graph)
                <-> exists p, In p plugins /\ (u = Plugin.id p \/ In u (deps p)))
  /\ (forall u ds, dict_get (Plugin.edges graph) u = Some ds ->
        ds <> [] /\ NoDup ds /\ In u (Plugin.nodes graph) /\ incl ds (Plugin.nodes graph)
        /\ exists p, In p plugins /\ Plugin.id p = u /\ forall d, In d ds <-> In d (deps p))
  /\ (NoDup (map Plugin.id plugins) ->
      forall p, In p plugins ->
        dict_get (Plugin.edges graph) (Plugin.id p)
        = match deps p with
          | [] => None
          | _ :: _ => Some (Set_from (deps p))
          end).
Proof.
  cbv zeta. destruct (buildDependencyGraph_nodes plugins) as [Hnd Hin].
  split; [assumption |]. split; [assumption |]. split.
  - intros u ds Hg.
    destruct (buildDependencyGraph_edge_source _ _ Hg) as [p [Hp [Hid [Hne ->]]]].
    split; [| split; [apply Set_from_NoDup | split; [| split]]].
    + destruct (deps p) as [| d rest] eqn:Ed; [contradiction |].
      intros Hnil. assert (Hd : In d (Set_from (d :: rest))) by (apply Set_from_In; now left).
      rewrite Hnil in Hd. destruct Hd.
    + apply Hin. exists p. split; [assumption | left; now symmetry].
    + intros d Hd. apply Hin. exists p. split; [assumption |]. right.
      now apply Set_from_In.
    + exists p. split; [assumption |]. split; [assumption |]. intros d. apply Set_from_In.
  - apply buildDependencyGraph_edge_of.
Qed.

(** X6.  Every message of [detectCycles] is the text of a cycle of the
    graph: a walk along its edges, one or more, that comes back to the node
    it started from. *)
Theorem detectCycles_reports_cycles (graph : Plugin.DependencyGraph) :
  exists cycles,
    Plugin.detectCycles graph = Ok (map cycle_message cycles)
    /\ Forall (Cycle graph) cycles.
Proof.
  destruct (detectCycles_returns graph) as [errors H]. unfold Plugin.detectCycles in *.
  destruct (for_each _ _ _) as [st | e |] eqn:E; cbn [bind] in *; try discriminate.
  destruct (detectCycles_roots_cycles _ _ _ E) as [cycles [He Hc]].
  exists cycles. split; [now rewrite He | assumption].
Qed.

(** X7.  On the graph of a plugin list [detectCycles] returns no message
    exactly when the graph has no cycle. *)
Theorem detectCycles_silent_iff_no_cycle (plugins : list Plugin.Plugin) :
  Plugin.detectCycles (Plugin.buildDependencyGraph plugins) = Ok []
  <-> forall cycle, ~ Cycle (Plugin.buildDependencyGraph plugins) cycle.
Proof.
  split.
  - intros H cycle [u [mid [-> Hchain]]].
    apply (@detectCycles_quiet_no_cycle _ H u mid); [| assumption].
    assert (He : exists v, Edge (Plugin.buildDependencyGraph plugins) u v).
    { destruct mid as [| v mid]; simpl in Hchain; destruct Hchain as [He _]; eauto. }
    destruct He as [v [ds [Hg _]]].
    destruct (buildDependencyGraph_edge_source _ _ Hg) as [p [Hp [Hid _]]].
    apply (proj2 (buildDependencyGraph_nodes plugins)). exists p.
    split; [assumption | left; now symmetry].
  - intros Hno.
    destruct (detectCycles_returns (Plugin.buildDependencyGraph plugins)) as [errors H].
    rewrite H. f_equal. unfold Plugin.detectCycles in H.
    destruct (for_each _ _ _) as [st | e |] eqn:E; cbn [bind] in H; try discriminate.
    injection H as <-.
    destruct (detectCycles_roots_cycles _ _ _ E) as [[| c cycles] [He Hc]]; [assumption |].
    exfalso. apply (Hno c). now inversion Hc.
Qed.

Section Grouping.

Variable localeCompare : string -> string -> comparison.

Local Abbreviation by_id := (fun a b : Plugin.Plugin => localeCompare (Plugin.id a) (Plugin.id b)).

Lemma group_fill (l : list Plugin.Plugin) :
  forall acc,
    fold_left
      (fun g plugin =>
         let ph := match Plugin.phase plugin with Some ph => ph | None => Plugin.Render end in
         match dict_get g (Plugin.phase_name ph) with
         | Some group => dict_set g (Plugin.phase_name ph) (group ++ [plugin])
         | None => g
         end)
      l
      [("pre"%string, filter (in_phase Plugin.Pre) acc);
       ("render"%string, filter (in_phase Plugin.Render) acc);
       ("post"%string, filter (in_phase Plugin.Post) acc);
       ("ci"%string, filter (in_phase Plugin.Ci) acc)]
    = [("pre"%string, filter (in_phase Plugin.Pre) (acc ++ l));
       ("render"%string, filter (in_phase Plugin.Render) (acc ++ l));
       ("post"%string, filter (in_phase Plugin.Post) (acc ++ l));
       ("ci"%string, filter (in_phase Plugin.Ci) (acc ++ l))].
Proof.
  induction l as [| p l IH]; intros acc; [now rewrite app_nil_r |].
  replace (acc ++ p :: l) with ((acc ++ [p]) ++ l) by now rewrite <- app_assoc.
  rewrite <- IH. cbn [fold_left]. f_equal.
  rewrite !filter_app. cbn [filter].
  assert (Hp : forall ph, in_phase ph p
                          = String.eqb (Plugin.phase_name (phase_of p)) (Plugin.phase_name ph))
    by reflexivity.
  rewrite !Hp.
  change (match Plugin.phase p with Some ph => ph | None => Plugin.Render end)
    with (phase_of p).
  destruct (phase_of p); cbn -[in_phase filter]; rewrite ?app_nil_r; reflexivity.
Qed.

Lemma groupPluginsByPhase_eq (plugins : list Plugin.Plugin) :
  Plugin.groupPluginsByPhase localeCompare plugins
  = [("pre"%string, Array_sort by_id (filter (in_phase Plugin.Pre) plugins));
     ("render"%string, Array_sort by_id (filter (in_phase Plugin.Render) plugins));
     ("post"%string, Array_sort by_id (filter (in_phase Plugin.Post) plugins));
     ("ci"%string, Array_sort by_id (filter (in_phase Plugin.Ci) plugins))].
Proof.
  unfold Plugin.groupPluginsByPhase. cbv zeta.
  change (fold_left (fun g ph => dict_set g (Plugin.phase_name ph) []) Plugin.phases [])
    with [("pre"%string, filter (in_phase Plugin.Pre) []);
          ("render"%string, filter (in_phase Plugin.Render) []);
          ("post"%string, filter (in_phase Plugin.Post) []);
          ("ci"%string, filter (in_phase Plugin.Ci) [])].
  rewrite group_fill. reflexivity.
Qed.

Lemma phase_partition (l : list Plugin.Plugin) :
  Permutation (filter (in_phase Plugin.Pre) l ++ filter (in_phase Plugin.Render) l
               ++ filter (in_phase Plugin.Post) l ++ filter (in_phase Plugin.Ci) l) l.
Proof.
  induction l as [| p l IH]; [constructor |].
  cbn [filter].
  assert (Hp : forall ph, in_phase ph p
                          = String.eqb (Plugin.phase_name (phase_of p)) (Plugin.phase_name ph))
    by reflexivity.
  rewrite !Hp.
  destruct (phase_of p); cbn -[in_phase filter].
  - now constructor.
  - apply Permutation_sym, Permutation_cons_app, Permutation_sym, IH.
  - apply Permutation_sym.
    rewrite app_assoc. apply Permutation_cons_app. rewrite <- app_assoc.
    apply Permutation_sym, IH.
  - apply Permutation_sym.
    rewrite 2 app_assoc. apply Permutation_cons_app. rewrite <- 2 app_assoc.
    apply Permutation_sym, IH.
Qed.

End Grouping.

(** X8.  [groupPluginsByPhase] holds a group for each of the four phases, in
    phase order; the group of a phase is the plugins of that phase (render
    when a plugin names none), sorted by id with [localeCompare], whatever
    order the list had; and the groups together are the list, nothing lost
    and nothing twice. *)
Theorem groupPluginsByPhase_groups (localeCompare : string -> string -> comparison)
    (plugins : list Plugin.Plugin) :
  let grouped := Plugin.groupPluginsByPhase localeCompare plugins in
  dict_keys grouped = map Plugin.phase_name Plugin.phases
  /\ (forall ph,
        dict_get grouped (Plugin.phase_name ph)
        = Some (Array_sort (fun a b => localeCompare (Plugin.id a) (Plugin.id b))
                           (filter (in_phase ph) plugins)))
  /\ Permutation (flat_map (group_of grouped) Plugin.phases) plugins.
Proof.
  cbv zeta. rewrite groupPluginsByPhase_eq. split; [reflexivity |]. split.
  - intros []; reflexivity.
  - unfold group_of. cbn. rewrite app_nil_r.
    eapply Permutation_trans; [| apply phase_partition].
    repeat apply Permutation_app; apply Array_sort_perm.
Qed.

(** ** The registry is read through [get] alone *)

Lemma dict_get_perm (V : Type) (d1 d2 : Dict V) :
  NoDup (dict_keys d1) -> Permutation d1 d2 ->
  forall k, dict_get d1 k = dict_get d2 k.
Proof.
  intros Hnd Hp. apply dict_get_same_bindings.
  - intros k v Hin. apply dict_In_get.
    + unfold dict_keys. eapply Permutation_NoDup; [| exact Hnd].
      now apply Permutation_map.
    + eapply Permutation_in; eassumption.
  - intros k Hk. unfold dict_keys in *.
    eapply Permutation_in; [| exact Hk]. apply Permutation_map. now apply Permutation_sym.
Qed.

Lemma resolve_visit_ext (localeCompare : string -> string -> comparison)
    (r1 r2 : Plugin.InMemoryPluginRegistry) :
  (forall i, Plugin.get r1 i = Plugin.get r2 i) ->
  forall fuel i st, Plugin.resolve_visit fuel r1 i st = Plugin.resolve_visit fuel r2 i st.
Proof.
  intros Hget. induction fuel as [| fuel IH]; intros i st; rewrite !resolve_visit_eq;
    destruct (Set_has (Plugin.visiting st) i); try reflexivity;
    destruct (Set_has (Plugin.done st) i); try reflexivity.
  rewrite Hget. destruct (Plugin.get r2 i) as [p |]; [| reflexivity].
  f_equal. apply for_each_ext. intros d s _. apply IH.
Qed.

Lemma missing_dependencies_ext (r1 r2 : Plugin.InMemoryPluginRegistry)
    (plugins : list Plugin.Plugin) :
  (forall i, Plugin.get r1 i = Plugin.get r2 i) ->
  Plugin.missing_dependencies r1 plugins = Plugin.missing_dependencies r2 plugins.
Proof.
  intros Hget. unfold Plugin.missing_dependencies. apply flat_map_ext. intros p.
  destruct (Plugin.dependencies p) as [ds |]; [| reflexivity].
  apply flat_map_ext. intros d. now rewrite Hget.
Qed.

Lemma resolvePluginOrder_ext (localeCompare : string -> string -> comparison)
    (r1 r2 : Plugin.InMemoryPluginRegistry) (plugins : list Plugin.Plugin) :
  (forall i, Plugin.get r1 i = Plugin.get r2 i) ->
  List.length (Plugin.plugins r1) = List.length (Plugin.plugins r2) ->
  Plugin.resolvePluginOrder localeCompare plugins r1
  = Plugin.resolvePluginOrder localeCompare plugins r2.
Proof.
  intros Hget Hlen. unfold Plugin.resolvePluginOrder. cbv zeta.
  rewrite (filter_ext _ (fun p => match Plugin.get r2 (Plugin.id p) with
                                   | Some _ => true
                                   | None => false
                                   end)) by (intros p; now rewrite Hget).
  destruct (Plugin.detectCycles _) as [[| c cs] | e |]; cbn [bind]; try reflexivity.
  rewrite (missing_dependencies_ext r1 r2 _ Hget).
  destruct (Plugin.missing_dependencies r2 _); [| reflexivity].
  rewrite Hlen. f_equal. apply for_each_ext. intros p st _.
  now apply resolve_visit_ext.
Qed.

Lemma check_conflicts_ext (r1 r2 : Plugin.InMemoryPluginRegistry) :
  (forall i, Plugin.get r1 i = Plugin.get r2 i) ->
  forall entries, Renderer.check_conflicts r1 entries = Renderer.check_conflicts r2 entries.
Proof.
  intros Hget. induction entries as [| [path writers] rest IH]; [reflexivity |].
  simpl. rewrite IH.
  replace (map (Renderer.writer_policy r1) writers)
    with (map (Renderer.writer_policy r2) writers); [reflexivity |].
  apply map_ext. intros i. unfold Renderer.writer_policy. now rewrite Hget.
Qed.

Lemma Reachable_registered (registry : Plugin.InMemoryPluginRegistry)
    (plugins : list Plugin.Plugin) :
  (forall p, In p plugins -> Plugin.get registry (Plugin.id p) = Some p) ->
  (forall i p d, Plugin.get registry i = Some p -> In d (deps p) ->
                 Plugin.get registry d <> None) ->
  forall i, Reachable registry plugins i -> Plugin.get registry i <> None.
Proof.
  intros Hc Hclosed. induction 1 as [p Hp | i p d _ _ Hg Hd].
  - rewrite (Hc p Hp). discriminate.
  - eapply Hclosed; eassumption.
Qed.

Lemma getAll_registered (registry : Plugin.InMemoryPluginRegistry) :
  registry_ok registry ->
  forall p, In p (Plugin.getAll registry) -> Plugin.get registry (Plugin.id p) = Some p.
Proof.
  intros [Hnd Hid] p Hp. unfold Plugin.getAll in Hp. apply in_map_iff in Hp.
  destruct Hp as [[k q] [Hq Hin]]. simpl in Hq. subst q.
  rewrite Forall_forall in Hid. pose proof (Hid _ Hin) as Hk. simpl in Hk. subst k.
  now apply dict_In_get.
Qed.

Lemma filter_perm (A : Type) (f : A -> bool) (l l' : list A) :
  Permutation l l' -> Permutation (filter f l) (filter f l').
Proof.
  induction 1 as [| x l l' _ IH | x y l | l l' l'' _ IH1 _ IH2]; simpl.
  - constructor.
  - destruct (f x); [now constructor | assumption].
  - destruct (f x), (f y); try apply Permutation_refl. constructor.
  - eapply Permutation_trans; eassumption.
Qed.

(** X9.  The order in which the plugins were registered does not change a
    render: on registries that hold the same plugins, each under its own id,
    whose dependencies are all registered and descend along a rank, and for
    a collation that is a total preorder and tells the ids apart, [render]
    gives the same outcome. *)
Theorem render_ignores_registration_order
    (localeCompare : string -> string -> comparison)
    (r1 r2 : Plugin.InMemoryPluginRegistry) (rank : string -> nat)
    (config : Config.ProjectConfig) (policy : Policy.Policy)
    (existingFiles : option Types.FileMap) :
  registry_ok r1 ->
  Permutation (Plugin.plugins r1) (Plugin.plugins r2) ->
  (forall i p d, Plugin.get r1 i = Some p -> In d (deps p) ->
                 Plugin.get r1 d <> None /\ rank d < rank i) ->
  (forall a b, localeCompare b a = CompOpp (localeCompare a b)) ->
  (forall a b c, localeCompare a b <> Gt -> localeCompare b c <> Gt ->
                 localeCompare a c <> Gt) ->
  (forall p q, In p (Plugin.getAll r1) -> In q (Plugin.getAll r1) ->
               localeCompare (Plugin.id p) (Plugin.id q) = Eq -> Plugin.id p = Plugin.id q) ->
  Renderer.render localeCompare r1 config policy existingFiles
  = Renderer.render localeCompare r2 config policy existingFiles.
Proof.
  intros Hok Hperm Hdeps Hopp Htrans Hsep.
  assert (Hget : forall i, Plugin.get r1 i = Plugin.get r2 i).
  { intros i. apply dict_get_perm; [exact (proj1 Hok) | assumption]. }
  assert (Hlen : List.length (Plugin.plugins r1) = List.length (Plugin.plugins r2))
    by now apply Permutation_length.
  set (c1 := filter (fun p => Plugin.appliesTo p config) (Plugin.getAll r1)).
  set (c2 := filter (fun p => Plugin.appliesTo p config) (Plugin.getAll r2)).
  assert (Hc : Permutation c1 c2).
  { unfold c1, c2, Plugin.getAll. apply filter_perm. now apply Permutation_map. }
  assert (Hreg1 : forall p, In p c1 -> Plugin.get r1 (Plugin.id p) = Some p).
  { intros p Hp. apply getAll_registered; [assumption |].
    unfold c1 in Hp. apply filter_In in Hp. tauto. }
  assert (Hreg2 : forall p, In p c2 -> Plugin.get r1 (Plugin.id p) = Some p).
  { intros p Hp. apply Hreg1. eapply Permutation_in; [apply Permutation_sym |]; eassumption. }
  assert (Hacyc : forall c, (forall p, In p c -> Plugin.get r1 (Plugin.id p) = Some p) ->
                            Plugin.detectCycles (Plugin.buildDependencyGraph c) = Ok []).
  { intros c Hreg. apply (@detectCycles_acyclic _ rank). intros node ds d Hg Hd.
    destruct (buildDependencyGraph_edges _ _ Hg) as [p [Hp [<- Hds]]].
    exact (proj2 (Hdeps _ _ _ (Hreg p Hp) (Hds d Hd))). }
  assert (Hres : Plugin.resolvePluginOrder localeCompare c1 r1
                 = Plugin.resolvePluginOrder localeCompare c2 r2).
  { rewrite <- (resolvePluginOrder_ext localeCompare r1 r2 c2 Hget Hlen).
    symmetry. apply (@resolvePluginOrder_permutation localeCompare r1 c1 rank);
      try assumption.
    - apply Reachable_registered; [assumption |].
      intros i p d Hg Hd. exact (proj1 (Hdeps _ _ _ Hg Hd)).
    - intros i p d _ Hg Hd. exact (proj2 (Hdeps _ _ _ Hg Hd)).
    - intros p q Hp Hq. apply Hsep.
      + unfold c1 in Hp. apply filter_In in Hp. tauto.
      + unfold c1 in Hq. apply filter_In in Hq. tauto. }
  unfold Renderer.render. cbv zeta. fold c1 c2.
  rewrite (Hacyc c1 Hreg1), (Hacyc c2 Hreg2). cbn [bind]. rewrite Hres.
  destruct (Plugin.resolvePluginOrder localeCompare c2 r2) as [ordered | e |];
    cbn [bind]; try reflexivity.
  destruct (for_each _ _ _) as [[context fileWriters] | e |] eqn:E; cbn [bind fst snd];
    try reflexivity.
  now rewrite (check_conflicts_ext r1 r2 Hget).
Qed.

Lemma render_ignores_registration_order_witness :
  map Plugin.id (Plugin.getAll two_writers) = ["a"; "b"]%string
  /\ map Plugin.id (Plugin.getAll two_writers_reversed) = ["b"; "a"]%string
  /\ Renderer.render Collation.localeCompare two_writers nextjs_startup
                     (Policy.resolvePolicy nextjs_startup) None
     = Renderer.render Collation.localeCompare two_writers_reversed nextjs_startup
                       (Policy.resolvePolicy nextjs_startup) None.
Proof.
  split; [reflexivity |]. split; [reflexivity |].
  apply (@render_ignores_registration_order Collation.localeCompare two_writers
           two_writers_reversed (fun _ => 0)).
  - apply register_each_registry_ok, empty_registry_ok.
  - apply perm_swap.
  - intros i p d Hg Hd. apply dict_get_In in Hg.
    destruct Hg as [Hg | [Hg | []]]; injection Hg as _ <-; destruct Hd.
  - exact localeCompare_opp.
  - exact localeCompare_trans.
  - intros p q [<- | [<- | []]] [<- | [<- | []]] H; try reflexivity; discriminate H.
Defined.

(** ** The outcomes of the order resolution and of a render *)

Lemma detectCycles_cases (plugins : list Plugin.Plugin) :
  (Plugin.detectCycles (Plugin.buildDependencyGraph plugins) = Ok []
   /\ forall cycle, ~ Cycle (Plugin.buildDependencyGraph plugins) cycle)
  \/ (exists e es cycle,
        Plugin.detectCycles (Plugin.buildDependencyGraph plugins) = Ok (e :: es)
        /\ Cycle (Plugin.buildDependencyGraph plugins) cycle).
Proof.
  destruct (detectCycles_returns (Plugin.buildDependencyGraph plugins)) as [errors H].
  pose proof H as H'. unfold Plugin.detectCycles in H'.
  destruct (for_each _ _ _) as [st | e |] eqn:E; cbn [bind] in H'; try discriminate.
  injection H' as <-.
  destruct (detectCycles_roots_cycles _ _ _ E) as [cycles [He Hc]].
  destruct cycles as [| c cycles]; simpl in He; rewrite He in H.
  - left. split; [assumption |]. intros cycle [u [mid [-> Hchain]]].
    apply (@detectCycles_quiet_no_cycle _ H u mid); [| assumption].
    assert (Hedge : exists v, Edge (Plugin.buildDependencyGraph plugins) u v).
    { destruct mid as [| v mid]; simpl in Hchain; destruct Hchain as [Hedge _]; eauto. }
    destruct Hedge as [v [ds [Hg _]]].
    destruct (buildDependencyGraph_edge_source _ _ Hg) as [p [Hp [Hid _]]].
    apply (proj2 (buildDependencyGraph_nodes plugins)). exists p.
    split; [assumption | left; now symmetry].
  - right. exists (cycle_message c), (map cycle_message cycles), c.
    split; [assumption | now inversion Hc].
Qed.

Lemma missing_dependencies_nil (registry : Plugin.InMemoryPluginRegistry)
    (plugins : list Plugin.Plugin) :
  Plugin.missing_dependencies registry plugins = []
  <-> forall p d, In p plugins -> In d (deps p) -> Plugin.get registry d <> None.
Proof.
  unfold Plugin.missing_dependencies. split.
  - intros H p d Hp Hd Hnone.
    assert (Hin : In ("Plugin " ++ Plugin.id p ++ " depends on unknown plugin: " ++ d)%string
                     (flat_map
                        (fun plugin =>
                           match Plugin.dependencies plugin with
                           | Some deps =>
                               flat_map
                                 (fun dep =>
                                    match Plugin.get registry dep with
                                    | Some _ => []
                                    | None =>
                                        [("Plugin " ++ Plugin.id plugin
                                          ++ " depends on unknown plugin: " ++ dep)%string]
                                    end) deps
                           | None => []
                           end) plugins)).
    { apply in_flat_map. exists p. split; [assumption |]. unfold deps in Hd.
      destruct (Plugin.dependencies p) as [ds |]; [| destruct Hd].
      apply in_flat_map. exists d. split; [assumption |]. rewrite Hnone. now left. }
    rewrite H in Hin. destruct Hin.
  - intros H. apply flat_map_nil. intros p Hp.
    destruct (Plugin.dependencies p) as [ds |] eqn:Ed; [| reflexivity].
    apply flat_map_nil. intros d Hd.
    destruct (Plugin.get registry d) eqn:Eg; [reflexivity |].
    exfalso. apply (H p d Hp); [| assumption]. unfold deps. now rewrite Ed.
Qed.

Lemma resolve_visit_not_found (registry : Plugin.InMemoryPluginRegistry) :
  forall fuel pluginId st,
    throws_only (fun e => exists i, e = PluginNotFound i /\ Plugin.get registry i = None)
                (Plugin.resolve_visit fuel registry pluginId st).
Proof.
  induction fuel as [| fuel IH]; intros pluginId st; simpl;
    destruct (Set_has (Plugin.visiting st) pluginId); try exact I;
    destruct (Set_has (Plugin.done st) pluginId); try exact I.
  destruct (Plugin.get registry pluginId) as [plugin |] eqn:Eg; [| now exists pluginId].
  apply bind_throws_only; [| intros st2; exact I].
  destruct (Plugin.dependencies plugin); [| exact I].
  apply for_each_throws_only. exact IH.
Qed.

Lemma resolvePluginOrder_outcome (localeCompare : string -> string -> comparison)
    (plugins : list Plugin.Plugin) (registry : Plugin.InMemoryPluginRegistry) :
  let candidates := filter (fun p => match Plugin.get registry (Plugin.id p) with
                                     | Some _ => true
                                     | None => false
                                     end) plugins in
  let graph := Plugin.buildDependencyGraph candidates in
  match Plugin.resolvePluginOrder localeCompare plugins registry with
  | Throw (DependencyErrors _) => exists cycle, Cycle graph cycle
  | Throw (MissingDependencies _) =>
      (forall cycle, ~ Cycle graph cycle)
      /\ exists p d, In p candidates /\ In d (deps p) /\ Plugin.get registry d = None
  | Throw (PluginNotFound i) =>
      (forall cycle, ~ Cycle graph cycle)
      /\ (forall p d, In p candidates -> In d (deps p) -> Plugin.get registry d <> None)
      /\ Plugin.get registry i = None
  | Throw _ => False
  | Ok _ =>
      (forall cycle, ~ Cycle graph cycle)
      /\ (forall p d, In p candidates -> In d (deps p) -> Plugin.get registry d <> None)
  | OutOfFuel => False
  end.
Proof.
  cbv zeta. pose proof (resolvePluginOrder_ends localeCompare plugins registry) as Hends.
  unfold Plugin.resolvePluginOrder in *. cbv zeta in *.
  set (candidates := filter _ plugins) in *.
  destruct (detectCycles_cases candidates) as [[Hd Hno] | [e [es [cycle [Hd Hc]]]]];
    rewrite Hd in *; cbn [bind] in *; [| now exists cycle].
  destruct (Plugin.missing_dependencies registry candidates) as [| m ms] eqn:Em.
  - pose proof (proj1 (missing_dependencies_nil registry candidates) Em) as Hall.
    match goal with
    | |- context [for_each ?f ?l ?s] =>
        pose proof (@for_each_throws_only _ _
                      (fun e => exists i, e = PluginNotFound i /\ Plugin.get registry i = None)
                      f (fun p st => resolve_visit_not_found registry _ _ st) l s) as Hthrow;
        destruct (for_each f l s) as [st | e |]
    end; cbn [bind] in *.
    + now split.
    + destruct Hthrow as [i [-> Hi]]. now repeat split.
    + contradiction.
  - split; [assumption |].
    destruct (Plugin.missing_dependencies registry candidates) eqn:Em' in Em;
      [discriminate |].
    assert (Hnot : ~ forall p d, In p candidates -> In d (deps p) ->
                                 Plugin.get registry d <> None).
    { intros Hall. apply missing_dependencies_nil in Hall. congruence. }
    clear -Hnot.
    assert (Hdec : forall l : list Plugin.Plugin,
               (forall p d, In p l -> In d (deps p) -> Plugin.get registry d <> None)
               \/ exists p d, In p l /\ In d (deps p) /\ Plugin.get registry d = None).
    { induction l as [| p l [IH | [q [d [Hq Hd]]]]].
      - left. intros p d [].
      - assert (Hp : (forall d, In d (deps p) -> Plugin.get registry d <> None)
                     \/ exists d, In d (deps p) /\ Plugin.get registry d = None).
        { induction (deps p) as [| d ds [IHd | [d' [Hd' Hn]]]].
          - left. intros d [].
          - destruct (Plugin.get registry d) eqn:Eg.
            + left. intros d' [<- | Hd']; [congruence | now apply IHd].
            + right. exists d. split; [now left | assumption].
          - right. exists d'. split; [now right | assumption]. }
        destruct Hp as [Hp | [d [Hd Hn]]].
        * left. intros q d [<- | Hq]; [apply Hp | now apply IH].
        * right. exists p, d. split; [now left | now split].
      - right. exists q, d. split; [now right | assumption]. }
    destruct (Hdec candidates) as [Hall | Hex]; [contradiction | assumption].
Qed.

Lemma run_throws_failure (a : Context.Action) :
  forall ctx, throws_only (fun e => exists m, e = PluginApplyFailure m) (Context.run a ctx).
Proof.
  induction a as [| m | path content next IH | path next IH | path next IH
                  | path next IH | next IH];
    simpl; intros ctx; auto.
  now exists m.
Qed.

Lemma run_phases_outcome (groupedPlugins : Dict (list Plugin.Plugin))
    (phases : list Plugin.PluginPhase)
    (st : Context.InMemoryGeneratorContext * Dict (list string)) :
  match for_each (Renderer.run_phase groupedPlugins) phases st with
  | Ok _ => True
  | Throw e => exists m, e = PluginApplyFailure m
  | OutOfFuel => False
  end.
Proof.
  assert (Hends : ends (fun _ => True) (for_each (Renderer.run_phase groupedPlugins) phases st)).
  { apply for_each_ends; [| exact I]. intros phase s _ _. unfold Renderer.run_phase.
    apply for_each_ends; [| exact I]. intros plugin s' _ _. unfold Renderer.run_plugin.
    pose proof (run_ends (Plugin.apply plugin (Context.config (fst s'))
                                       (Context.policy (fst s'))) (fst s')) as Hrun.
    destruct (Context.run _ (fst s')); simpl in *; auto. }
  assert (Hthrow : throws_only (fun e => exists m, e = PluginApplyFailure m)
                               (for_each (Renderer.run_phase groupedPlugins) phases st)).
  { apply for_each_throws_only. intros phase s. unfold Renderer.run_phase.
    apply for_each_throws_only. intros plugin s'. unfold Renderer.run_plugin.
    apply bind_throws_only; [apply run_throws_failure | intros c; exact I]. }
  destruct (for_each _ _ _); simpl in *; auto.
Qed.

Lemma grouped_plugin_In (localeCompare : string -> string -> comparison)
    (plugins : list Plugin.Plugin) (ph : Plugin.PluginPhase) (p : Plugin.Plugin) :
  In p (group_of (Plugin.groupPluginsByPhase localeCompare plugins) ph) -> In p plugins.
Proof.
  rewrite groupPluginsByPhase_eq. unfold group_of.
  destruct ph; cbn [dict_get Plugin.phase_name String.eqb Ascii.eqb Bool.eqb];
    intros H; apply Array_sort_In in H; apply filter_In in H; tauto.
Qed.

(** The plugins that [render] runs are plugins of the registry. *)
Lemma grouped_registered (localeCompare : string -> string -> comparison)
    (registry : Plugin.InMemoryPluginRegistry) (candidates order : list Plugin.Plugin)
    (P : Plugin.Plugin -> Prop) :
  (forall i p, Plugin.get registry i = Some p -> P p) ->
  Plugin.resolvePluginOrder localeCompare candidates registry = Ok order ->
  forall phase plugin,
    In plugin (group_of (Plugin.groupPluginsByPhase localeCompare order) phase) -> P plugin.
Proof.
  intros HP Hres phase plugin Hin. apply grouped_plugin_In in Hin.
  destruct (resolvePluginOrder_registered _ _ _ Hres plugin Hin) as [i Hi].
  exact (HP i plugin Hi).
Qed.

Lemma render_outcome (localeCompare : string -> string -> comparison)
    (registry : Plugin.InMemoryPluginRegistry) (config : Config.ProjectConfig)
    (policy : Policy.Policy) (existingFiles : option Types.FileMap) :
  registry_ok registry ->
  let candidates := filter (fun p => Plugin.appliesTo p config) (Plugin.getAll registry) in
  let graph := Plugin.buildDependencyGraph candidates in
  match Renderer.render localeCompare registry config policy existingFiles with
  | Throw (DependencyCycles _) => exists cycle, Cycle graph cycle
  | Throw (MissingDependencies _) =>
      (forall cycle, ~ Cycle graph cycle)
      /\ exists p d, In p candidates /\ In d (deps p) /\ Plugin.get registry d = None
  | Throw (PluginNotFound i) =>
      (forall cycle, ~ Cycle graph cycle)
      /\ (forall p d, In p candidates -> In d (deps p) -> Plugin.get registry d <> None)
      /\ Plugin.get registry i = None
  | Throw (PluginApplyFailure _) | Ok _ =>
      (forall cycle, ~ Cycle graph cycle)
      /\ (forall p d, In p candidates -> In d (deps p) -> Plugin.get registry d <> None)
  | Throw (FileConflict path writers) =>
      (forall cycle, ~ Cycle graph cycle)
      /\ (forall p d, In p candidates -> In d (deps p) -> Plugin.get registry d <> None)
      /\ 1 < List.length writers
      /\ (exists id, In id writers /\ Renderer.writer_policy registry id = Plugin.error)
      /\ ~ (forall i p, Plugin.get registry i = Some p ->
                        never_deletes (Plugin.apply p config policy))
  | Throw _ => False
  | OutOfFuel => False
  end.
Proof.
  intros Hok. cbv zeta.
  unfold Renderer.render. cbv zeta.
  set (candidates := filter _ (Plugin.getAll registry)).
  destruct (detectCycles_cases candidates) as [[Hd Hno] | [e [es [cycle [Hd Hc]]]]];
    rewrite Hd; cbn [bind]; [| now exists cycle].
  pose proof (resolvePluginOrder_outcome localeCompare candidates registry) as Hres.
  cbv zeta in Hres.
  rewrite (@filter_all _ _ candidates) in Hres.
  2:{ intros p Hp. unfold candidates in Hp. apply filter_In in Hp.
      now rewrite (getAll_registered Hok p (proj1 Hp)). }
  destruct (Plugin.resolvePluginOrder localeCompare candidates registry)
    as [ordered | e |] eqn:Eord;
    cbn [bind]; [| destruct e; try contradiction; try assumption | contradiction].
  - pose proof (run_phases_outcome (Plugin.groupPluginsByPhase localeCompare ordered)
                                   Plugin.phases
                                   (Context.new config policy existingFiles, [])) as Hrun.
    destruct (for_each _ _ _) as [[context fileWriters] | e |] eqn:E; cbn [bind fst snd].
    + pose proof (check_conflicts_outcome registry fileWriters) as Hc.
      destruct (Renderer.check_conflicts registry fileWriters) as [[] | e |] eqn:Ec;
        cbn [bind]; [exact Hres | | contradiction].
      destruct e; try contradiction. destruct Hc as [_ [Hlen Hid]].
      split; [exact (proj1 Hres) |]. split; [exact (proj2 Hres) |].
      split; [assumption |]. split; [assumption |].
      intros Hkeep.
      rewrite (@conflict_check_passes registry _ config policy existingFiles _ _
                 (@grouped_registered _ _ _ _
                    (fun p => never_deletes (Plugin.apply p config policy)) Hkeep Eord) E) in Ec.
      discriminate.
    + destruct Hrun as [m ->]. exact Hres.
    + contradiction.
  - destruct Hres as [cycle Hcycle]. exfalso. exact (Hno cycle Hcycle).
Qed.

(** X10.  How [resolvePluginOrder] fails.  With the candidates that the
    registry holds and their graph: it throws the dependency-errors
    exception exactly when the graph has a cycle; it throws the
    missing-dependencies exception exactly when there is no cycle and a
    candidate declares a dependency that is not registered; a plugin-not-found
    exception names an id that is not registered and that no candidate
    declares; and it throws nothing else. *)
Theorem resolvePluginOrder_failures (localeCompare : string -> string -> comparison)
    (plugins : list Plugin.Plugin) (registry : Plugin.InMemoryPluginRegistry) :
  let candidates := filter (fun p => match Plugin.get registry (Plugin.id p) with
                                     | Some _ => true
                                     | None => false
                                     end) plugins in
  let graph := Plugin.buildDependencyGraph candidates in
  let outcome := Plugin.resolvePluginOrder localeCompare plugins registry in
  ((exists msgs, outcome = Throw (DependencyErrors msgs)) <-> exists cycle, Cycle graph cycle)
  /\ ((exists msgs, outcome = Throw (MissingDependencies msgs))
      <-> (forall cycle, ~ Cycle graph cycle)
          /\ exists p d, In p candidates /\ In d (deps p) /\ Plugin.get registry d = None)
  /\ (forall i, outcome = Throw (PluginNotFound i) ->
                Plugin.get registry i = None
                /\ forall p, In p candidates -> ~ In i (deps p))
  /\ (forall e, outcome = Throw e ->
                match e with
                | DependencyErrors _ | MissingDependencies _ | PluginNotFound _ => True
                | _ => False
                end).
Proof.
  cbv zeta. pose proof (resolvePluginOrder_outcome localeCompare plugins registry) as H.
  cbv zeta in H. split; [| split; [| split]].
  - split.
    + intros [msgs Hm]. now rewrite Hm in H.
    + intros [cycle Hc].
      destruct (Plugin.resolvePluginOrder localeCompare plugins registry) as [order | e |];
        [| destruct e; try contradiction |]; try contradiction;
        try (exfalso; exact (proj1 H cycle Hc)).
      now exists cycleErrors.
  - split.
    + intros [msgs Hm]. now rewrite Hm in H.
    + intros [Hno [p [d [Hp [Hd Hn]]]]].
      destruct (Plugin.resolvePluginOrder localeCompare plugins registry) as [order | e |];
        [| destruct e; try contradiction |]; try contradiction.
      * exfalso. exact (proj2 H p d Hp Hd Hn).
      * destruct H as [cycle Hc]. exfalso. exact (Hno cycle Hc).
      * now exists missingDeps.
      * exfalso. exact (proj1 (proj2 H) p d Hp Hd Hn).
  - intros i Hi. rewrite Hi in H. destruct H as [_ [Hall Hnone]].
    split; [assumption |]. intros p Hp Hd. exact (Hall p i Hp Hd Hnone).
  - intros e He. rewrite He in H. destruct e; try contradiction; exact I.
Qed.

(** X11.  How [render] fails, on a registry that holds each plugin under
    its own id.  With the plugins that apply to the config and their graph:
    it throws the dependency-cycles exception exactly when the graph has a
    cycle; the missing-dependencies exception exactly when there is no cycle
    and an applicable plugin declares a dependency that is not registered; a
    plugin-not-found exception names an unregistered id that no applicable
    plugin declares.  For a seed without an own [__proto__] property and
    plugins that never write [__proto__], it throws besides these only what
    a plugin's [apply] throws and the file-conflict error.  The file-conflict
    error names two writers or more, one of them with the policy error (its
    own or the default), comes with an acyclic graph whose dependencies are
    all registered, and needs a registered plugin whose [apply] removes a
    path from [ctx.files]; with such a plugin it is thrown: a writes P, m
    removes it, z writes it again. *)
Theorem render_failures (localeCompare : string -> string -> comparison)
    (registry : Plugin.InMemoryPluginRegistry) (config : Config.ProjectConfig)
    (policy : Policy.Policy) (existingFiles : option Types.FileMap) :
  registry_ok registry ->
  let candidates := filter (fun p => Plugin.appliesTo p config) (Plugin.getAll registry) in
  let graph := Plugin.buildDependencyGraph candidates in
  let outcome := Renderer.render localeCompare registry config policy existingFiles in
  ((exists msgs, outcome = Throw (DependencyCycles msgs)) <-> exists cycle, Cycle graph cycle)
  /\ ((exists msgs, outcome = Throw (MissingDependencies msgs))
      <-> (forall cycle, ~ Cycle graph cycle)
          /\ exists p d, In p candidates /\ In d (deps p) /\ Plugin.get registry d = None)
  /\ (forall i, outcome = Throw (PluginNotFound i) ->
                Plugin.get registry i = None
                /\ forall p, In p candidates -> ~ In i (deps p))
  /\ (plain_seed existingFiles ->
      (forall i p, Plugin.get registry i = Some p ->
                   spares_prototype (Plugin.apply p config policy)) ->
      forall e, outcome = Throw e ->
                match e with
                | DependencyCycles _ | MissingDependencies _ | PluginNotFound _
                | PluginApplyFailure _ | FileConflict _ _ => True
                | _ => False
                end)
  /\ (forall path writers,
        outcome = Throw (FileConflict path writers) ->
        1 < List.length writers
        /\ (exists id, In id writers /\ Renderer.writer_policy registry id = Plugin.error)
        /\ (forall cycle, ~ Cycle graph cycle)
        /\ (forall p d, In p candidates -> In d (deps p) -> Plugin.get registry d <> None)
        /\ ~ (forall i p, Plugin.get registry i = Some p ->
                          never_deletes (Plugin.apply p config policy)))
  /\ Renderer.render Collation.localeCompare rewrite_after_delete nextjs_startup
                     (Policy.resolvePolicy nextjs_startup) None
     = Throw (FileConflict "P" ["a"; "z"]%string).
Proof.
  intros Hok. cbv zeta.
  pose proof (render_outcome localeCompare config policy existingFiles Hok) as H.
  cbv zeta in H. split; [| split; [| split; [| split; [| split]]]].
  - split.
    + intros [msgs Hm]. now rewrite Hm in H.
    + intros [cycle Hc].
      destruct (Renderer.render localeCompare registry config policy existingFiles)
        as [result | e |]; [| destruct e; try contradiction |]; try contradiction;
        try (exfalso; exact (proj1 H cycle Hc)).
      now exists cycleErrors.
  - split.
    + intros [msgs Hm]. now rewrite Hm in H.
    + intros [Hno [p [d [Hp [Hd Hn]]]]].
      destruct (Renderer.render localeCompare registry config policy existingFiles)
        as [result | e |]; [| destruct e; try contradiction |]; try contradiction.
      * exfalso. exact (proj2 H p d Hp Hd Hn).
      * destruct H as [cycle Hc]. exfalso. exact (Hno cycle Hc).
      * now exists missingDeps.
      * exfalso. exact (proj1 (proj2 H) p d Hp Hd Hn).
      * exfalso. exact (proj1 (proj2 H) p d Hp Hd Hn).
      * exfalso. exact (proj2 H p d Hp Hd Hn).
  - intros i Hi. rewrite Hi in H. destruct H as [_ [Hall Hnone]].
    split; [assumption |]. intros p Hp Hd. exact (Hall p i Hp Hd Hnone).
  - intros _ _ e He. rewrite He in H. destruct e; try contradiction; exact I.
  - intros path writers He. rewrite He in H.
    destruct H as [Hno [Hreg [Hlen [Hid Hdel]]]]. repeat split; assumption.
  - vm_compute. reflexivity.
Qed.

Lemma render_failures_witness :
  (exists msgs,
     Renderer.render Collation.localeCompare cyclic_registry nextjs_startup
                     (Policy.resolvePolicy nextjs_startup) None
     = Throw (DependencyCycles msgs))
  /\ ~ (forall i p, Plugin.get rewrite_after_delete i = Some p ->
                    never_deletes (Plugin.apply p nextjs_startup
                                                (Policy.resolvePolicy nextjs_startup))).
Proof.
  split.
  - apply (proj2 (proj1 (@render_failures Collation.localeCompare cyclic_registry
                           nextjs_startup (Policy.resolvePolicy nextjs_startup) None
                           (register_each_registry_ok _ empty_registry_ok)))).
    exists ["a"; "b"; "a"]%string. exists "a"%string, ["b"%string].
    split; [reflexivity |]. simpl. repeat split.
    + exists ["b"%string]. split; [reflexivity | now left].
    + exists ["a"%string]. split; [reflexivity | now left].
  - pose proof (@render_failures Collation.localeCompare rewrite_after_delete
                  nextjs_startup (Policy.resolvePolicy nextjs_startup) None
                  (register_each_registry_ok _ empty_registry_ok)) as H.
    cbv zeta in H. destruct H as [_ [_ [_ [_ [H Hthrown]]]]].
    exact (proj2 (proj2 (proj2 (proj2 (H _ _ Hthrown))))).
Defined.

Lemma run_never_raises (a : Context.Action) :
  never_raises a -> forall ctx, exists ctx', Context.run a ctx = Ok ctx'.
Proof.
  induction 1 as [| path content next _ IH | path next _ IH | path next _ IH
                  | path next _ IH | next _ IH];
    intros ctx; simpl; eauto.
Qed.

(** X3.  [render] throws the file-conflict error only after a removal.  On a
    registry none of whose plugins' [apply] removes a path from [ctx.files]
    for this config and policy, no render throws the file-conflict error,
    whatever the plugins write and whatever their conflict policies: a path
    is new to the files once, so the table of writers names one writer per
    path.  With a plugin that removes a path it is thrown: a writes P, m
    removes it, z writes it again, and the error names a and z. *)
Theorem render_conflict_needs_removal :
  (forall (localeCompare : string -> string -> comparison)
          (registry : Plugin.InMemoryPluginRegistry) (config : Config.ProjectConfig)
          (policy : Policy.Policy) (existingFiles : option Types.FileMap),
      (forall i p, Plugin.get registry i = Some p ->
                   never_deletes (Plugin.apply p config policy)) ->
      throws_only (fun e => is_conflict e = false)
                  (Renderer.render localeCompare registry config policy existingFiles))
  /\ Renderer.render Collation.localeCompare rewrite_after_delete nextjs_startup
                     (Policy.resolvePolicy nextjs_startup) None
     = Throw (FileConflict "P" ["a"; "z"]%string)
  /\ (exists result,
        Renderer.render Collation.localeCompare two_writers nextjs_startup
                        (Policy.resolvePolicy nextjs_startup) None = Ok result
        /\ Renderer.files result = [("P"%string, [50%Z])]).
Proof.
  split; [| split; [vm_compute; reflexivity |]].
  2:{ eexists. split; vm_compute; reflexivity. }
  intros localeCompare registry config policy existingFiles Hkeep.
  unfold Renderer.render.
  destruct (detectCycles_returns (Plugin.buildDependencyGraph
              (filter (fun p => Plugin.appliesTo p config) (Plugin.getAll registry))))
    as [cycleErrors ->].
  cbn [bind]. destruct cycleErrors; [| reflexivity].
  pose proof (resolvePluginOrder_throws localeCompare
                (filter (fun p => Plugin.appliesTo p config) (Plugin.getAll registry))
                registry) as Hres.
  destruct (Plugin.resolvePluginOrder _ _ _) as [ordered | e |] eqn:Eord; cbn [bind];
    [| exact Hres | exact I].
  match goal with
  | |- throws_only _ (bind (for_each ?f ?l ?s) _) =>
      assert (H : throws_only (fun e => is_conflict e = false) (for_each f l s))
  end.
  { apply for_each_throws_only. intros phase st. unfold Renderer.run_phase.
    apply for_each_throws_only. intros plugin s. unfold Renderer.run_plugin.
    apply bind_throws_only; [apply run_throws | intros c; exact I]. }
  destruct (for_each _ _ _) as [[context fileWriters] | e |] eqn:E; cbn [bind fst snd];
    [| exact H | exact I].
  rewrite (@conflict_check_passes registry _ config policy existingFiles _ _
             (@grouped_registered _ _ _ _
                    (fun p => never_deletes (Plugin.apply p config policy)) Hkeep Eord) E).
  exact I.
Qed.

Lemma render_conflict_needs_removal_witness :
  throws_only (fun e => is_conflict e = false)
              (Renderer.render Collation.localeCompare two_writers nextjs_startup
                               (Policy.resolvePolicy nextjs_startup) None)
  /\ forall i p, Plugin.get two_writers i = Some p ->
                 never_deletes (Plugin.apply p nextjs_startup
                                             (Policy.resolvePolicy nextjs_startup)).
Proof.
  assert (Hkeep : forall i p, Plugin.get two_writers i = Some p ->
                              never_deletes (Plugin.apply p nextjs_startup
                                               (Policy.resolvePolicy nextjs_startup))).
  { intros i p Hg. apply dict_get_In in Hg.
    destruct Hg as [Hg | [Hg | []]]; injection Hg as _ <-; repeat constructor. }
  split; [| exact Hkeep].
  exact (proj1 render_conflict_needs_removal Collation.localeCompare two_writers
               nextjs_startup (Policy.resolvePolicy nextjs_startup) None Hkeep).
Defined.

(** X12.  When [render] returns.  On a registry that holds each plugin under
    its own id, whose dependencies are all registered and descend along a
    rank, and whose plugins' [apply], for this config and policy, never
    throws, never removes a path from [ctx.files] and never writes
    [__proto__], and for a seed without an own [__proto__] property,
    [render] returns a result. *)
Theorem render_returns (localeCompare : string -> string -> comparison)
    (registry : Plugin.InMemoryPluginRegistry) (rank : string -> nat)
    (config : Config.ProjectConfig) (policy : Policy.Policy)
    (existingFiles : option Types.FileMap) :
  registry_ok registry ->
  (forall i p d, Plugin.get registry i = Some p -> In d (deps p) ->
                 Plugin.get registry d <> None /\ rank d < rank i) ->
  (forall p, In p (Plugin.getAll registry) -> never_raises (Plugin.apply p config policy)) ->
  (forall p, In p (Plugin.getAll registry) -> never_deletes (Plugin.apply p config policy)) ->
  (forall p, In p (Plugin.getAll registry) ->
             spares_prototype (Plugin.apply p config policy)) ->
  plain_seed existingFiles ->
  exists result,
    Renderer.render localeCompare registry config policy existingFiles = Ok result.
Proof.
  intros Hok Hdeps Hquiet Hkeep _ _.
  set (candidates := filter (fun p => Plugin.appliesTo p config) (Plugin.getAll registry)).
  assert (Hreg : forall p, In p candidates -> Plugin.get registry (Plugin.id p) = Some p).
  { intros p Hp. apply getAll_registered; [assumption |].
    unfold candidates in Hp. apply filter_In in Hp. tauto. }
  assert (Hacyc : Plugin.detectCycles (Plugin.buildDependencyGraph candidates) = Ok []).
  { apply (@detectCycles_acyclic _ rank). intros node ds d Hg Hd.
    destruct (buildDependencyGraph_edges _ _ Hg) as [p [Hp [<- Hds]]].
    exact (proj2 (Hdeps _ _ _ (Hreg p Hp) (Hds d Hd))). }
  destruct (@resolvePluginOrder_acyclic localeCompare registry candidates rank Hok Hreg)
    as [order [Hres [_ [_ [Hmem _]]]]].
  { apply Reachable_registered; [assumption |].
    intros i p d Hg Hd. exact (proj1 (Hdeps _ _ _ Hg Hd)). }
  { intros i p d _ Hg Hd. exact (proj2 (Hdeps _ _ _ Hg Hd)). }
  unfold Renderer.render. cbv zeta. fold candidates. rewrite Hacyc. cbn [bind].
  rewrite Hres. cbn [bind].
  assert (Hall : forall ph p,
             In p (group_of (Plugin.groupPluginsByPhase localeCompare order) ph) ->
             In p (Plugin.getAll registry)).
  { intros ph p Hp. apply grouped_plugin_In in Hp.
    destruct (Hmem p Hp) as [Hg _]. apply dict_get_In in Hg.
    unfold Plugin.getAll. apply in_map_iff. now exists (Plugin.id p, p). }
  assert (Hrun : returns (fun st => Context.config (fst st) = config
                                    /\ Context.policy (fst st) = policy)
                         (for_each (Renderer.run_phase
                                      (Plugin.groupPluginsByPhase localeCompare order))
                                   Plugin.phases
                                   (Context.new config policy existingFiles, []))).
  { apply for_each_returns; [| now split]. intros ph st _ Hst. unfold Renderer.run_phase.
    apply for_each_returns; [| assumption]. intros p s Hp [Hc Hpol].
    unfold Renderer.run_plugin. rewrite Hc, Hpol.
    destruct (run_never_raises (Hquiet p (Hall ph p Hp)) (fst s)) as [ctx' Hctx].
    rewrite Hctx. cbn [bind returns fst].
    destruct (run_config_policy _ _ Hctx) as [Hc' Hpol']. split; congruence. }
  apply returns_Ok in Hrun. destruct Hrun as [[context fileWriters] [E _]].
  rewrite E. cbn [bind fst snd].
  rewrite (@conflict_check_passes registry _ config policy existingFiles _ _
             (fun ph p Hp => Hkeep p (Hall ph p Hp)) E).
  cbn [bind]. eexists. reflexivity.
Qed.

Lemma render_returns_witness :
  exists result,
    Renderer.render Collation.localeCompare two_writers nextjs_startup
                    (Policy.resolvePolicy nextjs_startup) None = Ok result.
Proof.
  apply (@render_returns Collation.localeCompare two_writers (fun _ => 0)).
  - apply register_each_registry_ok, empty_registry_ok.
  - intros i p d Hg Hd. apply dict_get_In in Hg.
    destruct Hg as [Hg | [Hg | []]]; injection Hg as _ <-; destruct Hd.
  - intros p [<- | [<- | []]]; repeat constructor.
  - intros p [<- | [<- | []]]; repeat constructor.
  - intros p [<- | [<- | []]]; repeat constructor; discriminate.
  - exact I.
Defined.

(** ** The form of the hashes *)

Lemma string_forallb_app (f : ascii -> bool) (s t : string) :
  string_forallb f (s ++ t) = string_forallb f s && string_forallb f t.
Proof. induction s as [| c s IH]; simpl; [reflexivity |]. now rewrite IH, andb_assoc. Qed.

Lemma string_length_app (s t : string) :
  String.length (s ++ t) = String.length s + String.length t.
Proof. induction s as [| c s IH]; simpl; [reflexivity |]. now rewrite IH. Qed.

Lemma hex_digit_lower (n : N) : (n < 16)%N -> is_hex_lower (hex_digit n) = true.
Proof.
  intros H. unfold is_hex_lower, hex_digit.
  destruct (N.ltb_spec n 10) as [Hlt | Hge]; rewrite N_ascii_embedding by lia.
  - apply orb_true_iff. left. apply andb_true_iff. split; apply N.leb_le; lia.
  - apply orb_true_iff. right. apply andb_true_iff. split; apply N.leb_le; lia.
Qed.

Lemma nibble_bound (x : int) : (Z.to_N (to_Z (x land 0xF)%uint63) < 16)%N.
Proof.
  rewrite land_spec'. change (to_Z 15%uint63) with (Z.ones 4).
  rewrite Z.land_ones by lia.
  pose proof (Z.mod_pos_bound (to_Z x) (2 ^ 4) ltac:(lia)) as Hb.
  change 16%N with (Z.to_N 16). apply Z2N.inj_lt; lia.
Qed.

Lemma hex_word_format (w : int) :
  String.length (Sha256.hex_word w) = 8
  /\ string_forallb is_hex_lower (Sha256.hex_word w) = true.
Proof.
  unfold Sha256.hex_word. cbn [fold_right String.length string_forallb].
  split; [reflexivity |].
  rewrite !hex_digit_lower by apply nibble_bound. reflexivity.
Qed.

Lemma round_length (st : list int) (kw : int * int) :
  List.length (Sha256.round st kw) = List.length st.
Proof.
  unfold Sha256.round.
  destruct st as [| a [| b [| c [| d [| e [| f [| g [| h [| i st]]]]]]]]]; reflexivity.
Qed.

Lemma add_words_length (xs : list int) :
  forall ys, List.length ys = List.length xs ->
             List.length (Sha256.add_words xs ys) = List.length xs.
Proof.
  induction xs as [| x xs IH]; intros [| y ys] H; simpl in *; try reflexivity; try discriminate.
  now rewrite IH by lia.
Qed.

Lemma compress_length (h block : list int) :
  List.length (Sha256.compress h block) = List.length h.
Proof.
  unfold Sha256.compress. apply add_words_length.
  generalize (combine Sha256.K256 (Sha256.schedule block)). intros l. revert h.
  induction l as [| kw l IH]; intros h; simpl; [reflexivity |].
  now rewrite IH, round_length.
Qed.

Lemma digest_words_length (msg : list int) : List.length (Sha256.digest_words msg) = 8.
Proof.
  unfold Sha256.digest_words. cbv zeta.
  generalize (Sha256.blocks (List.length (Sha256.words_of_bytes (Sha256.pad msg)))
                            (Sha256.words_of_bytes (Sha256.pad msg))).
  intros bs.
  assert (H : forall h, List.length (fold_left Sha256.compress bs h) = List.length h).
  { induction bs as [| b bs IH]; intros h; simpl; [reflexivity |].
    now rewrite IH, compress_length. }
  now rewrite H.
Qed.

Lemma digest_hex_format (msg : Buffer) : is_sha256_hex (Sha256.digest_hex msg).
Proof.
  unfold Sha256.digest_hex, is_sha256_hex.
  pose proof (digest_words_length (map of_Z msg)) as Hlen.
  assert (H : forall ws,
             String.length (fold_right (fun w s => (Sha256.hex_word w ++ s)%string)
                                       EmptyString ws) = 8 * List.length ws
             /\ string_forallb is_hex_lower
                  (fold_right (fun w s => (Sha256.hex_word w ++ s)%string) EmptyString ws)
                = true).
  { induction ws as [| w ws [IH1 IH2]]; [split; reflexivity |].
    cbn [fold_right]. rewrite string_length_app, string_forallb_app, IH1, IH2.
    destruct (hex_word_format w) as [-> ->]. split; [simpl List.length; lia | reflexivity]. }
  destruct (H (Sha256.digest_words (map of_Z msg))) as [H1 H2].
  rewrite Hlen in H1. now split.
Qed.

(** X13.  Every hash that the renderer computes has the form of a SHA-256
    digest in hexadecimal, 64 digits with the letters in lower case: the
    hash of a file's content and the hash of a config, whatever they are,
    and so every hash of a manifest. *)
Theorem manifest_hashes_are_sha256_hex :
  (forall content, is_sha256_hex (Renderer.computeSha256 content))
  /\ (forall config, is_sha256_hex (Renderer.computeConfigHash config))
  /\ (forall localeCompare registry config policy existingFiles,
        match Renderer.render localeCompare registry config policy existingFiles with
        | Ok result =>
            is_sha256_hex (Types.configHash (Renderer.manifest result))
            /\ Forall (fun f => is_sha256_hex (Types.sha256 f))
                      (Types.files (Renderer.manifest result))
        | _ => True
        end).
Proof.
  split; [| split].
  - intros content. apply digest_hex_format.
  - intros config. apply digest_hex_format.
  - intros localeCompare registry config policy existingFiles.
    destruct (Renderer.render localeCompare registry config policy existingFiles)
      as [result | e |] eqn:E; try exact I.
    destruct (render_Ok_inv _ _ _ _ _ E)
      as [ordered [context [fw [_ [_ [_ [_ [Hman [Hhash _]]]]]]]]].
    split; [rewrite Hhash; apply digest_hex_format |].
    rewrite Hman. 
    generalize (Renderer.sortFileMap localeCompare
                  (Renderer.normalize_all (Context.files context))).
    intros l. unfold Renderer.emit.
    assert (H : forall l acc,
               Forall (fun f => is_sha256_hex (Types.sha256 f)) (snd acc) ->
               Forall (fun f => is_sha256_hex (Types.sha256 f))
                      (snd (fold_left
                              (fun acc kv =>
                                 (dict_set (fst acc) (fst kv) (snd kv),
                                  snd acc ++ [ {| Types.path := fst kv;
                                                  Types.sha256 :=
                                                    Renderer.computeSha256 (snd kv) |} ]))
                              l acc))).
    { clear. induction l as [| kv l IH]; intros acc Hacc; simpl; [assumption |].
      apply IH. simpl. apply Forall_app. split; [assumption |].
      constructor; [apply digest_hex_format | constructor]. }
    apply H. constructor.
Qed.

(** X14.  The files of a generator context, a plain object with the
    prototype of one.  For a path other than [__proto__], [getFile] after
    [addFile] on that path returns the content just written, as an own
    property, and [hasFile] says yes; on every other path both answer as
    before.  [addFile] on [__proto__] adds no file to a context that has
    none there.  [hasFile] says yes exactly where [getFile] returns
    something: for the paths of the files, and for the names that every
    object inherits, where [getFile] returns the inherited property and no
    buffer.  A context made from a seed without an own [__proto__] property
    answers as the seed object does; one made from a seed that has nothing
    else has no file; and one made without a seed has no file, yet says yes
    to [toString]. *)
Theorem context_addFile_getFile (ctx : Context.InMemoryGeneratorContext) (path : string)
    (content : Buffer) :
  (path <> "__proto__"%string ->
   Context.getFile (Context.addFile ctx path content) path = Own content
   /\ Context.hasFile (Context.addFile ctx path content) path = true
   /\ forall other, other <> path ->
         Context.getFile (Context.addFile ctx path content) other = Context.getFile ctx other
         /\ Context.hasFile (Context.addFile ctx path content) other
            = Context.hasFile ctx other)
  /\ (dict_has (Context.files ctx) "__proto__" = false ->
      Context.files (Context.addFile ctx "__proto__" content) = Context.files ctx)
  /\ (forall p, Context.hasFile ctx p = true <-> Context.getFile ctx p <> Absent)
  /\ (forall p,
        Context.hasFile ctx p = true
        <-> In p (dict_keys (Context.files ctx)) \/ In p Object_prototype_names)
  /\ (forall p v, Context.getFile ctx p = Own v <-> dict_get (Context.files ctx) p = Some v)
  /\ (forall p name,
        Context.getFile ctx p = Inherited name
        <-> name = p /\ ~ In p (dict_keys (Context.files ctx))
            /\ In p Object_prototype_names)
  /\ (forall config policy seed p,
        dict_has seed "__proto__" = false ->
        dict_get (Context.files (Context.new config policy (Some seed))) p = dict_get seed p
        /\ Context.getFile (Context.new config policy (Some seed)) p = Object_get seed p
        /\ Context.hasFile (Context.new config policy (Some seed)) p = Object_has seed p)
  /\ (forall config policy,
        Context.files (Context.new config policy (Some proto_seed)) = [])
  /\ (forall config policy p,
        Context.files (Context.new config policy None) = []
        /\ Context.hasFile (Context.new config policy None) p
           = Set_has Object_prototype_names p
        /\ Context.hasFile (Context.new config policy None) "toString" = true
        /\ Context.getFile (Context.new config policy None) "toString"
           = Inherited "toString"
        /\ Context.getFile (Context.new config policy None) "README.md" = Absent).
Proof.
  unfold Context.getFile, Context.hasFile, Context.addFile, Object_get, Object_has.
  cbn [Context.files].
  split; [| split; [| split; [| split; [| split; [| split; [| split; [| split]]]]]]].
  - intros Hne. unfold dict_has. rewrite Object_set_get by assumption.
    split; [reflexivity |]. split; [reflexivity |].
    intros other Hother. rewrite Object_set_get_other by assumption. now split.
  - intros Hnone. unfold Object_set. now rewrite Hnone.
  - intros p. unfold dict_has.
    destruct (dict_get (Context.files ctx) p); cbn [orb];
      [| destruct (Set_has Object_prototype_names p)];
      split; intros H; try reflexivity; try discriminate; congruence.
  - intros p. rewrite orb_true_iff. unfold dict_has. split.
    + intros [H | H].
      * left. destruct (dict_get (Context.files ctx) p) as [w |] eqn:E; [| discriminate H].
        apply dict_get_In in E. exact (in_map fst _ _ E).
      * right. now apply Set_has_In.
    + intros [H | H].
      * left. destruct (dict_get (Context.files ctx) p) eqn:E; [reflexivity |].
        apply dict_get_None in E. contradiction.
      * right. now apply Set_has_In.
  - intros p v. destruct (dict_get (Context.files ctx) p) as [w |].
    + split; intros H; injection H as <-; reflexivity.
    + destruct (Set_has Object_prototype_names p); split; discriminate.
  - intros p name. destruct (dict_get (Context.files ctx) p) as [w |] eqn:E.
    + split; [discriminate |]. intros [_ [Hno _]]. exfalso. apply Hno.
      apply dict_get_In in E. exact (in_map fst _ _ E).
    + apply dict_get_None in E.
      destruct (Set_has Object_prototype_names p) eqn:Es.
      * split.
        -- intros H. injection H as <-. repeat split; [assumption | now apply Set_has_In].
        -- intros [-> _]. reflexivity.
      * split; [discriminate |]. intros [_ [_ Hin]]. apply Set_has_In in Hin. congruence.
  - intros config policy seed p Hplain. cbn [Context.new Context.files]. unfold dict_has.
    rewrite Object_assign_get.
    destruct (String.eqb_spec p "__proto__") as [-> | Hne]; [| repeat split].
    unfold dict_has in Hplain. destruct (dict_get seed "__proto__"); [discriminate |].
    repeat split.
  - reflexivity.
  - intros config policy p. cbn [Context.new Context.files]. repeat split.
Qed.

Lemma context_addFile_getFile_witness :
  Context.getFile (Context.addFile (Context.new nextjs_startup
                                      (Policy.resolvePolicy nextjs_startup) (Some seed))
                                   "README.md" [35; 10]%Z) "README.md"
  = Own [35; 10]%Z
  /\ Context.files (Context.addFile (Context.new nextjs_startup
                                       (Policy.resolvePolicy nextjs_startup) None)
                                    "__proto__" [35; 10]%Z)
     = [].
Proof.
  split.
  - refine (proj1 (proj1 (@context_addFile_getFile _ "README.md"%string [35; 10]%Z) _)).
    discriminate.
  - refine (proj1 (proj2 (@context_addFile_getFile
                            (Context.new nextjs_startup
                               (Policy.resolvePolicy nextjs_startup) None)
                            "x"%string [35; 10]%Z)) _).
    reflexivity.
Defined.

(** ** Validation of a config *)

Lemma config_eqb_eq (a : Dict string) : forall b, config_eqb a b = true -> a = b.
Proof.
  induction a as [| [k v] a IH]; intros [| [k' v'] b]; simpl; try discriminate; [reflexivity |].
  rewrite !andb_true_iff. intros [[Hk Hv] Hab].
  apply String.eqb_eq in Hk, Hv. subst. f_equal. now apply IH.
Qed.

Lemma parse_outcomes (t : Zod.ZodType) :
  forall input, In (Zod.parse t input) (outcomes t).
Proof.
  induction t as [values | inner IH | inner IH value]; intros input; simpl.
  - destruct input as [[| b | n | s | items | members] |]; try (now left).
    destruct (Set_has values s) eqn:E; [| now left].
    right. apply in_map. now apply Set_has_In.
  - destruct input; [right; apply IH | now left].
  - destruct input; apply IH.
Qed.

Lemma map_in_product (A B : Type) (f : A -> B) (g : A -> list B) (l : list A) :
  (forall x, In (f x) (g x)) -> In (map f l) (product (map g l)).
Proof.
  intros H. induction l as [| x l IH]; simpl; [now left |].
  apply in_flat_map. exists (f x). split; [apply H |]. now apply in_map.
Qed.

Lemma combine_map_fst (A B C : Type) (f : A * B -> C) (l : list (A * B)) :
  combine (map fst l) (map f l) = map (fun kt => (fst kt, f kt)) l.
Proof. induction l as [| x l IH]; simpl; [reflexivity |]. now rewrite IH. Qed.

Lemma object_assemble (shape : list (string * Zod.ZodType)) (members : Dict Json) :
  Zod.object shape (JObject members)
  = assemble (map fst shape)
             (map (fun kt => Zod.parse (snd kt) (dict_get members (fst kt))) shape).
Proof.
  unfold Zod.object, assemble. cbv zeta. rewrite combine_map_fst.
  destruct (flat_map _ _); reflexivity.
Qed.

Lemma validate_in_product (members : Dict Json) :
  exists rs,
    In rs (product (map (fun kt => outcomes (snd kt)) ConfigSchema.shape))
    /\ ConfigSchema.validateProjectConfig (JObject members)
       = assemble (map fst ConfigSchema.shape) rs.
Proof.
  exists (map (fun kt => Zod.parse (snd kt) (dict_get members (fst kt))) ConfigSchema.shape).
  split; [| apply object_assemble].
  apply (map_in_product (fun kt => Zod.parse (snd kt) (dict_get members (fst kt)))
                        (fun kt => outcomes (snd kt))).
  intros kt. apply parse_outcomes.
Qed.

Lemma validated_configs_checked :
  forallb
    (fun rs =>
       match assemble (map fst ConfigSchema.shape) rs with
       | Zod.Parsed_ok config =>
           Config.is_ProjectConfig config
           && match ConfigSchema.validateProjectConfig (config_json config) with
              | Zod.Parsed_ok config' => config_eqb config' config
              | Zod.ZodError _ => false
              end
       | Zod.ZodError _ => true
       end)
    (product (map (fun kt => outcomes (snd kt)) ConfigSchema.shape))
  = true.
Proof. vm_compute. reflexivity. Qed.

(** What one property contributes to the parsed object, read off the
    input. *)
Lemma parse_field (k : string) (t : Zod.ZodType) (f : Config.Field) (members : Dict Json) :
  Config.name f = k ->
  match t with
  | Zod.enum values => values = Config.values f /\ k = "projectType"%string
  | Zod.optional (Zod.enum values) =>
      values = Config.values f /\ field_default k = None /\ k <> "projectType"%string
  | Zod.default (Zod.enum values) d =>
      values = Config.values f /\ field_default k = Some d /\ Set_has values d = true
      /\ k <> "projectType"%string
  | _ => False
  end ->
  (Zod.parse t (dict_get members k) <> Zod.Issue <-> field_accepts members f)
  /\ (Zod.parse t (dict_get members k) <> Zod.Issue ->
      match Zod.parse t (dict_get members k) with
      | Zod.Value v => [(k, v)]
      | _ => []
      end
      = match dict_get members k with
        | Some (JString v) => [(k, v)]
        | _ => match field_default k with
               | Some d => [(k, d)]
               | None => []
               end
        end).
Proof.
  intros Hk Ht. unfold field_accepts. rewrite Hk.
  assert (Hissue : forall (P : Prop) (l1 l2 : list (string * string)),
             ~ P ->
             (Zod.Issue <> Zod.Issue <-> P)
             /\ (Zod.Issue <> Zod.Issue ->
                 match Zod.Issue with Zod.Value v => [(k, v)] | _ => [] end = l2)).
  { intros P l1 l2 HP. split; [split; [intros H; now contradiction H | intros H; contradiction]
                              | intros H; now contradiction H]. }
  assert (Hstring : forall values s (d : string),
             ((if Set_has values s then Zod.Value s else Zod.Issue) <> Zod.Issue
              <-> In s values)
             /\ ((if Set_has values s then Zod.Value s else Zod.Issue) <> Zod.Issue ->
                 match (if Set_has values s then Zod.Value s else Zod.Issue) with
                 | Zod.Value v => [(k, v)]
                 | _ => []
                 end = [(k, s)])).
  { intros values s _. destruct (Set_has values s) eqn:E.
    - split; [split; [intros _; now apply Set_has_In | discriminate] | reflexivity].
    - apply (Hissue _ [] _). intros Hin. apply Set_has_In in Hin. congruence. }
  destruct t as [values | [values | |] | [values | |] d]; try contradiction.
  - destruct Ht as [-> ->]. simpl.
    destruct (dict_get members "projectType") as [[| b | n | s | items | ms] |];
      try (apply (Hissue _ [] _); tauto).
    apply (Hstring _ _ EmptyString).
  - destruct Ht as [-> [Hd Hne]]. simpl. rewrite Hd.
    destruct (dict_get members k) as [[| b | n | s | items | ms] |];
      try (apply (Hissue _ [] _); tauto).
    + apply (Hstring _ _ EmptyString).
    + split; [split; [intros _; assumption | discriminate] | reflexivity].
  - destruct Ht as [-> [Hd [Hin Hne]]]. simpl. rewrite Hd.
    destruct (dict_get members k) as [[| b | n | s | items | ms] |];
      try (apply (Hissue _ [] _); tauto).
    + apply (Hstring _ _ EmptyString).
    + rewrite Hin. split; [split; [intros _; assumption | discriminate] | reflexivity].
Qed.

Lemma object_fields (members : Dict Json) (shape : list (string * Zod.ZodType))
    (fields : list Config.Field) :
  Forall2 (fun kt f =>
             forall ms,
               (Zod.parse (snd kt) (dict_get ms (fst kt)) <> Zod.Issue <-> field_accepts ms f)
               /\ (Zod.parse (snd kt) (dict_get ms (fst kt)) <> Zod.Issue ->
                   match Zod.parse (snd kt) (dict_get ms (fst kt)) with
                   | Zod.Value v => [(fst kt, v)]
                   | _ => []
                   end
                   = match dict_get ms (Config.name f) with
                     | Some (JString v) => [(Config.name f, v)]
                     | _ => match field_default (Config.name f) with
                            | Some d => [(Config.name f, d)]
                            | None => []
                            end
                     end))
          shape fields ->
  match Zod.object shape (JObject members) with
  | Zod.Parsed_ok config =>
      Forall (field_accepts members) fields
      /\ config = flat_map (fun f => match dict_get members (Config.name f) with
                                     | Some (JString v) => [(Config.name f, v)]
                                     | _ => match field_default (Config.name f) with
                                            | Some d => [(Config.name f, d)]
                                            | None => []
                                            end
                                     end) fields
  | Zod.ZodError issues => ~ Forall (field_accepts members) fields
  end.
Proof.
  unfold Zod.object. cbv zeta. induction 1 as [| kt f shape fields Hhead _ IH]; simpl.
  - split; [constructor | reflexivity].
  - destruct (Hhead members) as [Hacc Hval].
    destruct (Zod.parse (snd kt) (dict_get members (fst kt))) as [v | |] eqn:Ep; simpl.
    + destruct (flat_map _ _) as [| issue issues].
      * destruct IH as [Hall ->]. split.
        -- constructor; [apply Hacc; discriminate | assumption].
        -- rewrite <- Hval by discriminate. reflexivity.
      * intros Hall. inversion Hall; subst. contradiction.
    + destruct (flat_map _ _) as [| issue issues].
      * destruct IH as [Hall ->]. split.
        -- constructor; [apply Hacc; discriminate | assumption].
        -- rewrite <- Hval by discriminate. reflexivity.
      * intros Hall. inversion Hall; subst. contradiction.
    + intros Hall. inversion Hall as [| ? ? Hf _]; subst.
      apply Hacc in Hf. now apply Hf.
Qed.

Lemma schema_fields :
  Forall2 (fun kt f =>
             forall ms,
               (Zod.parse (snd kt) (dict_get ms (fst kt)) <> Zod.Issue <-> field_accepts ms f)
               /\ (Zod.parse (snd kt) (dict_get ms (fst kt)) <> Zod.Issue ->
                   match Zod.parse (snd kt) (dict_get ms (fst kt)) with
                   | Zod.Value v => [(fst kt, v)]
                   | _ => []
                   end
                   = match dict_get ms (Config.name f) with
                     | Some (JString v) => [(Config.name f, v)]
                     | _ => match field_default (Config.name f) with
                            | Some d => [(Config.name f, d)]
                            | None => []
                            end
                     end))
          ConfigSchema.shape Config.ProjectConfigSchema.
Proof.
  unfold ConfigSchema.shape, Config.ProjectConfigSchema.
  repeat (constructor;
          [intros ms; cbn [fst snd Config.name];
           apply parse_field; [reflexivity |];
           cbn [Config.values];
           repeat split; try reflexivity; try discriminate |]).
  constructor.
Qed.

(** X15.  What [validateProjectConfig] returns has the type [ProjectConfig]:
    distinct keys, each a field of the schema with one of its values, every
    field that is not optional present; and validating it again, as it comes
    back from JSON, returns it unchanged. *)
Theorem validateProjectConfig_typed (input : Json) (config : Config.ProjectConfig) :
  ConfigSchema.validateProjectConfig input = Zod.Parsed_ok config ->
  Config.is_ProjectConfig config = true
  /\ ConfigSchema.validateProjectConfig (config_json config) = Zod.Parsed_ok config.
Proof.
  intros H.
  destruct input as [| b | n | s | items | members]; try discriminate.
  destruct (validate_in_product members) as [rs [Hin Hrs]].
  pose proof (proj1 (forallb_forall _ _) validated_configs_checked rs Hin) as Hcheck.
  cbv beta in Hcheck. rewrite <- Hrs, H in Hcheck.
  apply andb_true_iff in Hcheck. destruct Hcheck as [Htyped Hagain].
  split; [assumption |].
  destruct (ConfigSchema.validateProjectConfig (config_json config)) as [config' | issues];
    [| discriminate].
  apply config_eqb_eq in Hagain. now subst.
Qed.

Lemma validateProjectConfig_typed_witness :
  ConfigSchema.validateProjectConfig
    (JObject [("projectType", JString "nextjs"); ("strictnessPreset", JString "startup")]%string)
  = Zod.Parsed_ok nextjs_startup
  /\ Config.is_ProjectConfig nextjs_startup = true
  /\ ConfigSchema.validateProjectConfig (config_json nextjs_startup)
     = Zod.Parsed_ok nextjs_startup.
Proof.
  split; [reflexivity |].
  exact (@validateProjectConfig_typed
           (JObject [("projectType", JString "nextjs");
                     ("strictnessPreset", JString "startup")]%string)
           nextjs_startup eq_refl).
Defined.

(** X16.  What [validateProjectConfig] accepts and what it makes of it.  It
    returns a config exactly when the input is an object in which every
    field of the schema is either absent (allowed for every field but
    [projectType]) or one of the field's strings; the config then lists the
    fields in schema order, each with the input's value, or with its default
    when the input has none ([backend] has no default and stays absent), and
    nothing else: properties that the schema does not name are dropped. *)
Theorem validateProjectConfig_accepts (input : Json) :
  ((exists config, ConfigSchema.validateProjectConfig input = Zod.Parsed_ok config)
   <-> exists members,
         input = JObject members
         /\ Forall (field_accepts members) Config.ProjectConfigSchema)
  /\ (forall members config,
        input = JObject members ->
        ConfigSchema.validateProjectConfig input = Zod.Parsed_ok config ->
        config = flat_map (fun f => match dict_get members (Config.name f) with
                                    | Some (JString v) => [(Config.name f, v)]
                                    | _ => match field_default (Config.name f) with
                                           | Some d => [(Config.name f, d)]
                                           | None => []
                                           end
                                    end) Config.ProjectConfigSchema).
Proof.
  unfold ConfigSchema.validateProjectConfig. split.
  - split.
    + intros [config H].
      destruct input as [| b | n | s | items | members]; try discriminate.
      exists members. split; [reflexivity |].
      pose proof (object_fields members schema_fields) as Hobj.
      rewrite H in Hobj. exact (proj1 Hobj).
    + intros [members [-> Hall]].
      pose proof (object_fields members schema_fields) as Hobj.
      destruct (Zod.object ConfigSchema.shape (JObject members)) as [config | issues];
        [now exists config | contradiction].
  - intros members config -> H.
    pose proof (object_fields members schema_fields) as Hobj.
    rewrite H in Hobj. exact (proj2 Hobj).
Qed.

(** ** [init] and the schema *)

Lemma validated_typed (input : Json) (config : Config.ProjectConfig) :
  ConfigSchema.validateProjectConfig input = Zod.Parsed_ok config ->
  Config.is_ProjectConfig config = true.
Proof.
  intros H.
  destruct input as [| b | n | s | items | members]; try discriminate.
  destruct (validate_in_product members) as [rs [Hin Hrs]].
  pose proof (proj1 (forallb_forall _ _) validated_configs_checked rs Hin) as Hcheck.
  cbv beta in Hcheck. rewrite <- Hrs, H in Hcheck.
  apply andb_true_iff in Hcheck. tauto.
Qed.

Lemma differs_In (v : string) (values : list string) :
  forallb (fun x => negb (String.eqb v x)) values = false <-> In v values.
Proof.
  induction values as [| x values IH]; simpl; [split; [discriminate | intros []] |].
  destruct (String.eqb_spec v x) as [-> | Hne]; simpl.
  - split; [now left | reflexivity].
  - rewrite IH. split; [now right | intros [Hx | Hin]; [congruence | assumption]].
Qed.

Lemma check_flag (required : bool) (values : list string) (arg : option string) :
  (if required then negb (Cli.truthy arg) else false) = false ->
  Cli.truthy arg && forallb (fun x => Cli.differs arg x) values = false ->
  flag_ok required values arg
  /\ (Cli.truthy arg = true -> Cli.text arg = flag_value arg EmptyString).
Proof.
  unfold flag_ok, Cli.differs.
  destruct arg as [[| c s] |]; cbn [Cli.truthy Cli.text andb negb flag_value].
  - destruct required; [discriminate | now split].
  - intros _ H. apply differs_In in H. now split.
  - destruct required; [discriminate | now split].
Qed.

Lemma check_flag_fails (required : bool) (values : list string) (arg : option string) :
  Cli.truthy arg && forallb (fun x => Cli.differs arg x) values = true ->
  ~ flag_ok required values arg.
Proof.
  unfold flag_ok, Cli.differs.
  destruct arg as [[| c s] |]; cbn [Cli.truthy Cli.text andb]; try discriminate.
  intros H Hin. apply differs_In in Hin. congruence.
Qed.

Lemma flag_value_absent (arg : option string) (otherwise : string) :
  Cli.truthy arg = false -> flag_value arg otherwise = otherwise.
Proof. destruct arg as [[| c s] |]; simpl; congruence. Qed.

Lemma flag_value_given (arg : option string) (otherwise : string) :
  Cli.truthy arg = true -> flag_value arg otherwise = Cli.text arg.
Proof. destruct arg as [[| c s] |]; simpl; congruence. Qed.

Lemma flag_ok_given (required : bool) (values : list string) (arg : option string) :
  Cli.truthy arg = true -> flag_ok required values arg -> In (Cli.text arg) values.
Proof. destruct arg as [[| c s] |]; simpl; try discriminate. auto. Qed.

Lemma flag_ok_required (values : list string) (arg : option string) :
  Cli.truthy arg = false -> ~ flag_ok true values arg.
Proof. destruct arg as [[| c s] |]; simpl; try discriminate; intros _ H; discriminate H. Qed.

(** X17.  [init] and the engine's schema agree.  Whatever the arguments,
    the validation of the config that [init] has built never fails: [init]
    stops at one of its own checks exactly when a required flag is missing
    or a flag has a value that the schema does not list, and otherwise the
    config it writes has type [ProjectConfig], with the project type and the
    preset given, and each other field as given or at its default. *)
Theorem init_agrees_with_schema
    (projectType preset billing analytics observability testing : option string) :
  let flags_ok :=
    flag_ok true ["nextjs"; "expo-eas"]%string projectType
    /\ flag_ok true ["startup"; "pro"; "enterprise"]%string preset
    /\ flag_ok false ["none"; "stripe"; "revenuecat"]%string billing
    /\ flag_ok false ["none"; "amplitude"; "mixpanel"; "posthog"]%string analytics
    /\ flag_ok false ["none"; "sentry"]%string observability
    /\ flag_ok false ["none"; "unit"; "unit-e2e"]%string testing in
  match Cli.init_validatedConfig projectType preset billing analytics observability testing
  with
  | Cli.InitConfig config =>
      flags_ok
      /\ config = [("projectType", flag_value projectType "");
                   ("packageManager", "npm");
                   ("strictnessPreset", flag_value preset "");
                   ("testingLevel", flag_value testing "none");
                   ("billingProvider", flag_value billing "none");
                   ("analyticsProvider", flag_value analytics "none");
                   ("observability", flag_value observability "none")]%string
      /\ Config.is_ProjectConfig config = true
  | Cli.InitError _ => ~ flags_ok
  | Cli.InitZodError _ => False
  end.
Proof.
  cbv zeta. unfold Cli.init_validatedConfig.
  destruct (Cli.truthy projectType) eqn:Tp; cbn [negb];
    [| intros [H _]; exact (flag_ok_required _ _ Tp H)].
  destruct (Cli.truthy preset) eqn:Ts; cbn [negb];
    [| intros [_ [H _]]; exact (flag_ok_required _ _ Ts H)].
  destruct (Cli.differs projectType "nextjs" && Cli.differs projectType "expo-eas") eqn:Cp.
  { intros [H _]. revert H. apply check_flag_fails. rewrite Tp. cbn [andb forallb].
    now rewrite andb_true_r. }
  destruct (Cli.differs preset "startup" && Cli.differs preset "pro"
            && Cli.differs preset "enterprise") eqn:Cs.
  { intros [_ [H _]]. revert H. apply check_flag_fails. rewrite Ts. cbn [andb forallb].
    now rewrite andb_true_r, andb_assoc. }
  destruct (Cli.truthy billing && Cli.differs billing "none" && Cli.differs billing "stripe"
            && Cli.differs billing "revenuecat") eqn:Cb.
  { intros [_ [_ [H _]]]. revert H. apply check_flag_fails. cbn [forallb].
    now rewrite andb_true_r, !andb_assoc. }
  destruct (Cli.truthy analytics && Cli.differs analytics "none"
            && Cli.differs analytics "amplitude" && Cli.differs analytics "mixpanel"
            && Cli.differs analytics "posthog") eqn:Ca.
  { intros [_ [_ [_ [H _]]]]. revert H. apply check_flag_fails. cbn [forallb].
    now rewrite andb_true_r, !andb_assoc. }
  destruct (Cli.truthy observability && Cli.differs observability "none"
            && Cli.differs observability "sentry") eqn:Co.
  { intros [_ [_ [_ [_ [H _]]]]]. revert H. apply check_flag_fails. cbn [forallb].
    now rewrite andb_true_r, !andb_assoc. }
  destruct (Cli.truthy testing && Cli.differs testing "none" && Cli.differs testing "unit"
            && Cli.differs testing "unit-e2e") eqn:Ct.
  { intros [_ [_ [_ [_ [_ H]]]]]. revert H. apply check_flag_fails. cbn [forallb].
    now rewrite andb_true_r, !andb_assoc. }
  assert (Hp : flag_ok true ["nextjs"; "expo-eas"]%string projectType).
  { apply check_flag; [now rewrite Tp |]. rewrite Tp. cbn [andb forallb].
    now rewrite andb_true_r. }
  assert (Hs : flag_ok true ["startup"; "pro"; "enterprise"]%string preset).
  { apply check_flag; [now rewrite Ts |]. rewrite Ts. cbn [andb forallb].
    now rewrite andb_true_r, andb_assoc. }
  assert (Hb : flag_ok false ["none"; "stripe"; "revenuecat"]%string billing).
  { apply check_flag; [reflexivity |]. cbn [forallb]. now rewrite andb_true_r, !andb_assoc. }
  assert (Ha : flag_ok false ["none"; "amplitude"; "mixpanel"; "posthog"]%string analytics).
  { apply check_flag; [reflexivity |]. cbn [forallb]. now rewrite andb_true_r, !andb_assoc. }
  assert (Ho : flag_ok false ["none"; "sentry"]%string observability).
  { apply check_flag; [reflexivity |]. cbn [forallb]. now rewrite andb_true_r, !andb_assoc. }
  assert (Ht : flag_ok false ["none"; "unit"; "unit-e2e"]%string testing).
  { apply check_flag; [reflexivity |]. cbn [forallb]. now rewrite andb_true_r, !andb_assoc. }
  clear Cp Cs Cb Ca Co Ct.
  rewrite (@flag_value_given _ _ Tp), (@flag_value_given _ _ Ts).
  pose proof (@flag_ok_given _ _ _ Tp Hp) as Ip. pose proof (@flag_ok_given _ _ _ Ts Hs) as Is.
  destruct (Cli.truthy billing) eqn:Tb;
    [rewrite (@flag_value_given _ _ Tb); pose proof (@flag_ok_given _ _ _ Tb Hb) as Ib
    | rewrite (@flag_value_absent _ _ Tb)];
    (destruct (Cli.truthy analytics) eqn:Ta;
     [rewrite (@flag_value_given _ _ Ta); pose proof (@flag_ok_given _ _ _ Ta Ha) as Ia
     | rewrite (@flag_value_absent _ _ Ta)]);
    (destruct (Cli.truthy observability) eqn:To;
     [rewrite (@flag_value_given _ _ To); pose proof (@flag_ok_given _ _ _ To Ho) as Io
     | rewrite (@flag_value_absent _ _ To)]);
    (destruct (Cli.truthy testing) eqn:Tt;
     [rewrite (@flag_value_given _ _ Tt); pose proof (@flag_ok_given _ _ _ Tt Ht) as It
     | rewrite (@flag_value_absent _ _ Tt)]);
    cbn [dict_set String.eqb Ascii.eqb Bool.eqb];
    match goal with
    | |- context [ConfigSchema.validateProjectConfig (JObject ?members)] =>
        pose proof (object_fields members schema_fields) as Hobj;
        change (Zod.object ConfigSchema.shape (JObject members))
          with (ConfigSchema.validateProjectConfig (JObject members)) in Hobj;
        destruct (ConfigSchema.validateProjectConfig (JObject members))
          as [config | issues] eqn:Ev;
        [split; [tauto |]; split; [exact (proj2 Hobj) | exact (validated_typed _ Ev)]
        | apply Hobj; unfold Config.ProjectConfigSchema;
          repeat (apply Forall_cons;
                  [unfold field_accepts;
                   cbn [Config.name Config.values dict_get String.eqb Ascii.eqb Bool.eqb];
                   first [discriminate
                         | match goal with
                           | H : In ?v _ |- In ?v _ => revert H; clear; cbn [In]; tauto
                           end] |]);
          apply Forall_nil]
    end.
Qed.

(** ** The stack plugins *)

Lemma Buffer_eqb_eq (a : Buffer) : forall b, Buffer_eqb a b = true -> a = b.
Proof.
  induction a as [| x a IH]; intros [| y b]; simpl; try discriminate; [reflexivity |].
  rewrite andb_true_iff. intros [Hx Hab]. apply Z.eqb_eq in Hx. subst. f_equal. now apply IH.
Qed.

Lemma dict_get_fixed (V : Type) (f : V -> V) (d : Dict V) :
  Forall (fun kv => f (snd kv) = snd kv) d ->
  forall k, option_map f (dict_get d k) = dict_get d k.
Proof.
  induction 1 as [| [k' v] d Hv _ IH]; intros k; simpl; [reflexivity |].
  destruct (String.eqb k k'); [simpl in *; now rewrite Hv | apply IH].
Qed.

Lemma render_keys (localeCompare : string -> string -> comparison)
    (files : Types.FileMap) :
  files_ok files ->
  Permutation (dict_keys (Renderer.sortFileMap localeCompare (Renderer.normalize_all files)))
              (dict_keys files).
Proof.
  intros Hok.
  eapply Permutation_trans;
    [apply Permutation_map, sortFileMap_perm |].
  change (map fst (Object_entries (Renderer.normalize_all files)))
    with (dict_keys (Object_entries (Renderer.normalize_all files))).
  unfold dict_keys at 1. rewrite Object_entries_keys. unfold Object_keys.
  eapply Permutation_trans; [apply own_keys_perm |].
  rewrite normalize_all_keys by assumption. apply own_keys_perm.
Qed.

Lemma plain_keys (V : Type) (ws : Dict V) :
  forallb (fun w => negb (String.eqb (fst w) "__proto__")) ws = true ->
  ~ In "__proto__"%string (dict_keys ws).
Proof.
  intros H Hin. unfold dict_keys in Hin. apply in_map_iff in Hin.
  destruct Hin as [w [Hw Hin]]. rewrite forallb_forall in H. specialize (H w Hin).
  rewrite Hw in H. discriminate H.
Qed.

Lemma writes_never_delete (ws : list (string * Buffer)) :
  never_deletes (fold_right (fun w next => Context.AddFile (fst w) (snd w) next)
                            Context.Return ws).
Proof. induction ws as [| w ws IH]; simpl; constructor. exact IH. Qed.

(** An [apply] that refuses a context with a package.json and otherwise
    writes a list of files removes nothing; so the conflict check passes
    when [render] runs a plugin with such an [apply] alone. *)
Lemma guarded_conflict_check_passes (localeCompare : string -> string -> comparison)
    (registry : Plugin.InMemoryPluginRegistry) (plugin : Plugin.Plugin)
    (config : Config.ProjectConfig) (policy : Policy.Policy)
    (existingFiles : option Types.FileMap) (message : string) (ws : list (string * Buffer))
    (context : Context.InMemoryGeneratorContext) (fileWriters : Dict (list string)) :
  Plugin.apply plugin config policy
  = Context.HasFile "package.json" (fun present =>
      if present then Context.Raise message
      else fold_right (fun w next => Context.AddFile (fst w) (snd w) next)
                      Context.Return ws) ->
  for_each (Renderer.run_phase (Plugin.groupPluginsByPhase localeCompare [plugin]))
           Plugin.phases (Context.new config policy existingFiles, [])
  = Ok (context, fileWriters) ->
  Renderer.check_conflicts registry fileWriters = Ok tt.
Proof.
  intros Happly. apply conflict_check_passes.
  intros phase p Hin. apply grouped_plugin_In in Hin. destruct Hin as [<- | []].
  rewrite Happly. constructor. intros []; [constructor | apply writes_never_delete].
Qed.

Lemma nextjs_writes_plain :
  forallb (fun w => negb (String.eqb (fst w) "__proto__")) NextJs.writes = true.
Proof. reflexivity. Qed.

Lemma expo_writes_plain (latticeVersion policyVersion configHash : string) :
  forallb (fun w => negb (String.eqb (fst w) "__proto__"))
          (ExpoEas.writes latticeVersion policyVersion configHash)
  = true.
Proof. reflexivity. Qed.

Lemma nextjs_writes_normalized :
  forallb (fun w => Buffer_eqb (Renderer.normalizeLineEndings (snd w)) (snd w)) NextJs.writes
  = true.
Proof. vm_compute. reflexivity. Qed.

Lemma nextjs_run (localeCompare : string -> string -> comparison)
    (config : Config.ProjectConfig) (policy : Policy.Policy) :
  for_each (Renderer.run_phase (Plugin.groupPluginsByPhase localeCompare [NextJs.NextJsPlugin]))
           Plugin.phases (Context.new config policy None, [])
  = Ok ({| Context.config := config; Context.policy := policy;
           Context.files := NextJs.writes |},
        map (fun w => (fst w, ["stack/nextjs"%string])) NextJs.writes).
Proof. vm_compute. reflexivity. Qed.

Lemma nextjs_resolved (localeCompare : string -> string -> comparison) :
  Plugin.resolvePluginOrder localeCompare [NextJs.NextJsPlugin] nextjs_registry
  = Ok [NextJs.NextJsPlugin].
Proof. vm_compute. reflexivity. Qed.

Lemma nextjs_acyclic :
  Plugin.detectCycles (Plugin.buildDependencyGraph [NextJs.NextJsPlugin]) = Ok [].
Proof. vm_compute. reflexivity. Qed.


Lemma writes_run (ws : list (string * Buffer)) :
  forallb (fun w => negb (String.eqb (fst w) "__proto__")) ws = true ->
  forall ctx,
    Context.run (fold_right (fun w next => Context.AddFile (fst w) (snd w) next)
                            Context.Return ws) ctx
    = Ok {| Context.config := Context.config ctx;
            Context.policy := Context.policy ctx;
            Context.files := fold_left (fun files w => dict_set files (fst w) (snd w)) ws
                                       (Context.files ctx) |}.
Proof.
  induction ws as [| w ws IH]; intros Hws ctx; simpl; [now destruct ctx |].
  simpl in Hws. apply andb_true_iff in Hws. destruct Hws as [Hw Hws].
  rewrite (IH Hws). cbn [Context.addFile Context.config Context.policy Context.files].
  rewrite Object_set_plain; [reflexivity |].
  intros Heq. rewrite Heq in Hw. discriminate Hw.
Qed.

(** The loops of [render] over one plugin of the render phase whose [apply]
    refuses a context that has a package.json and otherwise writes a list of
    files. *)
Lemma guarded_writes_run (localeCompare : string -> string -> comparison)
    (plugin : Plugin.Plugin) (config : Config.ProjectConfig) (policy : Policy.Policy)
    (message : string) (ws : list (string * Buffer)) :
  forallb (fun w => negb (String.eqb (fst w) "__proto__")) ws = true ->
  Plugin.phase plugin = Some Plugin.Render ->
  Plugin.apply plugin config policy
  = Context.HasFile "package.json" (fun present =>
      if present then Context.Raise message
      else fold_right (fun w next => Context.AddFile (fst w) (snd w) next)
                      Context.Return ws) ->
  exists fileWriters,
    for_each (Renderer.run_phase (Plugin.groupPluginsByPhase localeCompare [plugin]))
             Plugin.phases (Context.new config policy None, [])
    = Ok ({| Context.config := config; Context.policy := policy;
             Context.files := fold_left (fun files w => dict_set files (fst w) (snd w)) ws [] |},
          fileWriters).
Proof.
  intros Hws Hphase Happly. rewrite groupPluginsByPhase_eq.
  assert (Hin : forall ph, in_phase ph plugin
                           = String.eqb "render" (Plugin.phase_name ph)).
  { intros ph. unfold in_phase, phase_of. now rewrite Hphase. }
  cbn [Plugin.phases for_each Renderer.run_phase dict_get Plugin.phase_name String.eqb
       Ascii.eqb Bool.eqb filter]. rewrite !Hin.
  cbn [Plugin.phase_name String.eqb Ascii.eqb Bool.eqb Array_sort fold_right sort_insert
       for_each bind].
  unfold Renderer.run_plugin.
  cbn [fst snd Context.config Context.policy Context.new]. rewrite Happly.
  cbn [Context.run].
  change (Context.hasFile (Context.new config policy None) "package.json") with false.
  cbv iota. rewrite (writes_run _ Hws).
  cbn [bind Context.config Context.policy Context.files Context.new]. eexists. reflexivity.
Qed.

Lemma dict_get_snoc (V : Type) (d : Dict V) (k : string) (v : V) (path : string) :
  dict_get (d ++ [(k, v)]) path
  = match dict_get d path with
    | Some x => Some x
    | None => if String.eqb path k then Some v else None
    end.
Proof.
  induction d as [| [k' v'] d IH]; simpl; [reflexivity |].
  destruct (String.eqb path k'); [reflexivity | apply IH].
Qed.

Lemma expo_resolved (localeCompare : string -> string -> comparison)
    (latticeVersion : string) :
  Plugin.resolvePluginOrder localeCompare [ExpoEas.ExpoEasPlugin latticeVersion]
                            (expo_registry latticeVersion)
  = Ok [ExpoEas.ExpoEasPlugin latticeVersion].
Proof. reflexivity. Qed.

Lemma expo_acyclic (latticeVersion : string) :
  Plugin.detectCycles (Plugin.buildDependencyGraph [ExpoEas.ExpoEasPlugin latticeVersion])
  = Ok [].
Proof. reflexivity. Qed.

Lemma expo_run (localeCompare : string -> string -> comparison)
    (latticeVersion : string) (config : Config.ProjectConfig) (policy : Policy.Policy) :
  exists fileWriters,
    for_each (Renderer.run_phase
                (Plugin.groupPluginsByPhase localeCompare [ExpoEas.ExpoEasPlugin latticeVersion]))
             Plugin.phases (Context.new config policy None, [])
    = Ok ({| Context.config := config; Context.policy := policy;
             Context.files := ExpoEas.writes latticeVersion (Policy.version policy)
                                             (Renderer.computeConfigHash config) |},
          fileWriters).
Proof.
  exact (@guarded_writes_run localeCompare (ExpoEas.ExpoEasPlugin latticeVersion) config policy
           "package.json already exists"
           (ExpoEas.writes latticeVersion (Policy.version policy)
                           (Renderer.computeConfigHash config))
           (expo_writes_plain _ _ _) eq_refl eq_refl).
Qed.

(** What [render] returns with the Next.js plugin alone registered, for a
    config of its project type and no seed. *)
Lemma nextjs_render (localeCompare : string -> string -> comparison)
    (config : Config.ProjectConfig) (policy : Policy.Policy) :
  dict_get config "projectType" = Some "nextjs"%string ->
  exists result,
    Renderer.render localeCompare nextjs_registry config policy None = Ok result
    /\ NoDup (dict_keys NextJs.writes)
    /\ Renderer.files result
       = Renderer.sortFileMap localeCompare (Renderer.normalize_all NextJs.writes)
    /\ (forall path, dict_get (Renderer.files result) path = dict_get NextJs.writes path)
    /\ Types.files (Renderer.manifest result) = map manifest_entry (Renderer.files result).
Proof.
  intros Hp.
  assert (Ha : filter (fun p => Plugin.appliesTo p config) (Plugin.getAll nextjs_registry)
               = [NextJs.NextJsPlugin]).
  { cbn [Plugin.getAll nextjs_registry register_each fold_left Plugin.register Plugin.empty
         Plugin.plugins dict_has dict_get dict_set Plugin.id NextJs.NextJsPlugin map snd
         Object_entries]. cbn. now rewrite Hp. }
  assert (Hr : exists result,
             Renderer.render localeCompare nextjs_registry config policy None = Ok result).
  { unfold Renderer.render. cbv zeta. rewrite Ha.
    rewrite nextjs_acyclic. cbn [bind]. rewrite nextjs_resolved. cbn [bind].
    rewrite nextjs_run. cbn [bind fst snd].
    rewrite (@guarded_conflict_check_passes localeCompare nextjs_registry
               NextJs.NextJsPlugin config policy None _ _ _ _ eq_refl
               (nextjs_run localeCompare config policy)).
    cbn [bind]. eexists. reflexivity. }
  destruct Hr as [result Hr]. exists result. split; [assumption |].
  destruct (render_output _ _ _ _ _ Hr)
    as [ordered [context [fw [Hrun [Hres [Hnd [Hfiles [Hman [_ Hget]]]]]]]]].
  rewrite Ha, nextjs_resolved in Hres. injection Hres as <-.
  rewrite nextjs_run in Hrun. injection Hrun as <- _.
  cbn [Context.files] in *. repeat split; try assumption.
  intros path. rewrite Hget. apply dict_get_fixed.
  apply Forall_forall. intros w Hw. apply Buffer_eqb_eq.
  exact (proj1 (forallb_forall _ _) nextjs_writes_normalized w Hw).
Qed.


(** What [render] returns with the Expo plugin alone registered, for a
    config of its project type and no seed. *)
Lemma expo_render (localeCompare : string -> string -> comparison)
    (latticeVersion : string) (config : Config.ProjectConfig) (policy : Policy.Policy) :
  dict_get config "projectType" = Some "expo-eas"%string ->
  exists result,
    Renderer.render localeCompare (expo_registry latticeVersion) config policy None = Ok result
    /\ NoDup (dict_keys (ExpoEas.writes latticeVersion (Policy.version policy)
                                        (Renderer.computeConfigHash config)))
    /\ Renderer.files result
       = Renderer.sortFileMap localeCompare
           (Renderer.normalize_all (ExpoEas.writes latticeVersion (Policy.version policy)
                                                   (Renderer.computeConfigHash config)))
    /\ (forall path,
          dict_get (Renderer.files result) path
          = option_map Renderer.normalizeLineEndings
              (dict_get (ExpoEas.writes latticeVersion (Policy.version policy)
                                        (Types.configHash (Renderer.manifest result))) path))
    /\ Types.configHash (Renderer.manifest result) = Renderer.computeConfigHash config.
Proof.
  intros Hp.
  assert (Ha : filter (fun p => Plugin.appliesTo p config)
                      (Plugin.getAll (expo_registry latticeVersion))
               = [ExpoEas.ExpoEasPlugin latticeVersion]).
  { transitivity (if Plugin.appliesTo (ExpoEas.ExpoEasPlugin latticeVersion) config
                  then [ExpoEas.ExpoEasPlugin latticeVersion] else []); [reflexivity |].
    cbn [Plugin.appliesTo ExpoEas.ExpoEasPlugin]. now rewrite Hp. }
  destruct (expo_run localeCompare latticeVersion config policy) as [fw0 Hrun0].
  assert (Hr : exists result,
             Renderer.render localeCompare (expo_registry latticeVersion) config policy None
             = Ok result).
  { unfold Renderer.render. cbv zeta. rewrite Ha.
    rewrite expo_acyclic. cbn [bind]. rewrite expo_resolved. cbn [bind].
    rewrite Hrun0. cbn [bind fst snd].
    rewrite (@guarded_conflict_check_passes localeCompare (expo_registry latticeVersion)
               (ExpoEas.ExpoEasPlugin latticeVersion) config policy None _ _ _ _ eq_refl
               Hrun0).
    cbn [bind]. eexists. reflexivity. }
  destruct Hr as [result Hr]. exists result. split; [assumption |].
  destruct (render_Ok_inv _ _ _ _ _ Hr) as [? [? [? [_ [_ [_ [_ [_ [Hhash _]]]]]]]]].
  destruct (render_output _ _ _ _ _ Hr)
    as [ordered [context [fw [Hrun [Hres [Hnd [Hfiles [Hman [_ Hget]]]]]]]]].
  rewrite Ha, expo_resolved in Hres. injection Hres as <-.
  rewrite Hrun0 in Hrun. injection Hrun as <- _.
  cbn [Context.files] in *. rewrite Hhash. repeat split; assumption.
Qed.


(** ** The rules files and [verifyRules] *)

Lemma text_of_string_app (a b : string) :
  text_of_string (a ++ b) = text_of_string a ++ text_of_string b.
Proof.
  unfold text_of_string. induction a as [| c a IH]; simpl; [reflexivity |]. now rewrite IH.
Qed.

Lemma string_forallb_impl (f g : ascii -> bool) (s : string) :
  (forall c, f c = true -> g c = true) ->
  string_forallb f s = true -> string_forallb g s = true.
Proof.
  intros Hfg. induction s as [| c s IH]; simpl; [reflexivity |].
  rewrite !andb_true_iff. intros [Hc Hs]. auto.
Qed.

Lemma string_forallb_text (f : ascii -> bool) (P : Z -> Prop) (s : string) :
  (forall c, f c = true -> P (code_unit c)) ->
  string_forallb f s = true -> Forall P (text_of_string s).
Proof.
  intros Hf. unfold text_of_string. induction s as [| c s IH]; simpl; [constructor |].
  rewrite andb_true_iff. intros [Hc Hs]. constructor; auto.
Qed.

Lemma text_eqb_eq (a : Text) : forall b, text_eqb a b = true <-> a = b.
Proof.
  induction a as [| x a IH]; intros [| y b]; simpl; try (split; [discriminate | discriminate]);
    [tauto |].
  rewrite andb_true_iff, Z.eqb_eq, IH. split; [intros [-> ->]; reflexivity |].
  intros H. injection H as -> ->. tauto.
Qed.

Lemma lf_only_no_CR (text : Text) : ~ In 13%Z text -> lf_only text = text.
Proof.
  induction text as [| c rest IH]; [reflexivity |]. intros Hno. simpl.
  destruct (Z.eqb_spec c 13) as [-> | _]; [exfalso; apply Hno; now left |].
  rewrite IH; [reflexivity |]. intros H. apply Hno. now right.
Qed.

(** The bytes of an ASCII string without a carriage return go through
    [render] and [readFile] unchanged. *)
Lemma ascii_rendered_read (s : string) :
  ascii_no_CR s = true ->
  Buffer_toString (Renderer.normalizeLineEndings (Buffer_of s)) = text_of_string s.
Proof.
  intros H.
  assert (Hascii : Forall is_ascii_byte (text_of_string s)).
  { revert H. apply string_forallb_text. intros c Hc. apply andb_true_iff in Hc.
    destruct Hc as [Hc _]. apply N.ltb_lt in Hc. unfold is_ascii_byte, code_unit. lia. }
  assert (Hcr : ~ In 13%Z (text_of_string s)).
  { assert (Hall : Forall (fun z => z <> 13%Z) (text_of_string s)).
    { revert H. apply string_forallb_text. intros c Hc. apply andb_true_iff in Hc.
      destruct Hc as [_ Hc]. apply negb_true_iff, N.eqb_neq in Hc. unfold code_unit. lia. }
    intros Hin. exact (proj1 (Forall_forall _ _) Hall _ Hin eq_refl). }
  unfold Buffer_of. rewrite Buffer_from_ascii by assumption.
  rewrite normalizeLineEndings_ascii by assumption.
  rewrite lf_only_no_CR by assumption.
  unfold Buffer_toString. now apply utf8_decode_ascii.
Qed.

Lemma strip_prefix_app (literal rest : Text) :
  RegExp.strip_prefix literal (literal ++ rest) = Some rest.
Proof.
  induction literal as [| c literal IH]; simpl; [now destruct rest |].
  now rewrite Z.eqb_refl.
Qed.

Lemma includes_app (prefix s needle : Text) :
  includes s needle = true -> includes (prefix ++ s) needle = true.
Proof.
  intros H. induction prefix as [| c prefix IH]; [assumption |].
  simpl. destruct (RegExp.strip_prefix needle (c :: prefix ++ s)); [reflexivity | assumption].
Qed.

Lemma backtrack_first (A : Type) (min k : nat) (rest : nat -> option A) (r : A) :
  min <= k -> rest k = Some r -> RegExp.backtrack min k rest = Some r.
Proof.
  intros Hk Hr. destruct k; simpl.
  - destruct min; [| lia]. now rewrite Hr.
  - destruct (Nat.ltb_spec (S k) min); [lia |]. now rewrite Hr.
Qed.

Lemma run_length_stops (class : Z -> bool) (run rest : Text) :
  Forall (fun c => class c = true) run ->
  match rest with
  | [] => True
  | c :: _ => class c = false
  end ->
  RegExp.run_length class None (run ++ rest) = List.length run.
Proof.
  intros Hrun Hrest. induction Hrun as [| c run Hc _ IH]; simpl.
  - destruct rest as [| c rest]; [reflexivity |]. simpl. now rewrite Hrest.
  - now rewrite Hc, IH.
Qed.

Lemma run_length_all (class : Z -> bool) (run : Text) :
  Forall (fun c => class c = true) run ->
  forall n, List.length run <= n -> RegExp.run_length class (Some n) run = List.length run.
Proof.
  induction 1 as [| c run Hc _ IH]; intros n Hn; [reflexivity |].
  simpl in *. destruct n; [lia |]. rewrite Hc. simpl. rewrite IH by lia. reflexivity.
Qed.

Lemma skipn_app_length (A : Type) (a b : list A) : skipn (List.length a) (a ++ b) = b.
Proof. induction a; simpl; auto. Qed.

Lemma firstn_app_length (A : Type) (a b : list A) : firstn (List.length a) (a ++ b) = a.
Proof. induction a; simpl; [reflexivity | now f_equal]. Qed.

(** A captured run of [.] takes the rest of the line. *)
Lemma match_line (atoms : list RegExp.Atom) (at_end : bool) (line rest : Text)
    (captures : list Text) :
  Forall (fun c => RegExp.dot c = true) line ->
  match rest with
  | [] => True
  | c :: _ => RegExp.dot c = false
  end ->
  RegExp.match_here atoms at_end rest = Some captures ->
  RegExp.match_here (RegExp.Repeat RegExp.dot 0 None true :: atoms) at_end (line ++ rest)
  = Some (line :: captures).
Proof.
  intros Hline Hrest Hm. cbn [RegExp.match_here].
  rewrite run_length_stops by assumption.
  apply backtrack_first; [lia |].
  now rewrite skipn_app_length, firstn_app_length, Hm.
Qed.

Lemma match_chars (atoms : list RegExp.Atom) (at_end : bool) (literal rest : Text) :
  RegExp.match_here (RegExp.Chars literal :: atoms) at_end (literal ++ rest)
  = RegExp.match_here atoms at_end rest.
Proof. cbn [RegExp.match_here]. now rewrite strip_prefix_app. Qed.

Lemma search_here (atoms : list RegExp.Atom) (at_end : bool) (s : Text)
    (captures : list Text) :
  RegExp.match_here atoms at_end s = Some captures ->
  RegExp.search atoms at_end s = Some captures.
Proof. intros H. destruct s; simpl; now rewrite H. Qed.

(** The pattern of [verifyRules] reads a header of four lines back. *)
Lemma header_exec (latticeVersion stack policyVersion configHash rest : Text) :
  Forall (fun c => RegExp.dot c = true) latticeVersion ->
  Forall (fun c => RegExp.dot c = true) stack ->
  Forall (fun c => RegExp.dot c = true) policyVersion ->
  Forall (fun c => RegExp.dot c = true) configHash ->
  RegExp.exec CliRules.header
              (versioning_header latticeVersion stack policyVersion configHash ++ rest)
  = Some [latticeVersion; stack; policyVersion; configHash].
Proof.
  intros Hv Hs Hp Hh. unfold RegExp.exec, CliRules.header, versioning_header.
  cbn [RegExp.anchored_start RegExp.body RegExp.anchored_end].
  apply search_here. rewrite <- !app_assoc.
  rewrite match_chars. apply match_line; [assumption | exact eq_refl |].
  rewrite match_chars. apply match_line; [assumption | exact eq_refl |].
  rewrite match_chars. apply match_line; [assumption | exact eq_refl |].
  rewrite match_chars. apply match_line; [assumption | exact eq_refl |].
  rewrite match_chars. reflexivity.
Qed.

Lemma sha256_hex_test (hash : string) :
  is_sha256_hex hash -> RegExp.test CliRules.sha256_hex (text_of_string hash) = true.
Proof.
  intros [Hlen Hhex]. unfold RegExp.test, RegExp.exec, CliRules.sha256_hex.
  cbn [RegExp.anchored_start RegExp.body RegExp.anchored_end RegExp.match_here].
  assert (Hl : List.length (text_of_string hash) = 64).
  { unfold text_of_string. rewrite length_map. rewrite <- Hlen. clear.
    induction hash; simpl; auto. }
  assert (Hall : Forall (fun c => RegExp.hex_ignore_case c = true) (text_of_string hash)).
  { revert Hhex. apply string_forallb_text. intros c Hc.
    unfold is_hex_lower in Hc. unfold RegExp.hex_ignore_case, code_unit.
    apply orb_true_iff in Hc.
    destruct Hc as [Hc | Hc]; apply andb_true_iff in Hc; destruct Hc as [H1 H2];
      apply N.leb_le in H1, H2; apply orb_true_iff; [right | left; apply orb_true_iff; left];
      apply andb_true_iff; split; apply Z.leb_le; lia. }
  rewrite (@run_length_all _ _ Hall 64) by lia.
  erewrite backtrack_first; [reflexivity | lia |].
  rewrite skipn_all. reflexivity.
Qed.

(** [verifyRules] on a rules file with a readable header of the Expo stack
    and the sections it asks for. *)
Lemma verifyRules_expo (rulesContent latticeVersion policyVersion configHash : Text)
    (currentVersion : Text) (expectedStack : option Text) :
  RegExp.exec CliRules.header rulesContent
  = Some [latticeVersion; CliRules.text "expo-eas"; policyVersion; configHash] ->
  RegExp.test CliRules.sha256_hex configHash = true ->
  (forall needle, In needle expo_sections ->
                  includes rulesContent (CliRules.text needle) = true) ->
  let accepted :=
    latticeVersion = currentVersion
    /\ (CliRules.truthy expectedStack = true
        -> expectedStack = Some (CliRules.text "expo-eas"))
    /\ RegExp.test CliRules.semver policyVersion = true in
  match CliRules.verifyRules rulesContent currentVersion expectedStack with
  | CliRules.Verified_ok latticeVersion' stack' policyVersion' configHash' =>
      latticeVersion' = latticeVersion /\ stack' = CliRules.text "expo-eas"
      /\ policyVersion' = policyVersion /\ configHash' = configHash /\ accepted
  | CliRules.Verified_error _ => ~ accepted
  end.
Proof.
  intros Hexec Hhash Hinc accepted. subst accepted. unfold CliRules.verifyRules.
  rewrite Hexec.
  destruct (text_eqb latticeVersion currentVersion) eqn:Ev; cbn [negb];
    [apply text_eqb_eq in Ev |
     intros [Hv _]; apply text_eqb_eq in Hv; congruence].
  assert (Hstack : CliRules.truthy expectedStack
                   && negb (text_eqb (CliRules.text "expo-eas") (CliRules.shown expectedStack))
                   = true
                   <-> ~ (CliRules.truthy expectedStack = true
                          -> expectedStack = Some (CliRules.text "expo-eas"))).
  { destruct expectedStack as [[| c t] |]; cbn [CliRules.truthy CliRules.shown andb].
    - split; [discriminate | intros H; exfalso; apply H; discriminate].
    - rewrite negb_true_iff.
      destruct (text_eqb (CliRules.text "expo-eas") (c :: t)) eqn:Es.
      + apply text_eqb_eq in Es. rewrite <- Es. split; [discriminate |].
        intros H. exfalso. apply H. reflexivity.
      + split; [| reflexivity]. intros _ H. specialize (H eq_refl).
        assert (Hct : c :: t = CliRules.text "expo-eas") by congruence.
        rewrite Hct in Es. vm_compute in Es. discriminate Es.
    - split; [discriminate | intros H; exfalso; apply H; discriminate]. }
  destruct (CliRules.truthy expectedStack
            && negb (text_eqb (CliRules.text "expo-eas") (CliRules.shown expectedStack)))
    eqn:Es.
  { intros [_ [Hs _]]. exact (proj1 Hstack eq_refl Hs). }
  assert (Hs : CliRules.truthy expectedStack = true
               -> expectedStack = Some (CliRules.text "expo-eas")).
  { intros Ht. destruct expectedStack as [[| c t] |]; try discriminate.
    cbn [CliRules.truthy CliRules.shown andb] in Es. apply negb_false_iff in Es.
    apply text_eqb_eq in Es. now rewrite Es. }
  change (text_eqb (CliRules.text "expo-eas") (CliRules.text "nextjs")) with false.
  change (text_eqb (CliRules.text "expo-eas") (CliRules.text "expo-eas")) with true.
  cbn [negb andb].
  destruct (RegExp.test CliRules.semver policyVersion) eqn:Ep; cbn [negb];
    [| intros [_ [_ Hp]]; discriminate].
  rewrite Hhash. cbn [negb].
  assert (Hsec : filter (fun section =>
                           negb (includes rulesContent
                                          (CliRules.text ("## " ++ section)%string)))
                        CliRules.requiredSections = []).
  { apply filter_none. intros section Hin. apply negb_false_iff. apply Hinc.
    unfold expo_sections. apply in_or_app. left.
    now apply (in_map (fun section => ("## " ++ section)%string)). }
  rewrite Hsec.
  rewrite !Hinc by (unfold expo_sections; apply in_or_app; right; cbn [In]; tauto).
  cbn [negb orb]. tauto.
Qed.

Lemma one_line_dot (s : string) :
  one_line s = true -> Forall (fun c => RegExp.dot c = true) (text_of_string s).
Proof.
  apply string_forallb_text. intros c Hc.
  apply andb_true_iff in Hc. destruct Hc as [Hc H13].
  apply andb_true_iff in Hc. destruct Hc as [H128 H10].
  apply N.ltb_lt in H128. apply negb_true_iff, N.eqb_neq in H10, H13.
  unfold RegExp.dot, code_unit. apply negb_true_iff.
  repeat match goal with
         | |- context [(?a =? ?b)%Z] => destruct (Z.eqb_spec a b); [lia |]
         end.
  reflexivity.
Qed.

Lemma hex_one_line (s : string) : string_forallb is_hex_lower s = true -> one_line s = true.
Proof.
  apply string_forallb_impl. intros c Hc. unfold is_hex_lower in Hc.
  apply orb_true_iff in Hc.
  destruct Hc as [Hc | Hc]; apply andb_true_iff in Hc; destruct Hc as [H1 H2];
    apply N.leb_le in H1, H2;
    rewrite !andb_true_iff, !negb_true_iff, N.ltb_lt, !N.eqb_neq; lia.
Qed.

Lemma one_line_no_CR (s : string) : one_line s = true -> ascii_no_CR s = true.
Proof.
  apply string_forallb_impl. intros c Hc.
  rewrite !andb_true_iff in *. tauto.
Qed.

(** The rules of the Expo plugin: the header, then a text that has what
    [verifyRules] looks for. *)
Lemma expo_rules_text (latticeVersion policyVersion configHash : string) :
  exists rest,
    text_of_string (ExpoEas.cursorRules latticeVersion policyVersion configHash)
    = versioning_header (text_of_string latticeVersion) (CliRules.text "expo-eas")
                        (text_of_string policyVersion) (text_of_string configHash)
      ++ rest
    /\ forall needle, In needle expo_sections -> includes rest (CliRules.text needle) = true.
Proof.
  exists (skipn (List.length (versioning_header [] (CliRules.text "expo-eas") [] []))
                (text_of_string (ExpoEas.cursorRules EmptyString EmptyString EmptyString))).
  split.
  - unfold ExpoEas.cursorRules. rewrite !text_of_string_app.
    unfold versioning_header. rewrite <- !app_assoc. reflexivity.
  - intros needle Hin.
    assert (Hall : forallb (fun needle =>
                     includes
                       (skipn (List.length (versioning_header [] (CliRules.text "expo-eas")
                                                              [] []))
                              (text_of_string (ExpoEas.cursorRules EmptyString EmptyString
                                                                   EmptyString)))
                       (CliRules.text needle)) expo_sections = true)
      by (vm_compute; reflexivity).
    exact (proj1 (forallb_forall _ _) Hall needle Hin).
Qed.

Lemma expo_rules_ascii (latticeVersion policyVersion configHash : string) :
  one_line latticeVersion = true -> one_line policyVersion = true ->
  one_line configHash = true ->
  ascii_no_CR (ExpoEas.cursorRules latticeVersion policyVersion configHash) = true.
Proof.
  intros Hv Hp Hh. apply one_line_no_CR in Hv, Hp, Hh.
  unfold ascii_no_CR in *. unfold ExpoEas.cursorRules.
  rewrite !string_forallb_app, Hv, Hp, Hh. vm_compute. reflexivity.
Qed.

Lemma nextjs_rules_no_header :
  RegExp.exec CliRules.header
    (Buffer_toString (Renderer.normalizeLineEndings (Buffer_of NextJs.cursorRules)))
  = None.
Proof. vm_compute. reflexivity. Qed.

(** X20.  The rules of an Expo pack pass [verifyRules].  With the Expo plugin
    alone registered and a config of its project type, an installation
    version and a policy version of ASCII characters on one line: the
    file .cursor/rules.md that [render] returns, read back as [verifyRules]
    reads it, has a header from which [verifyRules] gets the version of the
    installation, the stack expo-eas, the version of the policy and the
    config hash of the manifest; [verifyRules] accepts the file exactly when
    the current version is that of the installation that rendered it, the
    --stack flag is absent, empty or expo-eas, and the policy version is
    three runs of digits between dots; otherwise it throws. *)
Theorem expo_rules_pass_verifyRules (localeCompare : string -> string -> comparison)
    (latticeVersion : string) (config : Config.ProjectConfig) (policy : Policy.Policy) :
  dict_get config "projectType" = Some "expo-eas"%string ->
  one_line latticeVersion = true ->
  one_line (Policy.version policy) = true ->
  exists result bytes,
    Renderer.render localeCompare (expo_registry latticeVersion) config policy None = Ok result
    /\ dict_get (Renderer.files result) ".cursor/rules.md" = Some bytes
    /\ forall (currentVersion : Text) (expectedStack : option Text),
         let accepted :=
           text_of_string latticeVersion = currentVersion
           /\ (CliRules.truthy expectedStack = true
               -> expectedStack = Some (CliRules.text "expo-eas"))
           /\ RegExp.test CliRules.semver (text_of_string (Policy.version policy)) = true in
         match CliRules.verifyRules (Buffer_toString bytes) currentVersion expectedStack with
         | CliRules.Verified_ok latticeVersion' stack' policyVersion' configHash' =>
             latticeVersion' = text_of_string latticeVersion
             /\ stack' = CliRules.text "expo-eas"
             /\ policyVersion' = text_of_string (Policy.version policy)
             /\ configHash' = text_of_string (Types.configHash (Renderer.manifest result))
             /\ accepted
         | CliRules.Verified_error _ => ~ accepted
         end.
Proof.
  intros Hp Hv Hpv.
  destruct (@expo_render localeCompare latticeVersion config policy Hp)
    as [result [Hr [_ [_ [Hget Hhash]]]]].
  exists result. eexists. split; [exact Hr |]. split.
  { rewrite Hget. unfold ExpoEas.writes. rewrite dict_get_snoc.
    assert (Hnone : dict_get ExpoEas.static_writes ".cursor/rules.md" = None)
      by (vm_compute; reflexivity).
    rewrite Hnone. reflexivity. }
  intros currentVersion expectedStack.
  assert (Hsha : is_sha256_hex (Types.configHash (Renderer.manifest result))).
  { rewrite Hhash. apply digest_hex_format. }
  pose proof (@hex_one_line _ (proj2 Hsha)) as Hh.
  rewrite ascii_rendered_read by now apply expo_rules_ascii.
  destruct (expo_rules_text latticeVersion (Policy.version policy)
                            (Types.configHash (Renderer.manifest result)))
    as [rest [-> Hinc]].
  apply verifyRules_expo.
  - apply header_exec; try now apply one_line_dot.
  - now apply sha256_hex_test.
  - intros needle Hin. apply includes_app. now apply Hinc.
Qed.

Lemma expo_rules_pass_verifyRules_witness :
  exists result bytes,
    Renderer.render Collation.localeCompare (expo_registry "0.1.0") expo_startup
                    (Policy.resolvePolicy expo_startup) None = Ok result
    /\ dict_get (Renderer.files result) ".cursor/rules.md" = Some bytes
    /\ forall (currentVersion : Text) (expectedStack : option Text),
         let accepted :=
           text_of_string "0.1.0" = currentVersion
           /\ (CliRules.truthy expectedStack = true
               -> expectedStack = Some (CliRules.text "expo-eas"))
           /\ RegExp.test CliRules.semver
                (text_of_string (Policy.version (Policy.resolvePolicy expo_startup))) = true in
         match CliRules.verifyRules (Buffer_toString bytes) currentVersion expectedStack with
         | CliRules.Verified_ok latticeVersion' stack' policyVersion' configHash' =>
             latticeVersion' = text_of_string "0.1.0"
             /\ stack' = CliRules.text "expo-eas"
             /\ policyVersion'
                = text_of_string (Policy.version (Policy.resolvePolicy expo_startup))
             /\ configHash' = text_of_string (Types.configHash (Renderer.manifest result))
             /\ accepted
         | CliRules.Verified_error _ => ~ accepted
         end.
Proof.
  apply (@expo_rules_pass_verifyRules Collation.localeCompare "0.1.0" expo_startup
           (Policy.resolvePolicy expo_startup)); reflexivity.
Defined.

(** X21.  The rules of a Next.js pack do not pass [verifyRules].  With the
    Next.js plugin alone registered, as [generate] and the harness register
    it, and a config of its project type, the file .cursor/rules.md that
    [render] returns has no versioning header: whatever the current version
    and the --stack flag, [verifyRules] throws the error of the missing
    header. *)
Theorem nextjs_rules_fail_verifyRules (localeCompare : string -> string -> comparison)
    (config : Config.ProjectConfig) (policy : Policy.Policy) :
  dict_get config "projectType" = Some "nextjs"%string ->
  exists result bytes,
    Renderer.render localeCompare nextjs_registry config policy None = Ok result
    /\ dict_get (Renderer.files result) ".cursor/rules.md" = Some bytes
    /\ forall (currentVersion : Text) (expectedStack : option Text),
         CliRules.verifyRules (Buffer_toString bytes) currentVersion expectedStack
         = CliRules.Verified_error CliRules.missing_header.
Proof.
  intros Hp.
  destruct (@nextjs_render localeCompare config policy Hp)
    as [result [Hr [_ [_ [Hget _]]]]].
  exists result, (Renderer.normalizeLineEndings (Buffer_of NextJs.cursorRules)).
  split; [exact Hr |]. split.
  - rewrite Hget.
    assert (Hfixed : Buffer_eqb (Renderer.normalizeLineEndings (Buffer_of NextJs.cursorRules))
                                (Buffer_of NextJs.cursorRules) = true)
      by (vm_compute; reflexivity).
    apply Buffer_eqb_eq in Hfixed. rewrite Hfixed. vm_compute. reflexivity.
  - intros currentVersion expectedStack. unfold CliRules.verifyRules.
    now rewrite nextjs_rules_no_header.
Qed.

Lemma nextjs_rules_fail_verifyRules_witness :
  exists result bytes,
    Renderer.render Collation.localeCompare nextjs_registry nextjs_startup
                    (Policy.resolvePolicy nextjs_startup) None = Ok result
    /\ dict_get (Renderer.files result) ".cursor/rules.md" = Some bytes
    /\ forall (currentVersion : Text) (expectedStack : option Text),
         CliRules.verifyRules (Buffer_toString bytes) currentVersion expectedStack
         = CliRules.Verified_error CliRules.missing_header.
Proof.
  apply (@nextjs_rules_fail_verifyRules Collation.localeCompare nextjs_startup
           (Policy.resolvePolicy nextjs_startup)); reflexivity.
Defined.

(** ** The pack of [generate] *)

Lemma typed_projectType (config : Config.ProjectConfig) :
  Config.is_ProjectConfig config = true ->
  dict_get config "projectType" = Some "nextjs"%string
  \/ dict_get config "projectType" = Some "expo-eas"%string.
Proof.
  intros typed.
  assert (Hhas : dict_has config "projectType" = true).
  { unfold Config.is_ProjectConfig in typed. rewrite !andb_true_iff in typed.
    destruct typed as [_ Hreq]. rewrite forallb_forall in Hreq.
    apply (Hreq (hd (Config.Build_Field EmptyString [] false) Config.ProjectConfigSchema)).
    now left. }
  unfold dict_has in Hhas.
  destruct (dict_get config "projectType") as [v |] eqn:Hget; [| discriminate].
  destruct (@typed_entry config typed _ _ Hget) as [f [Hf [Hname Hv]]].
  cbn [Config.ProjectConfigSchema In] in Hf.
  repeat (destruct Hf as [<- | Hf]; [try discriminate Hname |]); [| contradiction].
  cbn [Config.values In] in Hv. destruct Hv as [<- | [<- | []]]; auto.
Qed.

Lemma nextjs_render_other (localeCompare : string -> string -> comparison)
    (config : Config.ProjectConfig) (policy : Policy.Policy) :
  dict_get config "projectType" <> Some "nextjs"%string ->
  exists result,
    Renderer.render localeCompare nextjs_registry config policy None = Ok result
    /\ Renderer.files result = []
    /\ Types.files (Renderer.manifest result) = [].
Proof.
  intros Hp.
  assert (Ha : filter (fun p => Plugin.appliesTo p config) (Plugin.getAll nextjs_registry)
               = []).
  { transitivity (if Plugin.appliesTo NextJs.NextJsPlugin config
                  then [NextJs.NextJsPlugin] else []); [reflexivity |].
    cbn [Plugin.appliesTo NextJs.NextJsPlugin].
    destruct (dict_get config "projectType") as [p |]; [| reflexivity].
    destruct (String.eqb_spec p "nextjs"); [subst; now contradiction Hp | reflexivity]. }
  unfold Renderer.render. cbv zeta. rewrite Ha.
  eexists. split; [reflexivity |]. split; reflexivity.
Qed.

(** X22.  What [generate] renders.  A --config file that the schema rejects
    is the only way to a validation error; an unreadable or invalid
    .lattice/config.json is passed over in silence and the fallback config
    (nextjs, startup) is used.  Whatever config is chosen, the render does
    not throw.  For a nextjs config the pack has the ten files of the
    Next.js plugin; for an expo-eas config, which the schema accepts, no
    registered plugin applies and the pack has no file at all. *)
Theorem generate_pack (localeCompare : string -> string -> comparison)
    (configFile defaultConfigFile : option Json) :
  match CliGenerate.generate localeCompare configFile defaultConfigFile with
  | CliGenerate.Invalid issues =>
      exists input,
        configFile = Some input
        /\ ConfigSchema.validateProjectConfig input = Zod.ZodError issues
  | CliGenerate.Rendered config pack =>
      Config.is_ProjectConfig config = true
      /\ match configFile, defaultConfigFile with
         | Some input, _ => ConfigSchema.validateProjectConfig input = Zod.Parsed_ok config
         | None, Some input =>
             match ConfigSchema.validateProjectConfig input with
             | Zod.Parsed_ok config' => config = config'
             | Zod.ZodError _ => config = nextjs_startup
             end
         | None, None => config = nextjs_startup
         end
      /\ exists result,
           pack = Ok result
           /\ (dict_get config "projectType" = Some "nextjs"%string ->
               Permutation (dict_keys (Renderer.files result))
                           ["package.json"; "tsconfig.json"; "next.config.js";
                            "eslint.config.mjs"; "app/layout.tsx"; "app/page.tsx";
                            "jest.config.js"; "jest.setup.js"; "app/page.test.tsx";
                            ".cursor/rules.md"]%string)
           /\ (dict_get config "projectType" <> Some "nextjs"%string ->
               dict_get config "projectType" = Some "expo-eas"%string
               /\ Renderer.files result = []
               /\ Types.files (Renderer.manifest result) = [])
  end.
Proof.
  assert (Hfallback : ConfigSchema.validateProjectConfig CliGenerate.fallback
                      = Zod.Parsed_ok nextjs_startup) by reflexivity.
  unfold CliGenerate.generate.
  destruct (CliGenerate.config configFile defaultConfigFile) as [config | issues] eqn:Hc.
  - assert (Hchoice : match configFile, defaultConfigFile with
                      | Some input, _ =>
                          ConfigSchema.validateProjectConfig input = Zod.Parsed_ok config
                      | None, Some input =>
                          match ConfigSchema.validateProjectConfig input with
                          | Zod.Parsed_ok config' => config = config'
                          | Zod.ZodError _ => config = nextjs_startup
                          end
                      | None, None => config = nextjs_startup
                      end).
    { unfold CliGenerate.config in Hc.
      destruct configFile as [input |]; [assumption |].
      destruct defaultConfigFile as [input |].
      - destruct (ConfigSchema.validateProjectConfig input) as [config' | issues];
          rewrite ?Hfallback in Hc; congruence.
      - rewrite Hfallback in Hc. congruence. }
    assert (typed : Config.is_ProjectConfig config = true).
    { unfold CliGenerate.config in Hc.
      destruct configFile as [input |]; [now apply (validated_typed input) |].
      destruct defaultConfigFile as [input |].
      - destruct (ConfigSchema.validateProjectConfig input) as [config' | issues] eqn:Hv.
        + injection Hc as <-. now apply (validated_typed input).
        + now apply (validated_typed CliGenerate.fallback).
      - now apply (validated_typed CliGenerate.fallback). }
    split; [assumption |]. split; [assumption |].
    change (Plugin.register Plugin.empty NextJs.NextJsPlugin) with (Ok nextjs_registry).
    cbn [bind]. cbv zeta.
    destruct (typed_projectType config typed) as [Hp | Hp].
    + destruct (@nextjs_render localeCompare config (Policy.resolvePolicy config) Hp)
        as [result [Hr [Hnd [Hfiles _]]]].
      exists result. split; [assumption |]. split; [| intros Hn; contradiction].
      intros _. rewrite Hfiles. apply render_keys.
      split; [assumption | exact (plain_keys _ nextjs_writes_plain)].
    + assert (Hn : dict_get config "projectType" <> Some "nextjs"%string)
        by (rewrite Hp; discriminate).
      destruct (@nextjs_render_other localeCompare config (Policy.resolvePolicy config) Hn)
        as [result [Hr [Hfiles Hman]]].
      exists result. split; [assumption |]. split; [intros Hp'; contradiction | auto].
  - unfold CliGenerate.config in Hc.
    destruct configFile as [input |]; [now exists input |].
    destruct defaultConfigFile as [input |].
    + destruct (ConfigSchema.validateProjectConfig input); [discriminate |].
      rewrite Hfallback in Hc. discriminate.
    + rewrite Hfallback in Hc. discriminate.
Qed.

(** ** UTF-8: encoding and decoding *)

Local Open Scope Z_scope.

Lemma lor_add (a b n : Z) :
  0 <= n -> 0 <= b < 2 ^ n -> a mod 2 ^ n = 0 -> Z.lor a b = a + b.
Proof.
  intros Hn Hb Ha.
  assert (Hland : Z.land a b = 0).
  { apply Z.bits_inj'. intros i Hi. rewrite Z.land_spec, Z.bits_0.
    destruct (Z.lt_ge_cases i n) as [Hlt | Hge].
    - rewrite <- (Z.mod_pow2_bits_low a n i) by lia. rewrite Ha, Z.bits_0. reflexivity.
    - rewrite <- (Z.mod_small b (2 ^ n)) by lia.
      rewrite Z.mod_pow2_bits_high by lia. apply andb_false_r. }
  rewrite <- (Z.lxor_lor _ _ Hland). symmetry. now apply Z.add_nocarry_lxor.
Qed.

Lemma shiftl_lor (u b : Z) :
  Z.lor (Z.shiftl u 6) (Z.land b 0x3F) = u * 64 + b mod 64.
Proof.
  change 0x3F with (Z.ones 6). rewrite Z.land_ones by lia.
  rewrite Z.shiftl_mul_pow2 by lia. change (2 ^ 6) with 64.
  apply (@lor_add (u * 64) (b mod 64) 6); [lia | |].
  - change (2 ^ 6) with 64. apply Z.mod_pos_bound. lia.
  - change (2 ^ 6) with 64. apply Z.mod_mul. lia.
Qed.

(** The bytes of the encoder, in arithmetic. *)
Lemma utf8_encode_cp_bytes (cp : Z) :
  0 <= cp <= 0x10FFFF ->
  utf8_encode_cp cp
  = if cp <? 0x80 then [cp]
    else if cp <? 0x800 then [192 + cp / 64; 128 + cp mod 64]
    else if (0xD800 <=? cp) && (cp <=? 0xDFFF) then [0xEF; 0xBF; 0xBD]
    else if cp <? 0x10000 then
      [224 + cp / 4096; 128 + (cp / 64) mod 64; 128 + cp mod 64]
    else [240 + cp / 262144; 128 + (cp / 4096) mod 64; 128 + (cp / 64) mod 64;
          128 + cp mod 64].
Proof.
  intros Hcp. unfold utf8_encode_cp.
  change 0x3F with (Z.ones 6). rewrite !Z.land_ones by lia.
  rewrite !Z.shiftr_div_pow2 by lia.
  change (2 ^ 6) with 64. change (2 ^ 12) with 4096. change (2 ^ 18) with 262144.
  assert (H64 : forall x, Z.lor 0x80 (x mod 64) = 128 + x mod 64).
  { intros x. apply (@lor_add 0x80 (x mod 64) 6); [lia | | reflexivity].
    change (2 ^ 6) with 64. apply Z.mod_pos_bound. lia. }
  rewrite !H64.
  destruct (Z.ltb_spec cp 0x80); [reflexivity |].
  destruct (Z.ltb_spec cp 0x800).
  { rewrite (@lor_add 0xC0 (cp / 64) 6); [reflexivity | lia | | reflexivity].
    change (2 ^ 6) with 64. Z.div_mod_to_equations. lia. }
  destruct ((0xD800 <=? cp) && (cp <=? 0xDFFF)); [reflexivity |].
  destruct (Z.ltb_spec cp 0x10000).
  { rewrite (@lor_add 0xE0 (cp / 4096) 5); [reflexivity | lia | | reflexivity].
    change (2 ^ 5) with 32. Z.div_mod_to_equations. lia. }
  rewrite (@lor_add 0xF0 (cp / 262144) 4); [reflexivity | lia | | reflexivity].
  change (2 ^ 4) with 16. Z.div_mod_to_equations. lia.
Qed.

Ltac bool_arith :=
  repeat match goal with
         | H : (_ && _)%bool = true |- _ => apply andb_true_iff in H; destruct H
         | H : (_ && _)%bool = false |- _ => apply andb_false_iff in H; destruct H
         | H : (_ <=? _) = true |- _ => apply Z.leb_le in H
         | H : (_ <=? _) = false |- _ => apply Z.leb_gt in H
         | H : (_ <? _) = true |- _ => apply Z.ltb_lt in H
         | H : (_ <? _) = false |- _ => apply Z.ltb_ge in H
         | H : (_ =? _) = true |- _ => apply Z.eqb_eq in H
         | H : (_ =? _) = false |- _ => apply Z.eqb_neq in H
         end.

Ltac arith := Z.div_mod_to_equations; lia.

(** Take the branch of the first conditional that the arithmetic allows. *)
Ltac decide_if :=
  match goal with
  | |- context [if ?c then _ else _] =>
      let E := fresh "E" in
      destruct c eqn:E; bool_arith; try (exfalso; arith)
  end.

Lemma land_1F (b : Z) : Z.land b 0x1F = b mod 32.
Proof. change 0x1F with (Z.ones 5). now rewrite Z.land_ones by lia. Qed.

Lemma land_F (b : Z) : Z.land b 0xF = b mod 16.
Proof. change 0xF with (Z.ones 4). now rewrite Z.land_ones by lia. Qed.

Lemma land_7 (b : Z) : Z.land b 0x7 = b mod 8.
Proof. change 0x7 with (Z.ones 3). now rewrite Z.land_ones by lia. Qed.

(** *** The steps of the decoder *)

Lemma decode_between (st : Utf8State) (b : Z) (rest : Buffer) :
  u_needed st = 0 ->
  utf8_decode st (b :: rest) = snd (utf8_lead b) ++ utf8_decode (fst (utf8_lead b)) rest.
Proof.
  intros H. cbn [utf8_decode]. rewrite H. change (0 =? 0) with true. cbv iota.
  now destruct (utf8_lead b).
Qed.

Lemma decode_continue (st : Utf8State) (b : Z) (rest : Buffer) :
  u_needed st <> 0 -> u_lower st <= b <= u_upper st ->
  utf8_decode st (b :: rest)
  = if u_seen st + 1 =? u_needed st
    then (u_cp st * 64 + b mod 64) :: utf8_decode utf8_init rest
    else utf8_decode {| u_cp := u_cp st * 64 + b mod 64; u_seen := u_seen st + 1;
                        u_needed := u_needed st; u_lower := 0x80; u_upper := 0xBF |} rest.
Proof.
  intros Hn [Hl Hu]. cbn [utf8_decode].
  destruct (Z.eqb_spec (u_needed st) 0); [contradiction |].
  destruct (Z.leb_spec (u_lower st) b); [| lia].
  destruct (Z.leb_spec b (u_upper st)); [| lia].
  cbn [andb]. now rewrite shiftl_lor.
Qed.

Lemma decode_break (st : Utf8State) (b : Z) (rest : Buffer) :
  u_needed st <> 0 -> ~ u_lower st <= b <= u_upper st ->
  utf8_decode st (b :: rest)
  = 0xFFFD :: snd (utf8_lead b) ++ utf8_decode (fst (utf8_lead b)) rest.
Proof.
  intros Hn Hb. cbn [utf8_decode].
  destruct (Z.eqb_spec (u_needed st) 0); [contradiction |].
  destruct (Z.leb_spec (u_lower st) b); destruct (Z.leb_spec b (u_upper st));
    cbn [andb]; try lia; now destruct (utf8_lead b).
Qed.

Lemma lead_ascii (b : Z) : 0 <= b <= 0x7F -> utf8_lead b = (utf8_init, [b]).
Proof. intros H. unfold utf8_lead. now repeat decide_if. Qed.

Lemma lead_two (b : Z) :
  0xC2 <= b <= 0xDF ->
  utf8_lead b = ({| u_cp := b mod 32; u_seen := 0; u_needed := 1;
                    u_lower := 0x80; u_upper := 0xBF |}, []).
Proof. intros H. unfold utf8_lead. rewrite land_1F. now repeat decide_if. Qed.

Lemma lead_three (b : Z) :
  0xE0 <= b <= 0xEF ->
  utf8_lead b = ({| u_cp := b mod 16; u_seen := 0; u_needed := 2;
                    u_lower := if b =? 0xE0 then 0xA0 else 0x80;
                    u_upper := if b =? 0xED then 0x9F else 0xBF |}, []).
Proof.
  intros H. unfold utf8_lead. rewrite land_F.
  destruct ((0 <=? b) && (b <=? 0x7F)) eqn:E1; bool_arith; try lia;
    destruct ((0xC2 <=? b) && (b <=? 0xDF)) eqn:E2; bool_arith; try lia;
    destruct ((0xE0 <=? b) && (b <=? 0xEF)) eqn:E3; bool_arith; try lia; reflexivity.
Qed.

Lemma lead_four (b : Z) :
  0xF0 <= b <= 0xF4 ->
  utf8_lead b = ({| u_cp := b mod 8; u_seen := 0; u_needed := 3;
                    u_lower := if b =? 0xF0 then 0x90 else 0x80;
                    u_upper := if b =? 0xF4 then 0x8F else 0xBF |}, []).
Proof.
  intros H. unfold utf8_lead. rewrite land_7.
  destruct ((0 <=? b) && (b <=? 0x7F)) eqn:E1; bool_arith; try lia;
    destruct ((0xC2 <=? b) && (b <=? 0xDF)) eqn:E2; bool_arith; try lia;
    destruct ((0xE0 <=? b) && (b <=? 0xEF)) eqn:E3; bool_arith; try lia;
    destruct ((0xF0 <=? b) && (b <=? 0xF4)) eqn:E4; bool_arith; try lia; reflexivity.
Qed.

Lemma lead_other (b : Z) :
  ~ 0 <= b <= 0x7F -> ~ 0xC2 <= b <= 0xF4 -> utf8_lead b = (utf8_init, [0xFFFD]).
Proof.
  intros H1 H2. unfold utf8_lead.
  destruct ((0 <=? b) && (b <=? 0x7F)) eqn:E1; bool_arith; try lia;
    destruct ((0xC2 <=? b) && (b <=? 0xDF)) eqn:E2; bool_arith; try lia;
    destruct ((0xE0 <=? b) && (b <=? 0xEF)) eqn:E3; bool_arith; try lia;
    destruct ((0xF0 <=? b) && (b <=? 0xF4)) eqn:E4; bool_arith; try lia; reflexivity.
Qed.

(** Decoding what the encoder wrote for a scalar value gives it back. *)
Lemma utf8_decode_encode_cp (cp : Z) (rest : Buffer) :
  is_scalar cp ->
  utf8_decode utf8_init (utf8_encode_cp cp ++ rest) = cp :: utf8_decode utf8_init rest.
Proof.
  intros [Hrange Hsur]. rewrite utf8_encode_cp_bytes by assumption.
  destruct (Z.ltb_spec cp 0x80);
    [| destruct (Z.ltb_spec cp 0x800);
       [| destruct ((0xD800 <=? cp) && (cp <=? 0xDFFF)) eqn:Es;
          [bool_arith; lia | destruct (Z.ltb_spec cp 0x10000)]]];
    cbn [app]; rewrite decode_between by reflexivity.
  - rewrite lead_ascii by lia. reflexivity.
  - rewrite lead_two by arith. cbn [fst snd app].
    rewrite decode_continue by (cbn [u_needed u_lower u_upper]; arith).
    cbn [u_needed u_seen u_cp]. change (0 + 1 =? 1) with true. cbv iota.
    f_equal. arith.
  - rewrite lead_three by arith. cbn [fst snd app].
    rewrite decode_continue
      by (cbn [u_needed u_lower u_upper]; try lia; repeat decide_if; arith).
    cbn [u_needed u_seen u_cp]. change (0 + 1 =? 2) with false. cbv iota.
    rewrite decode_continue by (cbn [u_needed u_lower u_upper]; arith).
    cbn [u_needed u_seen u_cp]. change (0 + 1 + 1 =? 2) with true. cbv iota.
    f_equal. arith.
  - rewrite lead_four by arith. cbn [fst snd app].
    rewrite decode_continue
      by (cbn [u_needed u_lower u_upper]; try lia; repeat decide_if; arith).
    cbn [u_needed u_seen u_cp]. change (0 + 1 =? 3) with false. cbv iota.
    rewrite decode_continue by (cbn [u_needed u_lower u_upper]; arith).
    cbn [u_needed u_seen u_cp]. change (0 + 1 + 1 =? 3) with false. cbv iota.
    rewrite decode_continue by (cbn [u_needed u_lower u_upper]; arith).
    cbn [u_needed u_seen u_cp]. change (0 + 1 + 1 + 1 =? 3) with true. cbv iota.
    f_equal. arith.
Qed.

Lemma utf8_decode_encode (text : Text) :
  Forall is_scalar text -> Buffer_toString (Buffer_from text) = text.
Proof.
  unfold Buffer_toString, Buffer_from.
  induction 1 as [| cp text Hcp _ IH]; [reflexivity |].
  cbn [flat_map]. rewrite utf8_decode_encode_cp by assumption. now rewrite IH.
Qed.

Lemma scalar_replacement : is_scalar 0xFFFD.
Proof. unfold is_scalar. lia. Qed.

Lemma utf8_init_ok : utf8_state_ok utf8_init.
Proof. left. reflexivity. Qed.

Lemma utf8_lead_ok (b : Z) :
  utf8_state_ok (fst (utf8_lead b)) /\ Forall is_scalar (snd (utf8_lead b)).
Proof.
  destruct (Z.lt_ge_cases b 0) as [Hneg | Hpos];
    [rewrite lead_other by lia;
     split; [apply utf8_init_ok | repeat constructor; apply scalar_replacement] |].
  destruct (Z.le_gt_cases b 0x7F).
  { rewrite lead_ascii by lia. split; [apply utf8_init_ok |].
    repeat constructor; unfold is_scalar; lia. }
  destruct (Z.lt_ge_cases b 0xC2).
  { rewrite lead_other by lia.
    split; [apply utf8_init_ok | repeat constructor; apply scalar_replacement]. }
  destruct (Z.le_gt_cases b 0xDF).
  { rewrite lead_two by lia. split; [| constructor].
    right; left. cbn [fst u_needed u_seen u_cp u_lower u_upper]. repeat split; arith. }
  destruct (Z.le_gt_cases b 0xEF).
  { rewrite lead_three by lia. split; [| constructor].
    right; right; left. cbn [fst u_needed u_seen u_cp u_lower u_upper].
    repeat split; try arith; repeat decide_if; reflexivity. }
  destruct (Z.le_gt_cases b 0xF4).
  { rewrite lead_four by lia. split; [| constructor].
    do 4 right; left. cbn [fst u_needed u_seen u_cp u_lower u_upper].
    repeat split; try arith; repeat decide_if; reflexivity. }
  rewrite lead_other by lia.
  split; [apply utf8_init_ok | repeat constructor; apply scalar_replacement].
Qed.

(** Whatever the bytes, the decoder writes scalar values only. *)
Lemma utf8_decode_scalar (bs : Buffer) :
  forall st, utf8_state_ok st -> Forall is_scalar (utf8_decode st bs).
Proof.
  induction bs as [| b rest IH]; intros st Hok.
  { cbn [utf8_decode].
    destruct (u_needed st =? 0); [constructor | constructor; [| constructor]].
    apply scalar_replacement. }
  destruct (Z.eq_dec (u_needed st) 0) as [H0 | Hn].
  { rewrite decode_between by assumption. destruct (utf8_lead_ok b) as [Hst Hout].
    apply Forall_app. split; [assumption | now apply IH]. }
  destruct (Z.le_gt_cases (u_lower st) b) as [Hl | Hl];
    [destruct (Z.le_gt_cases b (u_upper st)) as [Hu | Hu] |].
  2, 3: rewrite decode_break by lia; destruct (utf8_lead_ok b) as [Hst Hout];
    constructor; [apply scalar_replacement |];
    apply Forall_app; split; [assumption | now apply IH].
  rewrite decode_continue by (try assumption; lia).
  unfold utf8_state_ok in Hok. cbv zeta in Hok.
  destruct Hok as [H | [H | [H | [H | [H | [H | H]]]]]]; [contradiction | | | | | |];
    repeat match type of H with
           | _ /\ _ => let H1 := fresh "H" in destruct H as [H1 H]
           end;
    repeat match goal with
           | Hx : u_needed st = _ |- _ => rewrite Hx in *; clear Hx
           | Hx : u_seen st = _ |- _ => rewrite Hx in *; clear Hx
           | Hx : u_lower st = _ |- _ => rewrite Hx in *; clear Hx
           | Hx : u_upper st = _ |- _ => rewrite Hx in *; clear Hx
           end;
    repeat match goal with
           | Hx : context [if ?c then _ else _] |- _ =>
               let E := fresh "E" in destruct c eqn:E; bool_arith
           end;
    match goal with
    | |- context [if ?c then _ else _] =>
        let E := fresh "E" in destruct c eqn:E; bool_arith; try lia
    end;
    first [ constructor; [unfold is_scalar; arith | apply IH; apply utf8_init_ok]
          | apply IH; unfold utf8_state_ok; cbv zeta;
            cbn [u_needed u_seen u_cp u_lower u_upper];
            first [ do 3 right; left; repeat split; arith
                  | do 5 right; left; repeat split; arith
                  | do 6 right; repeat split; arith ] ].
Qed.

Lemma lf_only_Forall_length (P : Z -> Prop) (n : nat) :
  P 10 ->
  forall text, (List.length text <= n)%nat -> Forall P text -> Forall P (lf_only text).
Proof.
  intros Hlf. induction n as [| n IH]; intros text Hlen Hall.
  - destruct text; [constructor | simpl in Hlen; lia].
  - destruct text as [| c rest]; [constructor |].
    inversion Hall as [| ? ? Hc Hrest]; subst. simpl in Hlen.
    simpl. destruct (c =? 13).
    + constructor; [assumption |].
      destruct rest as [| d rest']; [constructor |].
      inversion Hrest; subst. simpl in Hlen.
      destruct (d =? 10); apply IH; simpl; try lia; assumption.
    + constructor; [assumption |]. apply IH; [lia | assumption].
Qed.

Lemma normalized_text (content : Buffer) :
  let text := lf_only (Buffer_toString content) in
  Renderer.normalizeLineEndings content = Buffer_from text
  /\ Forall is_scalar text /\ ~ In 13 text.
Proof.
  cbv zeta. unfold Renderer.normalizeLineEndings. rewrite replace_cr_crlf.
  split; [reflexivity |]. split.
  - apply (@lf_only_Forall_length is_scalar (List.length (Buffer_toString content)));
      [unfold is_scalar; lia | lia |].
    apply utf8_decode_scalar, utf8_init_ok.
  - rewrite <- replace_cr_crlf. apply replace_cr_no_CR.
Qed.

(** X23.  [normalizeLineEndings] is idempotent, and the codec under it is
    exact.  Normalizing the line endings of a normalized buffer changes
    nothing, whatever the bytes of the original, valid UTF-8 or not.  The
    decoder writes scalar values only (a byte that is not part of a
    well-formed sequence becomes U+FFFD); decoding the encoding of scalar
    values gives them back; so the encoding of a text without carriage
    return is a buffer that [normalizeLineEndings] leaves as it is. *)
Theorem normalizeLineEndings_idempotent :
  (forall content,
     Renderer.normalizeLineEndings (Renderer.normalizeLineEndings content)
     = Renderer.normalizeLineEndings content)
  /\ (forall content, Forall is_scalar (Buffer_toString content))
  /\ (forall text, Forall is_scalar text -> Buffer_toString (Buffer_from text) = text)
  /\ (forall text, Forall is_scalar text -> ~ In 13 text ->
                   Renderer.normalizeLineEndings (Buffer_from text) = Buffer_from text).
Proof.
  assert (Hfixed : forall text, Forall is_scalar text -> ~ In 13 text ->
                     Renderer.normalizeLineEndings (Buffer_from text) = Buffer_from text).
  { intros text Hs Hcr. unfold Renderer.normalizeLineEndings.
    rewrite replace_cr_crlf, utf8_decode_encode by assumption.
    now rewrite lf_only_no_CR. }
  split; [| split; [| split]].
  - intros content. destruct (normalized_text content) as [-> [Hs Hcr]].
    now apply Hfixed.
  - intros content. apply utf8_decode_scalar, utf8_init_ok.
  - apply utf8_decode_encode.
  - exact Hfixed.
Qed.
